(** * ResolveVectors: line-of-sight velocities to vector velocities

    A shallow embedding of [resolvedvelocities/ResolveVectors.py].

    Numbers are the binary64 floats of NumPy, here Rocq's primitive floats,
    so NaN, the infinities, signed zeros and rounding are those of the
    program.  Arrays are lists (one axis) and lists of rows (two axes).  A
    Python exception is a value of [exn]; a function that can raise returns a
    [result].

    Two library routines are fixed to one order of operations, which NumPy
    leaves to its kernels: an einsum accumulates its products from zero, left
    to right, and [np.linalg.inv] is Gauss-Jordan elimination with partial
    pivoting.  The apexpy object is a record of functions of one point. *)

From Stdlib Require Import Floats List ZArith Bool Lia PeanoNat.
Import ListNotations.

Set Warnings "-inexact-float".

(** ** Exceptions *)

Inductive exn : Set := IndexError | ValueError | TypeError | LinAlgError.

Inductive result (A : Type) : Type :=
| Ok (a : A)
| Raise (e : exn).

Arguments Ok {A} a.
Arguments Raise {A} e.

Definition bind {A B : Type} (r : result A) (k : A -> result B) : result B :=
  match r with
  | Ok a => k a
  | Raise e => Raise e
  end.

Notation "x <- c ;; k" := (bind c (fun x => k))
  (at level 61, c at next level, right associativity).
Notation "' p <- c ;; k" := (bind c (fun x => match x with p => k end))
  (at level 61, p pattern, c at next level, right associativity).

(** [try: body except LinAlgError: handler] *)
Definition try_except_LinAlgError {A : Type} (body handler : result A) : result A :=
  match body with
  | Raise LinAlgError => handler
  | other => other
  end.

Definition is_ok {A : Type} (r : result A) : bool :=
  match r with Ok _ => true | Raise _ => false end.

(** ** The NumPy operations the program uses *)

Module Np.

Definition vec := list float.
Definition mat := list (list float).

Definition isnan (x : float) : bool := is_nan x.
Definition isfinite (x : float) : bool := is_finite x.

(** [np.full(n, v)] and [np.full((r, c), v)] *)
Definition full (n : nat) (v : float) : vec := repeat v n.
Definition full2 (r c : nat) (v : float) : mat := repeat (repeat v c) r.

(** [a[mask]] for a boolean [mask]: IndexError unless the lengths agree. *)
Fixpoint compress {A : Type} (mask : list bool) (a : list A) : list A :=
  match mask, a with
  | b :: mask', x :: a' => if b then x :: compress mask' a' else compress mask' a'
  | _, _ => []
  end.

Definition getitem_mask {A : Type} (a : list A) (mask : list bool) : result (list A) :=
  if length a =? length mask then Ok (compress mask a) else Raise IndexError.

(** accumulation of an einsum or [np.sum]: from zero, left to right *)
Definition fsum (l : list float) : float := fold_left PrimFloat.add l 0%float.

Fixpoint zip_with {A B C : Type} (f : A -> B -> C) (a : list A) (b : list B) : list C :=
  match a, b with
  | x :: a', y :: b' => f x y :: zip_with f a' b'
  | _, _ => []
  end.

(** [np.diagflat(v)] *)
Definition diagflat (v : vec) : mat :=
  map (fun i => map (fun j => if i =? j then nth i v 0%float else 0%float)
                    (seq 0 (length v)))
      (seq 0 (length v)).

(** elementwise [M + N] of two arrays of one shape *)
Definition madd (M N : mat) : mat := zip_with (zip_with PrimFloat.add) M N.

(** *** [np.linalg.inv]

    LAPACK's solver (LU with partial pivoting against the identity) is
    modelled by Gauss-Jordan elimination with partial pivoting on the
    augmented rows [M | I].  A pivot column that is exactly zero is LAPACK's
    [info > 0], which NumPy turns into [LinAlgError]; so is an array that is
    not square. *)

Definition augment (M : mat) : list vec :=
  let n := length M in
  zip_with (fun i r => r ++ map (fun j => if i =? j then 1%float else 0%float) (seq 0 n))
           (seq 0 n) M.

(** index of the row whose entry in column [c] is largest in magnitude *)
Fixpoint argmax_abs (c : nat) (rows : list vec) (i best : nat) (bestv : float) : nat :=
  match rows with
  | [] => best
  | r :: rs =>
      let v := abs (nth c r 0%float) in
      if (bestv <? v)%float then argmax_abs c rs (S i) i v
      else argmax_abs c rs (S i) best bestv
  end.

Definition gj_step (c : nat) (st : list vec * list vec) : result (list vec * list vec) :=
  let '(done, todo) := st in
  match todo with
  | [] => Raise LinAlgError
  | r0 :: rs =>
      let k := argmax_abs c rs 1 0 (abs (nth c r0 0%float)) in
      let piv := nth k todo r0 in
      let rest := firstn k todo ++ skipn (S k) todo in
      let p := nth c piv 0%float in
      if (p =? 0)%float then Raise LinAlgError
      else
        let prow := map (fun x => (x / p)%float) piv in
        let elim (r : vec) :=
          zip_with (fun x y => (x - nth c r 0 * y)%float) r prow in
        Ok (map elim done ++ [prow], map elim rest)
  end.

Definition gauss_jordan (n : nat) (rows : list vec) : result (list vec * list vec) :=
  fold_left (fun acc c => st <- acc ;; gj_step c st) (seq 0 n) (Ok ([], rows)).

Definition inv (M : mat) : result mat :=
  let n := length M in
  if forallb (fun r => length r =? n) M then
    st <- gauss_jordan n (augment M) ;;
    Ok (map (skipn n) (fst st))
  else Raise LinAlgError.

(** *** The einsum calls of [vvels] *)

(** [np.einsum('jk,kl,ml->jm', A, S, B)] *)
Definition einsum_jk_kl_ml (A S B : mat) : mat :=
  map (fun Aj =>
         map (fun Bm =>
                fsum (flat_map (fun '(ajk, Sk) =>
                                  map (fun '(skl, bml) => (ajk * skl * bml)%float)
                                      (combine Sk Bm))
                               (combine Aj S)))
             B)
      A.

(** [np.einsum('jk,lk,lm,m->j', S, A, I, v)] *)
Definition einsum_jk_lk_lm_m (S A I : mat) (v : vec) : vec :=
  map (fun Sj =>
         fsum (flat_map (fun '(k, sjk) =>
                           flat_map (fun '(Al, Il) =>
                                       map (fun '(ilm, vm) =>
                                              (sjk * nth k Al 0 * ilm * vm)%float)
                                           (combine Il v))
                                    (combine A I))
                        (combine (seq 0 (length Sj)) Sj)))
      S.

(** [np.einsum('kj,kl,lm->jm', A, W, B)]; [p] is the second axis of [A]
    and [B], which an array with no rows still carries in its shape. *)
Definition einsum_kj_kl_lm (p : nat) (A W B : mat) : mat :=
  map (fun j =>
         map (fun m =>
                fsum (flat_map (fun '(Ak, Wk) =>
                                  map (fun '(wkl, Bl) =>
                                         (nth j Ak 0 * wkl * nth m Bl 0)%float)
                                      (combine Wk B))
                               (combine A W)))
             (seq 0 p))
      (seq 0 p).

End Np.

Import Np.

(** ** [vvels]: the Heinselman and Nicolls reconstruction *)

(** The body of the [try] block: posterior mean and covariance. *)
Definition vvels_try (vlos dvlos : vec) (A : mat) (SigmaE SigmaV : mat)
  : result (vec * mat) :=
  I <- inv (madd (einsum_jk_kl_ml A SigmaV A) SigmaE) ;;
  let V := einsum_jk_lk_lm_m SigmaV A I vlos in
  iSigmaE <- inv SigmaE ;;
  iSigmaV <- inv SigmaV ;;
  SigV <- inv (madd (einsum_kj_kl_lm (length SigmaV) A iSigmaE A) iSigmaV) ;;
  Ok (V, SigV).

Definition nan3 : vec := full 3 nan.
Definition nan33 : mat := full2 3 3 nan.

Definition vvels (vlos dvlos : vec) (A : mat) (cov : vec) (minnumpoints : Z)
  : result (vec * mat) :=
  (* remove nan data points *)
  let finite := map isfinite vlos in
  let vlos' := compress finite vlos in
  dvlos' <- getitem_mask dvlos finite ;;
  A' <- getitem_mask A finite ;;
  let SigmaE := diagflat (map (fun d => (d * d)%float) dvlos') in
  let SigmaV := diagflat cov in
  VS <- try_except_LinAlgError
          ((* the first einsum refuses a second axis of [A], which [A[finite]]
              keeps, that differs from the axes of [SigmaV]; an axis of
              length 1, which einsum would broadcast instead, is not
              modelled and is excluded wherever this branch is used *)
           if forallb (fun r => length r =? length cov) A
           then vvels_try vlos' dvlos' A' SigmaE SigmaV
           else Raise ValueError)
          (Ok (nan3, nan33)) ;;
  (* if there are too few points for a valid reconstruction, set output to NAN *)
  if (Z.of_nat (length (filter (fun b => b) finite)) <? minnumpoints)%Z
  then Ok (nan3, nan33)
  else Ok VS.

(** ** [lin_interp]: piecewise linear interpolation with errors *)

Module Interp.

(** [np.fmin] and [np.fmax] on two floats: a NaN operand is ignored. *)
Definition fmin (a b : float) : float :=
  if (a <=? b)%float || isnan b then a else b.
Definition fmax (a b : float) : float :=
  if (b <=? a)%float || isnan b then a else b.

(** [np.nanmin], [np.nanmax]: ValueError on an array of size zero. *)
Definition nanmin (xp : vec) : result float :=
  match xp with
  | [] => Raise ValueError
  | x0 :: rest => Ok (fold_left fmin rest x0)
  end.
Definition nanmax (xp : vec) : result float :=
  match xp with
  | [] => Raise ValueError
  | x0 :: rest => Ok (fold_left fmax rest x0)
  end.

(** [a[i]] for a Python integer [i]: a negative index counts from the end. *)
Definition getitem {A : Type} (a : list A) (i : Z) : result A :=
  let n := Z.of_nat (length a) in
  let j := if (i <? 0)%Z then (i + n)%Z else i in
  if ((0 <=? j) && (j <? n))%Z then
    match nth_error a (Z.to_nat j) with
    | Some x => Ok x
    | None => Raise IndexError
    end
  else Raise IndexError.

(** [np.argwhere(mask).flatten()[0]] *)
Fixpoint first_true (mask : list bool) (i : Z) : result Z :=
  match mask with
  | [] => Raise IndexError
  | b :: mask' => if b then Ok i else first_true mask' (i + 1)%Z
  end.

(** [(xi >= xp[:-1]) & (xi < xp[1:])] *)
Definition brackets (xi : float) (xp : vec) : list bool :=
  zip_with (fun lo hi => (lo <=? xi)%float && (xi <? hi)%float)
           (removelast xp) (tl xp).

(** one element of the index array [i]: the bracket of [xi], or -1 *)
Definition bound_index (xi : float) (xp : vec) : result Z :=
  lo <- nanmin xp ;;
  hi <- nanmax xp ;;
  if (lo <=? xi)%float && (xi <? hi)%float
  then first_true (brackets xi xp) 0%Z
  else Ok (-1)%Z.

Fixpoint mapM {A B : Type} (f : A -> result B) (l : list A) : result (list B) :=
  match l with
  | [] => Ok []
  | x :: l' => y <- f x ;; ys <- mapM f l' ;; Ok (y :: ys)
  end.

Definition sq (x : float) : float := (x * x)%float.

(** value and error at one target, for its index [i]; the last two lines
    of the source replace both by NaN where [i < 0]. *)
Definition interp_point (xp fp dfp : vec) (xi : float) (i : Z)
  : result (float * float) :=
  xp_i <- getitem xp i ;;
  xp_i1 <- getitem xp (i + 1)%Z ;;
  fp_i <- getitem fp i ;;
  fp_i1 <- getitem fp (i + 1)%Z ;;
  dfp_i <- getitem dfp i ;;
  dfp_i1 <- getitem dfp (i + 1)%Z ;;
  let X := ((xi - xp_i) / (xp_i1 - xp_i))%float in
  let f := (fp_i + (fp_i1 - fp_i) * X)%float in
  let df := sqrt (sq (1 - X) * sq dfp_i + sq X * sq dfp_i1)%float in
  Ok (if (i <? 0)%Z then nan else f, if (i <? 0)%Z then nan else df).

Definition lin_interp (x xp fp dfp : vec) : result (vec * vec) :=
  match x with
  | [] =>
      (* [np.array([])] is a float array and cannot index [xp] *)
      Raise IndexError
  | _ =>
      i <- mapM (fun xi => bound_index xi xp) x ;;
      fdf <- mapM (fun '(xi, ii) => interp_point xp fp dfp xi ii) (combine x i) ;;
      Ok (map fst fdf, map snd fdf)
  end.

End Interp.

Import Interp.

(** ** [ion_outflow_correction] *)

Record UpB : Type := {
  upB_alt : vec;
  upB_vlos : mat;
  upB_dvlos : mat
}.

(** elementwise operation on two arrays of one axis; shapes that do not
    broadcast raise ValueError *)
Definition broadcast2 (f : float -> float -> float) (a b : vec) : result vec :=
  if length a =? length b then Ok (zip_with f a b)
  else if length a =? 1 then Ok (map (f (nth 0 a nan)) b)
  else if length b =? 1 then Ok (map (fun x => f x (nth 0 b nan)) a)
  else Raise ValueError.

(** [M[t] = row]: the row must have the shape of the one it replaces *)
Definition setitem_row (M : mat) (t : nat) (row : vec) : result mat :=
  match nth_error M t with
  | None => Raise IndexError
  | Some old =>
      if (length row =? length old) || (length row =? 1)
      then Ok (firstn t M ++
               (if length row =? length old then row
                else repeat (nth 0 row nan) (length old)) :: skipn (S t) M)
      else Raise ValueError
  end.

(** [A[:, 2]] *)
Definition column2 (A : mat) : result vec :=
  mapM (fun r => getitem r 2%Z) A.

Definition outflow_step (alt D : vec) (A : mat) (upB : UpB)
  (st : mat * mat) (t : nat) : result (mat * mat) :=
  let '(vlos, dvlos) := st in
  fp <- getitem (upB_vlos upB) (Z.of_nat t) ;;
  dfp <- getitem (upB_dvlos upB) (Z.of_nat t) ;;
  '(vion, dvion) <- lin_interp alt (upB_alt upB) fp dfp ;;
  (* LoS velocity correction to remove ion outflow *)
  vlos_t <- getitem vlos (Z.of_nat t) ;;
  A2 <- column2 A ;;
  DA <- broadcast2 PrimFloat.mul D A2 ;;
  DAv <- broadcast2 PrimFloat.mul DA vion ;;
  new_v <- broadcast2 PrimFloat.add vlos_t DAv ;;
  vlos' <- setitem_row vlos t new_v ;;
  (* corrected error in new LoS velocities *)
  dvlos_t <- getitem dvlos (Z.of_nat t) ;;
  A2' <- column2 A ;;
  D2A2 <- broadcast2 PrimFloat.mul (map sq D) (map sq A2') ;;
  D2A2dv <- broadcast2 PrimFloat.mul D2A2 (map sq dvion) ;;
  s <- broadcast2 PrimFloat.add (map sq dvlos_t) D2A2dv ;;
  dvlos' <- setitem_row dvlos t (map sqrt s) ;;
  Ok (vlos', dvlos').

Fixpoint for_each {S T : Type} (body : S -> T -> result S) (l : list T) (s : S)
  : result S :=
  match l with
  | [] => Ok s
  | t :: l' => s' <- body s t ;; for_each body l' s'
  end.

(** [upB_beamcode] is [None] when the option is absent; zero is falsy too. *)
Definition truthy_int (o : option Z) : bool :=
  match o with
  | Some b => negb (b =? 0)%Z
  | None => false
  end.

Definition ion_outflow_correction (upB_beamcode : option Z) (ntime : nat)
  (alt D : vec) (A : mat) (upB : UpB) (vlos dvlos : mat) : result (mat * mat) :=
  if truthy_int upB_beamcode
  then for_each (outflow_step alt D A upB) (seq 0 ntime) (vlos, dvlos)
  else Ok (vlos, dvlos).

(** ** [filter_data] *)

Module Filter.

(** [np.where(mask)] for a mask of one axis: a 1-tuple of index arrays,
    here its only member. *)
Fixpoint where1 (mask : list bool) (i : nat) : list nat :=
  match mask with
  | [] => []
  | b :: mask' => if b then i :: where1 mask' (S i) else where1 mask' (S i)
  end.

(** [np.where(mask)] for a mask of two axes: the pair of index arrays,
    here the list of (row, column) pairs in row-major order. *)
Fixpoint where2 (mask : list (list bool)) (r : nat) : list (nat * nat) :=
  match mask with
  | [] => []
  | row :: mask' => map (fun c => (r, c)) (where1 row 0) ++ where2 mask' (S r)
  end.

Definition set_nth {A : Type} (l : list A) (i : nat) (v : A) : list A :=
  firstn i l ++ match skipn i l with [] => [] | _ :: tl => v :: tl end.

(** [M[r, c] = v] *)
Definition setitem_entry (M : mat) (rc : nat * nat) (v : float) : result mat :=
  let '(r, c) := rc in
  match nth_error M r with
  | None => Raise IndexError
  | Some row =>
      if c <? length row then Ok (set_nth M r (set_nth row c v))
      else Raise IndexError
  end.

(** [M[I] = v] where [I] is the pair of index arrays of [np.where] on a
    mask of two axes: the entries at those (row, column) pairs. *)
Definition setitem_pairs (M : mat) (I : list (nat * nat)) (v : float) : result mat :=
  for_each (fun M' rc => setitem_entry M' rc v) I M.

(** [M[I] = v] where [I] is the 1-tuple of [np.where] on a mask of one
    axis: [M[(idx,)]] is [M[idx]], which indexes the FIRST axis of [M], so
    whole rows are assigned. *)
Definition setitem_rows (M : mat) (I : list nat) (v : float) : result mat :=
  for_each (fun M' r =>
              match nth_error M' r with
              | None => Raise IndexError
              | Some row => Ok (set_nth M' r (map (fun _ => v) row))
              end) I M.

(** elementwise operation on two arrays of two axes and one shape *)
Definition map2_mat {A : Type} (f : float -> float -> A) (M N : mat)
  : result (list (list A)) :=
  if (length M =? length N)
     && forallb (fun '(r, s) => length r =? length s) (combine M N)
  then Ok (zip_with (zip_with f) M N)
  else Raise ValueError.

(** [mask1 & mask2] *)
Definition and_mask (P Q : list (list bool)) : list (list bool) :=
  zip_with (zip_with andb) P Q.

Record Config : Type := {
  chirp : float;
  neMin : float;
  minalt : float;
  maxalt : float;
  ppp : vec
}.

Definition filter_data (cfg : Config) (vlos dvlos ne : mat) (alt : vec)
  : result (mat * mat) :=
  (* add chirp to LoS velocity *)
  let vlos := map (map (fun v => (v + chirp cfg)%float)) vlos in
  (* discard data with low density *)
  let I := where2 (map (map (fun n => (n <? neMin cfg)%float)) ne) 0 in
  vlos <- setitem_pairs vlos I nan ;;
  dvlos <- setitem_pairs dvlos I nan ;;
  (* discard data outside of altitude range *)
  let I := where1 (map (fun a => (a <? minalt cfg * 1000)%float
                                 || (maxalt cfg * 1000 <? a)%float) alt) 0 in
  vlos <- setitem_rows vlos I nan ;;
  dvlos <- setitem_rows dvlos I nan ;;
  (* discard data with "unexceptable" error *)
  p0 <- getitem (ppp cfg) 0%Z ;;
  fracerrs <- map2_mat (fun d v => (abs d / (abs v + p0))%float) dvlos vlos ;;
  let abserrs := map (map abs) dvlos in
  p1 <- getitem (ppp cfg) 1%Z ;;
  p3 <- getitem (ppp cfg) 3%Z ;;
  let I := where2 (and_mask (map (map (fun f => (p1 <? f)%float)) fracerrs)
                            (map (map (fun a => (p3 <? a)%float)) abserrs)) 0 in
  vlos <- setitem_pairs vlos I nan ;;
  dvlos <- setitem_pairs dvlos I nan ;;
  Ok (vlos, dvlos).

End Filter.

Import Filter.

(** ** [transform]: geodetic to apex *)

Module Transform.

Definition vec3 : Type := float * float * float.

(** The apexpy object, for one epoch: what its array methods compute at
    one point.  [basevectors_pt] gives (d1, d2, d3), each in (e, n, u). *)
Record Apex : Type := {
  geo2apex_pt : float -> float -> float -> float * float;
  basevectors_pt : float -> float -> float -> vec3 * vec3 * vec3;
  bvectors_Be3_pt : float -> float -> float -> float
}.

(** shape of two broadcast axes *)
Definition bdim (a b : nat) : option nat :=
  if a =? b then Some a
  else if a =? 1 then Some b
  else if b =? 1 then Some a
  else None.

Definition bget (a : vec) (i : nat) : float :=
  nth (if length a =? 1 then 0 else i) a nan.

(** the points an array method sees: its three arguments broadcast *)
Definition broadcast3 (glat glon galt : vec) : result (list vec3) :=
  match bdim (length glat) (length glon) with
  | None => Raise ValueError
  | Some n =>
      match bdim n (length galt) with
      | None => Raise ValueError
      | Some N =>
          Ok (map (fun i => (bget glat i, bget glon i, bget galt i)) (seq 0 N))
      end
  end.

(** [np.argwhere(mask).flatten()] *)
Definition argwhere (mask : list bool) : list nat := where1 mask 0.

(** [[r - i for i, r in enumerate(rs)]] *)
Fixpoint enumerate_sub (rs : list nat) (i : nat) : list nat :=
  match rs with
  | [] => []
  | r :: rs' => (r - i) :: enumerate_sub rs' (S i)
  end.

(** [np.insert(arr, idx, v)] for an integer index array [idx]: before
    position [p] of [arr], and after its end for [p = len(arr)], one copy of
    [v] for each occurrence of [p] in [idx]; an index beyond the end is an
    IndexError. *)
Fixpoint insert_from {A : Type} (p : nat) (arr : list A) (idx : list nat) (v : A)
  : list A :=
  repeat v (count_occ Nat.eq_dec idx p) ++
  match arr with
  | [] => []
  | x :: arr' => x :: insert_from (S p) arr' idx v
  end.

Definition np_insert {A : Type} (arr : list A) (idx : list nat) (v : A)
  : result (list A) :=
  match idx with
  | [] =>
      (* [np.array([])] is a float array; NumPy (1.19 and later) refuses it
         as an index *)
      Raise IndexError
  | _ =>
      if forallb (fun i => i <=? length arr) idx
      then Ok (insert_from 0 arr idx v)
      else Raise IndexError
  end.

Definition transpose3 (ke kn kz : vec) : result mat :=
  if (length ke =? length kn) && (length kn =? length kz)
  then Ok (map (fun i => [nth i ke nan; nth i kn nan; nth i kz nan])
               (seq 0 (length ke)))
  else Raise ValueError.

Definition cross (a b : vec3) : vec3 :=
  let '(a0, a1, a2) := a in
  let '(b0, b1, b2) := b in
  ((a1 * b2 - a2 * b1)%float, (a2 * b0 - a0 * b2)%float, (a0 * b1 - a1 * b0)%float).

Definition dot (k : vec) (d : vec3) : float :=
  let '(d0, d1, d2) := d in
  fsum (zip_with PrimFloat.mul k [d0; d1; d2]).

Definition nanvec3 : vec3 := (nan, nan, nan).

Record Geometry : Type := {
  lat : vec;
  lon : vec;
  alt : vec;
  ke : vec;
  kn : vec;
  kz : vec
}.

Record ApexBasis : Type := {
  mlat : vec;
  mlon : vec;
  basis_d1 : list vec3;
  basis_d2 : list vec3;
  basis_d3 : list vec3;
  A : mat;
  D : vec
}.

(** [dt.datetime.utcfromtimestamp] accepts the seconds of the years 1 to
    9999; outside them, and for NaN, it raises (ValueError here; on some
    platforms OverflowError). *)
Definition valid_timestamp (t : float) : bool :=
  (-62135596800 <=? t)%float && (t <? 253402300800)%float.

(** [make_apex epoch] is [Apex(date=...)]. *)
Definition transform (make_apex : float -> Apex) (time : list (float * float))
  (g : Geometry) : result ApexBasis :=
  (* find indices where nans will be removed and should be inserted in new arrays *)
  let replace_nans := enumerate_sub (argwhere (map isnan (alt g))) 0 in
  let glat := filter isfinite (lat g) in
  let glon := filter isfinite (lon g) in
  let galt := map (fun a => (a / 1000)%float) (filter isfinite (alt g)) in
  (* intialize apex coordinates *)
  t0 <- getitem time 0%Z ;;
  if negb (valid_timestamp (fst t0)) then Raise ValueError else
  let apex := make_apex (fst t0) in
  (* find magnetic latitude and longitude *)
  pts <- broadcast3 glat glon galt ;;
  let m := map (fun '(la, lo, al) => geo2apex_pt apex la lo al) pts in
  mlat <- np_insert (map fst m) replace_nans nan ;;
  mlon <- np_insert (map snd m) replace_nans nan ;;
  (* apex basis vectors in geodetic coordinates [e n u] *)
  pts <- broadcast3 glat glon galt ;;
  let b := map (fun '(la, lo, al) => basevectors_pt apex la lo al) pts in
  d1 <- np_insert (map (fun x => fst (fst x)) b) replace_nans nanvec3 ;;
  d2 <- np_insert (map (fun x => snd (fst x)) b) replace_nans nanvec3 ;;
  d3 <- np_insert (map snd b) replace_nans nanvec3 ;;
  (* kvec in geodetic coordinates [e n u] *)
  kvec <- transpose3 (ke g) (kn g) (kz g) ;;
  (* find components of k for e1, e2, e3 basis vectors *)
  if negb (length kvec =? length d1) then Raise ValueError else
  let A := map (fun '(k, (x1, (x2, x3))) => [dot k x1; dot k x2; dot k x3])
               (combine kvec (combine d1 (combine d2 d3))) in
  (* calculate scaling factor D, used for ion outflow correction *)
  let D := map (fun '(x1, x2) =>
                  let '(c0, c1, c2) := cross x1 x2 in
                  sqrt (sq c0 + sq c1 + sq c2)%float)
               (combine d1 d2) in
  Ok {| mlat := mlat; mlon := mlon;
        basis_d1 := d1; basis_d2 := d2; basis_d3 := d3;
        A := A; D := D |}.

End Transform.

Import Transform.

(** ** [get_integration_periods] *)

Module Integration.

(** One member of [int_idx]: an integer of [range(len(time))] when no
    integration time is set, else the array [np.array(idx)]. *)
Inductive tindex : Type :=
| Record_ (i : nat)
| Records (idx : list nat).

(** [integration_time] is [None] when the option is absent; zero is falsy
    too. *)
Definition truthy_float (o : option float) : bool :=
  match o with
  | Some T => negb (T =? 0)%float
  | None => false
  end.

(** The [for] loop, from record [i] on: [idx] and [start_time] are the
    loop's variables; the result is what the rest of the loop appends to
    [int_period] and [int_idx]. *)
Fixpoint integrate (T : float) (num_times : nat) (rest : list (float * float))
  (i : nat) (idx : list nat) (start_time : option float)
  : list (float * float) * list (list nat) :=
  match rest with
  | [] => ([], [])
  | (temp_start_time, temp_end_time) :: rest' =>
      let start_time :=
        match start_time with None => temp_start_time | Some s => s end in
      let time_diff := (temp_end_time - start_time)%float in
      let idx := idx ++ [i] in
      if (T <=? time_diff)%float || (Z.of_nat i =? Z.of_nat num_times - 1)%Z
      then
        let '(periods, idxs) := integrate T num_times rest' (S i) [] None in
        ((start_time, temp_end_time) :: periods, idx :: idxs)
      else integrate T num_times rest' (S i) idx (Some start_time)
  end.

Definition get_integration_periods (integration_time : option float)
  (time : list (float * float)) : list (float * float) * list tindex :=
  match integration_time with
  | Some T =>
      if truthy_float integration_time then
        let '(periods, idxs) := integrate T (length time) time 0 [] None in
        (periods, map Records idxs)
      else (time, map Record_ (seq 0 (length time)))
  | None => (time, map Record_ (seq 0 (length time)))
  end.

End Integration.

Import Integration.

(** ** [compute_vectors] *)

Module Vectors.

Definition of_option {A : Type} (o : option A) : result A :=
  match o with
  | Some x => Ok x
  | None => Raise IndexError
  end.

(** [M[t, g]] *)
Definition getitem2 (M : mat) (t g : nat) : result float :=
  row <- of_option (nth_error M t) ;;
  of_option (nth_error row g).

(** [M[tidx, bidx[:, np.newaxis]].flatten()]: the index arrays broadcast to
    (gates of the bin) x (records of the period), flattened in row-major
    order. *)
Definition take_los (M : mat) (tidx : tindex) (bidx : list nat) : result vec :=
  match tidx with
  | Record_ t => mapM (fun g => getitem2 M t g) bidx
  | Records ts =>
      rows <- mapM (fun g => mapM (fun t => getitem2 M t g) ts) bidx ;;
      Ok (concat rows)
  end.

(** [A[bidx]] *)
Definition take_rows (A : mat) (bidx : list nat) : result mat :=
  mapM (fun g => of_option (nth_error A g)) bidx.

(** [np.repeat(rows, n, axis=0)] *)
Definition np_repeat {X : Type} (rows : list X) (n : nat) : list X :=
  flat_map (fun r => repeat r n) rows.

(** [len(tidx)] *)
Definition len (tidx : tindex) : result nat :=
  match tidx with
  | Records ts => Ok (length ts)
  | Record_ _ => Raise TypeError
  end.

(** what one (period, bin) cell hands to [vvels] *)
Definition cell_inputs (integration_time : option float) (vlos dvlos A : mat)
  (tidx : tindex) (bidx : list nat) : result (vec * vec * mat) :=
  (* pull out the line of slight measurements for the time period and bins *)
  v <- take_los vlos tidx bidx ;;
  dv <- take_los dvlos tidx bidx ;;
  (* pull out the k vectors for the bins and duplicate so they match the
     number of time measurements *)
  Ab <- (if truthy_float integration_time
         then rows <- take_rows A bidx ;; n <- len tidx ;; Ok (np_repeat rows n)
         else take_rows A bidx) ;;
  Ok (v, dv, Ab).

(** [np.array([[0,-1,0],[1,0,0],[0,0,0]])] *)
Definition rot : mat := [[0; -1; 0]; [1; 0; 0]; [0; 0; 0]]%float.

(** one bin of [np.einsum('i,jk->ijk', Be3, rot)] *)
Definition rotation (be3 : float) : mat :=
  map (map (fun r => (be3 * r)%float)) rot.

(** one cell of [np.einsum('ijk,...ik->...ij', R, Velocity)] *)
Definition einsum_jk_k (R : mat) (V : vec) : vec :=
  map (fun Rj => fsum (zip_with PrimFloat.mul Rj V)) R.

Definition is_shape (r c : nat) (M : mat) : bool :=
  (length M =? r) && forallb (fun row => length row =? c) M.

(** [np.einsum('ijk,...ik->...ij', R, Velocity)]: ValueError unless
    [Velocity] is (periods, bins, 3) *)
Definition electric_field (Be3 : vec) (Velocity : list (list vec))
  : result (list (list vec)) :=
  match Velocity with
  | [] => Raise ValueError
  | _ =>
      mapM (fun Vt =>
              if negb (length Vt =? 0) && is_shape (length Be3) 3 Vt
              then Ok (zip_with (fun b V => einsum_jk_k (rotation b) V) Be3 Vt)
              else Raise ValueError)
           Velocity
  end.

(** [np.einsum('ijk,...ikl,iml->...ijm', R, VelocityCovariance, R)]: at one
    cell the pattern is ['jk,kl,ml->jm'] *)
Definition electric_field_covariance (Be3 : vec)
  (VelocityCovariance : list (list mat)) : result (list (list mat)) :=
  match VelocityCovariance with
  | [] => Raise ValueError
  | _ =>
      mapM (fun St =>
              if negb (length St =? 0) && (length St =? length Be3)
                 && forallb (is_shape 3 3) St
              then Ok (zip_with (fun b S =>
                                   einsum_jk_kl_ml (rotation b) S (rotation b))
                                Be3 St)
              else Raise ValueError)
           VelocityCovariance
  end.

Record Vectors : Type := {
  Velocity : list (list vec);
  VelocityCovariance : list (list mat);
  ElectricField : list (list vec);
  ElectricFieldCovariance : list (list mat)
}.

Definition compute_vectors (apex : Apex) (integration_time : option float)
  (covar : vec) (minnumpoints : Z) (vlos dvlos A : mat)
  (int_idx : list tindex) (bin_idx : list (list nat)) (bin_mlat bin_mlon : vec)
  : result Vectors :=
  (* loop over integration periods, then over spatial bins *)
  cells <- mapM (fun tidx =>
                   mapM (fun bidx =>
                           '(v, dv, Ab) <-
                             cell_inputs integration_time vlos dvlos A tidx bidx ;;
                           vvels v dv Ab covar minnumpoints)
                        bin_idx)
                int_idx ;;
  let Velocity := map (map fst) cells in
  let VelocityCovariance := map (map snd) cells in
  (* find Be3 value at each output bin location *)
  pts <- broadcast3 bin_mlat bin_mlon [200%float] ;;
  let Be3 := map (fun '(la, lo, al) => bvectors_Be3_pt apex la lo al) pts in
  E <- electric_field Be3 Velocity ;;
  SigE <- electric_field_covariance Be3 VelocityCovariance ;;
  Ok {| Velocity := Velocity; VelocityCovariance := VelocityCovariance;
        ElectricField := E; ElectricFieldCovariance := SigE |}.

End Vectors.

Import Vectors.

(** ** Vocabulary of the statements *)

Module Spec.

(** [|x - y| <= tol], in binary64 *)
Definition close (tol x y : float) : bool := (abs (x - y) <=? tol)%float.

Definition allclose (tol : float) (a b : vec) : bool :=
  (length a =? length b) && forallb (fun '(x, y) => close tol x y) (combine a b).

Definition allclose2 (tol : float) (M N : mat) : bool :=
  (length M =? length N) && forallb (fun '(r, s) => allclose tol r s) (combine M N).

(** number of measurements with a finite LoS velocity *)
Definition count_finite (vlos : vec) : nat := length (filter isfinite vlos).

(** all k-vectors are multiples of one vector: the rank of [A] is at most 1 *)
Definition parallel_rows (A : mat) : Prop :=
  exists k : vec, forall r, In r A -> exists c : float, r = map (PrimFloat.mul c) k.

(** the shapes [vvels] is called with: one error and one k-vector per
    measurement, one prior variance per component of a k-vector *)
Definition shapes_ok (vlos dvlos : vec) (A : mat) (cov : vec) : Prop :=
  length dvlos = length vlos /\ length A = length vlos /\
  Forall (fun r => length r = length cov) A.

(** the inputs of the [try] block of [vvels]: the finite measurements *)
Definition finite_part (vlos dvlos : vec) (A : mat) : vec * vec * mat :=
  let finite := map isfinite vlos in
  (compress finite vlos, compress finite dvlos, compress finite A).

Definition eye3 : mat := [[1; 0; 0]; [0; 1; 0]; [0; 0; 1]]%float.

(** the (start, end) pair of a window [w] of record indices: start of its
    first record, end of its last *)
Definition period_of (time : list (float * float)) (w : list nat) : float * float :=
  (fst (nth (hd 0 w) time (nan, nan)), snd (nth (last w 0) time (nan, nan))).

(** end minus start, as the program computes it *)
Definition duration (p : float * float) : float := (snd p - fst p)%float.

(** [P] holds of every member but the last *)
Fixpoint all_but_last {X : Type} (P : X -> Prop) (l : list X) : Prop :=
  match l with
  | [] => True
  | x :: l' =>
      match l' with
      | [] => True
      | _ :: _ => P x /\ all_but_last P l'
      end
  end.

(** the windows are non-empty runs of consecutive indices, each starting
    where the one before stopped, the first at [a] *)
Fixpoint runs_from (a : nat) (ws : list (list nat)) : Prop :=
  match ws with
  | [] => True
  | w :: ws' => w <> [] /\ w = seq a (length w) /\ runs_from (a + length w) ws'
  end.

(** [xi] lies outside the closed range [[min(xp), max(xp)]] of a non-empty
    altitude sequence (a NaN target lies outside every range) *)
Definition out_of_range (xi : float) (xp : vec) : bool :=
  match nanmin xp, nanmax xp with
  | Ok lo, Ok hi => negb ((lo <=? xi)%float && (xi <=? hi)%float)
  | _, _ => false
  end.

(** each member is less than the next *)
Fixpoint increasing (xp : vec) : Prop :=
  match xp with
  | [] => True
  | a :: xp' =>
      match xp' with
      | [] => True
      | b :: _ => (a <? b)%float = true /\ increasing xp'
      end
  end.

(** every row has [n] entries *)
Definition rows_of (n : nat) (M : mat) : Prop := Forall (fun r => length r = n) M.

(** [row] is NaN at every gate whose altitude is out of the range of [xp] *)
Definition nan_out_of_range (alt xp row : vec) : Prop :=
  forall g ag, nth_error alt g = Some ag -> out_of_range ag xp = true ->
               nth_error row g = Some nan.

(** a zero of either sign *)
Definition is_zero (x : float) : bool := (x =? 0)%float.

(** the same, on the specification of binary64 *)
Definition zero_like (x : float) : Prop := exists s, Prim2SF x = S754_zero s.

(** the same float, up to the sign of a zero *)
Definition same_value (x y : float) : Prop :=
  x = y \/ (is_zero x = true /\ is_zero y = true).

(** [M^T] for an array of two axes *)
Definition transpose (M : mat) : mat :=
  map (fun j => map (fun row => nth j row 0%float) M) (seq 0 (length (hd [] M))).

(** the matrix product [P . S . Q]: entry (j, m) sums [P[j,k] S[k,l] Q[l,m]]
    over k and l *)
Definition triple_product (P S Q : mat) : mat :=
  map (fun Pj =>
         map (fun m =>
                fsum (flat_map (fun '(pjk, Sk) =>
                                  map (fun '(skl, Ql) =>
                                         (pjk * skl * nth m Ql 0)%float)
                                      (combine Sk Q))
                               (combine Pj S)))
             (seq 0 (length (hd [] Q))))
      P.

(** a gate's geodetic position: (latitude, longitude, altitude) *)
Definition gate : Type := float * float * float.

Definition gates (g : Geometry) : list gate :=
  combine (combine (lat g) (lon g)) (alt g).

(** the position is missing: NaN altitude, latitude and longitude not finite *)
Definition nan_positioned (x : gate) : bool :=
  let '(la, lo, al) := x in
  isnan al && negb (isfinite la) && negb (isfinite lo).

Definition finite_positioned (x : gate) : bool :=
  let '(la, lo, al) := x in
  isfinite al && isfinite la && isfinite lo.

(** what the transform holds at a gate: [nanv] where the position is
    missing, else [f] at the gate's own position, altitude in km *)
Definition at_gate {X : Type} (nanv : X) (f : float -> float -> float -> X)
  (x : gate) : X :=
  let '(la, lo, al) := x in
  if isnan al then nanv else f la lo (al / 1000)%float.

(** the rows of [kvec] *)
Definition kvectors (g : Geometry) : mat :=
  map (fun i => [nth i (ke g) nan; nth i (kn g) nan; nth i (kz g) nan])
      (seq 0 (length (ke g))).

(** components of [k] on (d1, d2, d3), and the scale factor, at a point *)
Definition A_at (apex : Apex) (k : vec) (la lo al : float) : vec :=
  let '(x1, x2, x3) := basevectors_pt apex la lo al in
  [dot k x1; dot k x2; dot k x3].

Definition D_at (apex : Apex) (la lo al : float) : float :=
  let '(x1, x2, _) := basevectors_pt apex la lo al in
  let '(c0, c1, c2) := cross x1 x2 in
  sqrt (sq c0 + sq c1 + sq c2)%float.

(** a stand-in for the collaborator, to run [transform] on examples *)
Definition example_apex (epoch : float) : Apex :=
  {| geo2apex_pt := fun la lo al => (la + 1, lo + 2)%float;
     basevectors_pt := fun la lo al =>
                         ((la, 0, 0), (0, lo, 0), (0, 0, al))%float;
     bvectors_Be3_pt := fun _ _ _ => 1%float |}.

End Spec.

Import Spec.

(** ** Vocabulary of the further properties *)

(** no member is less than the next: a sequence that never rises *)
Fixpoint never_rising (xp : vec) : Prop :=
  match xp with
  | [] => True
  | a :: xp' =>
      match xp' with
      | [] => True
      | b :: _ => (a <? b)%float = false /\ never_rising xp'
      end
  end.

(** [xi] lies in the half-open range [[hd xp, last xp)] *)
Definition within (xi : float) (xp : vec) : bool :=
  (hd nan xp <=? xi)%float && (xi <? last xp nan)%float.

(** the corrected LoS velocity and error of one measurement: [v], [dv] the
    measurement, [d] the scale factor and [a2] the field-aligned component
    of the k-vector at its gate, [vi], [dvi] the interpolated up-B velocity *)
Definition corrected_vlos (v d a2 vi : float) : float := (v + d * a2 * vi)%float.
Definition corrected_dvlos (dv d a2 dvi : float) : float :=
  sqrt (sq dv + sq d * sq a2 * sq dvi)%float.

(** entry [g] of record [t] of an array of two axes *)
Definition entry (M : mat) (t g : nat) : float := nth g (nth t M []) nan.

(** the rows the loop writes at record [t] *)
Definition corrected_row (D A2 vion row : vec) : vec :=
  zip_with PrimFloat.add row (zip_with PrimFloat.mul (zip_with PrimFloat.mul D A2) vion).
Definition corrected_error_row (D A2 dvion row : vec) : vec :=
  map sqrt (zip_with PrimFloat.add (map sq row)
              (zip_with PrimFloat.mul
                 (zip_with PrimFloat.mul (map sq D) (map sq A2)) (map sq dvion))).

(** the altitude test of [filter_data], and its tests on one measurement
    ([v] the LoS velocity with the chirp added, [dv] its error, [n] the
    density) *)
Definition out_of_altitude (cfg : Config) (a : float) : bool :=
  (a <? minalt cfg * 1000)%float || (maxalt cfg * 1000 <? a)%float.

Definition rejected (cfg : Config) (v dv n : float) : bool :=
  (n <? neMin cfg)%float
  || ((nth 1 (ppp cfg) nan <? abs dv / (abs v + nth 0 (ppp cfg) nan))%float
      && (nth 3 (ppp cfg) nan <? abs dv)%float).

(** the shape of an array of two axes is kept *)
Definition same_dims (M M' : mat) : Prop :=
  length M' = length M /\ forall t, length (nth t M' []) = length (nth t M []).

(** the pair of indices (t, g) is among the pairs [I] *)
Definition pair_in (t g : nat) (I : list (nat * nat)) : bool :=
  existsb (fun p => (fst p =? t) && (snd p =? g)) I.

(** no shorter run of the first records of the window [w] lasts the
    integration time [T]: the window could not have been closed earlier *)
Definition closes_first (T : float) (time : list (float * float)) (w : list nat)
  : Prop :=
  forall k, 0 < k < length w ->
            (T <=? duration (period_of time (firstn k w)))%float = false.

(** the (period [p], bin [b]) cell of an output array of [compute_vectors] *)
Definition cell {X : Type} (arr : list (list X)) (p b : nat) : option X :=
  match nth_error arr p with
  | Some row => nth_error row b
  | None => None
  end.

(** ** [bin_data]: bins of magnetic latitude *)

Module Bins.

(** the ceiling of a float as an array length: zero for a negative float,
    none for NaN and the infinities *)
Definition ceil (x : float) : option nat :=
  match Prim2SF x with
  | S754_nan | S754_infinity _ => None
  | S754_zero _ | S754_finite true _ _ => Some 0
  | S754_finite false m e =>
      Some (Z.to_nat (if (0 <=? e)%Z then Z.pos m * 2 ^ e
                      else (Z.pos m + 2 ^ (- e) - 1) / 2 ^ (- e)))
  end.

(** an array index as a float *)
Definition of_nat (i : nat) : float := of_uint63 (Uint63.of_Z (Z.of_nat i)).

(** [np.arange(start, stop, step)] on floats: [ceil((stop - start) / step)]
    values; the first two are [start] and [start + step], the others
    [start + i * delta] with [delta] the difference of the first two.  None
    where NumPy raises (a length that is NaN or infinite). *)
Definition arange (start stop step : float) : option vec :=
  match ceil ((stop - start) / step) with
  | None => None
  | Some n =>
      let next := (start + step)%float in
      let delta := (next - start)%float in
      Some (map (fun i => match i with
                          | 0 => start
                          | 1 => next
                          | _ => (start + of_nat i * delta)%float
                          end)
                (seq 0 n))
  end.

(** [np.nanmean]: the NaNs are replaced by zero, the sum is divided by the
    number of the others (NaN for none).  The sum is taken from left to
    right; [np.sum] adds arrays of eight or more entries pairwise, so that
    the last bit of the mean can differ.  No property below depends on the
    order of the additions. *)
Definition nanmean (a : vec) : float :=
  let arr := map (fun x => if isnan x then 0%float else x) a in
  let cnt := length (filter (fun x => negb (isnan x)) a) in
  (fsum arr / of_nat cnt)%float.

Record Binning : Type := {
  bin_mlat : vec;
  bin_mlon : vec;
  bin_idx : list (list nat)
}.

Definition bin_data (mlat mlon : vec) : option Binning :=
  match arange 64 68 0.25 with
  | None => None
  | Some bin_edge_mlat =>
      let bin_mlat :=
        map (fun s => (s / 2)%float)
            (zip_with PrimFloat.add (removelast bin_edge_mlat) (tl bin_edge_mlat)) in
      Some {| bin_mlat := bin_mlat;
              bin_mlon := full (length bin_mlat) (nanmean mlon);
              bin_idx :=
                map (fun i =>
                       argwhere
                         (map (fun m => (nth i bin_edge_mlat nan <=? m)%float
                                        && (m <? nth (S i) bin_edge_mlat nan)%float)
                              mlat))
                    (seq 0 (length bin_edge_mlat - 1)) |}
  end.

End Bins.

(** the edges of the latitude bins, and their centres *)
Definition bin_edges : vec :=
  [64; 64.25; 64.5; 64.75; 65; 65.25; 65.5; 65.75;
   66; 66.25; 66.5; 66.75; 67; 67.25; 67.5; 67.75]%float.

Definition bin_centres : vec :=
  [64.125; 64.375; 64.625; 64.875; 65.125; 65.375; 65.625; 65.875;
   66.125; 66.375; 66.625; 66.875; 67.125; 67.375; 67.625]%float.

(** the magnetic latitude [m] lies in bin [k]: edge k <= m < edge (k + 1) *)
Definition in_bin (k : nat) (m : float) : bool :=
  (nth k bin_edges nan <=? m)%float && (m <? nth (S k) bin_edges nan)%float.

(** each index is less than the next *)
Fixpoint ascending (l : list nat) : Prop :=
  match l with
  | [] => True
  | a :: l' =>
      match l' with
      | [] => True
      | b :: _ => a < b /\ ascending l'
      end
  end.

(** a member of [int_idx] fits the mode of [compute_vectors] and the number
    of records [nt]: a window of records when an integration time is set,
    a single record otherwise *)
Definition valid_tindex (it : option float) (nt : nat) (tidx : tindex) : Prop :=
  match tidx with
  | Record_ t => truthy_float it = false /\ t < nt
  | Records ts => truthy_float it = true /\ Forall (fun t => t < nt) ts
  end.

(** the shapes of the arrays that [compute_vectors] returns: [np] periods,
    [nb] bins *)
Definition vector_shape (np nb : nat) (arr : list (list vec)) : Prop :=
  length arr = np /\
  Forall (fun row => length row = nb /\ Forall (fun V => length V = 3) row) arr.

Definition matrix_shape (np nb : nat) (arr : list (list mat)) : Prop :=
  length arr = np /\
  Forall (fun row => length row = nb /\ Forall (fun S => is_shape 3 3 S = true) row)
         arr.

(** ** [compute_geodetic_output] *)

Module Geodetic.

(** The methods of the apexpy object that this step calls, at one point:
    [apex2geo] gives (latitude, longitude, error); [basevectors_apex] with
    [coords='apex'] gives, of its twelve vectors, (d1, d2, d3) and
    (e1, e2, e3), each in (e, n, u). *)
Record ApexOut : Type := {
  apex2geo_pt : float -> float -> float -> float * float * float;
  basevectors_apex_pt :
    float -> float -> float -> (vec3 * vec3 * vec3) * (vec3 * vec3 * vec3)
}.

(** one vector per point, as apexpy returns them: an array of shape (3, N) *)
Definition components (l : list vec3) : mat :=
  [map (fun v => fst (fst v)) l; map (fun v => snd (fst v)) l; map snd l].

(** [X.T] for an array of three axes: the axes reversed *)
Definition transpose_axes (X : list mat) : list mat :=
  let n0 := length X in
  let n1 := length (hd [] X) in
  let n2 := length (hd [] (hd [] X)) in
  map (fun i =>
         map (fun c => map (fun m => nth i (nth c (nth m X []) []) nan) (seq 0 n0))
             (seq 0 n1))
      (seq 0 n2).

(** [a[i]] along an axis that an einsum broadcasts: an axis of length one
    serves every index *)
Definition bnth {X : Type} (a : list X) (i : nat) (d : X) : X :=
  nth (if length a =? 1 then 0 else i) a d.

(** the length of an axis of an array held as a list of lists: none if the
    members differ, or if there is none *)
Definition uniform_length {X : Type} (l : list (list X)) : option nat :=
  match l with
  | [] => None
  | r :: rest =>
      if forallb (fun s => length s =? length r) rest then Some (length r) else None
  end.

(** [np.einsum('ijk,...ik->...ij', R, V)] for [R] of shape (bins, 3, 3):
    [V] must be an array (periods, bins, components) whose last two axes
    agree with, or broadcast against, the first and last of [R] *)
Definition einsum_ijk_ik (R : list mat) (V : list (list vec))
  : result (list (list vec)) :=
  match uniform_length V, uniform_length (concat V) with
  | Some nb, Some nk =>
      match bdim (length R) nb, bdim 3 nk with
      | Some ni, Some nc =>
          Ok (map (fun Vt =>
                     map (fun i =>
                            map (fun j =>
                                   fsum (map (fun k =>
                                                (nth k (nth j (bnth R i []) []) nan
                                                 * bnth (bnth Vt i []) k nan)%float)
                                             (seq 0 nc)))
                                (seq 0 3))
                         (seq 0 ni))
                  V)
      | _, _ => Raise ValueError
      end
  | _, _ => Raise ValueError
  end.

(** [np.einsum('ijk,...ikl,iml->...ijm', R, S, R)], likewise *)
Definition einsum_ijk_ikl_iml (R : list mat) (S : list (list mat))
  : result (list (list mat)) :=
  match uniform_length S, uniform_length (concat S),
        uniform_length (concat (concat S)) with
  | Some nb, Some nk, Some nl =>
      match bdim (length R) nb, bdim 3 nk, bdim nl 3 with
      | Some ni, Some nc, Some nd =>
          Ok (map (fun St =>
                     map (fun i =>
                            map (fun j =>
                                   map (fun m =>
                                          fsum (flat_map
                                                  (fun k =>
                                                     map (fun l =>
                                                            (nth k (nth j (bnth R i []) []) nan
                                                             * bnth (bnth (bnth St i []) k []) l nan
                                                             * nth l (nth m (bnth R i []) []) nan)%float)
                                                         (seq 0 nd))
                                                  (seq 0 nc)))
                                       (seq 0 3))
                                (seq 0 3))
                         (seq 0 ni))
                  S)
      | _, _, _ => Raise ValueError
      end
  | _, _, _ => Raise ValueError
  end.

(** [np.linalg.norm(x, axis=-1)] at one cell: the square root of the sum of
    the squares *)
Definition norm (x : vec) : float := sqrt (fsum (map sq x)).

Record GeodeticOutput : Type := {
  gdlat : vec;
  gdlon : vec;
  gdalt : vec;
  Velocity_gd : list (list vec);
  VelocityCovariance_gd : list (list mat);
  ElectricField_gd : list (list vec);
  ElectricFieldCovariance_gd : list (list mat);
  Vgd_mag : mat;
  Egd_mag : mat
}.

Definition compute_geodetic_output (apex : ApexOut) (bin_mlat bin_mlon : vec)
  (vectors : Vectors) : result GeodeticOutput :=
  (* for now, just calculate vectors at a set altitude *)
  let alt := 200%float in
  (* calculate bin locations in geodetic coordinates *)
  pts <- broadcast3 bin_mlat bin_mlon [alt] ;;
  let geo := map (fun '(la, lo, al) => apex2geo_pt apex la lo al) pts in
  let gdlat := map (fun x => fst (fst x)) geo in
  let gdlon := map (fun x => snd (fst x)) geo in
  (* apex basis vectors in geodetic coordinates [e n u] *)
  pts <- broadcast3 bin_mlat bin_mlon [alt] ;;
  let b := map (fun '(la, lo, al) => basevectors_apex_pt apex la lo al) pts in
  let d1 := components (map (fun x => fst (fst (fst x))) b) in
  let d2 := components (map (fun x => snd (fst (fst x))) b) in
  let d3 := components (map (fun x => snd (fst x)) b) in
  let e1 := components (map (fun x => fst (fst (snd x))) b) in
  let e2 := components (map (fun x => snd (fst (snd x))) b) in
  let e3 := components (map (fun x => snd (snd x)) b) in
  let e := transpose_axes [e1; e2; e3] in
  Velocity_gd <- einsum_ijk_ik e (Velocity vectors) ;;
  VelocityCovariance_gd <- einsum_ijk_ikl_iml e (VelocityCovariance vectors) ;;
  let d := transpose_axes [d1; d2; d3] in
  ElectricField_gd <- einsum_ijk_ik d (ElectricField vectors) ;;
  ElectricFieldCovariance_gd <-
    einsum_ijk_ikl_iml d (ElectricFieldCovariance vectors) ;;
  (* calculate vector magnitude *)
  Ok {| gdlat := gdlat; gdlon := gdlon; gdalt := full (length gdlat) alt;
        Velocity_gd := Velocity_gd;
        VelocityCovariance_gd := VelocityCovariance_gd;
        ElectricField_gd := ElectricField_gd;
        ElectricFieldCovariance_gd := ElectricFieldCovariance_gd;
        Vgd_mag := map (map norm) Velocity_gd;
        Egd_mag := map (map norm) ElectricField_gd |}.

End Geodetic.

(** the matrix whose columns are the vectors [a1], [a2], [a3] *)
Definition columns (a1 a2 a3 : vec3) : mat :=
  let '(x1, y1, z1) := a1 in
  let '(x2, y2, z2) := a2 in
  let '(x3, y3, z3) := a3 in
  [[x1; x2; x3]; [y1; y2; y3]; [z1; z2; z3]].

(** the vector [c1 a1 + c2 a2 + c3 a3], each component summed from zero *)
Definition combination (a1 a2 a3 : vec3) (c1 c2 c3 : float) : vec :=
  let '(x1, y1, z1) := a1 in
  let '(x2, y2, z2) := a2 in
  let '(x3, y3, z3) := a3 in
  [fsum [x1 * c1; x2 * c2; x3 * c3]; fsum [y1 * c1; y2 * c2; y3 * c3];
   fsum [z1 * c1; z2 * c2; z3 * c3]]%float.

(** the basis vectors at bin [i], at the altitude of the output *)
Definition basis_at (apex : Geodetic.ApexOut) (bin_mlat bin_mlon : vec) (i : nat)
  : (vec3 * vec3 * vec3) * (vec3 * vec3 * vec3) :=
  Geodetic.basevectors_apex_pt apex (nth i bin_mlat nan) (nth i bin_mlon nan) 200.

(** the product of one bin: entry [j] sums [R[j][k] * v[k]] over k *)
Definition apply_matrix (R : mat) (v : vec) : vec :=
  map (fun j => fsum (map (fun k => (nth k (nth j R []) nan * nth k v nan)%float)
                          (seq 0 3)))
      (seq 0 3).

(** the product [R S R^T] of one bin *)
Definition apply_matrix2 (R S : mat) : mat :=
  map (fun j =>
         map (fun m =>
                fsum (flat_map
                        (fun k =>
                           map (fun l =>
                                  (nth k (nth j R []) nan * nth l (nth k S []) nan
                                   * nth l (nth m R []) nan)%float)
                               (seq 0 3))
                        (seq 0 3)))
             (seq 0 3))
      (seq 0 3).

(** a float that is neither a zero nor NaN *)
Definition nonzero_number (x : spec_float) : Prop :=
  match x with
  | S754_infinity _ | S754_finite _ _ _ => True
  | _ => False
  end.

(** a diagonal that holds an exact zero, of either sign, with no NaN before
    it: [np.diagflat] of it is a matrix in which [np.linalg.inv] meets a
    pivot column that is exactly zero *)
Definition zero_on_diagonal (d : vec) : Prop :=
  exists k, k < length d /\ is_zero (nth k d nan) = true /\
            forall j, j < k -> isnan (nth j d nan) = false.

(** The rows that Gauss-Jordan elimination on [np.diagflat(d)] has still to
    reduce before the step of column [c], in the columns from [c] to [k]:
    still diagonal, with the entries of [d] before [k] and a zero at [k]. *)
Definition reduced (d : vec) (k c : nat) (todo : list vec) : Prop :=
  length todo = length d - c /\
  forall i, i < length d - c ->
    k < length (nth i todo []) /\
    forall j, c <= j <= k ->
      (j <> c + i -> zero_like (nth j (nth i todo []) 0%float)) /\
      (j = c + i -> j < k -> nth j (nth i todo []) 0%float = nth j d 0%float) /\
      (j = c + i -> j = k -> zero_like (nth j (nth i todo []) 0%float)).

(** * Properties *)

(** ** Binary64 facts *)

Module FloatFacts.

Lemma SFcompare_antisym (x y : spec_float) :
  SFcompare y x = option_map CompOpp (SFcompare x y).
Proof.
  destruct x as [sx|sx| |sx mx ex], y as [sy|sy| |sy my ey]; simpl;
    try reflexivity;
    try (destruct sx; reflexivity); try (destruct sy; reflexivity);
    try (destruct sx, sy; reflexivity).
  destruct sx, sy; simpl; try reflexivity;
    rewrite (Z.compare_antisym ex ey);
    destruct (ex ?= ey)%Z; simpl; try reflexivity;
    rewrite (Pos.compare_cont_antisym mx my Eq); simpl;
    destruct (Pos.compare_cont Eq mx my); reflexivity.
Qed.

Lemma SFcompare_refl (x : spec_float) :
  x <> S754_nan -> SFcompare x x = Some Eq.
Proof.
  destruct x as [s|s| |s m e]; simpl; intros H; try reflexivity; try congruence.
  - destruct s; reflexivity.
  - rewrite Z.compare_refl, Pos.compare_cont_refl. destruct s; reflexivity.
Qed.

Lemma ltb_leb_false (x y : float) : (x <? y)%float = true -> (y <=? x)%float = false.
Proof.
  rewrite FloatAxioms.ltb_spec, FloatAxioms.leb_spec. unfold SFltb, SFleb.
  rewrite (SFcompare_antisym (Prim2SF x) (Prim2SF y)).
  destruct (SFcompare (Prim2SF x) (Prim2SF y)) as [[]|]; simpl; congruence.
Qed.

Lemma ltb_leb (x y : float) : (x <? y)%float = true -> (x <=? y)%float = true.
Proof.
  rewrite FloatAxioms.ltb_spec, FloatAxioms.leb_spec. unfold SFltb, SFleb.
  destruct (SFcompare (Prim2SF x) (Prim2SF y)) as [[]|]; simpl; congruence.
Qed.

Lemma ltb_irrefl (x : float) : (x <? x)%float = false.
Proof.
  rewrite FloatAxioms.ltb_spec. unfold SFltb.
  destruct (Prim2SF x) eqn:E; try reflexivity;
    rewrite SFcompare_refl by congruence; reflexivity.
Qed.

Lemma ltb_not_nan_r (x y : float) : (x <? y)%float = true -> is_nan y = false.
Proof.
  unfold is_nan. rewrite FloatAxioms.ltb_spec, FloatAxioms.eqb_spec.
  unfold SFltb, SFeqb. intros H.
  destruct (Prim2SF y) eqn:E.
  1,2,4: rewrite SFcompare_refl by congruence; reflexivity.
  destruct (Prim2SF x); discriminate.
Qed.

Lemma add_nan_r (x : float) : (x + nan)%float = nan.
Proof.
  apply Prim2SF_inj. rewrite add_spec. change (Prim2SF nan) with S754_nan.
  destruct (Prim2SF x); reflexivity.
Qed.

Lemma mul_nan_r (x : float) : (x * nan)%float = nan.
Proof.
  apply Prim2SF_inj. rewrite mul_spec. change (Prim2SF nan) with S754_nan.
  destruct (Prim2SF x); reflexivity.
Qed.

(** Multiplying by one, or by minus one, is exact: the product of the
    mantissa by 2^52 is shifted back by 52 bits and nothing is rounded. *)

Lemma digits2_shift52 (m : positive) :
  digits2_pos (4503599627370496 * m) = (digits2_pos m + 52)%positive.
Proof. cbn [Pos.mul]. cbn [digits2_pos]. lia. Qed.

Lemma shr52 (m : positive) :
  SpecFloat.iter_pos shr_1 52
    (shr_record_of_loc (Z.pos (4503599627370496 * m)) loc_Exact)
  = {| shr_m := Z.pos m; shr_r := false; shr_s := false |}.
Proof. reflexivity. Qed.

Lemma round_times_one (s : bool) (m : positive) (e : Z) :
  bounded prec emax m e = true ->
  binary_round_aux prec emax s (Z.pos (m * 4503599627370496)) (e + -52) loc_Exact
  = S754_finite s m e.
Proof.
  intros Hb. unfold bounded, canonical_mantissa in Hb.
  apply andb_true_iff in Hb as [Hc He]. apply Z.eqb_eq in Hc.
  unfold binary_round_aux, shr_fexp.
  rewrite Pos.mul_comm.
  unfold Zdigits2 at 1. rewrite digits2_shift52.
  replace (Z.pos (digits2_pos m + 52) + (e + -52))%Z
    with (Z.pos (digits2_pos m) + e)%Z by lia.
  rewrite Hc.
  replace (e - (e + -52))%Z with 52%Z by lia.
  unfold shr at 1. rewrite shr52.
  cbn [shr_m loc_of_shr_record round_nearest_even].
  replace (e + -52 + 52)%Z with e by lia.
  unfold Zdigits2. rewrite Hc, Z.sub_diag.
  cbn [shr shr_record_of_loc shr_m]. rewrite He. reflexivity.
Qed.

Lemma mul_one_r (x : float) : (x * 1)%float = x.
Proof.
  apply Prim2SF_inj. rewrite mul_spec.
  pose proof (Prim2SF_valid x) as Hv.
  change (Prim2SF 1) with (S754_finite false 4503599627370496 (-52)).
  destruct (Prim2SF x) as [s|s| |s m e]; simpl in *.
  - destruct s; reflexivity.
  - destruct s; reflexivity.
  - reflexivity.
  - unfold SF64mul, SFmul. rewrite round_times_one by exact Hv.
    destruct s; reflexivity.
Qed.

Lemma mul_minus_one_r (x : float) : (x * (-1))%float = (- x)%float.
Proof.
  apply Prim2SF_inj. rewrite mul_spec, opp_spec.
  pose proof (Prim2SF_valid x) as Hv.
  change (Prim2SF (-1)) with (S754_finite true 4503599627370496 (-52)).
  destruct (Prim2SF x) as [s|s| |s m e]; simpl in *.
  - destruct s; reflexivity.
  - destruct s; reflexivity.
  - reflexivity.
  - unfold SF64mul, SFmul. rewrite round_times_one by exact Hv.
    destruct s; reflexivity.
Qed.

End FloatFacts.

Import FloatFacts.

(** ** [vvels] *)

Lemma gj_step_raise (c : nat) (st : list vec * list vec) (e : exn) :
  gj_step c st = Raise e -> e = LinAlgError.
Proof.
  destruct st as [done todo]. unfold gj_step.
  destruct todo as [|r0 rs]; [congruence|].
  match goal with |- context [if ?b then _ else _] => destruct b end; congruence.
Qed.

Lemma gj_fold_raised (l : list nat) (e : exn) :
  fold_left (fun acc c => st <- acc ;; gj_step c st) l (Raise e) = Raise e.
Proof. induction l as [|c l IH]; simpl; auto. Qed.

Lemma gj_fold_raise (l : list nat) (st : list vec * list vec) (e : exn) :
  fold_left (fun acc c => st <- acc ;; gj_step c st) l (Ok st) = Raise e ->
  e = LinAlgError.
Proof.
  revert st. induction l as [|c l IH]; simpl; intros st H; [discriminate|].
  destruct (gj_step c st) as [st'|e'] eqn:E.
  - eapply IH; eassumption.
  - rewrite gj_fold_raised in H. inversion H; subst.
    eapply gj_step_raise; eassumption.
Qed.

(** [np.linalg.inv] raises nothing but [LinAlgError]. *)
Lemma inv_raise (M : mat) (e : exn) : inv M = Raise e -> e = LinAlgError.
Proof.
  unfold inv. destruct (forallb _ M); [|congruence].
  unfold gauss_jordan.
  destruct (fold_left _ _ _) as [st|e'] eqn:E; simpl; [discriminate|].
  intros H; inversion H; subst. eapply gj_fold_raise; eassumption.
Qed.

Lemma vvels_try_raise (vlos dvlos : vec) (A SigmaE SigmaV : mat) (e : exn) :
  vvels_try vlos dvlos A SigmaE SigmaV = Raise e -> e = LinAlgError.
Proof.
  unfold vvels_try.
  repeat match goal with
         | |- bind (inv ?M) _ = Raise _ -> _ =>
             let E := fresh "E" in
             destruct (inv M) eqn:E; simpl;
             [ | intros H; inversion H; subst; eapply inv_raise; eassumption ]
         end.
  discriminate.
Qed.

Lemma count_true_map_filter (f : float -> bool) (l : vec) :
  length (filter (fun b : bool => b) (map f l)) = length (filter f l).
Proof.
  induction l as [|x l IH]; simpl; [reflexivity|].
  destruct (f x); simpl; rewrite IH; reflexivity.
Qed.

(** [vvels] as one conditional on the two per-cell failures, for inputs of
    consistent shapes: no exception leaves it. *)
Lemma vvels_shapes_ok (vlos dvlos : vec) (A : mat) (cov : vec) (minnumpoints : Z) :
  shapes_ok vlos dvlos A cov ->
  let '(v, dv, Af) := finite_part vlos dvlos A in
  vvels vlos dvlos A cov minnumpoints =
  if (Z.of_nat (count_finite vlos) <? minnumpoints)%Z then Ok (nan3, nan33)
  else match vvels_try v dv Af (diagflat (map (fun d => (d * d)%float) dv))
                       (diagflat cov) with
       | Ok VS => Ok VS
       | Raise _ => Ok (nan3, nan33)
       end.
Proof.
  intros (Hd & HA & Hc). unfold finite_part, vvels, getitem_mask, count_finite.
  rewrite !length_map, Hd, HA, Nat.eqb_refl. cbn [bind].
  rewrite count_true_map_filter.
  replace (forallb (fun r => length r =? length cov) A) with true.
  2:{ symmetry. apply forallb_forall. intros r Hr. apply Nat.eqb_eq.
      rewrite Forall_forall in Hc. apply Hc. exact Hr. }
  set (body := vvels_try _ _ _ _ _).
  destruct body as [VS|e] eqn:E; cbn [try_except_LinAlgError bind].
  - destruct (_ <? _)%Z; reflexivity.
  - subst body. apply vvels_try_raise in E. subst e. cbn [bind].
    destruct (_ <? _)%Z; reflexivity.
Qed.

(** evaluates the [try] block and the count of a [vvels_shapes_ok] instance *)
Ltac eval_vvels H :=
  unfold finite_part in H; cbv beta iota zeta in H;
  repeat match type of H with
    | context [vvels_try ?v ?dv ?A ?E ?S] =>
        let r := eval vm_compute in (vvels_try v dv A E S) in
        let Hr := fresh "Hr" in
        assert (Hr : vvels_try v dv A E S = r) by (vm_compute; reflexivity);
        rewrite Hr in H; clear Hr
    | context [Z.of_nat (count_finite ?v)] =>
        let r := eval vm_compute in (Z.of_nat (count_finite v)) in
        let Hr := fresh "Hr" in
        assert (Hr : Z.of_nat (count_finite v) = r) by (vm_compute; reflexivity);
        rewrite Hr in H; clear Hr
    end.

(** C1. For A the 3x3 identity, vlos = [1, 0, -1], dvlos = [0.1, 0.1, 0.1],
    prior covariance diag(1e6, 1e6, 1e6) and minnumpoints <= 3, [vvels]
    returns a velocity within 1e-6 of [1, 0, -1] in each component and a
    covariance within 1e-6 of diag(0.01, 0.01, 0.01) in each entry. *)
Theorem vvels_synthetic_case (minnumpoints : Z) :
  (minnumpoints <= 3)%Z ->
  exists (V : vec) (SigV : mat),
    vvels [1; 0; -1]%float [0.1; 0.1; 0.1]%float eye3 [1e6; 1e6; 1e6]%float
          minnumpoints = Ok (V, SigV)
    /\ allclose 1e-6 V [1; 0; -1]%float = true
    /\ allclose2 1e-6 SigV (diagflat [0.01; 0.01; 0.01]%float) = true.
Proof.
  intros Hm.
  assert (Hs : shapes_ok [1; 0; -1]%float [0.1; 0.1; 0.1]%float eye3
                         [1e6; 1e6; 1e6]%float).
  { repeat split. repeat constructor. }
  pose proof (vvels_shapes_ok _ _ _ _ minnumpoints Hs) as H.
  eval_vvels H.
  destruct (Z.ltb_spec 3 minnumpoints) as [Hlt|_]; [lia|].
  rewrite H. eexists. eexists. split; [reflexivity|].
  split; vm_compute; reflexivity.
Qed.

Lemma vvels_synthetic_case_witness :
  (1 <= 3)%Z /\
  exists (V : vec) (SigV : mat),
    vvels [1; 0; -1]%float [0.1; 0.1; 0.1]%float eye3 [1e6; 1e6; 1e6]%float 1
    = Ok (V, SigV)
    /\ allclose 1e-6 V [1; 0; -1]%float = true
    /\ allclose2 1e-6 SigV (diagflat [0.01; 0.01; 0.01]%float) = true.
Proof.
  split; [lia | apply (vvels_synthetic_case 1); lia].
Defined.

(** C2, as stated, fails: three parallel k-vectors (rank 1) with unit errors
    and a unit prior give the finite posterior, not NaN. *)
Lemma vvels_parallel_kvectors_finite :
  parallel_rows [[1; 0; 0]; [1; 0; 0]; [1; 0; 0]]%float /\
  vvels [1; 1; 1]%float [1; 1; 1]%float [[1; 0; 0]; [1; 0; 0]; [1; 0; 0]]%float
        [1; 1; 1]%float 1
  = Ok ([0.75; 0; 0]%float, [[0.25; 0; 0]; [0; 1; 0]; [0; 0; 1]]%float) /\
  vvels [1; 1; 1]%float [1; 1; 1]%float [[1; 0; 0]; [1; 0; 0]; [1; 0; 0]]%float
        [1; 1; 1]%float 1
  <> Ok (nan3, nan33).
Proof.
  split; [|split].
  - exists [1; 0; 0]%float. intros r Hr. exists 1%float.
    simpl in Hr. destruct Hr as [<-|[<-|[<-|[]]]]; reflexivity.
  - vm_compute. reflexivity.
  - vm_compute. discriminate.
Qed.

(** C3. When fewer measurements than [minnumpoints] have a finite LoS
    velocity, [vvels] returns NaN(3) and NaN(3x3) as a normal result, whether
    or not the matrices can be inverted. *)
Theorem vvels_too_few_points (vlos dvlos : vec) (A : mat) (cov : vec)
  (minnumpoints : Z) :
  shapes_ok vlos dvlos A cov ->
  (Z.of_nat (count_finite vlos) < minnumpoints)%Z ->
  vvels vlos dvlos A cov minnumpoints = Ok (nan3, nan33).
Proof.
  intros Hs Hlt. pose proof (vvels_shapes_ok _ _ _ _ minnumpoints Hs) as H.
  destruct (finite_part vlos dvlos A) as [[v dv] Af].
  rewrite H. apply Z.ltb_lt in Hlt. rewrite Hlt. reflexivity.
Qed.

(** two finite measurements of three, invertible matrices, four points asked *)
Lemma vvels_too_few_points_witness :
  shapes_ok [1; nan; 2]%float [1; 1; 1]%float eye3 [1; 1; 1]%float
  /\ (Z.of_nat (count_finite [1; nan; 2]%float) < 3)%Z
  /\ is_ok (vvels [1; nan; 2]%float [1; 1; 1]%float eye3 [1; 1; 1]%float 2) = true
  /\ vvels [1; nan; 2]%float [1; 1; 1]%float eye3 [1; 1; 1]%float 3
     = Ok (nan3, nan33).
Proof.
  assert (Hs : shapes_ok [1; nan; 2]%float [1; 1; 1]%float eye3 [1; 1; 1]%float).
  { repeat split. repeat constructor. }
  assert (Hc : (Z.of_nat (count_finite [1; nan; 2]%float) < 3)%Z).
  { vm_compute. reflexivity. }
  split; [exact Hs|]. split; [exact Hc|]. split; [vm_compute; reflexivity|].
  exact (vvels_too_few_points _ _ _ _ 3%Z Hs Hc).
Defined.

(** ** [filter_data] *)

(** C4 fails on the code.  Two records, two gates; gate 0 lies below
    [minalt], gate 1 is in range; densities and errors pass.  The altitude
    step assigns through [vlos[I]] with [I] the 1-tuple of gate indices, which
    selects along the first (time) axis: record 0 is nulled at both gates,
    the in-range gate 1 included, and record 1 keeps the out-of-range gate 0.
    With a single record and gate 1 out of range the same step raises
    [IndexError]. *)
Theorem filter_data_altitude_nulls_records :
  let cfg := {| chirp := 5; neMin := 1e9; minalt := 100; maxalt := 500;
                ppp := [200; 0.5; 2000; 100] |}%float in
  filter_data cfg [[10; 20]; [30; 40]]%float [[1; 1]; [1; 1]]%float
              [[1e11; 1e11]; [1e11; 1e11]]%float [50e3; 200e3]%float
  = Ok ([[nan; nan]; [35; 45]]%float, [[nan; nan]; [1; 1]]%float)
  /\
  filter_data cfg [[10; 20]]%float [[1; 1]]%float [[1e11; 1e11]]%float
              [200e3; 50e3]%float
  = Raise IndexError.
Proof. split; vm_compute; reflexivity. Qed.

(** ** [get_integration_periods] *)

Lemma skipn_cons_inv {X : Type} (d : X) (l : list X) (i : nat) (x : X) (rest : list X) :
  skipn i l = x :: rest ->
  nth i l d = x /\ skipn (S i) l = rest /\ i < length l.
Proof.
  revert l. induction i as [|i IH]; intros [|y l] H; simpl in *; try discriminate.
  - inversion H; subst. repeat split. lia.
  - destruct (IH l H) as (H1 & H2 & H3). repeat split; auto. lia.
Qed.

Lemma seq_snoc (a n : nat) : seq a n ++ [a + n] = seq a (S n).
Proof. rewrite seq_S. reflexivity. Qed.

Lemma hd_seq (a n d : nat) : 0 < n -> hd d (seq a n) = a.
Proof. destruct n; [lia|reflexivity]. Qed.

Lemma last_seq (a n d : nat) : last (seq a (S n)) d = a + n.
Proof.
  rewrite seq_S. rewrite last_last. reflexivity.
Qed.

(** The loop invariant: the open window [idx] is the run from [a] to [i],
    and [start_time] is the start of record [a] once the window is open. *)
Lemma integrate_spec (T : float) (time : list (float * float)) :
  forall (rest : list (float * float)) (i a : nat) (idx : list nat)
         (st : option float),
    skipn i time = rest ->
    a <= i ->
    idx = seq a (i - a) ->
    st = (if i =? a then None else Some (fst (nth a time (nan, nan)))) ->
    let '(ps, ws) := integrate T (length time) rest i idx st in
    ps = map (period_of time) ws /\
    (rest = [] -> ws = []) /\
    (rest <> [] -> runs_from a ws /\ concat ws = seq a (length time - a)) /\
    all_but_last (fun p => (T <=? duration p)%float = true) ps.
Proof.
  induction rest as [|[s e] rest' IH]; intros i a idx st Hrest Hai Hidx Hst.
  - simpl. repeat split; auto. congruence.
  - destruct (skipn_cons_inv (nan, nan) time i (s, e) rest' Hrest) as (Hnth & Hrest' & Hlt).
    assert (Hidx' : idx ++ [i] = seq a (S (i - a))).
    { subst idx. rewrite <- seq_snoc. do 2 f_equal. lia. }
    assert (Hstart : match st with None => s | Some x => x end
                     = fst (nth a time (nan, nan))).
    { subst st. destruct (Nat.eqb_spec i a) as [->|_]; [rewrite Hnth|]; reflexivity. }
    cbn [integrate]. rewrite Hstart, Hidx'.
    destruct ((T <=? e - fst (nth a time (nan, nan)))%float
              || (Z.of_nat i =? Z.of_nat (length time) - 1)%Z) eqn:Hc.
    + specialize (IH (S i) (S i) [] None Hrest' (le_n _)).
      rewrite Nat.sub_diag, Nat.eqb_refl in IH. specialize (IH eq_refl eq_refl).
      destruct (integrate T (length time) rest' (S i) [] None) as [ps' ws'].
      destruct IH as (Hps & Hnil & Hruns & Hdur).
      assert (Hp : (fst (nth a time (nan, nan)), e) = period_of time (seq a (S (i - a)))).
      { unfold period_of. rewrite hd_seq by lia. rewrite last_seq.
        replace (a + (i - a)) with i by lia. rewrite Hnth. reflexivity. }
      split; [|split; [|split]].
      * cbn [map]. rewrite Hps, Hp. reflexivity.
      * discriminate.
      * intros _. cbn [runs_from concat]. rewrite length_seq.
        replace (a + S (i - a)) with (S i) by lia.
        destruct rest' as [|x rest''].
        -- rewrite (Hnil eq_refl). cbn [runs_from concat]. rewrite app_nil_r.
           pose proof (length_skipn (S i) time) as Hl. rewrite Hrest' in Hl.
           simpl in Hl. repeat split; try discriminate.
           f_equal. lia.
        -- destruct Hruns as [Hr Hcat]; [discriminate|].
           repeat split; try discriminate; auto.
           rewrite Hcat.
           replace (length time - a) with (S (i - a) + (length time - S i)) by lia.
           rewrite seq_app. do 2 f_equal. lia.
      * cbn [all_but_last]. destruct ps' as [|p' ps'']; [exact I|].
        split; [|exact Hdur].
        destruct rest' as [|x rest''].
        { rewrite (Hnil eq_refl) in Hps. discriminate. }
        pose proof (length_skipn (S i) time) as Hl. rewrite Hrest' in Hl.
        simpl in Hl.
        apply orb_true_iff in Hc as [Hc|Hc]; [exact Hc|].
        apply Z.eqb_eq in Hc. lia.
    + apply orb_false_iff in Hc as [_ Hc]. apply Z.eqb_neq in Hc.
      assert (Hne : rest' <> []).
      { intros ->. pose proof (length_skipn (S i) time) as Hl.
        rewrite Hrest' in Hl. simpl in Hl. lia. }
      specialize (IH (S i) a (seq a (S (i - a)))
                     (Some (fst (nth a time (nan, nan)))) Hrest').
      assert (Hai' : a <= S i) by lia. specialize (IH Hai').
      replace (S i - a) with (S (i - a)) in IH by lia. specialize (IH eq_refl).
      destruct (Nat.eqb_spec (S i) a) as [Heq|_]; [lia|]. specialize (IH eq_refl).
      destruct (integrate T (length time) rest' (S i) (seq a (S (i - a)))
                          (Some (fst (nth a time (nan, nan))))) as [ps ws].
      destruct IH as (Hps & Hnil & Hruns & Hdur).
      split; [exact Hps|]. split; [discriminate|].
      split; [intros _; apply Hruns; exact Hne | exact Hdur].
Qed.

(** C5. With an integration time configured, the windows of
    [get_integration_periods] partition the record indices: their
    concatenation is 0, 1, ..., len(time) - 1, so every record is in exactly
    one window and none twice; the windows are non-empty runs of consecutive
    records in time order; each period is (start of its first record, end of
    its last); and every window but the last lasts at least the integration
    time. *)
Theorem integration_windows_partition (T : float) (time : list (float * float)) :
  truthy_float (Some T) = true ->
  exists ws : list (list nat),
    get_integration_periods (Some T) time
    = (map (period_of time) ws, map Records ws) /\
    concat ws = seq 0 (length time) /\
    NoDup (concat ws) /\
    runs_from 0 ws /\
    all_but_last (fun p => (T <=? duration p)%float = true)
                 (map (period_of time) ws).
Proof.
  intros HT. unfold get_integration_periods. rewrite HT.
  pose proof (integrate_spec T time time 0 0 [] None eq_refl (le_n 0) eq_refl eq_refl)
    as H.
  destruct (integrate T (length time) time 0 [] None) as [ps ws].
  destruct H as (Hps & Hnil & Hruns & Hdur).
  exists ws. subst ps. split; [reflexivity|].
  assert (Hcat : runs_from 0 ws /\ concat ws = seq 0 (length time)).
  { destruct time as [|x time'].
    - rewrite (Hnil eq_refl). split; [exact I|reflexivity].
    - destruct Hruns as [Hr Hc]; [discriminate|]. rewrite Nat.sub_0_r in Hc.
      split; assumption. }
  destruct Hcat as [Hr Hc].
  split; [exact Hc|]. split; [rewrite Hc; apply seq_NoDup|].
  split; [exact Hr|exact Hdur].
Qed.

(** five records of 30 s integrated to 60 s: windows [0,1], [2,3] and [4] *)
Lemma integration_windows_partition_witness :
  truthy_float (Some 60%float) = true /\
  exists ws : list (list nat),
    get_integration_periods (Some 60%float)
      [(0, 30); (30, 60); (60, 90); (90, 120); (120, 150)]%float
    = (map (period_of [(0, 30); (30, 60); (60, 90); (90, 120); (120, 150)]%float) ws,
       map Records ws) /\
    concat ws = seq 0 5 /\
    NoDup (concat ws) /\
    runs_from 0 ws /\
    all_but_last (fun p => (60 <=? duration p)%float = true)
      (map (period_of [(0, 30); (30, 60); (60, 90); (90, 120); (120, 150)]%float) ws).
Proof.
  split; [reflexivity|].
  apply (integration_windows_partition 60%float
           [(0, 30); (30, 60); (60, 90); (90, 120); (120, 150)]%float).
  reflexivity.
Defined.

(** ** [lin_interp] and [ion_outflow_correction] *)

Lemma mapM_ok {X Y : Type} (f : X -> result Y) (l : list X) (ys : list Y) :
  mapM f l = Ok ys ->
  length ys = length l /\
  forall j x, nth_error l j = Some x ->
              exists y, nth_error ys j = Some y /\ f x = Ok y.
Proof.
  revert ys. induction l as [|a l IH]; simpl; intros ys H.
  - inversion H; subst. split; [reflexivity|]. intros [|j] x; discriminate.
  - destruct (f a) as [y|e] eqn:Ea; simpl in H; [|discriminate].
    destruct (mapM f l) as [ys'|e] eqn:El; simpl in H; [|discriminate].
    inversion H; subst. destruct (IH ys' eq_refl) as [Hlen Hnth].
    split; [simpl; congruence|].
    intros [|j] x Hx; simpl in *.
    + inversion Hx; subst. eauto.
    + apply Hnth. exact Hx.
Qed.

Lemma mapM_all_ok {X Y : Type} (f : X -> result Y) (g : X -> Y) (l : list X) :
  (forall x, In x l -> f x = Ok (g x)) -> mapM f l = Ok (map g l).
Proof.
  induction l as [|a l IH]; simpl; intros H; [reflexivity|].
  rewrite (H a) by auto. simpl. rewrite IH by auto. reflexivity.
Qed.

Lemma mapM_exists {X Y : Type} (f : X -> result Y) (l : list X) :
  (forall x, In x l -> exists y, f x = Ok y) -> exists ys, mapM f l = Ok ys.
Proof.
  induction l as [|a l IH]; intros H; [exists []; reflexivity|].
  destruct (H a (or_introl eq_refl)) as [y Hy].
  destruct IH as [ys Hys]; [intros x Hx; apply H; right; exact Hx|].
  exists (y :: ys). simpl. rewrite Hy. simpl. rewrite Hys. reflexivity.
Qed.

Lemma getitem_ok {X : Type} (l : list X) (i : Z) :
  (- Z.of_nat (length l) <= i < Z.of_nat (length l))%Z ->
  exists x, getitem l i = Ok x.
Proof.
  intros H. unfold getitem.
  set (j := if (i <? 0)%Z then (i + Z.of_nat (length l))%Z else i).
  assert (Hj : (0 <= j < Z.of_nat (length l))%Z).
  { subst j. destruct (Z.ltb_spec i 0); lia. }
  replace ((0 <=? j)%Z && (j <? Z.of_nat (length l))%Z) with true
    by (symmetry; apply andb_true_iff; split; [apply Z.leb_le|apply Z.ltb_lt]; lia).
  destruct (nth_error l (Z.to_nat j)) as [x|] eqn:E; [eauto|].
  apply nth_error_None in E. lia.
Qed.

(** An out-of-range target gets the index -1. *)
Lemma bound_index_out_of_range (xi : float) (xp : vec) :
  out_of_range xi xp = true -> bound_index xi xp = Ok (-1)%Z.
Proof.
  unfold out_of_range, bound_index.
  destruct (nanmin xp) as [lo|]; [|discriminate].
  destruct (nanmax xp) as [hi|]; [|discriminate]. cbn [bind].
  intros H. apply negb_true_iff in H.
  destruct ((lo <=? xi)%float) eqn:Elo; [|reflexivity].
  destruct ((xi <? hi)%float) eqn:Ehi; [|reflexivity].
  apply ltb_leb in Ehi. rewrite Ehi in H. discriminate.
Qed.

(** At the index -1 both results are NaN, whatever the arrays hold. *)
Lemma interp_point_minus_one (xp fp dfp : vec) (xi : float) (r : float * float) :
  interp_point xp fp dfp xi (-1)%Z = Ok r -> r = (nan, nan).
Proof.
  unfold interp_point.
  repeat match goal with
         | |- bind (getitem ?l ?i) _ = Ok _ -> _ =>
             destruct (getitem l i); cbn [bind]; [|discriminate]
         end.
  intros H. inversion H. reflexivity.
Qed.

Lemma interp_point_minus_one_ok (xp fp dfp : vec) (xi : float) :
  xp <> [] -> fp <> [] -> dfp <> [] ->
  interp_point xp fp dfp xi (-1)%Z = Ok (nan, nan).
Proof.
  intros Hx Hf Hd.
  assert (Hget : forall l : vec, l <> [] ->
            (exists a, getitem l (-1)%Z = Ok a) /\
            (exists b, getitem l (-1 + 1)%Z = Ok b)).
  { intros l Hl. destruct l as [|a l]; [congruence|].
    split; apply getitem_ok; simpl length; lia. }
  destruct (Hget xp Hx) as [[a1 E1] [a2 E2]].
  destruct (Hget fp Hf) as [[a3 E3] [a4 E4]].
  destruct (Hget dfp Hd) as [[a5 E5] [a6 E6]].
  unfold interp_point. rewrite E1, E2, E3, E4, E5, E6. reflexivity.
Qed.

Lemma out_of_range_nonempty (xi : float) (xp : vec) :
  out_of_range xi xp = true -> xp <> [].
Proof. intros H ->. discriminate. Qed.

Lemma nth_error_combine {X Y : Type} (l : list X) (l' : list Y) (j : nat) (x : X) (y : Y) :
  nth_error l j = Some x -> nth_error l' j = Some y ->
  nth_error (combine l l') j = Some (x, y).
Proof.
  revert l l'. induction j as [|j IH]; intros [|a l] [|b l'] Hx Hy;
    simpl in *; try discriminate.
  - congruence.
  - auto.
Qed.

(** What [lin_interp] returns at a target whose index is -1. *)
Lemma lin_interp_minus_one (x xp fp dfp f df : vec) (j : nat) (xj : float) :
  lin_interp x xp fp dfp = Ok (f, df) ->
  nth_error x j = Some xj ->
  bound_index xj xp = Ok (-1)%Z ->
  nth_error f j = Some nan /\ nth_error df j = Some nan.
Proof.
  intros H Hj Hb. unfold lin_interp in H.
  destruct x as [|x0 x']; [discriminate|].
  set (x := x0 :: x') in *.
  destruct (mapM (fun xi => bound_index xi xp) x) as [i|] eqn:Ei; [|discriminate].
  cbn [bind] in H.
  destruct (mapM _ (combine x i)) as [fdf|] eqn:Ef; [|discriminate].
  cbn [bind] in H. inversion H; subst f df.
  destruct (mapM_ok _ _ _ Ei) as [Hlen Hi].
  destruct (Hi j xj Hj) as (ij & Hij & Eij).
  rewrite Hb in Eij. inversion Eij; subst ij.
  destruct (mapM_ok _ _ _ Ef) as [_ Hf].
  destruct (Hf j (xj, (-1)%Z) (nth_error_combine _ _ _ _ _ Hj Hij)) as (r & Hr & Er).
  apply interp_point_minus_one in Er. subst r.
  rewrite !nth_error_map, Hr. split; reflexivity.
Qed.

Lemma lin_interp_out_of_range (x xp fp dfp f df : vec) (j : nat) (xj : float) :
  lin_interp x xp fp dfp = Ok (f, df) ->
  nth_error x j = Some xj ->
  out_of_range xj xp = true ->
  nth_error f j = Some nan /\ nth_error df j = Some nan.
Proof.
  intros H Hj Hout. eapply lin_interp_minus_one; try eassumption.
  apply bound_index_out_of_range. exact Hout.
Qed.

(** When every target is out of range nothing is raised. *)
Lemma lin_interp_all_out_of_range (x xp fp dfp : vec) :
  x <> [] -> fp <> [] -> dfp <> [] ->
  Forall (fun xi => out_of_range xi xp = true) x ->
  lin_interp x xp fp dfp = Ok (map (fun _ => nan) x, map (fun _ => nan) x).
Proof.
  intros Hx Hf Hd Hall. unfold lin_interp.
  destruct x as [|x0 x']; [congruence|].
  set (x := x0 :: x') in *. rewrite Forall_forall in Hall.
  rewrite (mapM_all_ok _ (fun _ => (-1)%Z) x)
    by (intros xi Hin; apply bound_index_out_of_range; auto).
  cbn [bind].
  rewrite (mapM_all_ok _ (fun _ => (nan, nan)) (combine x (map (fun _ => (-1)%Z) x))).
  - cbn [bind]. rewrite !map_map.
    assert (Hc : forall (l : vec) (c : float),
               map (fun _ => c) (combine l (map (fun _ => (-1)%Z) l))
               = map (fun _ => c) l).
    { induction l as [|a l IH]; intros c; simpl; [reflexivity|]. rewrite IH. reflexivity. }
    cbn [fst snd]. rewrite !Hc. reflexivity.
  - intros [xi ii] Hin.
    assert (ii = (-1)%Z).
    { apply in_combine_r in Hin. apply in_map_iff in Hin as (? & ? & ?). congruence. }
    subst ii. apply interp_point_minus_one_ok; auto.
    apply (out_of_range_nonempty xi). apply Hall.
    apply in_combine_l in Hin. exact Hin.
Qed.

Lemma lin_interp_length (x xp fp dfp f df : vec) :
  lin_interp x xp fp dfp = Ok (f, df) -> length f = length x /\ length df = length x.
Proof.
  unfold lin_interp. destruct x as [|x0 x']; [discriminate|].
  set (x := x0 :: x').
  destruct (mapM (fun xi => bound_index xi xp) x) as [i|] eqn:Ei; [|discriminate].
  cbn [bind].
  destruct (mapM _ (combine x i)) as [fdf|] eqn:Ef; [|discriminate].
  cbn [bind]. intros H. inversion H; subst.
  destruct (mapM_ok _ _ _ Ei) as [Hlen _].
  destruct (mapM_ok _ _ _ Ef) as [Hlen' _].
  rewrite !length_map, Hlen', length_combine, Hlen, Nat.min_id. auto.
Qed.

Lemma length_zip_with {X Y W : Type} (f : X -> Y -> W) (a : list X) (b : list Y) :
  length a = length b -> length (zip_with f a b) = length a.
Proof.
  revert b. induction a as [|x a IH]; intros [|y b] H; simpl in *; try discriminate; auto.
Qed.

Lemma nth_error_zip_with {X Y W : Type} (f : X -> Y -> W) (a : list X) (b : list Y)
  (g : nat) (y : Y) :
  length a = length b -> nth_error b g = Some y ->
  exists x, nth_error a g = Some x /\ nth_error (zip_with f a b) g = Some (f x y).
Proof.
  revert a b. induction g as [|g IH]; intros [|x a] [|y' b] Hl Hy;
    simpl in *; try discriminate.
  - inversion Hy; subst. eauto.
  - apply IH; auto.
Qed.

Lemma first_true_bound (mask : list bool) (i k : Z) :
  first_true mask i = Ok k -> (i <= k < i + Z.of_nat (length mask))%Z.
Proof.
  revert i. induction mask as [|b mask IH]; intros i H; simpl in H; [discriminate|].
  cbn [length]. destruct b; [inversion H; lia|].
  apply IH in H. lia.
Qed.

Lemma length_brackets (xi : float) (xp : vec) :
  length (brackets xi xp) = length xp - 1.
Proof.
  unfold brackets. rewrite length_zip_with.
  - destruct xp as [|a xp]; [reflexivity|].
    rewrite removelast_firstn_len, length_firstn. simpl. lia.
  - destruct xp as [|a xp]; [reflexivity|].
    rewrite removelast_firstn_len, length_firstn. simpl. lia.
Qed.

(** The index of a target is -1 or the lower index of a pair of [xp]. *)
Lemma bound_index_range (xi : float) (xp : vec) (k : Z) :
  bound_index xi xp = Ok k ->
  xp <> [] /\ (k = (-1)%Z \/ (0 <= k < Z.of_nat (length xp) - 1)%Z).
Proof.
  unfold bound_index. destruct xp as [|a xp']; [discriminate|].
  cbn [nanmin nanmax bind]. intros H.
  split; [discriminate|].
  match type of H with
  | (if ?c then _ else _) = _ => destruct c
  end.
  - right. apply first_true_bound in H. rewrite length_brackets in H.
    cbn [length] in *. lia.
  - left. congruence.
Qed.

Lemma interp_point_returns (xp fp dfp : vec) (xi : float) (k : Z) :
  length fp = length xp -> length dfp = length xp -> xp <> [] ->
  k = (-1)%Z \/ (0 <= k < Z.of_nat (length xp) - 1)%Z ->
  exists r, interp_point xp fp dfp xi k = Ok r.
Proof.
  intros Hf Hd Hx Hk.
  assert (Hn : (0 < Z.of_nat (length xp))%Z) by (destruct xp; [congruence|simpl; lia]).
  assert (Hget : forall l : vec, length l = length xp ->
            (exists a, getitem l k = Ok a) /\ (exists b, getitem l (k + 1)%Z = Ok b)).
  { intros l Hl. split; apply getitem_ok; rewrite Hl; lia. }
  destruct (Hget xp eq_refl) as [[a1 E1] [a2 E2]].
  destruct (Hget fp Hf) as [[a3 E3] [a4 E4]].
  destruct (Hget dfp Hd) as [[a5 E5] [a6 E6]].
  unfold interp_point. rewrite E1, E2, E3, E4, E5, E6. cbn [bind]. eauto.
Qed.

Lemma nth_error_combine_inv {X Y : Type} (l : list X) (l' : list Y) (j : nat)
  (x : X) (y : Y) :
  nth_error (combine l l') j = Some (x, y) ->
  nth_error l j = Some x /\ nth_error l' j = Some y.
Proof.
  revert l l'. induction j as [|j IH]; intros [|a l] [|b l'] H;
    simpl in *; try discriminate.
  - inversion H; subst. auto.
  - auto.
Qed.

(** [lin_interp] raises only where the index of a target cannot be found. *)
Lemma lin_interp_returns (x xp fp dfp : vec) :
  x <> [] -> length fp = length xp -> length dfp = length xp ->
  Forall (fun xi => is_ok (bound_index xi xp) = true) x ->
  exists f df, lin_interp x xp fp dfp = Ok (f, df).
Proof.
  intros Hx Hf Hd Hall. unfold lin_interp.
  destruct x as [|x0 x']; [congruence|]. set (x := x0 :: x') in *.
  rewrite Forall_forall in Hall.
  destruct (mapM_exists (fun xi => bound_index xi xp) x) as [i Ei].
  { intros xi Hin. specialize (Hall xi Hin).
    destruct (bound_index xi xp); [eauto|discriminate]. }
  rewrite Ei. cbn [bind].
  destruct (mapM_ok _ _ _ Ei) as [_ Hi].
  destruct (mapM_exists (fun '(xi, ii) => interp_point xp fp dfp xi ii) (combine x i))
    as [fdf Ef].
  { intros [xi ii] Hin. destruct (In_nth_error _ _ Hin) as [j Hj].
    apply nth_error_combine_inv in Hj as [Hxj Hij].
    destruct (Hi j xi Hxj) as (y & Hy & Ey).
    assert (y = ii) by congruence. subst y.
    destruct (bound_index_range _ _ _ Ey) as [Hne Hk].
    apply interp_point_returns; assumption. }
  rewrite Ef. cbn [bind]. eauto.
Qed.

Lemma broadcast2_same_length (f : float -> float -> float) (a b r : vec) :
  length a = length b -> broadcast2 f a b = Ok r -> r = zip_with f a b.
Proof.
  intros Hl. unfold broadcast2. rewrite Hl, Nat.eqb_refl. congruence.
Qed.

Lemma getitem_nat {X : Type} (l : list X) (t : nat) (x : X) :
  getitem l (Z.of_nat t) = Ok x -> nth_error l t = Some x.
Proof.
  unfold getitem. destruct (Z.ltb_spec (Z.of_nat t) 0); [lia|].
  destruct (_ && _); [|discriminate]. rewrite Nat2Z.id.
  destruct (nth_error l t); congruence.
Qed.

Lemma nth_error_replace {X : Type} (M : list X) (t : nat) (old row : X) :
  nth_error M t = Some old ->
  nth_error (firstn t M ++ row :: skipn (S t) M) t = Some row /\
  forall t', t' <> t ->
             nth_error (firstn t M ++ row :: skipn (S t) M) t' = nth_error M t'.
Proof.
  revert M. induction t as [|t IH]; intros [|x M] H; simpl in *; try discriminate.
  - split; [reflexivity|]. intros [|t'] Ht; [congruence|reflexivity].
  - destruct (IH M H) as [H1 H2]. split; [exact H1|].
    intros [|t'] Ht; [reflexivity|]. simpl. apply H2. congruence.
Qed.

Lemma setitem_row_same_length (n : nat) (M M' : mat) (t : nat) (row : vec) :
  rows_of n M -> length row = n ->
  setitem_row M t row = Ok M' ->
  rows_of n M' /\ nth_error M' t = Some row /\
  forall t', t' <> t -> nth_error M' t' = nth_error M t'.
Proof.
  intros HM Hrow. unfold setitem_row.
  destruct (nth_error M t) as [old|] eqn:E; [|discriminate].
  assert (Hold : length old = n).
  { unfold rows_of in HM. rewrite Forall_forall in HM. apply HM.
    eapply nth_error_In; eassumption. }
  rewrite Hrow, Hold, Nat.eqb_refl. cbn [orb]. intros H. inversion H; subst M'.
  destruct (nth_error_replace M t old row E) as [H1 H2].
  split; [|split; assumption].
  unfold rows_of in *. apply Forall_app. split.
  - apply Forall_forall. intros r Hr. rewrite Forall_forall in HM.
    apply HM. rewrite <- (firstn_skipn t M). apply in_or_app. left. exact Hr.
  - constructor; [exact Hrow|].
    apply Forall_forall. intros r Hr. rewrite Forall_forall in HM.
    apply HM. rewrite <- (firstn_skipn (S t) M). apply in_or_app. right. exact Hr.
Qed.

Lemma zip_nan_out_of_range (f : float -> float -> float) (alt xp a b : vec) :
  (forall x, f x nan = nan) ->
  length a = length b ->
  nan_out_of_range alt xp b ->
  nan_out_of_range alt xp (zip_with f a b).
Proof.
  intros Hf Hl Hb g ag Hg Hout.
  destruct (nth_error_zip_with f a b g nan Hl (Hb g ag Hg Hout)) as (x & _ & Hz).
  rewrite Hz, Hf. reflexivity.
Qed.

Lemma map_nan_out_of_range (h : float -> float) (alt xp row : vec) :
  h nan = nan ->
  nan_out_of_range alt xp row ->
  nan_out_of_range alt xp (map h row).
Proof.
  intros Hh Hrow g ag Hg Hout.
  rewrite nth_error_map, (Hrow g ag Hg Hout). simpl. rewrite Hh. reflexivity.
Qed.

(** destructs the first call of a sequence that returned *)
Ltac bind_inv H x E :=
  match type of H with
  | bind ?c _ = Ok _ =>
      destruct c as [x|] eqn:E; cbn [bind] in H; [|discriminate H]
  end.

(** equalities between lengths of maps and zips *)
Ltac len_solve :=
  rewrite ?length_map;
  first [ congruence | rewrite length_zip_with; len_solve ].

(** One pass of the loop of [ion_outflow_correction], on arrays of one row
    length [length alt]: row [t] becomes NaN at the out-of-range gates, the
    other rows stay. *)
Lemma outflow_step_spec (alt D : vec) (A : mat) (upB : UpB)
  (v dv v' dv' : mat) (t : nat) :
  length D = length alt -> length A = length alt ->
  rows_of (length alt) v -> rows_of (length alt) dv ->
  outflow_step alt D A upB (v, dv) t = Ok (v', dv') ->
  rows_of (length alt) v' /\ rows_of (length alt) dv' /\
  (forall t', t' <> t ->
              nth_error v' t' = nth_error v t' /\ nth_error dv' t' = nth_error dv t') /\
  exists rv rdv,
    nth_error v' t = Some rv /\ nth_error dv' t = Some rdv /\
    nan_out_of_range alt (upB_alt upB) rv /\
    nan_out_of_range alt (upB_alt upB) rdv.
Proof.
  intros HD HA Hv Hdv H. unfold outflow_step in H.
  bind_inv H fp Efp. bind_inv H dfp Edfp. bind_inv H vd Evd.
  destruct vd as [vion dvion].
  destruct (lin_interp_length _ _ _ _ _ _ Evd) as [Lvion Ldvion].
  assert (Nvion : nan_out_of_range alt (upB_alt upB) vion).
  { intros g ag Hg Hout.
    exact (proj1 (lin_interp_out_of_range _ _ _ _ _ _ g ag Evd Hg Hout)). }
  assert (Ndvion : nan_out_of_range alt (upB_alt upB) dvion).
  { intros g ag Hg Hout.
    exact (proj2 (lin_interp_out_of_range _ _ _ _ _ _ g ag Evd Hg Hout)). }
  bind_inv H vlos_t Evt. apply getitem_nat in Evt.
  assert (Lvt : length vlos_t = length alt).
  { unfold rows_of in Hv. rewrite Forall_forall in Hv. apply Hv.
    eapply nth_error_In; eassumption. }
  bind_inv H A2 EA2.
  assert (LA2 : length A2 = length alt).
  { unfold column2 in EA2. apply mapM_ok in EA2 as [EA2 _]. congruence. }
  bind_inv H DA EDA. apply broadcast2_same_length in EDA; [|len_solve]. subst DA.
  bind_inv H DAv EDAv. apply broadcast2_same_length in EDAv; [|len_solve]. subst DAv.
  bind_inv H new_v Enew. apply broadcast2_same_length in Enew; [|len_solve].
  subst new_v.
  bind_inv H v1 Ev1.
  apply (setitem_row_same_length (length alt)) in Ev1; [|exact Hv|len_solve].
  destruct Ev1 as (Hv1 & Hrow1 & Hother1).
  bind_inv H dvlos_t Edt. apply getitem_nat in Edt.
  assert (Ldt : length dvlos_t = length alt).
  { unfold rows_of in Hdv. rewrite Forall_forall in Hdv. apply Hdv.
    eapply nth_error_In; eassumption. }
  bind_inv H D2A2 ED2. apply broadcast2_same_length in ED2; [|len_solve]. subst D2A2.
  bind_inv H D2A2dv ED3. apply broadcast2_same_length in ED3; [|len_solve].
  subst D2A2dv.
  bind_inv H s Es. apply broadcast2_same_length in Es; [|len_solve]. subst s.
  bind_inv H dv1 Edv1.
  apply (setitem_row_same_length (length alt)) in Edv1; [|exact Hdv|len_solve].
  destruct Edv1 as (Hdv1 & Hrow2 & Hother2).
  inversion H; subst v' dv'.
  split; [exact Hv1|]. split; [exact Hdv1|]. split.
  - intros t' Ht. split; [apply Hother1|apply Hother2]; exact Ht.
  - eexists. eexists. split; [exact Hrow1|]. split; [exact Hrow2|]. split.
    + apply zip_nan_out_of_range; [apply add_nan_r|len_solve|].
      apply zip_nan_out_of_range; [apply mul_nan_r|len_solve|exact Nvion].
    + apply map_nan_out_of_range; [reflexivity|].
      apply zip_nan_out_of_range; [apply add_nan_r|len_solve|].
      apply zip_nan_out_of_range; [apply mul_nan_r|len_solve|].
      apply map_nan_out_of_range; [reflexivity|exact Ndvion].
Qed.

Lemma outflow_loop_spec (alt D : vec) (A : mat) (upB : UpB) :
  length D = length alt -> length A = length alt ->
  forall (l : list nat) (v dv v' dv' : mat),
    NoDup l ->
    rows_of (length alt) v -> rows_of (length alt) dv ->
    for_each (outflow_step alt D A upB) l (v, dv) = Ok (v', dv') ->
    rows_of (length alt) v' /\ rows_of (length alt) dv' /\
    (forall t, ~ In t l ->
               nth_error v' t = nth_error v t /\ nth_error dv' t = nth_error dv t) /\
    (forall t, In t l ->
               exists rv rdv,
                 nth_error v' t = Some rv /\ nth_error dv' t = Some rdv /\
                 nan_out_of_range alt (upB_alt upB) rv /\
                 nan_out_of_range alt (upB_alt upB) rdv).
Proof.
  intros HD HA. induction l as [|t l IH]; intros v dv v' dv' Hnd Hv Hdv H.
  - simpl in H. inversion H; subst. repeat split; auto. intros t [].
  - cbn [for_each] in H.
    destruct (outflow_step alt D A upB (v, dv) t) as [[v1 dv1]|] eqn:E;
      cbn [bind] in H; [|discriminate].
    destruct (outflow_step_spec _ _ _ _ _ _ _ _ _ HD HA Hv Hdv E)
      as (Hv1 & Hdv1 & Hother & rv & rdv & Hrv & Hrdv & Nrv & Nrdv).
    inversion Hnd as [|? ? Hnotin Hnd']; subst.
    destruct (IH v1 dv1 v' dv' Hnd' Hv1 Hdv1 H) as (Hv' & Hdv' & Hkeep & Hnan).
    split; [exact Hv'|]. split; [exact Hdv'|]. split.
    + intros t' Ht'.
      assert (Ht1 : t' <> t) by (intros ->; apply Ht'; left; reflexivity).
      assert (Ht2 : ~ In t' l) by (intros Hin; apply Ht'; right; exact Hin).
      destruct (Hkeep t' Ht2) as [K1 K2]. destruct (Hother t' Ht1) as [O1 O2].
      split; congruence.
    + intros t' [<-|Hin].
      * destruct (Hkeep t Hnotin) as [K1 K2].
        exists rv, rdv. repeat split; try assumption; congruence.
      * apply Hnan. exact Hin.
Qed.

(** C7. A target altitude outside the range of the up-B altitudes gets NaN
    for the interpolated value and for its error.  An out-of-range target
    raises nothing: when every target is out of range [lin_interp] returns
    NaN throughout, and on arrays of one length it returns whenever the index
    of each of the other targets is found.  After [ion_outflow_correction]
    the LoS velocity and its error are NaN at every record and every gate
    whose altitude is out of range. *)
Theorem out_of_range_is_nan :
  (forall (x xp fp dfp f df : vec) (j : nat) (xj : float),
      lin_interp x xp fp dfp = Ok (f, df) ->
      nth_error x j = Some xj ->
      out_of_range xj xp = true ->
      nth_error f j = Some nan /\ nth_error df j = Some nan)
  /\
  (forall (x xp fp dfp : vec),
      x <> [] -> fp <> [] -> dfp <> [] ->
      Forall (fun xi => out_of_range xi xp = true) x ->
      lin_interp x xp fp dfp = Ok (map (fun _ => nan) x, map (fun _ => nan) x))
  /\
  (forall (x xp fp dfp : vec),
      x <> [] -> length fp = length xp -> length dfp = length xp ->
      Forall (fun xi => out_of_range xi xp = true \/
                        is_ok (bound_index xi xp) = true) x ->
      exists f df, lin_interp x xp fp dfp = Ok (f, df))
  /\
  (forall (beam : option Z) (ntime : nat) (alt D : vec) (A : mat) (upB : UpB)
          (vlos dvlos vlos' dvlos' : mat) (t g : nat) (ag : float),
      truthy_int beam = true ->
      length D = length alt -> length A = length alt ->
      rows_of (length alt) vlos -> rows_of (length alt) dvlos ->
      ion_outflow_correction beam ntime alt D A upB vlos dvlos = Ok (vlos', dvlos') ->
      t < ntime ->
      nth_error alt g = Some ag ->
      out_of_range ag (upB_alt upB) = true ->
      exists rv rdv,
        nth_error vlos' t = Some rv /\ nth_error rv g = Some nan /\
        nth_error dvlos' t = Some rdv /\ nth_error rdv g = Some nan).
Proof.
  split; [|split; [|split]].
  - intros. eapply lin_interp_out_of_range; eassumption.
  - intros. apply lin_interp_all_out_of_range; assumption.
  - intros x xp fp dfp Hx Hf Hd Hall. apply lin_interp_returns; try assumption.
    eapply Forall_impl; [|exact Hall]. cbn beta. intros xi [Hout|Hok]; [|exact Hok].
    rewrite (bound_index_out_of_range _ _ Hout). reflexivity.
  - intros beam ntime alt D A upB v dv v' dv' t g ag Hb HD HA Hv Hdv H Ht Hg Hout.
    unfold ion_outflow_correction in H. rewrite Hb in H.
    destruct (outflow_loop_spec alt D A upB HD HA (seq 0 ntime) v dv v' dv'
                (seq_NoDup ntime 0) Hv Hdv H) as (_ & _ & _ & Hnan).
    destruct (Hnan t) as (rv & rdv & Hrv & Hrdv & Nrv & Nrdv).
    { apply in_seq. lia. }
    exists rv, rdv.
    split; [exact Hrv|]. split; [exact (Nrv g ag Hg Hout)|].
    split; [exact Hrdv|exact (Nrdv g ag Hg Hout)].
Qed.

(** up-B altitudes 100, 200, 300; gates at 50, 150 and 400: the first and
    the last are out of range *)
Lemma out_of_range_is_nan_witness :
  let xp := [100; 200; 300]%float in
  let upB := {| upB_alt := xp; upB_vlos := [[1; 2; 3]]%float;
                upB_dvlos := [[0.1; 0.1; 0.1]]%float |} in
  let alt := [50; 150; 400]%float in
  let A := [[0; 0; 1]; [0; 0; 1]; [0; 0; 1]]%float in
  (out_of_range 400 xp = true /\
   lin_interp alt xp [1; 2; 3]%float [0.1; 0.1; 0.1]%float
   = Ok ([nan; 1.5; nan]%float, [nan; 0.070710678118654766; nan]%float) /\
   nth_error [nan; 1.5; nan]%float 2 = Some nan /\
   nth_error [nan; 0.070710678118654766; nan]%float 2 = Some nan)
  /\
  (Forall (fun xi => out_of_range xi xp = true) [50; 400]%float /\
   lin_interp [50; 400]%float xp [1; 2; 3]%float [0.1; 0.1; 0.1]%float
   = Ok ([nan; nan], [nan; nan]))
  /\
  (Forall (fun xi => out_of_range xi xp = true \/
                     is_ok (bound_index xi xp) = true) alt /\
   exists f df, lin_interp alt xp [1; 2; 3]%float [0.1; 0.1; 0.1]%float = Ok (f, df))
  /\
  (ion_outflow_correction (Some 64157%Z) 1 alt [1; 1; 1]%float A upB
                          [[10; 20; 30]]%float [[1; 1; 1]]%float
   = Ok ([[nan; 21.5; nan]]%float, [[nan; 1.0024968827881711; nan]]%float) /\
   exists rv rdv,
     nth_error [[nan; 21.5; nan]]%float 0 = Some rv /\ nth_error rv 2 = Some nan /\
     nth_error [[nan; 1.0024968827881711; nan]]%float 0 = Some rdv /\
     nth_error rdv 2 = Some nan).
Proof.
  intros xp upB alt A.
  destruct out_of_range_is_nan as (H1 & H2 & H2' & H3).
  assert (Hout : out_of_range 400 xp = true) by (vm_compute; reflexivity).
  assert (Hli : lin_interp alt xp [1; 2; 3]%float [0.1; 0.1; 0.1]%float
                = Ok ([nan; 1.5; nan]%float, [nan; 0.070710678118654766; nan]%float))
    by (vm_compute; reflexivity).
  assert (Hall : Forall (fun xi => out_of_range xi xp = true) [50; 400]%float)
    by (repeat constructor).
  assert (Hio : ion_outflow_correction (Some 64157%Z) 1 alt [1; 1; 1]%float A upB
                  [[10; 20; 30]]%float [[1; 1; 1]]%float
                = Ok ([[nan; 21.5; nan]]%float, [[nan; 1.0024968827881711; nan]]%float))
    by (vm_compute; reflexivity).
  assert (Hmix : Forall (fun xi => out_of_range xi xp = true \/
                                   is_ok (bound_index xi xp) = true) alt).
  { repeat constructor; first [left; reflexivity | right; reflexivity]. }
  split; [|split; [|split]].
  - split; [exact Hout|]. split; [exact Hli|].
    exact (H1 alt xp _ _ _ _ 2 400%float Hli eq_refl Hout).
  - split; [exact Hall|].
    apply (H2 [50; 400]%float xp [1; 2; 3]%float [0.1; 0.1; 0.1]%float);
      try discriminate. exact Hall.
  - split; [exact Hmix|].
    apply (H2' alt xp [1; 2; 3]%float [0.1; 0.1; 0.1]%float);
      try reflexivity; try discriminate. exact Hmix.
  - split; [exact Hio|].
    apply (H3 (Some 64157%Z) 1 alt [1; 1; 1]%float A upB
              [[10; 20; 30]]%float [[1; 1; 1]]%float _ _ 0 2 400%float);
      try reflexivity; try exact Hio; try exact Hout; try lia;
      repeat constructor.
Defined.

(** *** The upper end of the interpolation range *)

Lemma SFcompare_lt_trans (x y z : spec_float) :
  SFcompare x y = Some Lt -> SFcompare y z = Some Lt -> SFcompare x z = Some Lt.
Proof.
  destruct x as [sx|sx| |sx mx ex], y as [sy|sy| |sy my ey], z as [sz|sz| |sz mz ez];
    simpl; try discriminate;
    try (destruct sx; try discriminate); try (destruct sy; try discriminate);
    try (destruct sz; try discriminate); try reflexivity; try congruence;
    change (Pos.compare_cont Eq) with Pos.compare;
    destruct (Z.compare_spec ex ey); try discriminate;
    destruct (Z.compare_spec ey ez); try discriminate;
    destruct (Z.compare_spec ex ez); try lia; subst; try reflexivity;
    repeat match goal with
           | |- context [Pos.compare ?a ?b] => destruct (Pos.compare_spec a b)
           end; simpl; try discriminate; try reflexivity; try lia; intros; try lia.
Qed.

Lemma ltb_trans (x y z : float) :
  (x <? y)%float = true -> (y <? z)%float = true -> (x <? z)%float = true.
Proof.
  rewrite !FloatAxioms.ltb_spec. unfold SFltb. intros Hxy Hyz.
  destruct (SFcompare (Prim2SF x) (Prim2SF y)) as [[]|] eqn:E1; try discriminate.
  destruct (SFcompare (Prim2SF y) (Prim2SF z)) as [[]|] eqn:E2; try discriminate.
  rewrite (SFcompare_lt_trans _ _ _ E1 E2). reflexivity.
Qed.

Lemma increasing_above_head (a : float) (xp : vec) :
  increasing (a :: xp) -> Forall (fun b => (a <? b)%float = true) xp.
Proof.
  revert a. induction xp as [|b xp IH]; intros a H; [constructor|].
  destruct H as [Hab Hinc]. constructor; [exact Hab|].
  specialize (IH b Hinc). rewrite Forall_forall in *. intros c Hc.
  eapply ltb_trans; [exact Hab|]. apply IH. exact Hc.
Qed.

(** The maximum of an increasing sequence is its last member... *)
Lemma nanmax_increasing (a : float) (xp : vec) :
  increasing (a :: xp) -> fold_left fmax xp a = last (a :: xp) nan.
Proof.
  revert a. induction xp as [|b xp IH]; intros a H; [reflexivity|].
  destruct H as [Hab Hinc]. cbn [fold_left].
  assert (Hf : fmax a b = b).
  { unfold fmax, isnan. rewrite (ltb_leb_false _ _ Hab), (ltb_not_nan_r _ _ Hab).
    reflexivity. }
  rewrite Hf, (IH b Hinc). reflexivity.
Qed.

(** ... and its minimum is its first. *)
Lemma nanmin_increasing (a : float) (xp : vec) :
  increasing (a :: xp) -> fold_left fmin xp a = a.
Proof.
  intros H. apply increasing_above_head in H.
  induction xp as [|b xp IH]; [reflexivity|].
  inversion H as [|? ? Hab Hrest]; subst. cbn [fold_left].
  assert (Hf : fmin a b = a).
  { unfold fmin. rewrite (ltb_leb _ _ Hab). reflexivity. }
  rewrite Hf. apply IH. exact Hrest.
Qed.

Lemma first_true_nonneg (mask : list bool) (i k : Z) :
  (0 <= i)%Z -> first_true mask i = Ok k -> (0 <= k)%Z.
Proof.
  revert i. induction mask as [|b mask IH]; intros i Hi H; simpl in H; [discriminate|].
  destruct b; [inversion H; lia|]. apply (IH (i + 1)%Z); [lia|exact H].
Qed.

(** C10. For an increasing up-B altitude sequence of at least two members
    the minimum is the first member and the maximum the last; a target gets
    the index -1 exactly when it is not in the half-open interval
    [[min, max)]; so a target equal to the maximum, although inside the
    closed range, gets NaN for the value and for the error. *)
Theorem upper_endpoint_is_nan (xp : vec) :
  increasing xp -> 2 <= length xp ->
  let lo := hd nan xp in
  let hi := last xp nan in
  nanmin xp = Ok lo /\ nanmax xp = Ok hi /\
  (forall xi, bound_index xi xp = Ok (-1)%Z <->
              (lo <=? xi)%float && (xi <? hi)%float = false) /\
  out_of_range hi xp = false /\
  (forall (x fp dfp f df : vec) (j : nat),
      lin_interp x xp fp dfp = Ok (f, df) ->
      nth_error x j = Some hi ->
      nth_error f j = Some nan /\ nth_error df j = Some nan).
Proof.
  intros Hinc Hlen lo hi.
  destruct xp as [|a xp']; [simpl in Hlen; lia|].
  destruct xp' as [|b xp'']; [simpl in Hlen; lia|].
  set (xp := a :: b :: xp'') in *.
  assert (Hmin : nanmin xp = Ok lo).
  { unfold nanmin, xp. f_equal. apply nanmin_increasing. exact Hinc. }
  assert (Hmax : nanmax xp = Ok hi).
  { unfold nanmax, xp. f_equal. apply nanmax_increasing. exact Hinc. }
  assert (Hidx : forall xi, bound_index xi xp = Ok (-1)%Z <->
                            (lo <=? xi)%float && (xi <? hi)%float = false).
  { intros xi. unfold bound_index. rewrite Hmin, Hmax. cbn [bind].
    destruct ((lo <=? xi)%float && (xi <? hi)%float).
    - split; [|discriminate]. intros H.
      apply first_true_nonneg in H; lia.
    - split; reflexivity. }
  assert (Hlohi : (lo <? hi)%float = true).
  { pose proof (increasing_above_head a (b :: xp'') Hinc) as Hall.
    rewrite Forall_forall in Hall. apply Hall.
    subst hi xp. change (last (a :: b :: xp'') nan) with (last (b :: xp'') nan).
    clear. generalize b. induction xp'' as [|c l IH]; intros b0; [left; reflexivity|].
    right. apply (IH c). }
  split; [exact Hmin|]. split; [exact Hmax|]. split; [exact Hidx|]. split.
  - unfold out_of_range. rewrite Hmin, Hmax.
    rewrite (ltb_leb _ _ Hlohi).
    assert (Hrefl : (hi <=? hi)%float = true).
    { rewrite FloatAxioms.leb_spec. unfold SFleb.
      pose proof (ltb_not_nan_r _ _ Hlohi) as Hn.
      destruct (Prim2SF hi) eqn:E.
      1,2,4: rewrite SFcompare_refl by congruence; reflexivity.
      exfalso. assert (hi = nan) by (apply Prim2SF_inj; exact E).
      rewrite H in Hn. discriminate. }
    rewrite Hrefl. reflexivity.
  - intros x fp dfp f df j H Hj.
    eapply lin_interp_minus_one; try eassumption.
    apply Hidx. rewrite ltb_irrefl. apply andb_false_r.
Qed.

(** up-B altitudes 100, 200, 300 and a gate at 300 *)
Lemma upper_endpoint_is_nan_witness :
  let xp := [100; 200; 300]%float in
  increasing xp /\ 2 <= length xp /\
  lin_interp [100; 250; 300]%float xp [1; 2; 3]%float [0.1; 0.1; 0.1]%float
  = Ok ([1; 2.5; nan]%float, [0.10000000000000001; 0.070710678118654766; nan]%float) /\
  nanmin xp = Ok 100%float /\ nanmax xp = Ok 300%float /\
  (forall xi, bound_index xi xp = Ok (-1)%Z <->
              (100 <=? xi)%float && (xi <? 300)%float = false) /\
  out_of_range 300 xp = false /\
  (forall (x fp dfp f df : vec) (j : nat),
      lin_interp x xp fp dfp = Ok (f, df) ->
      nth_error x j = Some 300%float ->
      nth_error f j = Some nan /\ nth_error df j = Some nan).
Proof.
  intros xp.
  assert (Hinc : increasing xp) by (repeat split).
  assert (Hlen : 2 <= length xp) by (simpl; lia).
  split; [exact Hinc|]. split; [exact Hlen|].
  split; [vm_compute; reflexivity|].
  exact (upper_endpoint_is_nan xp Hinc Hlen).
Defined.

(** ** [compute_vectors]: the inputs of one cell *)

(** Row-major flattening of rows of one length [n]: entry [i] is entry
    [i mod n] of row [i / n]. *)
Lemma nth_error_concat_rows {X : Type} (n : nat) (rows : list (list X)) (i : nat) :
  Forall (fun r => length r = n) rows ->
  i < length rows * n ->
  exists r, nth_error rows (i / n) = Some r /\
            nth_error (concat rows) i = nth_error r (i mod n).
Proof.
  revert i. induction rows as [|r rows IH]; intros i Hall Hi; [simpl in Hi; lia|].
  inversion Hall as [|? ? Hr Hrest]; subst.
  assert (Hn : length r <> 0) by (intros E; rewrite E in Hi; lia).
  cbn [concat length] in *.
  destruct (Nat.lt_ge_cases i (length r)) as [Hlt|Hge].
  - rewrite Nat.div_small, Nat.mod_small by exact Hlt.
    exists r. split; [reflexivity|]. apply nth_error_app1. exact Hlt.
  - destruct (IH (i - length r) Hrest) as (r' & Hr' & Hc); [lia|].
    assert (Hdiv : i / length r = S ((i - length r) / length r)).
    { rewrite <- Nat.add_1_r, <- (Nat.div_add _ 1) by exact Hn.
      f_equal. lia. }
    assert (Hmod : i mod length r = (i - length r) mod length r).
    { rewrite <- (Nat.Div0.mod_add (i - length r) 1). f_equal. lia. }
    rewrite Hdiv, Hmod. exists r'. split; [exact Hr'|].
    rewrite nth_error_app2 by exact Hge. exact Hc.
Qed.

Lemma length_concat_rows {X : Type} (n : nat) (rows : list (list X)) :
  Forall (fun r => length r = n) rows -> length (concat rows) = length rows * n.
Proof.
  induction rows as [|r rows IH]; intros H; [reflexivity|].
  inversion H; subst. cbn [concat length]. rewrite length_app, IH by assumption.
  simpl. lia.
Qed.

(** [take_los] on a window: gate-major order. *)
Lemma take_los_records (M : mat) (ts bidx : list nat) (v : vec) :
  take_los M (Records ts) bidx = Ok v ->
  length v = length bidx * length ts /\
  forall i, i < length bidx * length ts ->
            exists g t x,
              nth_error bidx (i / length ts) = Some g /\
              nth_error ts (i mod length ts) = Some t /\
              getitem2 M t g = Ok x /\ nth_error v i = Some x.
Proof.
  unfold take_los.
  destruct (mapM _ bidx) as [rows|] eqn:E; cbn [bind]; [|discriminate].
  intros H; inversion H; subst v. clear H.
  destruct (mapM_ok _ _ _ E) as [Hlen Hrows].
  assert (Hall : Forall (fun r => length r = length ts) rows).
  { apply Forall_forall. intros r Hr.
    destruct (In_nth_error _ _ Hr) as [k Hk].
    assert (Hkl : k < length bidx)
      by (rewrite <- Hlen; apply nth_error_Some; congruence).
    destruct (nth_error bidx k) as [g|] eqn:Eg;
      [|apply nth_error_None in Eg; lia].
    destruct (Hrows k g Eg) as (r' & Hr' & Er'). rewrite Hk in Hr'.
    inversion Hr'; subst r'. apply mapM_ok in Er' as [Er' _]. exact Er'. }
  split; [rewrite (length_concat_rows _ _ Hall); congruence|].
  intros i Hi.
  destruct (nth_error_concat_rows (length ts) rows i Hall) as (r & Hr & Hc);
    [congruence|].
  assert (Hnt : length ts <> 0) by (intros E0; rewrite E0 in Hi; lia).
  destruct (nth_error bidx (i / length ts)) as [g|] eqn:Eg.
  2:{ apply nth_error_None in Eg.
      assert (i / length ts < length bidx)
        by (apply Nat.Div0.div_lt_upper_bound; lia). lia. }
  destruct (Hrows _ g Eg) as (r' & Hr' & Er'). rewrite Hr in Hr'.
  inversion Hr'; subst r'. destruct (mapM_ok _ _ _ Er') as [Hlr Hcol].
  destruct (nth_error ts (i mod length ts)) as [t|] eqn:Et.
  2:{ apply nth_error_None in Et.
      pose proof (Nat.mod_upper_bound i (length ts) Hnt). lia. }
  destruct (Hcol _ t Et) as (x & Hx & Ex).
  exists g, t, x. repeat split; try assumption. congruence.
Qed.

(** [np.repeat(A[bidx], n, axis=0)]: gate-major order too. *)
Lemma take_rows_repeat (A : mat) (bidx : list nat) (rows : mat) (n : nat) :
  take_rows A bidx = Ok rows ->
  length (np_repeat rows n) = length bidx * n /\
  forall i, i < length bidx * n ->
            exists g r,
              nth_error bidx (i / n) = Some g /\
              nth_error A g = Some r /\ nth_error (np_repeat rows n) i = Some r.
Proof.
  intros E. destruct (mapM_ok _ _ _ E) as [Hlen Hrows].
  unfold np_repeat. rewrite flat_map_concat_map.
  assert (Hall : Forall (fun r => length r = n)
                        (map (fun r : list float => repeat r n) rows)).
  { apply Forall_forall. intros r Hr. apply in_map_iff in Hr as (r0 & <- & _).
    apply repeat_length. }
  split; [rewrite (length_concat_rows _ _ Hall), length_map; congruence|].
  intros i Hi.
  destruct (nth_error_concat_rows n _ i Hall) as (rr & Hrr & Hc);
    [rewrite length_map; congruence|].
  assert (Hn : n <> 0) by (intros E0; rewrite E0 in Hi; lia).
  rewrite nth_error_map in Hrr.
  destruct (nth_error rows (i / n)) as [r|] eqn:Er; [|discriminate].
  inversion Hrr; subst rr.
  destruct (nth_error bidx (i / n)) as [g|] eqn:Eg.
  2:{ apply nth_error_None in Eg.
      assert (i / n < length bidx) by (apply Nat.Div0.div_lt_upper_bound; lia). lia. }
  destruct (Hrows _ g Eg) as (r' & Hr' & Er'). rewrite Er in Hr'.
  inversion Hr'; subst r'.
  exists g, r. split; [reflexivity|]. split.
  - unfold of_option in Er'. destruct (nth_error A g); congruence.
  - rewrite Hc. apply nth_error_repeat. apply Nat.mod_upper_bound. exact Hn.
Qed.

(** What [compute_vectors] hands to [vvels], and what it keeps of the
    result, at the cell of period [p] and bin [b]. *)
Lemma compute_vectors_cell (apex : Apex) (it : option float) (covar : vec)
  (minnumpoints : Z) (vlos dvlos A : mat) (int_idx : list tindex)
  (bin_idx : list (list nat)) (bin_mlat bin_mlon : vec) (out : Vectors)
  (p b : nat) (tidx : tindex) (bidx : list nat) :
  compute_vectors apex it covar minnumpoints vlos dvlos A int_idx bin_idx
                  bin_mlat bin_mlon = Ok out ->
  nth_error int_idx p = Some tidx -> nth_error bin_idx b = Some bidx ->
  exists v dv Ab V S Vp Sp,
    cell_inputs it vlos dvlos A tidx bidx = Ok (v, dv, Ab) /\
    vvels v dv Ab covar minnumpoints = Ok (V, S) /\
    nth_error (Velocity out) p = Some Vp /\ nth_error Vp b = Some V /\
    nth_error (VelocityCovariance out) p = Some Sp /\ nth_error Sp b = Some S.
Proof.
  intros H Hp Hb. unfold compute_vectors in H.
  bind_inv H cells Ecells. bind_inv H pts Epts. bind_inv H E EE.
  bind_inv H SigE ES. inversion H; subst out. clear H.
  cbn [Velocity VelocityCovariance].
  destruct (mapM_ok _ _ _ Ecells) as [_ Hrows].
  destruct (Hrows p tidx Hp) as (row & Hrow & Erow).
  destruct (mapM_ok _ _ _ Erow) as [_ Hcells].
  destruct (Hcells b bidx Hb) as ([V S] & Hcell & Ecell).
  destruct (cell_inputs it vlos dvlos A tidx bidx) as [[[v dv] Ab]|] eqn:Ein;
    cbn [bind] in Ecell; [|discriminate].
  exists v, dv, Ab, V, S, (map fst row), (map snd row).
  split; [reflexivity|]. split; [exact Ecell|].
  rewrite !nth_error_map, Hrow, Hcell. cbn [option_map fst snd]. repeat split.
Qed.

(** C9. With an integration time configured, at every (period, bin) cell
    [compute_vectors] calls [vvels] on flattened [vlos] and [dvlos] that are
    gate-major, entry [i] being the measurement of gate [bidx[i / nt]] at
    record [tidx[i mod nt]], and on the rows of [A] that [np.repeat] lays out
    in the same order, entry [i] being the k-vector of that same gate
    [bidx[i / nt]]: each measurement is paired with the k-vector of its own
    gate. *)
Theorem cell_inputs_gate_major :
  (forall (apex : Apex) (T : float) (covar : vec) (minnumpoints : Z)
          (vlos dvlos A : mat) (int_idx : list tindex) (bin_idx : list (list nat))
          (bin_mlat bin_mlon : vec) (out : Vectors)
          (p b : nat) (tidx : tindex) (bidx : list nat),
      compute_vectors apex (Some T) covar minnumpoints vlos dvlos A int_idx bin_idx
                      bin_mlat bin_mlon = Ok out ->
      nth_error int_idx p = Some tidx -> nth_error bin_idx b = Some bidx ->
      exists v dv Ab V S Vp Sp,
        cell_inputs (Some T) vlos dvlos A tidx bidx = Ok (v, dv, Ab) /\
        vvels v dv Ab covar minnumpoints = Ok (V, S) /\
        nth_error (Velocity out) p = Some Vp /\ nth_error Vp b = Some V /\
        nth_error (VelocityCovariance out) p = Some Sp /\ nth_error Sp b = Some S)
  /\
  (forall (T : float) (vlos dvlos A : mat) (ts bidx : list nat)
          (v dv : vec) (Ab : mat),
      truthy_float (Some T) = true ->
      cell_inputs (Some T) vlos dvlos A (Records ts) bidx = Ok (v, dv, Ab) ->
      length v = length bidx * length ts /\
      length dv = length bidx * length ts /\
      length Ab = length bidx * length ts /\
      forall i, i < length bidx * length ts ->
                exists (g t : nat) (x dx : float) (k : vec),
                  nth_error bidx (i / length ts) = Some g /\
                  nth_error ts (i mod length ts) = Some t /\
                  getitem2 vlos t g = Ok x /\ nth_error v i = Some x /\
                  getitem2 dvlos t g = Ok dx /\ nth_error dv i = Some dx /\
                  nth_error A g = Some k /\ nth_error Ab i = Some k).
Proof.
  split; [intros; eapply compute_vectors_cell; eassumption|].
  intros T vlos dvlos A ts bidx v dv Ab HT H.
  unfold cell_inputs in H. rewrite HT in H.
  bind_inv H v0 Ev. bind_inv H dv0 Edv. bind_inv H Ab0 EA.
  inversion H; subst v0 dv0 Ab0. clear H.
  bind_inv EA rows Erows. cbn [len bind] in EA. inversion EA; subst Ab. clear EA.
  destruct (take_los_records _ _ _ _ Ev) as [Lv Hv].
  destruct (take_los_records _ _ _ _ Edv) as [Ldv Hdv].
  destruct (take_rows_repeat _ _ _ (length ts) Erows) as [LA HA].
  split; [exact Lv|]. split; [exact Ldv|]. split; [exact LA|].
  intros i Hi.
  destruct (Hv i Hi) as (g & t & x & Hg & Ht & Hx & Hvi).
  destruct (Hdv i Hi) as (g' & t' & dx & Hg' & Ht' & Hdx & Hdvi).
  destruct (HA i Hi) as (g'' & k & Hg'' & Hk & HAi).
  assert (g' = g) by congruence. assert (t' = t) by congruence.
  assert (g'' = g) by congruence. subst g' t' g''.
  exists g, t, x, dx, k. repeat split; assumption.
Qed.

(** two records, three gates; one window of both records; the bin holds
    gates 2 and 0 *)
Lemma cell_inputs_gate_major_witness :
  let vlos := [[1; 2; 3]; [4; 5; 6]]%float in
  let dvlos := [[10; 20; 30]; [40; 50; 60]]%float in
  let A := [[1; 0; 0]; [0; 1; 0]; [0; 0; 1]]%float in
  let v := [3; 6; 1; 4]%float in
  let dv := [30; 60; 10; 40]%float in
  let Ab := [[0; 0; 1]; [0; 0; 1]; [1; 0; 0]; [1; 0; 0]]%float in
  (exists out,
      compute_vectors (example_apex 0) (Some 60%float) [1e6; 1e6; 1e6]%float 1
                      vlos dvlos A [Records [0; 1]] [[2; 0]] [65]%float [10]%float
      = Ok out /\
      exists v dv Ab V S Vp Sp,
        cell_inputs (Some 60%float) vlos dvlos A (Records [0; 1]) [2; 0]
        = Ok (v, dv, Ab) /\
        vvels v dv Ab [1e6; 1e6; 1e6]%float 1 = Ok (V, S) /\
        nth_error (Velocity out) 0 = Some Vp /\ nth_error Vp 0 = Some V /\
        nth_error (VelocityCovariance out) 0 = Some Sp /\ nth_error Sp 0 = Some S)
  /\
  truthy_float (Some 60%float) = true /\
  cell_inputs (Some 60%float) vlos dvlos A (Records [0; 1]) [2; 0] = Ok (v, dv, Ab) /\
  length v = 2 * 2 /\ length dv = 2 * 2 /\ length Ab = 2 * 2 /\
  forall i, i < 2 * 2 ->
            exists (g t : nat) (x dx : float) (k : vec),
              nth_error [2; 0] (i / 2) = Some g /\
              nth_error [0; 1] (i mod 2) = Some t /\
              getitem2 vlos t g = Ok x /\ nth_error v i = Some x /\
              getitem2 dvlos t g = Ok dx /\ nth_error dv i = Some dx /\
              nth_error A g = Some k /\ nth_error Ab i = Some k.
Proof.
  intros vlos dvlos A v dv Ab.
  destruct cell_inputs_gate_major as [H1 H2].
  assert (HT : truthy_float (Some 60%float) = true) by reflexivity.
  assert (Hc : cell_inputs (Some 60%float) vlos dvlos A (Records [0; 1]) [2; 0]
               = Ok (v, dv, Ab)) by (vm_compute; reflexivity).
  split.
  - eexists. split; [vm_compute; reflexivity|].
    eapply (H1 (example_apex 0) 60%float [1e6; 1e6; 1e6]%float 1%Z
               vlos dvlos A [Records [0; 1]] [[2; 0]] [65]%float [10]%float _ 0 0);
      [vm_compute; reflexivity|reflexivity|reflexivity].
  - split; [exact HT|]. split; [exact Hc|].
    exact (H2 60%float vlos dvlos A [0; 1] [2; 0] v dv Ab HT Hc).
Defined.

(** ** The electric field *)

Lemma is_zero_spec (x : float) : is_zero x = true <-> zero_like x.
Proof.
  unfold is_zero, zero_like. rewrite FloatAxioms.eqb_spec.
  change (Prim2SF 0) with (S754_zero false). unfold SFeqb.
  destruct (Prim2SF x) as [s|s| |s m e]; simpl; split; intros H;
    try discriminate; try (destruct H; discriminate); eauto.
  - destruct s; discriminate.
  - destruct s; discriminate.
Qed.

Lemma finite_cases (x : float) :
  isfinite x = true ->
  exists s, Prim2SF x = S754_zero s \/ exists m e, Prim2SF x = S754_finite s m e.
Proof.
  unfold isfinite, is_finite, is_nan, is_infinity.
  rewrite !FloatAxioms.eqb_spec, abs_spec.
  change (Prim2SF infinity) with (S754_infinity false). unfold SFeqb.
  destruct (Prim2SF x) as [s|s| |s m e]; simpl; intros H; try discriminate.
  - exists s. left. reflexivity.
  - destruct s; discriminate.
  - exists s. right. eauto.
Qed.

Lemma mul_zero_r_finite (b : float) : isfinite b = true -> zero_like (b * 0)%float.
Proof.
  intros H. destruct (finite_cases b H) as [s [E|(m & e & E)]];
    unfold zero_like; rewrite mul_spec, E; change (Prim2SF 0) with (S754_zero false);
    simpl; eauto.
Qed.

Lemma mul_zero_l_finite (z v : float) :
  zero_like z -> isfinite v = true -> zero_like (z * v)%float.
Proof.
  intros [sz Ez] H. destruct (finite_cases v H) as [s [E|(m & e & E)]];
    unfold zero_like; rewrite mul_spec, Ez, E; simpl; eauto.
Qed.

Lemma add_zero_zero (a b : float) : zero_like a -> zero_like b -> zero_like (a + b)%float.
Proof.
  intros [sa Ea] [sb Eb]. unfold zero_like. rewrite add_spec, Ea, Eb.
  destruct sa, sb; simpl; eauto.
Qed.

Lemma add_zero_l_same (z p : float) : zero_like z -> same_value (z + p)%float p.
Proof.
  intros [sz Ez]. destruct (Prim2SF p) as [s|s| |s m e] eqn:Ep.
  - right. split; apply is_zero_spec; [apply add_zero_zero|]; unfold zero_like; eauto.
  - left. apply Prim2SF_inj. rewrite add_spec, Ez, Ep. reflexivity.
  - left. apply Prim2SF_inj. rewrite add_spec, Ez, Ep. reflexivity.
  - left. apply Prim2SF_inj. rewrite add_spec, Ez, Ep. reflexivity.
Qed.

Lemma add_zero_r_same (p z : float) : zero_like z -> same_value (p + z)%float p.
Proof.
  intros [sz Ez]. destruct (Prim2SF p) as [s|s| |s m e] eqn:Ep.
  - right. split; apply is_zero_spec; [apply add_zero_zero|]; unfold zero_like; eauto.
  - left. apply Prim2SF_inj. rewrite add_spec, Ez, Ep. reflexivity.
  - left. apply Prim2SF_inj. rewrite add_spec, Ez, Ep. reflexivity.
  - left. apply Prim2SF_inj. rewrite add_spec, Ez, Ep. reflexivity.
Qed.

Lemma same_add_zero_r (a p z : float) :
  same_value a p -> zero_like z -> same_value (a + z)%float p.
Proof.
  intros [->|[Ha Hp]] Hz; [apply add_zero_r_same; exact Hz|].
  right. split; [|exact Hp]. apply is_zero_spec. apply add_zero_zero; [|exact Hz].
  apply is_zero_spec. exact Ha.
Qed.

Lemma same_value_sym (a b : float) : same_value a b -> same_value b a.
Proof. intros [->|[Ha Hb]]; [left; reflexivity|right; split; assumption]. Qed.

Lemma same_value_trans (a b c : float) :
  same_value a b -> same_value b c -> same_value a c.
Proof.
  intros [->|[Ha Hb]] [->|[Hb' Hc]].
  - left; reflexivity.
  - right; split; assumption.
  - right; split; assumption.
  - right; split; assumption.
Qed.

Lemma zero_like_zero : zero_like 0%float.
Proof. exists false. reflexivity. Qed.

(** A sum of three terms of which at most one is not a zero. *)
Lemma fsum3_first (p z2 z3 : float) :
  zero_like z2 -> zero_like z3 -> same_value (fsum [p; z2; z3]) p.
Proof.
  intros H2 H3. unfold fsum. cbn [fold_left].
  apply same_add_zero_r; [|exact H3]. apply same_add_zero_r; [|exact H2].
  apply add_zero_l_same. exact zero_like_zero.
Qed.

Lemma fsum3_second (z1 p z3 : float) :
  zero_like z1 -> zero_like z3 -> same_value (fsum [z1; p; z3]) p.
Proof.
  intros H1 H3. unfold fsum. cbn [fold_left].
  apply same_add_zero_r; [|exact H3].
  apply add_zero_l_same. apply add_zero_zero; [exact zero_like_zero|exact H1].
Qed.

Lemma fsum3_zero (z1 z2 z3 : float) :
  zero_like z1 -> zero_like z2 -> zero_like z3 -> zero_like (fsum [z1; z2; z3]).
Proof.
  intros H1 H2 H3. unfold fsum. cbn [fold_left].
  repeat apply add_zero_zero; auto using zero_like_zero.
Qed.

Lemma combine_map_r {X Y Z W : Type} (h : X -> Z -> W) (phi : Y -> Z)
  (a : list X) (q : list Y) :
  map (fun '(s, b) => h s b) (combine a (map phi q))
  = map (fun '(s, y) => h s (phi y)) (combine a q).
Proof.
  revert q. induction a as [|x a IH]; intros [|y q]; simpl; try reflexivity.
  rewrite IH. reflexivity.
Qed.

(** One entry of the einsum ['jk,kl,ml->jm'] is the entry of the product
    with the transpose, when row [Bm] is column [m] of [Q]. *)
Lemma einsum_entry_transpose (Pj Bm : vec) (S Q : mat) (m : nat) :
  Bm = map (fun Ql => nth m Ql 0%float) Q ->
  fsum (flat_map (fun '(ajk, Sk) =>
                    map (fun '(skl, bml) => (ajk * skl * bml)%float) (combine Sk Bm))
                 (combine Pj S))
  = fsum (flat_map (fun '(pjk, Sk) =>
                      map (fun '(skl, Ql) => (pjk * skl * nth m Ql 0)%float)
                          (combine Sk Q))
                   (combine Pj S)).
Proof.
  intros ->. f_equal. apply flat_map_ext. intros [p Sk].
  apply (combine_map_r (fun s b => (p * s * b)%float)).
Qed.

(** For a 3x3 array [R] the einsum of the source is [R . S . R^T]. *)
Lemma einsum_is_rotation_product (R S : mat) :
  is_shape 3 3 R = true ->
  einsum_jk_kl_ml R S R = triple_product R S (transpose R).
Proof.
  intros HR. unfold is_shape in HR. apply andb_true_iff in HR as [HR1 HR2].
  apply Nat.eqb_eq in HR1.
  destruct R as [|r0 [|r1 [|r2 [|]]]]; try discriminate HR1.
  cbn [forallb] in HR2.
  apply andb_true_iff in HR2 as [H0 HR2]. apply andb_true_iff in HR2 as [H1 HR2].
  apply andb_true_iff in HR2 as [H2 _].
  apply Nat.eqb_eq in H0, H1, H2.
  destruct r0 as [|a0 [|a1 [|a2 [|]]]]; try discriminate H0.
  destruct r1 as [|b0 [|b1 [|b2 [|]]]]; try discriminate H1.
  destruct r2 as [|c0 [|c1 [|c2 [|]]]]; try discriminate H2.
  unfold einsum_jk_kl_ml, triple_product, transpose.
  cbn [map hd length seq nth].
  repeat (f_equal; try (apply einsum_entry_transpose; reflexivity)).
Qed.

Lemma rotation_shape (be3 : float) : is_shape 3 3 (rotation be3) = true.
Proof. reflexivity. Qed.

(** One cell of the electric field array. *)
Lemma electric_field_cell (Be3 : vec) (Velocity E : list (list vec))
  (t i : nat) (Vt : list vec) (V : vec) :
  electric_field Be3 Velocity = Ok E ->
  nth_error Velocity t = Some Vt -> nth_error Vt i = Some V ->
  exists b Et, nth_error Be3 i = Some b /\ nth_error E t = Some Et /\
               nth_error Et i = Some (einsum_jk_k (rotation b) V).
Proof.
  intros H Ht Hi. unfold electric_field in H.
  destruct Velocity as [|V0 Vs]; [discriminate|].
  destruct (mapM_ok _ _ _ H) as [_ Hcells].
  destruct (Hcells t Vt Ht) as (Et & HEt & Hrow). cbv beta in Hrow.
  match type of Hrow with
  | (if ?c then _ else _) = _ => destruct c eqn:Hs; [|discriminate Hrow]
  end.
  inversion Hrow; subst Et.
  apply andb_true_iff in Hs as [_ Hs]. unfold is_shape in Hs.
  apply andb_true_iff in Hs as [Hs _]. apply Nat.eqb_eq in Hs.
  destruct (nth_error_zip_with (fun b V => einsum_jk_k (rotation b) V) Be3 Vt i V)
    as (b & Hb & Hz); [symmetry; exact Hs|exact Hi|].
  exists b. eexists. split; [exact Hb|]. split; [exact HEt|exact Hz].
Qed.

(** One cell of the covariance array of the electric field. *)
Lemma electric_field_covariance_cell (Be3 : vec) (Cov SigE : list (list mat))
  (t i : nat) (St : list mat) (S : mat) :
  electric_field_covariance Be3 Cov = Ok SigE ->
  nth_error Cov t = Some St -> nth_error St i = Some S ->
  exists b SEt, nth_error Be3 i = Some b /\ nth_error SigE t = Some SEt /\
                nth_error SEt i
                = Some (triple_product (rotation b) S (transpose (rotation b))).
Proof.
  intros H Ht Hi. unfold electric_field_covariance in H.
  destruct Cov as [|C0 Cs]; [discriminate|].
  destruct (mapM_ok _ _ _ H) as [_ Hcells].
  destruct (Hcells t St Ht) as (SEt & HSEt & Hrow). cbv beta in Hrow.
  match type of Hrow with
  | (if ?c then _ else _) = _ => destruct c eqn:Hs; [|discriminate Hrow]
  end.
  inversion Hrow; subst SEt.
  apply andb_true_iff in Hs as [Hs _]. apply andb_true_iff in Hs as [_ Hs].
  apply Nat.eqb_eq in Hs.
  destruct (nth_error_zip_with
              (fun b S => einsum_jk_kl_ml (rotation b) S (rotation b)) Be3 St i S)
    as (b & Hb & Hz); [symmetry; exact Hs|exact Hi|].
  exists b. eexists. split; [exact Hb|]. split; [exact HSEt|].
  rewrite <- (einsum_is_rotation_product _ _ (rotation_shape b)). exact Hz.
Qed.

(** The field of one cell, for a finite [Be3] and a finite velocity. *)
Lemma electric_field_formula (be3 v1 v2 v3 : float) :
  isfinite be3 = true -> isfinite v1 = true -> isfinite v2 = true ->
  isfinite v3 = true ->
  exists e1 e2 e3,
    einsum_jk_k (rotation be3) [v1; v2; v3] = [e1; e2; e3] /\
    same_value e1 (- be3 * v2)%float /\
    same_value e2 (be3 * v1)%float /\
    same_value e3 0%float.
Proof.
  intros Hb H1 H2 H3.
  pose proof (mul_zero_r_finite be3 Hb) as Hz.
  exists (fsum [be3 * 0 * v1; be3 * (-1) * v2; be3 * 0 * v3])%float,
         (fsum [be3 * 1 * v1; be3 * 0 * v2; be3 * 0 * v3])%float,
         (fsum [be3 * 0 * v1; be3 * 0 * v2; be3 * 0 * v3])%float.
  split; [reflexivity|].
  rewrite mul_minus_one_r, mul_one_r.
  split; [|split].
  - apply fsum3_second; apply mul_zero_l_finite; assumption.
  - apply fsum3_first; apply mul_zero_l_finite; assumption.
  - right. split; [|reflexivity]. apply is_zero_spec.
    apply fsum3_zero; apply mul_zero_l_finite; assumption.
Qed.

(** The field arrays of [compute_vectors] are the two einsums, on its own
    velocity arrays and on [Be3] at the bins. *)
Lemma compute_vectors_fields (apex : Apex) (it : option float) (covar : vec)
  (minnumpoints : Z) (vlos dvlos A : mat) (int_idx : list tindex)
  (bin_idx : list (list nat)) (bin_mlat bin_mlon : vec) (out : Vectors) :
  compute_vectors apex it covar minnumpoints vlos dvlos A int_idx bin_idx
                  bin_mlat bin_mlon = Ok out ->
  exists pts,
    broadcast3 bin_mlat bin_mlon [200%float] = Ok pts /\
    let Be3 := map (fun '(la, lo, al) => bvectors_Be3_pt apex la lo al) pts in
    electric_field Be3 (Velocity out) = Ok (ElectricField out) /\
    electric_field_covariance Be3 (VelocityCovariance out)
    = Ok (ElectricFieldCovariance out).
Proof.
  intros H. unfold compute_vectors in H.
  bind_inv H cells Ecells. bind_inv H pts Epts. bind_inv H E EE.
  bind_inv H SigE ES. inversion H; subst out. clear H.
  exists pts. split; [reflexivity|]. cbn [Velocity VelocityCovariance
    ElectricField ElectricFieldCovariance]. split; assumption.
Qed.

(** C8. [compute_vectors] derives the field arrays from its velocity arrays
    and [Be3] at the bins; in every (period, bin) cell the electric field is
    [R . V] and its covariance [R . SigmaV . R^T], with
    [R = Be3 * [[0,-1,0],[1,0,0],[0,0,0]]];
    for a finite [Be3] and a finite velocity the field is
    [(-Be3 * Ve2, Be3 * Ve1, 0)], up to the sign of a zero; for [Be3 = 1] and a
    zero velocity it is exactly zero; its first component depends on [Ve2]
    only and its second on [Ve1] only. *)
Theorem electric_field_is_rotated_velocity :
  (forall (apex : Apex) (it : option float) (covar : vec) (minnumpoints : Z)
          (vlos dvlos A : mat) (int_idx : list tindex) (bin_idx : list (list nat))
          (bin_mlat bin_mlon : vec) (out : Vectors),
      compute_vectors apex it covar minnumpoints vlos dvlos A int_idx bin_idx
                      bin_mlat bin_mlon = Ok out ->
      exists pts,
        broadcast3 bin_mlat bin_mlon [200%float] = Ok pts /\
        let Be3 := map (fun '(la, lo, al) => bvectors_Be3_pt apex la lo al) pts in
        electric_field Be3 (Velocity out) = Ok (ElectricField out) /\
        electric_field_covariance Be3 (VelocityCovariance out)
        = Ok (ElectricFieldCovariance out))
  /\
  (forall (Be3 : vec) (Velocity E : list (list vec)) (t i : nat)
          (Vt : list vec) (V : vec),
      electric_field Be3 Velocity = Ok E ->
      nth_error Velocity t = Some Vt -> nth_error Vt i = Some V ->
      exists b Et, nth_error Be3 i = Some b /\ nth_error E t = Some Et /\
                   nth_error Et i = Some (einsum_jk_k (rotation b) V))
  /\
  (forall (Be3 : vec) (Cov SigE : list (list mat)) (t i : nat)
          (St : list mat) (S : mat),
      electric_field_covariance Be3 Cov = Ok SigE ->
      nth_error Cov t = Some St -> nth_error St i = Some S ->
      exists b SEt, nth_error Be3 i = Some b /\ nth_error SigE t = Some SEt /\
                    nth_error SEt i
                    = Some (triple_product (rotation b) S (transpose (rotation b))))
  /\
  (forall be3 v1 v2 v3 : float,
      isfinite be3 = true -> isfinite v1 = true -> isfinite v2 = true ->
      isfinite v3 = true ->
      exists e1 e2 e3,
        einsum_jk_k (rotation be3) [v1; v2; v3] = [e1; e2; e3] /\
        same_value e1 (- be3 * v2)%float /\
        same_value e2 (be3 * v1)%float /\
        same_value e3 0%float)
  /\
  einsum_jk_k (rotation 1) [0; 0; 0]%float = [0; 0; 0]%float
  /\
  (forall be3 v1 v2 v3 w1 w2 w3 : float,
      isfinite be3 = true ->
      isfinite v1 = true -> isfinite v2 = true -> isfinite v3 = true ->
      isfinite w1 = true -> isfinite w2 = true -> isfinite w3 = true ->
      same_value (nth 0 (einsum_jk_k (rotation be3) [v1; v2; v3]) nan)
                 (nth 0 (einsum_jk_k (rotation be3) [w1; v2; w3]) nan) /\
      same_value (nth 1 (einsum_jk_k (rotation be3) [v1; v2; v3]) nan)
                 (nth 1 (einsum_jk_k (rotation be3) [v1; w2; w3]) nan)).
Proof.
  split; [exact compute_vectors_fields|].
  split; [exact electric_field_cell|].
  split; [exact electric_field_covariance_cell|].
  split; [exact electric_field_formula|].
  split; [vm_compute; reflexivity|].
  intros be3 v1 v2 v3 w1 w2 w3 Hb Hv1 Hv2 Hv3 Hw1 Hw2 Hw3.
  destruct (electric_field_formula be3 v1 v2 v3 Hb Hv1 Hv2 Hv3)
    as (e1 & e2 & e3 & -> & He1 & He2 & _).
  destruct (electric_field_formula be3 w1 v2 w3 Hb Hw1 Hv2 Hw3)
    as (f1 & f2 & f3 & -> & Hf1 & _ & _).
  destruct (electric_field_formula be3 v1 w2 w3 Hb Hv1 Hw2 Hw3)
    as (g1 & g2 & g3 & -> & _ & Hg2 & _).
  cbn [nth]. split.
  - eapply same_value_trans; [exact He1|]. apply same_value_sym. exact Hf1.
  - eapply same_value_trans; [exact He2|]. apply same_value_sym. exact Hg2.
Qed.

(** one period, one bin, [Be3 = 2] *)
Lemma electric_field_is_rotated_velocity_witness :
  let S := [[1; 2; 3]; [4; 5; 6]; [7; 8; 9]]%float in
  (exists out,
      compute_vectors (example_apex 0) (Some 60%float) [1e6; 1e6; 1e6]%float 1
                      [[1; 2; 3]; [4; 5; 6]]%float
                      [[10; 20; 30]; [40; 50; 60]]%float
                      [[1; 0; 0]; [0; 1; 0]; [0; 0; 1]]%float
                      [Records [0; 1]] [[2; 0]] [65]%float [10]%float
      = Ok out /\
      exists pts,
        broadcast3 [65]%float [10]%float [200%float] = Ok pts /\
        let Be3 := map (fun '(la, lo, al) =>
                          bvectors_Be3_pt (example_apex 0) la lo al) pts in
        electric_field Be3 (Velocity out) = Ok (ElectricField out) /\
        electric_field_covariance Be3 (VelocityCovariance out)
        = Ok (ElectricFieldCovariance out))
  /\
  (electric_field [2]%float [[[3; 5; 7]]]%float = Ok [[[-10; 6; 0]]]%float /\
   exists b Et, nth_error [2]%float 0 = Some b /\
                nth_error [[[-10; 6; 0]]]%float 0 = Some Et /\
                nth_error Et 0 = Some (einsum_jk_k (rotation b) [3; 5; 7]%float))
  /\
  (electric_field_covariance [2]%float [[S]]
   = Ok [[[[20; -16; 0]; [-8; 4; 0]; [0; 0; 0]]]]%float /\
   exists b SEt, nth_error [2]%float 0 = Some b /\
                 nth_error [[[[20; -16; 0]; [-8; 4; 0]; [0; 0; 0]]]]%float 0
                 = Some SEt /\
                 nth_error SEt 0
                 = Some (triple_product (rotation b) S (transpose (rotation b))))
  /\
  (exists e1 e2 e3,
      einsum_jk_k (rotation 2) [3; 5; 7]%float = [e1; e2; e3] /\
      same_value e1 (- 2 * 5)%float /\ same_value e2 (2 * 3)%float /\
      same_value e3 0%float)
  /\
  (same_value (nth 0 (einsum_jk_k (rotation 2) [3; 5; 7]%float) nan)
              (nth 0 (einsum_jk_k (rotation 2) [4; 5; 9]%float) nan) /\
   same_value (nth 1 (einsum_jk_k (rotation 2) [3; 5; 7]%float) nan)
              (nth 1 (einsum_jk_k (rotation 2) [3; 8; 9]%float) nan)).
Proof.
  intros S.
  destruct electric_field_is_rotated_velocity as (H0 & H1 & H2 & H3 & _ & H5).
  assert (HE : electric_field [2]%float [[[3; 5; 7]]]%float
               = Ok [[[-10; 6; 0]]]%float) by (vm_compute; reflexivity).
  assert (HS : electric_field_covariance [2]%float [[S]]
               = Ok [[[[20; -16; 0]; [-8; 4; 0]; [0; 0; 0]]]]%float)
    by (vm_compute; reflexivity).
  split; [|split; [|split; [|split]]].
  - destruct (compute_vectors (example_apex 0) (Some 60%float)
                 [1e6; 1e6; 1e6]%float 1 [[1; 2; 3]; [4; 5; 6]]%float
                 [[10; 20; 30]; [40; 50; 60]]%float
                 [[1; 0; 0]; [0; 1; 0]; [0; 0; 1]]%float
                 [Records [0; 1]] [[2; 0]] [65]%float [10]%float)
      as [out|e] eqn:Hcv; [|vm_compute in Hcv; discriminate Hcv].
    exists out. split; [reflexivity|]. exact (H0 _ _ _ _ _ _ _ _ _ _ _ _ Hcv).
  - split; [exact HE|].
    exact (H1 _ _ _ 0 0 [[3; 5; 7]]%float [3; 5; 7]%float HE eq_refl eq_refl).
  - split; [exact HS|].
    exact (H2 _ _ _ 0 0 [S] S HS eq_refl eq_refl).
  - apply H3; reflexivity.
  - apply (H5 2 3 5 7 4 8 9)%float; reflexivity.
Defined.

(** ** [transform] *)

(** *** Stripping the marked members of a list and inserting a value back *)

Section InsertStrip.

Context {X Y : Type} (nanp : X -> bool) (f : X -> Y) (v : Y).

Lemma insert_from_skip (q p : nat) (arr : list Y) (idx : list nat) :
  p < q -> insert_from q arr (p :: idx) v = insert_from q arr idx v.
Proof.
  revert q. induction arr as [|x arr IH]; intros q Hpq; cbn [insert_from count_occ].
  - destruct (Nat.eq_dec p q); [lia|reflexivity].
  - destruct (Nat.eq_dec p q); [lia|]. rewrite IH by lia. reflexivity.
Qed.

Lemma insert_from_here (p : nat) (arr : list Y) (idx : list nat) :
  insert_from p arr (p :: idx) v = v :: insert_from p arr idx v.
Proof.
  destruct arr as [|x arr]; cbn [insert_from count_occ];
    destruct (Nat.eq_dec p p) as [_|Hn]; try congruence; cbn [repeat app].
  - reflexivity.
  - rewrite insert_from_skip by lia. reflexivity.
Qed.

Lemma replace_indices_ge (gs : list X) (q r c : nat) :
  q + c <= r ->
  Forall (fun k => q <= k) (enumerate_sub (where1 (map nanp gs) r) c).
Proof.
  revert r c. induction gs as [|g gs IH]; intros r c H; cbn [map where1].
  - constructor.
  - destruct (nanp g); cbn [enumerate_sub].
    + constructor; [lia|]. apply IH. lia.
    + apply IH. lia.
Qed.

Lemma replace_indices_le (gs : list X) (r c : nat) :
  c <= r ->
  Forall (fun k => k <= r - c + length (filter (fun g => negb (nanp g)) gs))
         (enumerate_sub (where1 (map nanp gs) r) c).
Proof.
  revert r c. induction gs as [|g gs IH]; intros r c H; cbn [map where1 filter].
  - constructor.
  - destruct (nanp g); cbn [enumerate_sub negb length].
    + constructor; [lia|]. specialize (IH (S r) (S c)).
      replace (S r - S c) with (r - c) in IH by lia. apply IH. lia.
    + specialize (IH (S r) c). eapply Forall_impl; [|apply IH; lia].
      cbn beta. intros k Hk. lia.
Qed.

Lemma replace_indices_nonempty (gs : list X) (r c : nat) :
  Exists (fun g => nanp g = true) gs ->
  enumerate_sub (where1 (map nanp gs) r) c <> [].
Proof.
  intros H. revert r c. induction H as [g gs Hg|g gs _ IH]; intros r c;
    cbn [map where1].
  - rewrite Hg. discriminate.
  - destruct (nanp g); [discriminate|apply IH].
Qed.

(** Inserting [v] at the indices the source computes puts every kept member
    back at its own index. *)
Lemma insert_from_strip (gs : list X) (p c : nat) :
  insert_from p (map f (filter (fun g => negb (nanp g)) gs))
              (enumerate_sub (where1 (map nanp gs) (p + c)) c) v
  = map (fun g => if nanp g then v else f g) gs.
Proof.
  revert p c. induction gs as [|g gs IH]; intros p c; cbn [map where1 filter].
  - reflexivity.
  - destruct (nanp g); cbn [negb enumerate_sub].
    + replace (p + c - c) with p by lia. rewrite insert_from_here.
      f_equal. replace (S (p + c)) with (p + S c) by lia. apply IH.
    + cbn [map insert_from].
      replace (count_occ Nat.eq_dec
                 (enumerate_sub (where1 (map nanp gs) (S (p + c))) c) p) with 0.
      * cbn [repeat app]. f_equal. apply (IH (S p) c).
      * symmetry. apply count_occ_not_In. intros Hin.
        pose proof (replace_indices_ge gs (S p) (S (p + c)) c) as Hge.
        rewrite Forall_forall in Hge. specialize (Hge ltac:(lia) p Hin). lia.
Qed.

Lemma np_insert_strip (gs : list X) :
  Exists (fun g => nanp g = true) gs ->
  np_insert (map f (filter (fun g => negb (nanp g)) gs))
            (enumerate_sub (argwhere (map nanp gs)) 0) v
  = Ok (map (fun g => if nanp g then v else f g) gs).
Proof.
  intros Hex. unfold np_insert, argwhere.
  destruct (enumerate_sub (where1 (map nanp gs) 0) 0) as [|i0 idx] eqn:E.
  - exfalso. eapply replace_indices_nonempty; eassumption.
  - rewrite <- E.
    replace (forallb _ _) with true.
    + f_equal. apply (insert_from_strip gs 0 0).
    + symmetry. apply forallb_forall. intros k Hk. apply Nat.leb_le.
      pose proof (replace_indices_le gs 0 0 (le_n 0)) as Hle.
      rewrite Forall_forall in Hle. specialize (Hle k Hk).
      rewrite length_map. lia.
Qed.

End InsertStrip.

(** *** The arrays of the geometry as maps over the gates *)

Lemma filter_map_comm {P Q : Type} (p : Q -> bool) (h : P -> Q) (l : list P) :
  filter p (map h l) = map h (filter (fun x => p (h x)) l).
Proof.
  induction l as [|x l IH]; simpl; [reflexivity|].
  destruct (p (h x)); simpl; rewrite IH; reflexivity.
Qed.

Lemma combine3_maps {P Q R : Type} (a : list P) (b : list Q) (c : list R) :
  length a = length c -> length b = length c ->
  a = map (fun x => fst (fst x)) (combine (combine a b) c) /\
  b = map (fun x => snd (fst x)) (combine (combine a b) c) /\
  c = map (fun x => snd x) (combine (combine a b) c) /\
  length (combine (combine a b) c) = length c.
Proof.
  revert b c. induction a as [|x a IH]; intros [|y b] [|z c] Ha Hb; simpl in *;
    try discriminate; [repeat split|].
  destruct (IH b c) as (H1 & H2 & H3 & H4); [lia|lia|].
  repeat split; congruence.
Qed.

Lemma gates_arrays (g : Geometry) :
  length (lat g) = length (alt g) -> length (lon g) = length (alt g) ->
  lat g = map (fun x : gate => fst (fst x)) (gates g) /\
  lon g = map (fun x : gate => snd (fst x)) (gates g) /\
  alt g = map (fun x : gate => snd x) (gates g) /\
  length (gates g) = length (alt g).
Proof. intros Hla Hlo. unfold gates. apply combine3_maps; assumption. Qed.

Lemma isnan_not_finite (x : float) : isnan x = true -> isfinite x = false.
Proof. unfold isnan, isfinite, is_finite. intros ->. reflexivity. Qed.

Lemma isfinite_not_nan (x : float) : isfinite x = true -> isnan x = false.
Proof.
  unfold isnan, isfinite, is_finite. destruct (is_nan x); [discriminate|reflexivity].
Qed.

(** At a gate that is NaN-positioned or finite-positioned the three
    finiteness tests of the source agree with the NaN test on the altitude. *)
Lemma positioned_tests (x : gate) :
  nan_positioned x || finite_positioned x = true ->
  isfinite (fst (fst x)) = negb (isnan (snd x)) /\
  isfinite (snd (fst x)) = negb (isnan (snd x)) /\
  isfinite (snd x) = negb (isnan (snd x)).
Proof.
  destruct x as [[la lo] al]. cbn [nan_positioned finite_positioned fst snd].
  intros H. apply orb_true_iff in H as [H|H].
  - apply andb_true_iff in H as [H Hlo]. apply andb_true_iff in H as [Hal Hla].
    apply negb_true_iff in Hla, Hlo.
    rewrite Hla, Hlo, Hal, (isnan_not_finite _ Hal). auto.
  - apply andb_true_iff in H as [H Hlo]. apply andb_true_iff in H as [Hal Hla].
    rewrite Hla, Hlo, Hal, (isfinite_not_nan _ Hal). auto.
Qed.

Lemma filter_ext_Forall {P : Type} (p q : P -> bool) (l : list P) :
  Forall (fun x => p x = q x) l -> filter p l = filter q l.
Proof.
  induction 1 as [|x l Hx _ IH]; simpl; [reflexivity|]. rewrite Hx, IH. reflexivity.
Qed.

Lemma bget_nth (a : vec) (i : nat) : i < length a -> bget a i = nth i a nan.
Proof.
  intros H. unfold bget. destruct (Nat.eqb_spec (length a) 1) as [E|_]; [|reflexivity].
  replace i with 0 by lia. reflexivity.
Qed.

Lemma map_seq_nth3 {P : Type} (fa fb fc : P -> float) (l : list P) :
  map (fun i => (nth i (map fa l) nan, nth i (map fb l) nan, nth i (map fc l) nan))
      (seq 0 (length l))
  = map (fun x => (fa x, fb x, fc x)) l.
Proof.
  induction l as [|x l IH]; [reflexivity|].
  cbn [length seq map nth]. f_equal.
  rewrite <- seq_shift, map_map. cbn [nth]. exact IH.
Qed.

(** [broadcast3] of three arrays read off one list is the list of points. *)
Lemma broadcast3_maps {P : Type} (fa fb fc : P -> float) (l : list P) :
  broadcast3 (map fa l) (map fb l) (map fc l)
  = Ok (map (fun x => (fa x, fb x, fc x)) l).
Proof.
  unfold broadcast3, bdim. rewrite !length_map, !Nat.eqb_refl. f_equal.
  rewrite <- (map_seq_nth3 fa fb fc l). apply map_ext_in. intros i Hi.
  apply in_seq in Hi.
  rewrite !bget_nth by (rewrite length_map; lia). reflexivity.
Qed.

Lemma combine_maps {P Q R : Type} (h1 : P -> Q) (h2 : P -> R) (l : list P) :
  combine (map h1 l) (map h2 l) = map (fun x => (h1 x, h2 x)) l.
Proof. induction l as [|x l IH]; simpl; [reflexivity|]. rewrite IH. reflexivity. Qed.

Lemma combine_map_snd {P Q R : Type} (h : Q -> R) (a : list P) (l : list Q) :
  combine a (map h l) = map (fun kx => (fst kx, h (snd kx))) (combine a l).
Proof.
  revert l. induction a as [|k a IH]; intros [|x l]; simpl; try reflexivity.
  rewrite IH. reflexivity.
Qed.

Lemma kvectors_rows (g : Geometry) (k : vec) :
  In k (kvectors g) -> exists a b c, k = [a; b; c].
Proof.
  unfold kvectors. intros H. apply in_map_iff in H as (i & <- & _). eauto.
Qed.

Lemma dot_nan (a b c : float) : dot [a; b; c] nanvec3 = nan.
Proof.
  unfold dot, nanvec3. cbn [zip_with]. rewrite !mul_nan_r. reflexivity.
Qed.

(** C6, amended. When the gates with a missing position are NaN-positioned
    (NaN altitude, latitude and longitude not finite) and all others are
    finite in the three coordinates, and at least one gate is missing,
    [transform] raises nothing and every output array has one entry per
    gate: NaN at the NaN-positioned gates, and at each other gate the
    collaborator's result for that gate's own position. *)
Theorem transform_keeps_gate_index (make_apex : float -> Apex)
  (time : list (float * float)) (g : Geometry) (t0 t1 : float)
  (rest : list (float * float)) :
  time = (t0, t1) :: rest -> valid_timestamp t0 = true ->
  length (lat g) = length (alt g) -> length (lon g) = length (alt g) ->
  length (ke g) = length (alt g) -> length (kn g) = length (alt g) ->
  length (kz g) = length (alt g) ->
  Forall (fun x => nan_positioned x || finite_positioned x = true) (gates g) ->
  Exists (fun x => nan_positioned x = true) (gates g) ->
  let apex := make_apex t0 in
  exists ab : ApexBasis,
    transform make_apex time g = Ok ab /\
    mlat ab = map (at_gate nan (fun la lo al => fst (geo2apex_pt apex la lo al)))
                  (gates g) /\
    mlon ab = map (at_gate nan (fun la lo al => snd (geo2apex_pt apex la lo al)))
                  (gates g) /\
    basis_d1 ab
    = map (at_gate nanvec3 (fun la lo al => fst (fst (basevectors_pt apex la lo al))))
          (gates g) /\
    basis_d2 ab
    = map (at_gate nanvec3 (fun la lo al => snd (fst (basevectors_pt apex la lo al))))
          (gates g) /\
    basis_d3 ab
    = map (at_gate nanvec3 (fun la lo al => snd (basevectors_pt apex la lo al)))
          (gates g) /\
    A ab = map (fun kx => at_gate [nan; nan; nan] (A_at apex (fst kx)) (snd kx))
               (combine (kvectors g) (gates g)) /\
    D ab = map (at_gate nan (D_at apex)) (gates g).
Proof.
  intros Htime Ht0 Hla Hlo Hke Hkn Hkz Hall Hex apex.
  destruct (gates_arrays g Hla Hlo) as (Hlat & Hlon & Halt & Hlen).
  set (gs := gates g) in *.
  set (nanp := fun x : gate => isnan (snd x)).
  set (fin := filter (fun x => negb (nanp x)) gs).
  assert (Htests : Forall (fun x : gate =>
                     isfinite (fst (fst x)) = negb (nanp x) /\
                     isfinite (snd (fst x)) = negb (nanp x) /\
                     isfinite (snd x) = negb (nanp x)) gs).
  { eapply Forall_impl; [|exact Hall]. intros x Hx. apply positioned_tests. exact Hx. }
  assert (Hglat : filter isfinite (lat g) = map (fun x : gate => fst (fst x)) fin).
  { rewrite Hlat, filter_map_comm. f_equal. apply filter_ext_Forall.
    eapply Forall_impl; [|exact Htests]. cbn beta. tauto. }
  assert (Hglon : filter isfinite (lon g) = map (fun x : gate => snd (fst x)) fin).
  { rewrite Hlon, filter_map_comm. f_equal. apply filter_ext_Forall.
    eapply Forall_impl; [|exact Htests]. cbn beta. tauto. }
  assert (Hgalt : map (fun a => (a / 1000)%float) (filter isfinite (alt g))
                  = map (fun x : gate => (snd x / 1000)%float) fin).
  { rewrite Halt, filter_map_comm, map_map. f_equal. apply filter_ext_Forall.
    eapply Forall_impl; [|exact Htests]. cbn beta. tauto. }
  assert (Hidx : map isnan (alt g) = map nanp gs).
  { rewrite Halt, map_map. reflexivity. }
  assert (Hex' : Exists (fun x => nanp x = true) gs).
  { eapply Exists_impl; [|exact Hex]. intros [[la lo] al] Hx.
    cbn [nan_positioned] in Hx. apply andb_true_iff in Hx as [Hx _].
    apply andb_true_iff in Hx as [Hx _]. exact Hx. }
  assert (Hk : transpose3 (ke g) (kn g) (kz g) = Ok (kvectors g)).
  { unfold transpose3. rewrite Hke, Hkn, Hkz, Nat.eqb_refl.
    unfold kvectors. rewrite Hke. reflexivity. }
  unfold transform. rewrite Htime. cbn [getitem length Z.of_nat]. cbn [bind fst].
  change (getitem ((t0, t1) :: rest) 0%Z) with (Ok (A := float * float) (t0, t1)).
  cbn [bind fst]. rewrite Ht0. cbn [negb].
  rewrite Hglat, Hglon, Hgalt, Hidx, Hk.
  rewrite broadcast3_maps. cbn [bind]. rewrite !map_map.
  rewrite !(np_insert_strip nanp _ _ gs Hex'). cbn [bind].
  rewrite !length_map.
  replace (length (kvectors g) =? length gs) with true
    by (symmetry; apply Nat.eqb_eq; unfold kvectors;
        rewrite length_map, length_seq; congruence).
  cbn [negb]. eexists. split; [reflexivity|].
  cbn [mlat mlon basis_d1 basis_d2 basis_d3 A D].
  repeat split.
  - apply map_ext. intros [[la lo] al]. reflexivity.
  - apply map_ext. intros [[la lo] al]. reflexivity.
  - apply map_ext. intros [[la lo] al]. reflexivity.
  - apply map_ext. intros [[la lo] al]. reflexivity.
  - apply map_ext. intros [[la lo] al]. reflexivity.
  - rewrite !combine_maps, combine_map_snd, map_map.
    apply map_ext_in. intros [k [[la lo] al]] Hin.
    apply in_combine_l in Hin. destruct (kvectors_rows g k Hin) as (a & b & c & ->).
    cbn [fst snd at_gate]. change (nanp (la, lo, al)) with (isnan al).
    destruct (isnan al).
    + rewrite !dot_nan. reflexivity.
    + unfold A_at, apex.
      destruct (basevectors_pt (make_apex t0) la lo (al / 1000)) as [[x1 x2] x3].
      reflexivity.
  - rewrite combine_maps, map_map.
    apply map_ext. intros [[la lo] al]. cbn [fst snd at_gate].
    change (nanp (la, lo, al)) with (isnan al).
    destruct (isnan al).
    + vm_compute. reflexivity.
    + unfold D_at, apex.
      destruct (basevectors_pt (make_apex t0) la lo (al / 1000)) as [[x1 x2] x3].
      reflexivity.
Qed.

(** C6, as stated, fails: a gate whose position is infinite is stripped by
    the [isfinite] tests but not counted among the indices to re-insert, which
    come from [isnan]; the arrays come back one entry short and the einsum
    with [kvec] raises. *)
Lemma transform_infinite_position_raises :
  let g := {| lat := [nan; infinity; 61; 62]; lon := [nan; infinity; 11; 12];
              alt := [nan; infinity; 200e3; 300e3];
              ke := [1; 1; 1; 1]; kn := [0; 0; 0; 0]; kz := [0; 0; 0; 0] |}%float in
  isfinite (nth 1 (alt g) 0%float) = false /\
  isfinite (nth 1 (lat g) 0%float) = false /\
  isfinite (nth 1 (lon g) 0%float) = false /\
  transform example_apex [(0, 1)]%float g = Raise ValueError.
Proof. repeat split; vm_compute; reflexivity. Qed.

(** six gates, three of them NaN-positioned *)
Lemma transform_keeps_gate_index_witness :
  let g := {| lat := [60; nan; 61; nan; nan; 62];
              lon := [10; nan; 11; nan; nan; 12];
              alt := [100e3; nan; 200e3; nan; nan; 300e3];
              ke := [1; 1; 1; 1; 1; 1]; kn := [0; 0; 0; 0; 0; 0];
              kz := [0; 0; 0; 0; 0; 1] |}%float in
  let apex := example_apex 0%float in
  Forall (fun x => nan_positioned x || finite_positioned x = true) (gates g) /\
  Exists (fun x => nan_positioned x = true) (gates g) /\
  exists ab : ApexBasis,
    transform example_apex [(0, 1)]%float g = Ok ab /\
    mlat ab = map (at_gate nan (fun la lo al => fst (geo2apex_pt apex la lo al)))
                  (gates g) /\
    mlon ab = map (at_gate nan (fun la lo al => snd (geo2apex_pt apex la lo al)))
                  (gates g) /\
    basis_d1 ab
    = map (at_gate nanvec3 (fun la lo al => fst (fst (basevectors_pt apex la lo al))))
          (gates g) /\
    basis_d2 ab
    = map (at_gate nanvec3 (fun la lo al => snd (fst (basevectors_pt apex la lo al))))
          (gates g) /\
    basis_d3 ab
    = map (at_gate nanvec3 (fun la lo al => snd (basevectors_pt apex la lo al)))
          (gates g) /\
    A ab = map (fun kx => at_gate [nan; nan; nan] (A_at apex (fst kx)) (snd kx))
               (combine (kvectors g) (gates g)) /\
    D ab = map (at_gate nan (D_at apex)) (gates g).
Proof.
  intros g apex.
  assert (Hall : Forall (fun x => nan_positioned x || finite_positioned x = true)
                        (gates g)).
  { repeat (constructor; [reflexivity|]). constructor. }
  assert (Hex : Exists (fun x => nan_positioned x = true) (gates g)).
  { apply Exists_cons_tl. apply Exists_cons_hd. reflexivity. }
  split; [exact Hall|]. split; [exact Hex|].
  exact (transform_keeps_gate_index example_apex [(0, 1)]%float g 0%float 1%float []
           eq_refl eq_refl eq_refl eq_refl eq_refl eq_refl eq_refl Hall Hex).
Defined.

(** * Further properties of the code *)

(** ** [vvels]: the measurements that are not finite *)

Lemma compress_map_filter {X : Type} (f : X -> bool) (l : list X) :
  compress (map f l) l = filter f l.
Proof.
  induction l as [|x l IH]; simpl; [reflexivity|].
  destruct (f x); rewrite IH; reflexivity.
Qed.

Lemma length_compress {X : Type} (mask : list bool) (a : list X) :
  length a = length mask ->
  length (compress mask a) = length (filter (fun b : bool => b) mask).
Proof.
  revert a. induction mask as [|b mask IH]; intros [|x a] H; simpl in *;
    try discriminate; [reflexivity|].
  destruct b; simpl; rewrite IH by lia; reflexivity.
Qed.

Lemma compress_all_true {X : Type} (mask : list bool) (a : list X) :
  length a = length mask -> Forall (fun b => b = true) mask ->
  compress mask a = a.
Proof.
  revert a. induction mask as [|b mask IH]; intros [|x a] H Hall; simpl in *;
    try discriminate; [reflexivity|].
  inversion Hall; subst. rewrite IH by (auto; lia). reflexivity.
Qed.

Lemma compress_In {X : Type} (mask : list bool) (a : list X) (x : X) :
  In x (compress mask a) -> In x a.
Proof.
  revert a. induction mask as [|b mask IH]; intros [|y a] H; simpl in *;
    try contradiction.
  destruct b; [destruct H as [->|H]|]; auto.
Qed.

Lemma finite_mask_of_filter (vlos : vec) :
  Forall (fun b => b = true) (map isfinite (filter isfinite vlos)).
Proof.
  apply Forall_forall. intros b Hb. apply in_map_iff in Hb as (x & <- & Hx).
  apply filter_In in Hx. apply Hx.
Qed.

(** X1. [vvels] uses nothing of a measurement whose LoS velocity is not
    finite: on inputs of consistent shapes, the call gives the result of the
    call on the finite measurements alone (their velocities, errors and
    k-vectors), which are again of consistent shapes. *)
Theorem vvels_drops_nonfinite (vlos dvlos : vec) (A : mat) (cov : vec)
  (minnumpoints : Z) :
  shapes_ok vlos dvlos A cov ->
  let '(v, dv, Af) := finite_part vlos dvlos A in
  shapes_ok v dv Af cov /\
  Forall (fun x => isfinite x = true) v /\
  vvels vlos dvlos A cov minnumpoints = vvels v dv Af cov minnumpoints.
Proof.
  intros Hs. pose proof Hs as (Hd & HA & Hc).
  pose proof (vvels_shapes_ok _ _ _ _ minnumpoints Hs) as H.
  unfold finite_part in *. rewrite compress_map_filter in *.
  set (v := filter isfinite vlos) in *.
  set (dv := compress (map isfinite vlos) dvlos) in *.
  set (Af := compress (map isfinite vlos) A) in *.
  assert (Lv : length v = length (filter (fun b : bool => b) (map isfinite vlos))).
  { unfold v. rewrite count_true_map_filter. reflexivity. }
  assert (Hs' : shapes_ok v dv Af cov).
  { split; [|split].
    - unfold dv. rewrite length_compress by (rewrite length_map; exact Hd). congruence.
    - unfold Af. rewrite length_compress by (rewrite length_map; exact HA). congruence.
    - apply Forall_forall. intros r Hr. apply compress_In in Hr.
      rewrite Forall_forall in Hc. apply Hc. exact Hr. }
  split; [exact Hs'|]. split.
  { apply Forall_forall. intros x Hx. apply filter_In in Hx. apply Hx. }
  pose proof (vvels_shapes_ok _ _ _ _ minnumpoints Hs') as H'.
  unfold finite_part in H'. rewrite compress_map_filter in H'.
  destruct Hs' as (Hd' & HA' & _).
  assert (Hvv : filter isfinite v = v).
  { unfold v. clear. induction vlos as [|x l IH]; simpl; [reflexivity|].
    destruct (isfinite x) eqn:E; simpl; [rewrite E, IH|]; auto. }
  rewrite Hvv in H'.
  rewrite !compress_all_true in H';
    try (rewrite length_map; assumption); try apply finite_mask_of_filter.
  rewrite H, H'. unfold count_finite. fold v. rewrite Hvv. reflexivity.
Qed.

(** three measurements, the second NaN with an infinite error *)
Lemma vvels_drops_nonfinite_witness :
  shapes_ok [1; nan; 2]%float [1; infinity; 1]%float eye3 [1; 1; 1]%float /\
  finite_part [1; nan; 2]%float [1; infinity; 1]%float eye3
  = ([1; 2]%float, [1; 1]%float, [[1; 0; 0]; [0; 0; 1]]%float) /\
  shapes_ok [1; 2]%float [1; 1]%float [[1; 0; 0]; [0; 0; 1]]%float [1; 1; 1]%float /\
  Forall (fun x => isfinite x = true) [1; 2]%float /\
  vvels [1; nan; 2]%float [1; infinity; 1]%float eye3 [1; 1; 1]%float 1
  = vvels [1; 2]%float [1; 1]%float [[1; 0; 0]; [0; 0; 1]]%float [1; 1; 1]%float 1.
Proof.
  assert (Hs : shapes_ok [1; nan; 2]%float [1; infinity; 1]%float eye3
                         [1; 1; 1]%float).
  { repeat split. repeat constructor. }
  split; [exact Hs|]. split; [reflexivity|].
  exact (vvels_drops_nonfinite _ _ _ _ 1%Z Hs).
Defined.

(** ** [vvels]: what it raises *)

Lemma forallb_false_Exists {X : Type} (f : X -> bool) (l : list X) :
  forallb f l = false <-> Exists (fun x => f x = false) l.
Proof.
  induction l as [|x l IH]; simpl.
  - split; [discriminate|]. intros H; inversion H.
  - rewrite andb_false_iff, IH. split.
    + intros [H|H]; [left|right]; exact H.
    + intros H; inversion H; subst; [left|right]; assumption.
Qed.

(** X2. [vvels] raises [IndexError] when the errors or the k-vectors are
    not one per measurement, and [ValueError] when a k-vector has neither the
    length of the prior nor length one (the prior having more than one
    component), also when too few measurements are finite: only
    [LinAlgError] is caught, and [LinAlgError] never leaves the function. *)
Theorem vvels_raises_on_shapes (vlos dvlos : vec) (A : mat) (cov : vec)
  (minnumpoints : Z) :
  (length dvlos <> length vlos ->
   vvels vlos dvlos A cov minnumpoints = Raise IndexError) /\
  (length dvlos = length vlos -> length A <> length vlos ->
   vvels vlos dvlos A cov minnumpoints = Raise IndexError) /\
  (length dvlos = length vlos -> length A = length vlos ->
   length cov <> 1 ->
   Exists (fun r => length r <> length cov /\ length r <> 1) A ->
   vvels vlos dvlos A cov minnumpoints = Raise ValueError) /\
  vvels vlos dvlos A cov minnumpoints <> Raise LinAlgError.
Proof.
  assert (H1 : length dvlos <> length vlos ->
               vvels vlos dvlos A cov minnumpoints = Raise IndexError).
  { intros Hd. unfold vvels, getitem_mask. rewrite length_map.
    destruct (Nat.eqb_spec (length dvlos) (length vlos)); [contradiction|reflexivity]. }
  assert (H2 : length dvlos = length vlos -> length A <> length vlos ->
               vvels vlos dvlos A cov minnumpoints = Raise IndexError).
  { intros Hd HA. unfold vvels, getitem_mask. rewrite !length_map, Hd, Nat.eqb_refl.
    cbn [bind].
    destruct (Nat.eqb_spec (length A) (length vlos)); [contradiction|reflexivity]. }
  split; [exact H1|]. split; [exact H2|]. split.
  - intros Hd HA _ Hex. unfold vvels, getitem_mask.
    rewrite !length_map, Hd, HA, Nat.eqb_refl. cbn [bind].
    replace (forallb (fun r => length r =? length cov) A) with false; [reflexivity|].
    symmetry. apply forallb_false_Exists.
    eapply Exists_impl; [|exact Hex]. cbn beta. intros r [Hr _].
    apply Nat.eqb_neq. exact Hr.
  - destruct (Nat.eq_dec (length dvlos) (length vlos)) as [Hd|Hd];
      [|rewrite (H1 Hd); discriminate].
    destruct (Nat.eq_dec (length A) (length vlos)) as [HA|HA];
      [|rewrite (H2 Hd HA); discriminate].
    unfold vvels, getitem_mask. rewrite !length_map, Hd, HA, Nat.eqb_refl.
    cbn [bind].
    destruct (forallb (fun r => length r =? length cov) A).
    + destruct (vvels_try _ _ _ _ _) as [VS|e] eqn:E.
      * cbn [try_except_LinAlgError bind]. destruct (_ <? _)%Z; discriminate.
      * apply vvels_try_raise in E. subst e. cbn [try_except_LinAlgError bind].
        destruct (_ <? _)%Z; discriminate.
    + cbn [try_except_LinAlgError bind]. discriminate.
Qed.

(** a missing error, a missing k-vector, a prior of two components, and a
    singular system *)
Lemma vvels_raises_on_shapes_witness :
  (length [1; 1]%float <> length [1; 2; 3]%float /\
   vvels [1; 2; 3]%float [1; 1]%float eye3 [1; 1; 1]%float 1 = Raise IndexError) /\
  (length [[1; 0; 0]]%float <> length [1; 2; 3]%float /\
   vvels [1; 2; 3]%float [1; 1; 1]%float [[1; 0; 0]]%float [1; 1; 1]%float 1
   = Raise IndexError) /\
  (Exists (fun r : vec => length r <> length [1; 1]%float /\ length r <> 1) eye3 /\
   vvels [nan; nan; nan]%float [1; 1; 1]%float eye3 [1; 1]%float 1
   = Raise ValueError) /\
  vvels [1; 1]%float [0; 0]%float [[1; 0; 0]; [1; 0; 0]]%float [1; 1; 1]%float 1
  <> Raise LinAlgError.
Proof.
  split; [|split; [|split]].
  - assert (H : length [1; 1]%float <> length [1; 2; 3]%float) by (simpl; lia).
    split; [exact H|].
    exact (proj1 (vvels_raises_on_shapes [1; 2; 3]%float [1; 1]%float eye3
                    [1; 1; 1]%float 1%Z) H).
  - assert (H : length [[1; 0; 0]]%float <> length [1; 2; 3]%float) by (simpl; lia).
    split; [exact H|].
    exact (proj1 (proj2 (vvels_raises_on_shapes [1; 2; 3]%float [1; 1; 1]%float
                           [[1; 0; 0]]%float [1; 1; 1]%float 1%Z)) eq_refl H).
  - assert (H : Exists (fun r : vec => length r <> length [1; 1]%float /\ length r <> 1)
                       eye3).
    { apply Exists_cons_hd. simpl. lia. }
    assert (Hc : length [1; 1]%float <> 1) by (simpl; lia).
    split; [exact H|].
    exact (proj1 (proj2 (proj2 (vvels_raises_on_shapes [nan; nan; nan]%float
                                  [1; 1; 1]%float eye3 [1; 1]%float 1%Z)))
             eq_refl eq_refl Hc H).
  - exact (proj2 (proj2 (proj2 (vvels_raises_on_shapes [1; 1]%float [0; 0]%float
                                  [[1; 0; 0]; [1; 0; 0]]%float [1; 1; 1]%float 1%Z)))).
Defined.

(** ** The order of binary64 *)

Lemma SFcompare_eq_l (x y z : spec_float) :
  SFcompare x y = Some Eq -> SFcompare x z = SFcompare y z.
Proof.
  destruct x as [sx|sx| |sx mx ex], y as [sy|sy| |sy my ey]; simpl;
    try discriminate; try (destruct sx; discriminate);
    try (destruct sy; discriminate); try (destruct sx, sy; discriminate).
  - intros _. destruct z; reflexivity.
  - destruct sx, sy; try discriminate; reflexivity.
  - destruct sx, sy; try discriminate;
      destruct (Z.compare_spec ex ey); try discriminate; subst;
      change (Pos.compare_cont Eq) with Pos.compare;
      destruct (Pos.compare_spec mx my); try discriminate; subst; reflexivity.
Qed.

Lemma SFcompare_eq_r (x y z : spec_float) :
  SFcompare y z = Some Eq -> SFcompare x y = SFcompare x z.
Proof.
  intros H.
  rewrite (SFcompare_antisym y x), (SFcompare_antisym z x).
  f_equal. symmetry. apply SFcompare_eq_l.
  rewrite SFcompare_antisym, H. reflexivity.
Qed.

Lemma leb_ltb_trans (x y z : float) :
  (x <=? y)%float = true -> (y <? z)%float = true -> (x <? z)%float = true.
Proof.
  rewrite FloatAxioms.leb_spec, !FloatAxioms.ltb_spec. unfold SFleb, SFltb.
  intros Hxy Hyz.
  destruct (SFcompare (Prim2SF x) (Prim2SF y)) as [[]|] eqn:E1; try discriminate.
  - rewrite (SFcompare_eq_l _ _ _ E1). exact Hyz.
  - destruct (SFcompare (Prim2SF y) (Prim2SF z)) as [[]|] eqn:E2; try discriminate.
    rewrite (SFcompare_lt_trans _ _ _ E1 E2). reflexivity.
Qed.

Lemma ltb_leb_trans (x y z : float) :
  (x <? y)%float = true -> (y <=? z)%float = true -> (x <? z)%float = true.
Proof.
  rewrite FloatAxioms.leb_spec, !FloatAxioms.ltb_spec. unfold SFleb, SFltb.
  intros Hxy Hyz.
  destruct (SFcompare (Prim2SF y) (Prim2SF z)) as [[]|] eqn:E2; try discriminate.
  - rewrite <- (SFcompare_eq_r _ _ _ E2). exact Hxy.
  - destruct (SFcompare (Prim2SF x) (Prim2SF y)) as [[]|] eqn:E1; try discriminate.
    rewrite (SFcompare_lt_trans _ _ _ E1 E2). reflexivity.
Qed.

Lemma is_nan_spec (x : float) : is_nan x = true <-> Prim2SF x = S754_nan.
Proof.
  unfold is_nan. rewrite negb_true_iff, FloatAxioms.eqb_spec. unfold SFeqb.
  destruct (Prim2SF x) eqn:E; split; intros H; try discriminate; try reflexivity;
    rewrite SFcompare_refl in H by congruence; discriminate.
Qed.

Lemma ltb_not_nan_l (x y : float) : (x <? y)%float = true -> is_nan x = false.
Proof.
  intros H. destruct (is_nan x) eqn:E; [|reflexivity].
  apply is_nan_spec in E. rewrite FloatAxioms.ltb_spec in H. unfold SFltb in H.
  rewrite E in H. discriminate.
Qed.

Lemma leb_not_nan_l (x y : float) : (x <=? y)%float = true -> is_nan x = false.
Proof.
  intros H. destruct (is_nan x) eqn:E; [|reflexivity].
  apply is_nan_spec in E. rewrite FloatAxioms.leb_spec in H. unfold SFleb in H.
  rewrite E in H. discriminate.
Qed.

Lemma leb_not_nan_r (x y : float) : (x <=? y)%float = true -> is_nan y = false.
Proof.
  intros H. destruct (is_nan y) eqn:E; [|reflexivity].
  apply is_nan_spec in E. rewrite FloatAxioms.leb_spec in H. unfold SFleb in H.
  rewrite E in H. destruct (Prim2SF x); discriminate.
Qed.

(** Two floats that are not NaN are comparable. *)
Lemma ltb_false_leb (x y : float) :
  is_nan x = false -> is_nan y = false ->
  (x <? y)%float = false -> (y <=? x)%float = true.
Proof.
  intros Hx Hy. rewrite FloatAxioms.ltb_spec, FloatAxioms.leb_spec.
  unfold SFltb, SFleb. rewrite (SFcompare_antisym (Prim2SF x) (Prim2SF y)).
  assert (Nx : Prim2SF x <> S754_nan)
    by (intros E; apply is_nan_spec in E; congruence).
  assert (Ny : Prim2SF y <> S754_nan)
    by (intros E; apply is_nan_spec in E; congruence).
  destruct (Prim2SF x) as [sx|sx| |sx mx ex], (Prim2SF y) as [sy|sy| |sy my ey];
    try congruence; simpl;
    try (destruct sx; simpl; congruence); try (destruct sy; simpl; congruence);
    try (destruct sx, sy; simpl; congruence).
  destruct sx, sy; simpl; try congruence;
    destruct (ex ?= ey)%Z; simpl; try congruence;
    destruct (Pos.compare_cont Eq mx my); simpl; congruence.
Qed.

(** ** [lin_interp]: the bracket of a target *)

Lemma brackets_cons (xi a b : float) (rest : vec) :
  brackets xi (a :: b :: rest)
  = ((a <=? xi)%float && (xi <? b)%float) :: brackets xi (b :: rest).
Proof. reflexivity. Qed.

Lemma nth_error_brackets (xi : float) (xp : vec) (k : nat) (c : bool) :
  nth_error (brackets xi xp) k = Some c ->
  exists a b, nth_error xp k = Some a /\ nth_error xp (S k) = Some b /\
              c = (a <=? xi)%float && (xi <? b)%float.
Proof.
  revert k. induction xp as [|a xp IH]; intros k H.
  - destruct k; discriminate.
  - destruct xp as [|b rest]; [destruct k; discriminate|].
    rewrite brackets_cons in H. destruct k as [|k].
    + inversion H; subst. exists a, b. repeat split.
    + apply IH in H. exact H.
Qed.

Lemma first_true_spec (mask : list bool) (i k : Z) :
  first_true mask i = Ok k ->
  nth_error mask (Z.to_nat (k - i)) = Some true.
Proof.
  revert i. induction mask as [|b mask IH]; intros i H; simpl in H; [discriminate|].
  destruct b.
  - inversion H; subst. rewrite Z.sub_diag. reflexivity.
  - pose proof (first_true_bound _ _ _ H) as Hb. apply IH in H.
    replace (Z.to_nat (k - i)) with (S (Z.to_nat (k - (i + 1)))) by lia.
    exact H.
Qed.

Lemma first_true_exists (mask : list bool) (i : Z) :
  In true mask -> exists k, first_true mask i = Ok k.
Proof.
  revert i. induction mask as [|b mask IH]; intros i H; [contradiction|].
  simpl. destruct b; [eauto|]. destruct H as [H|H]; [discriminate|]. apply IH. exact H.
Qed.

Lemma first_true_none (mask : list bool) (i : Z) :
  ~ In true mask -> first_true mask i = Raise IndexError.
Proof.
  revert i. induction mask as [|b mask IH]; intros i H; [reflexivity|].
  simpl. destruct b; [exfalso; apply H; left; reflexivity|].
  apply IH. intros Hin. apply H. right. exact Hin.
Qed.

(** In an increasing sequence a target of the half-open range has a
    bracket. *)
Lemma bracket_exists (xi : float) (xp : vec) :
  increasing xp -> within xi xp = true -> In true (brackets xi xp).
Proof.
  unfold within. induction xp as [|a xp IH]; intros Hinc H.
  - cbn [hd] in H. apply andb_true_iff in H as [H _].
    apply leb_not_nan_l in H. discriminate.
  - destruct xp as [|b rest].
    + simpl in H. apply andb_true_iff in H as [H1 H2].
      pose proof (leb_ltb_trans _ _ _ H1 H2) as Hc.
      rewrite ltb_irrefl in Hc. discriminate.
    + destruct Hinc as [Hab Hinc]. rewrite brackets_cons.
      apply andb_true_iff in H as [H1 H2]. cbn [hd] in H1.
      change (last (a :: b :: rest) nan) with (last (b :: rest) nan) in H2.
      rewrite H1. cbn [andb].
      destruct (xi <? b)%float eqn:E; [left; reflexivity|].
      right. apply IH; [exact Hinc|]. cbn [hd].
      rewrite H2, andb_true_r.
      apply ltb_false_leb; [|exact (ltb_not_nan_r _ _ Hab)|exact E].
      exact (ltb_not_nan_l _ _ H2).
Qed.

Lemma nanmin_hd (xp : vec) : increasing xp -> xp <> [] -> nanmin xp = Ok (hd nan xp).
Proof.
  destruct xp as [|a xp]; [congruence|]. intros H _. unfold nanmin. f_equal.
  apply nanmin_increasing. exact H.
Qed.

Lemma nanmax_last (xp : vec) : increasing xp -> xp <> [] -> nanmax xp = Ok (last xp nan).
Proof.
  destruct xp as [|a xp]; [congruence|]. intros H _. unfold nanmax. f_equal.
  apply nanmax_increasing. exact H.
Qed.

Lemma bound_index_increasing (xi : float) (xp : vec) :
  increasing xp -> xp <> [] ->
  bound_index xi xp
  = if within xi xp then first_true (brackets xi xp) 0%Z else Ok (-1)%Z.
Proof.
  intros Hinc Hne. unfold bound_index.
  rewrite (nanmin_hd _ Hinc Hne), (nanmax_last _ Hinc Hne). reflexivity.
Qed.

(** What [lin_interp] holds at target [j]: the point computed at the index
    of that target. *)
Lemma lin_interp_at (x xp fp dfp f df : vec) (j : nat) (xj : float) :
  lin_interp x xp fp dfp = Ok (f, df) ->
  nth_error x j = Some xj ->
  exists i r, bound_index xj xp = Ok i /\ interp_point xp fp dfp xj i = Ok r /\
              nth_error f j = Some (fst r) /\ nth_error df j = Some (snd r).
Proof.
  intros H Hj. unfold lin_interp in H.
  destruct x as [|x0 x']; [discriminate|].
  set (x := x0 :: x') in *.
  destruct (mapM (fun xi => bound_index xi xp) x) as [i|] eqn:Ei; [|discriminate].
  cbn [bind] in H.
  destruct (mapM _ (combine x i)) as [fdf|] eqn:Ef; [|discriminate].
  cbn [bind] in H. inversion H; subst f df.
  destruct (mapM_ok _ _ _ Ei) as [Hlen Hi].
  destruct (Hi j xj Hj) as (ij & Hij & Eij).
  destruct (mapM_ok _ _ _ Ef) as [_ Hf].
  destruct (Hf j (xj, ij) (nth_error_combine _ _ _ _ _ Hj Hij)) as (r & Hr & Er).
  exists ij, r. split; [exact Eij|]. split; [exact Er|].
  rewrite !nth_error_map, Hr. split; reflexivity.
Qed.

Lemma getitem_succ {X : Type} (l : list X) (k : nat) (x : X) :
  getitem l (Z.of_nat k + 1) = Ok x -> nth_error l (S k) = Some x.
Proof.
  intros H. apply getitem_nat. rewrite Nat2Z.inj_succ. exact H.
Qed.

(** X3. On up-B altitudes that increase, [lin_interp] raises nothing and
    returns one value and one error per target; a target of the half-open
    range gets the linear interpolation, and the combined error, of the two
    neighbouring altitudes that bracket it. *)
Theorem lin_interp_on_increasing_knots (x xp fp dfp : vec) :
  increasing xp -> xp <> [] -> x <> [] ->
  length fp = length xp -> length dfp = length xp ->
  exists f df,
    lin_interp x xp fp dfp = Ok (f, df) /\
    length f = length x /\ length df = length x /\
    forall j xj,
      nth_error x j = Some xj -> within xj xp = true ->
      exists (k : nat) (a b fa fb da db : float),
        nth_error xp k = Some a /\ nth_error xp (S k) = Some b /\
        (a <=? xj)%float = true /\ (xj <? b)%float = true /\
        nth_error fp k = Some fa /\ nth_error fp (S k) = Some fb /\
        nth_error dfp k = Some da /\ nth_error dfp (S k) = Some db /\
        let X := ((xj - a) / (b - a))%float in
        nth_error f j = Some (fa + (fb - fa) * X)%float /\
        nth_error df j = Some (sqrt (sq (1 - X) * sq da + sq X * sq db))%float.
Proof.
  intros Hinc Hne Hx Hf Hd.
  destruct (lin_interp_returns x xp fp dfp Hx Hf Hd) as (f & df & H).
  { apply Forall_forall. intros xi _.
    rewrite (bound_index_increasing _ _ Hinc Hne).
    destruct (within xi xp) eqn:E; [|reflexivity].
    destruct (first_true_exists _ 0%Z (bracket_exists _ _ Hinc E)) as [k Hk].
    rewrite Hk. reflexivity. }
  exists f, df. split; [exact H|].
  destruct (lin_interp_length _ _ _ _ _ _ H) as [Lf Ldf].
  split; [exact Lf|]. split; [exact Ldf|].
  intros j xj Hj Hin.
  destruct (lin_interp_at _ _ _ _ _ _ j xj H Hj) as (i & r & Hi & Hr & Hfj & Hdfj).
  rewrite (bound_index_increasing _ _ Hinc Hne), Hin in Hi.
  pose proof (first_true_nonneg _ _ _ (Z.le_refl 0) Hi) as Hi0.
  apply first_true_spec in Hi. rewrite Z.sub_0_r in Hi.
  destruct (nth_error_brackets _ _ _ _ Hi) as (a & b & Ha & Hb & Hc).
  symmetry in Hc. apply andb_true_iff in Hc as [Hc1 Hc2].
  replace i with (Z.of_nat (Z.to_nat i)) in Hr by lia.
  set (k := Z.to_nat i) in *.
  unfold interp_point in Hr.
  bind_inv Hr a' E1. bind_inv Hr b' E2. bind_inv Hr fa E3. bind_inv Hr fb E4.
  bind_inv Hr da E5. bind_inv Hr db E6.
  apply getitem_nat in E1, E3, E5. apply getitem_succ in E2, E4, E6.
  assert (a' = a) by congruence. assert (b' = b) by congruence. subst a' b'.
  destruct (Z.ltb_spec (Z.of_nat k) 0) as [Hneg|_]; [lia|].
  inversion Hr; subst r. cbn [fst snd] in *.
  exists k, a, b, fa, fb, da, db. repeat split; assumption.
Qed.

(** up-B altitudes 100, 200, 300; targets below, inside and at the upper end *)
Lemma lin_interp_on_increasing_knots_witness :
  let xp := [100; 200; 300]%float in
  let x := [50; 150; 300]%float in
  increasing xp /\ within 150 xp = true /\
  exists f df,
    lin_interp x xp [1; 2; 3]%float [0.1; 0.1; 0.1]%float = Ok (f, df) /\
    length f = 3 /\ length df = 3 /\
    forall j xj,
      nth_error x j = Some xj -> within xj xp = true ->
      exists (k : nat) (a b fa fb da db : float),
        nth_error xp k = Some a /\ nth_error xp (S k) = Some b /\
        (a <=? xj)%float = true /\ (xj <? b)%float = true /\
        nth_error [1; 2; 3]%float k = Some fa /\
        nth_error [1; 2; 3]%float (S k) = Some fb /\
        nth_error [0.1; 0.1; 0.1]%float k = Some da /\
        nth_error [0.1; 0.1; 0.1]%float (S k) = Some db /\
        let X := ((xj - a) / (b - a))%float in
        nth_error f j = Some (fa + (fb - fa) * X)%float /\
        nth_error df j = Some (sqrt (sq (1 - X) * sq da + sq X * sq db))%float.
Proof.
  intros xp x.
  assert (Hinc : increasing xp) by (repeat split).
  split; [exact Hinc|]. split; [reflexivity|].
  apply (lin_interp_on_increasing_knots x xp [1; 2; 3]%float [0.1; 0.1; 0.1]%float);
    [exact Hinc|discriminate|discriminate|reflexivity|reflexivity].
Defined.

Lemma mapM_raise {X Y : Type} (f : X -> result Y) (e : exn) (l : list X) :
  (forall x, In x l -> is_ok (f x) = true \/ f x = Raise e) ->
  Exists (fun x => f x = Raise e) l ->
  mapM f l = Raise e.
Proof.
  induction l as [|a l IH]; intros Hall Hex; [inversion Hex|].
  simpl. destruct (Hall a (or_introl eq_refl)) as [Hok|Hr].
  - destruct (f a) as [y|] eqn:Ea; [|discriminate]. cbn [bind].
    rewrite IH; [reflexivity| |].
    + intros x Hx. apply Hall. right. exact Hx.
    + inversion Hex; subst; [congruence|assumption].
  - rewrite Hr. reflexivity.
Qed.

Lemma never_rising_no_bracket (xi : float) (xp : vec) :
  never_rising xp -> ~ In true (brackets xi xp).
Proof.
  induction xp as [|a xp IH]; intros H Hin; [contradiction|].
  destruct xp as [|b rest]; [contradiction|].
  destruct H as [Hab H]. rewrite brackets_cons in Hin.
  destruct Hin as [Hin|Hin]; [|exact (IH H Hin)].
  apply andb_true_iff in Hin as [H1 H2].
  rewrite (leb_ltb_trans _ _ _ H1 H2) in Hab. discriminate.
Qed.

(** X4. On up-B altitudes that never rise (descending, or repeated) a
    target that passes the range test has no bracket, and [lin_interp]
    raises [IndexError]. *)
Theorem lin_interp_needs_rising_knots (x xp fp dfp : vec) (lo hi : float) :
  never_rising xp ->
  nanmin xp = Ok lo -> nanmax xp = Ok hi ->
  Exists (fun xi => (lo <=? xi)%float && (xi <? hi)%float = true) x ->
  lin_interp x xp fp dfp = Raise IndexError.
Proof.
  intros Hnr Hlo Hhi Hex. unfold lin_interp.
  destruct x as [|x0 x']; [inversion Hex|]. set (x := x0 :: x') in *.
  rewrite (mapM_raise (fun xi => bound_index xi xp) IndexError x); [reflexivity| |].
  - intros xi _. unfold bound_index. rewrite Hlo, Hhi. cbn [bind].
    destruct (_ && _); [|left; reflexivity].
    right. apply first_true_none. apply never_rising_no_bracket. exact Hnr.
  - eapply Exists_impl; [|exact Hex]. cbn beta. intros xi Hin.
    unfold bound_index. rewrite Hlo, Hhi. cbn [bind]. rewrite Hin.
    apply first_true_none. apply never_rising_no_bracket. exact Hnr.
Qed.

(** altitudes stored from the top down *)
Lemma lin_interp_needs_rising_knots_witness :
  never_rising [300; 200; 100]%float /\
  nanmin [300; 200; 100]%float = Ok 100%float /\
  nanmax [300; 200; 100]%float = Ok 300%float /\
  Exists (fun xi => (100 <=? xi)%float && (xi <? 300)%float = true) [50; 150]%float /\
  lin_interp [50; 150]%float [300; 200; 100]%float [3; 2; 1]%float
             [0.1; 0.1; 0.1]%float
  = Raise IndexError.
Proof.
  assert (Hnr : never_rising [300; 200; 100]%float) by (repeat split).
  assert (Hex : Exists (fun xi => (100 <=? xi)%float && (xi <? 300)%float = true)
                       [50; 150]%float).
  { apply Exists_cons_tl. apply Exists_cons_hd. reflexivity. }
  split; [exact Hnr|]. split; [reflexivity|]. split; [reflexivity|].
  split; [exact Hex|].
  exact (lin_interp_needs_rising_knots _ _ _ _ 100%float 300%float Hnr
           eq_refl eq_refl Hex).
Defined.

(** ** [ion_outflow_correction]: the corrected values *)

Lemma bound_index_increasing_ok (xi : float) (xp : vec) :
  increasing xp -> xp <> [] -> is_ok (bound_index xi xp) = true.
Proof.
  intros Hinc Hne. rewrite (bound_index_increasing _ _ Hinc Hne).
  destruct (within xi xp) eqn:E; [|reflexivity].
  destruct (first_true_exists _ 0%Z (bracket_exists _ _ Hinc E)) as [k Hk].
  rewrite Hk. reflexivity.
Qed.

Lemma nth_zip_with {X Y W : Type} (f : X -> Y -> W) (a : list X) (b : list Y)
  (g : nat) (dx : X) (dy : Y) (dw : W) :
  g < length a -> g < length b ->
  nth g (zip_with f a b) dw = f (nth g a dx) (nth g b dy).
Proof.
  revert a b. induction g as [|g IH]; intros [|x a] [|y b] Ha Hb; simpl in *;
    try lia; [reflexivity|]. apply IH; lia.
Qed.

Lemma length_zip_with_min {X Y W : Type} (f : X -> Y -> W) (a : list X) (b : list Y) :
  length (zip_with f a b) = Nat.min (length a) (length b).
Proof.
  revert b. induction a as [|x a IH]; intros [|y b]; simpl; auto.
Qed.

Lemma column2_ok (A : mat) :
  rows_of 3 A ->
  exists A2, column2 A = Ok A2 /\ length A2 = length A /\
             forall g, g < length A -> nth g A2 nan = nth 2 (nth g A []) nan.
Proof.
  intros HA. unfold column2.
  exists (map (fun r => nth 2 r nan) A). split; [|split].
  - apply mapM_all_ok. intros r Hr. unfold rows_of in HA.
    rewrite Forall_forall in HA. specialize (HA r Hr).
    destruct r as [|r0 [|r1 [|r2 [|]]]]; try discriminate. reflexivity.
  - apply length_map.
  - intros g Hg. rewrite (nth_indep _ nan (nth 2 [] nan)) by (rewrite length_map; exact Hg).
    apply (map_nth (fun r => nth 2 r nan)).
Qed.

Lemma rows_of_nth (n : nat) (M : mat) (t : nat) (row : vec) :
  rows_of n M -> nth_error M t = Some row -> length row = n.
Proof.
  intros HM Ht. unfold rows_of in HM. rewrite Forall_forall in HM.
  apply HM. eapply nth_error_In; eassumption.
Qed.

Lemma getitem_nat_ok {X : Type} (l : list X) (t : nat) :
  t < length l -> exists x, getitem l (Z.of_nat t) = Ok x /\ nth_error l t = Some x.
Proof.
  intros Ht. destruct (getitem_ok l (Z.of_nat t)) as [x Hx]; [lia|].
  exists x. split; [exact Hx|]. apply getitem_nat. exact Hx.
Qed.

Lemma setitem_row_ok (n : nat) (M : mat) (t : nat) (old row : vec) :
  rows_of n M -> nth_error M t = Some old -> length row = n ->
  setitem_row M t row = Ok (firstn t M ++ row :: skipn (S t) M).
Proof.
  intros HM Ht Hrow. unfold setitem_row. rewrite Ht.
  rewrite (rows_of_nth _ _ _ _ HM Ht), Hrow, Nat.eqb_refl. reflexivity.
Qed.


Lemma getitem_of_nth {X : Type} (l : list X) (t : nat) (x : X) :
  nth_error l t = Some x -> getitem l (Z.of_nat t) = Ok x.
Proof.
  intros H. assert (Ht : t < length l) by (apply nth_error_Some; congruence).
  destruct (getitem_nat_ok l t Ht) as (y & Hy & Hn). congruence.
Qed.

Lemma broadcast2_ok (f : float -> float -> float) (a b : vec) :
  length a = length b -> broadcast2 f a b = Ok (zip_with f a b).
Proof. intros H. unfold broadcast2. rewrite H, Nat.eqb_refl. reflexivity. Qed.

Lemma length_replace {X : Type} (M : list X) (t : nat) (row : X) :
  t < length M -> length (firstn t M ++ row :: skipn (S t) M) = length M.
Proof.
  intros Ht. rewrite length_app, length_firstn. cbn [length].
  rewrite length_skipn. lia.
Qed.

Lemma rows_of_replace (n : nat) (M : mat) (t : nat) (row : vec) :
  rows_of n M -> length row = n -> rows_of n (firstn t M ++ row :: skipn (S t) M).
Proof.
  intros HM Hrow. unfold rows_of in *. apply Forall_app. split.
  - apply Forall_forall. intros r Hr. rewrite Forall_forall in HM.
    apply HM. rewrite <- (firstn_skipn t M). apply in_or_app. left. exact Hr.
  - constructor; [exact Hrow|].
    apply Forall_forall. intros r Hr. rewrite Forall_forall in HM.
    apply HM. rewrite <- (firstn_skipn (S t) M). apply in_or_app. right. exact Hr.
Qed.

Lemma length_corrected_row (D A2 vion row : vec) (n : nat) :
  length D = n -> length A2 = n -> length vion = n -> length row = n ->
  length (corrected_row D A2 vion row) = n.
Proof.
  intros. unfold corrected_row. rewrite !length_zip_with_min. lia.
Qed.

Lemma length_corrected_error_row (D A2 dvion row : vec) (n : nat) :
  length D = n -> length A2 = n -> length dvion = n -> length row = n ->
  length (corrected_error_row D A2 dvion row) = n.
Proof.
  intros. unfold corrected_error_row.
  repeat (rewrite ?length_map, ?length_zip_with_min). lia.
Qed.

(** One pass of the loop, on well-shaped arrays: it returns, and writes the
    corrected rows at record [t]. *)
Lemma outflow_step_value (alt D A2 : vec) (A : mat) (upB : UpB) (v dv : mat)
  (t : nat) (fp dfp vt dvt : vec) :
  increasing (upB_alt upB) -> upB_alt upB <> [] -> alt <> [] ->
  length D = length alt -> column2 A = Ok A2 -> length A2 = length alt ->
  rows_of (length alt) v -> rows_of (length alt) dv ->
  nth_error (upB_vlos upB) t = Some fp -> nth_error (upB_dvlos upB) t = Some dfp ->
  length fp = length (upB_alt upB) -> length dfp = length (upB_alt upB) ->
  nth_error v t = Some vt -> nth_error dv t = Some dvt ->
  exists vion dvion,
    lin_interp alt (upB_alt upB) fp dfp = Ok (vion, dvion) /\
    length vion = length alt /\ length dvion = length alt /\
    outflow_step alt D A upB (v, dv) t
    = Ok (firstn t v ++ corrected_row D A2 vion vt :: skipn (S t) v,
          firstn t dv ++ corrected_error_row D A2 dvion dvt :: skipn (S t) dv).
Proof.
  intros Hinc Hne Halt HD HA2 LA2 Hv Hdv Hfp Hdfp Lfp Ldfp Hvt Hdvt.
  destruct (lin_interp_returns alt (upB_alt upB) fp dfp Halt Lfp Ldfp)
    as (vion & dvion & Hli).
  { apply Forall_forall. intros xi _. apply bound_index_increasing_ok; assumption. }
  destruct (lin_interp_length _ _ _ _ _ _ Hli) as [Lvion Ldvion].
  pose proof (rows_of_nth _ _ _ _ Hv Hvt) as Lvt.
  pose proof (rows_of_nth _ _ _ _ Hdv Hdvt) as Ldvt.
  exists vion, dvion. split; [exact Hli|]. split; [exact Lvion|]. split; [exact Ldvion|].
  unfold outflow_step.
  rewrite (getitem_of_nth _ _ _ Hfp), (getitem_of_nth _ _ _ Hdfp). cbn [bind].
  rewrite Hli. cbn [bind].
  rewrite (getitem_of_nth _ _ _ Hvt). cbn [bind]. rewrite HA2. cbn [bind].
  rewrite (broadcast2_ok _ D A2) by congruence. cbn [bind].
  rewrite (broadcast2_ok _ _ vion)
    by (rewrite length_zip_with_min; lia). cbn [bind].
  rewrite (broadcast2_ok _ vt)
    by (rewrite !length_zip_with_min; lia). cbn [bind].
  fold (corrected_row D A2 vion vt).
  rewrite (setitem_row_ok (length alt) v t vt)
    by (try assumption; apply length_corrected_row; congruence).
  cbn [bind]. rewrite (getitem_of_nth _ _ _ Hdvt). cbn [bind].
  rewrite (broadcast2_ok _ (map sq D)) by (rewrite !length_map; congruence).
  cbn [bind].
  rewrite (broadcast2_ok _ _ (map sq dvion))
    by (rewrite length_zip_with_min, !length_map; lia). cbn [bind].
  rewrite (broadcast2_ok _ (map sq dvt))
    by (rewrite !length_zip_with_min, !length_map; lia). cbn [bind].
  fold (corrected_error_row D A2 dvion dvt).
  rewrite (setitem_row_ok (length alt) dv t dvt)
    by (try assumption; apply length_corrected_error_row; congruence).
  reflexivity.
Qed.

Lemma nth_error_nth_nil {X : Type} (M : list (list X)) (t : nat) (row : list X) :
  nth_error M t = Some row -> nth t M [] = row.
Proof. intros H. apply nth_error_nth. exact H. Qed.

Lemma nth_of_nth_error_eq {X : Type} (a b : list X) (t : nat) (d : X) :
  nth_error a t = nth_error b t -> nth t a d = nth t b d.
Proof.
  intros H. rewrite <- !nth_default_eq. unfold nth_default.
  rewrite H. reflexivity.
Qed.

(** The loop over the records [l]: each record is corrected once, from its
    own row and the up-B profile of the same record. *)
Lemma outflow_loop_value (alt D A2 : vec) (A : mat) (upB : UpB) :
  increasing (upB_alt upB) -> upB_alt upB <> [] -> alt <> [] ->
  length D = length alt -> column2 A = Ok A2 -> length A2 = length alt ->
  rows_of (length (upB_alt upB)) (upB_vlos upB) ->
  rows_of (length (upB_alt upB)) (upB_dvlos upB) ->
  forall (l : list nat) (v dv : mat),
    NoDup l ->
    (forall t, In t l -> t < length v /\ t < length dv /\
                         t < length (upB_vlos upB) /\ t < length (upB_dvlos upB)) ->
    rows_of (length alt) v -> rows_of (length alt) dv ->
    exists v' dv',
      for_each (outflow_step alt D A upB) l (v, dv) = Ok (v', dv') /\
      length v' = length v /\ length dv' = length dv /\
      rows_of (length alt) v' /\ rows_of (length alt) dv' /\
      (forall t, ~ In t l ->
                 nth_error v' t = nth_error v t /\ nth_error dv' t = nth_error dv t) /\
      (forall t, In t l ->
                 exists vion dvion,
                   lin_interp alt (upB_alt upB) (nth t (upB_vlos upB) [])
                              (nth t (upB_dvlos upB) []) = Ok (vion, dvion) /\
                   length vion = length alt /\ length dvion = length alt /\
                   nth t v' [] = corrected_row D A2 vion (nth t v []) /\
                   nth t dv' [] = corrected_error_row D A2 dvion (nth t dv [])).
Proof.
  intros Hinc Hne Halt HD HA2 LA2 Hup Hdup.
  induction l as [|t l IH]; intros v dv Hnd Hin Hv Hdv.
  - exists v, dv. cbn [for_each]. repeat split; auto. intros t [].
  - destruct (Hin t (or_introl eq_refl)) as (Htv & Htdv & Htu & Htdu).
    destruct (nth_error v t) as [vt|] eqn:Evt; [|apply nth_error_None in Evt; lia].
    destruct (nth_error dv t) as [dvt|] eqn:Edvt; [|apply nth_error_None in Edvt; lia].
    destruct (nth_error (upB_vlos upB) t) as [fp|] eqn:Efp;
      [|apply nth_error_None in Efp; lia].
    destruct (nth_error (upB_dvlos upB) t) as [dfp|] eqn:Edfp;
      [|apply nth_error_None in Edfp; lia].
    destruct (outflow_step_value alt D A2 A upB v dv t fp dfp vt dvt
                Hinc Hne Halt HD HA2 LA2 Hv Hdv Efp Edfp
                (rows_of_nth _ _ _ _ Hup Efp) (rows_of_nth _ _ _ _ Hdup Edfp) Evt Edvt)
      as (vion & dvion & Hli & Lvion & Ldvion & Hstep).
    set (v1 := firstn t v ++ corrected_row D A2 vion vt :: skipn (S t) v) in *.
    set (dv1 := firstn t dv ++ corrected_error_row D A2 dvion dvt :: skipn (S t) dv) in *.
    assert (Lv1 : length v1 = length v) by (apply length_replace; exact Htv).
    assert (Ldv1 : length dv1 = length dv) by (apply length_replace; exact Htdv).
    assert (Hv1 : rows_of (length alt) v1).
    { apply rows_of_replace; [exact Hv|].
      apply length_corrected_row; try congruence.
      exact (rows_of_nth _ _ _ _ Hv Evt). }
    assert (Hdv1 : rows_of (length alt) dv1).
    { apply rows_of_replace; [exact Hdv|].
      apply length_corrected_error_row; try congruence.
      exact (rows_of_nth _ _ _ _ Hdv Edvt). }
    destruct (nth_error_replace v t vt (corrected_row D A2 vion vt) Evt) as [R1 R2].
    destruct (nth_error_replace dv t dvt (corrected_error_row D A2 dvion dvt) Edvt)
      as [R3 R4].
    fold v1 in R1, R2. fold dv1 in R3, R4.
    inversion Hnd as [|? ? Hnotin Hnd']; subst.
    destruct (IH v1 dv1 Hnd') as (v' & dv' & Hfor & Lv' & Ldv' & Hv' & Hdv' & Hkeep & Hval);
      [|exact Hv1|exact Hdv1|].
    { intros t' Ht'. rewrite Lv1, Ldv1. apply Hin. right. exact Ht'. }
    exists v', dv'. cbn [for_each]. rewrite Hstep. cbn [bind].
    split; [exact Hfor|]. split; [congruence|]. split; [congruence|].
    split; [exact Hv'|]. split; [exact Hdv'|]. split.
    + intros t' Ht'.
      assert (Ht1 : t' <> t) by (intros ->; apply Ht'; left; reflexivity).
      assert (Ht2 : ~ In t' l) by (intros Hi; apply Ht'; right; exact Hi).
      destruct (Hkeep t' Ht2) as [K1 K2].
      rewrite K1, K2. split; [apply R2|apply R4]; exact Ht1.
    + intros t' [<-|Ht'].
      * destruct (Hkeep t Hnotin) as [K1 K2].
        exists vion, dvion.
        rewrite (nth_error_nth_nil _ _ _ Efp), (nth_error_nth_nil _ _ _ Edfp).
        split; [exact Hli|]. split; [exact Lvion|]. split; [exact Ldvion|].
        rewrite (nth_error_nth_nil _ _ _ Evt), (nth_error_nth_nil _ _ _ Edvt).
        split; apply nth_error_nth_nil; [rewrite K1; exact R1|rewrite K2; exact R3].
      * destruct (Hval t' Ht') as (vion' & dvion' & Hli' & L1 & L2 & E1 & E2).
        assert (Ht1 : t' <> t) by (intros ->; contradiction).
        exists vion', dvion'. split; [exact Hli'|]. split; [exact L1|].
        split; [exact L2|].
        assert (N1 : nth t' v1 [] = nth t' v []).
        { apply nth_of_nth_error_eq. apply R2. exact Ht1. }
        assert (N2 : nth t' dv1 [] = nth t' dv []).
        { apply nth_of_nth_error_eq. apply R4. exact Ht1. }
        rewrite <- N1, <- N2. split; assumption.
Qed.

Lemma nth_map_lt {X Y : Type} (f : X -> Y) (l : list X) (g : nat) (d : X) (d' : Y) :
  g < length l -> nth g (map f l) d' = f (nth g l d).
Proof.
  intros Hg. rewrite (nth_indep _ d' (f d)) by (rewrite length_map; exact Hg).
  apply map_nth.
Qed.

Lemma entry_corrected_row (D A2 vion row : vec) (g : nat) :
  g < length D -> g < length A2 -> g < length vion -> g < length row ->
  nth g (corrected_row D A2 vion row) nan
  = corrected_vlos (nth g row nan) (nth g D nan) (nth g A2 nan) (nth g vion nan).
Proof.
  intros HD HA Hv Hr. unfold corrected_row, corrected_vlos.
  rewrite (nth_zip_with _ _ _ g nan nan)
    by (rewrite ?length_zip_with_min; lia).
  rewrite (nth_zip_with _ _ _ g nan nan)
    by (rewrite ?length_zip_with_min; lia).
  rewrite (nth_zip_with _ _ _ g nan nan) by lia.
  reflexivity.
Qed.

Lemma entry_corrected_error_row (D A2 dvion row : vec) (g : nat) :
  g < length D -> g < length A2 -> g < length dvion -> g < length row ->
  nth g (corrected_error_row D A2 dvion row) nan
  = corrected_dvlos (nth g row nan) (nth g D nan) (nth g A2 nan) (nth g dvion nan).
Proof.
  intros HD HA Hv Hr. unfold corrected_error_row, corrected_dvlos.
  rewrite (nth_map_lt sqrt _ g nan)
    by (repeat (rewrite ?length_map, ?length_zip_with_min); lia).
  rewrite (nth_zip_with _ _ _ g nan nan)
    by (repeat (rewrite ?length_map, ?length_zip_with_min); lia).
  rewrite (nth_zip_with _ _ _ g nan nan)
    by (repeat (rewrite ?length_map, ?length_zip_with_min); lia).
  rewrite (nth_zip_with _ _ _ g nan nan)
    by (repeat (rewrite ?length_map, ?length_zip_with_min); lia).
  rewrite !(nth_map_lt sq _ g nan) by lia.
  reflexivity.
Qed.

(** X5. With an up-B beam configured, up-B altitudes that increase and
    arrays of matching shapes, [ion_outflow_correction] raises nothing and
    keeps the shapes; at every record [t] of the loop and every gate [g] the
    velocity becomes [vlos + D[g] * A[g,2] * vion[g]] and the error
    [sqrt(dvlos^2 + D[g]^2 * A[g,2]^2 * dvion[g]^2)], where [vion], [dvion]
    interpolate the up-B profile of that same record [t] to the gate
    altitudes; records beyond the loop are left as they were. *)
Theorem outflow_correction_values (beam : option Z) (ntime : nat) (alt D : vec)
  (A : mat) (upB : UpB) (vlos dvlos : mat) :
  truthy_int beam = true ->
  increasing (upB_alt upB) -> upB_alt upB <> [] -> alt <> [] ->
  length D = length alt -> length A = length alt -> rows_of 3 A ->
  rows_of (length alt) vlos -> rows_of (length alt) dvlos ->
  ntime <= length vlos -> ntime <= length dvlos ->
  rows_of (length (upB_alt upB)) (upB_vlos upB) ->
  rows_of (length (upB_alt upB)) (upB_dvlos upB) ->
  ntime <= length (upB_vlos upB) -> ntime <= length (upB_dvlos upB) ->
  exists vlos' dvlos',
    ion_outflow_correction beam ntime alt D A upB vlos dvlos = Ok (vlos', dvlos') /\
    length vlos' = length vlos /\ length dvlos' = length dvlos /\
    rows_of (length alt) vlos' /\ rows_of (length alt) dvlos' /\
    (forall t, t < ntime ->
       exists vion dvion,
         lin_interp alt (upB_alt upB) (nth t (upB_vlos upB) [])
                    (nth t (upB_dvlos upB) []) = Ok (vion, dvion) /\
         forall g, g < length alt ->
           entry vlos' t g
           = corrected_vlos (entry vlos t g) (nth g D nan)
                            (nth 2 (nth g A []) nan) (nth g vion nan) /\
           entry dvlos' t g
           = corrected_dvlos (entry dvlos t g) (nth g D nan)
                             (nth 2 (nth g A []) nan) (nth g dvion nan)) /\
    (forall t, ntime <= t ->
       nth t vlos' [] = nth t vlos [] /\ nth t dvlos' [] = nth t dvlos []).
Proof.
  intros Hb Hinc Hne Halt HD HA HA3 Hv Hdv Ltv Ltdv Hup Hdup Ltu Ltdu.
  destruct (column2_ok A HA3) as (A2 & HA2 & LA2 & HA2g).
  destruct (outflow_loop_value alt D A2 A upB Hinc Hne Halt HD HA2
              (eq_trans LA2 HA) Hup Hdup (seq 0 ntime) vlos dvlos (seq_NoDup ntime 0))
    as (v' & dv' & Hfor & Lv' & Ldv' & Hv' & Hdv' & Hkeep & Hval);
    [|exact Hv|exact Hdv|].
  { intros t Ht. apply in_seq in Ht. lia. }
  exists v', dv'. unfold ion_outflow_correction. rewrite Hb.
  split; [exact Hfor|]. split; [exact Lv'|]. split; [exact Ldv'|].
  split; [exact Hv'|]. split; [exact Hdv'|]. split.
  - intros t Ht. destruct (Hval t) as (vion & dvion & Hli & L1 & L2 & E1 & E2).
    { apply in_seq. lia. }
    exists vion, dvion. split; [exact Hli|]. intros g Hg.
    assert (Lrow : forall M : mat, rows_of (length alt) M -> t < length M ->
                                   length (nth t M []) = length alt).
    { intros M HM HtM. destruct (nth_error M t) as [row|] eqn:E;
        [|apply nth_error_None in E; lia].
      rewrite (nth_error_nth_nil _ _ _ E). exact (rows_of_nth _ _ _ _ HM E). }
    unfold entry. rewrite E1, E2, <- (HA2g g) by lia.
    split; [apply entry_corrected_row|apply entry_corrected_error_row];
      rewrite ?Lrow by (assumption || lia); lia.
  - intros t Ht. destruct (Hkeep t) as [K1 K2].
    { intros Hi. apply in_seq in Hi. lia. }
    split; apply nth_of_nth_error_eq; assumption.
Qed.

(** two records, two gates between the up-B altitudes 100 and 300 *)
Lemma outflow_correction_values_witness :
  let upB := {| upB_alt := [100; 300]%float;
                upB_vlos := [[10; 30]; [20; 40]]%float;
                upB_dvlos := [[1; 1]; [2; 2]]%float |} in
  let alt := [200; 100]%float in
  let A := [[0; 0; 1]; [0; 0; 0.5]]%float in
  let vlos := [[1; 2]; [3; 4]]%float in
  let dvlos := [[0; 0]; [0; 0]]%float in
  ion_outflow_correction (Some 64157%Z) 2 alt [1; 2]%float A upB vlos dvlos
  = Ok ([[21; 12]; [33; 24]]%float,
        [[0.70710678118654757; 1]; [1.4142135623730951; 2]]%float) /\
  exists vlos' dvlos',
    ion_outflow_correction (Some 64157%Z) 2 alt [1; 2]%float A upB vlos dvlos
    = Ok (vlos', dvlos') /\
    length vlos' = 2 /\ length dvlos' = 2 /\
    rows_of 2 vlos' /\ rows_of 2 dvlos' /\
    (forall t, t < 2 ->
       exists vion dvion,
         lin_interp alt (upB_alt upB) (nth t (upB_vlos upB) [])
                    (nth t (upB_dvlos upB) []) = Ok (vion, dvion) /\
         forall g, g < 2 ->
           entry vlos' t g
           = corrected_vlos (entry vlos t g) (nth g [1; 2]%float nan)
                            (nth 2 (nth g A []) nan) (nth g vion nan) /\
           entry dvlos' t g
           = corrected_dvlos (entry dvlos t g) (nth g [1; 2]%float nan)
                             (nth 2 (nth g A []) nan) (nth g dvion nan)) /\
    (forall t, 2 <= t ->
       nth t vlos' [] = nth t vlos [] /\ nth t dvlos' [] = nth t dvlos []).
Proof.
  intros upB alt A vlos dvlos.
  split; [vm_compute; reflexivity|].
  apply (outflow_correction_values (Some 64157%Z) 2 alt [1; 2]%float A upB vlos dvlos);
    try reflexivity; try discriminate; try (simpl; lia);
    try (repeat constructor).
Defined.

(** X6. With an up-B beam configured but no up-B altitude at all (no beam
    of the file carries the configured code), the first pass of the loop of
    [ion_outflow_correction] raises [ValueError]: the range test of
    [lin_interp] takes the minimum of an empty array. *)
Theorem outflow_correction_without_upB_gates (beam : option Z) (ntime : nat)
  (alt D : vec) (A : mat) (upB : UpB) (vlos dvlos : mat) :
  truthy_int beam = true -> 0 < ntime -> alt <> [] ->
  upB_alt upB = [] -> upB_vlos upB <> [] -> upB_dvlos upB <> [] ->
  ion_outflow_correction beam ntime alt D A upB vlos dvlos = Raise ValueError.
Proof.
  intros Hb Hn Halt Hup Hv Hdv. unfold ion_outflow_correction. rewrite Hb.
  destruct ntime as [|n]; [lia|]. cbn [seq for_each]. unfold outflow_step.
  destruct (upB_vlos upB) as [|fp rest] eqn:Efp; [congruence|].
  destruct (upB_dvlos upB) as [|dfp rest'] eqn:Edfp; [congruence|].
  change (getitem (fp :: rest) (Z.of_nat 0)) with (Ok fp).
  change (getitem (dfp :: rest') (Z.of_nat 0)) with (Ok dfp).
  cbn [bind]. rewrite Hup.
  destruct alt as [|a alt']; [congruence|]. reflexivity.
Qed.

Lemma outflow_correction_without_upB_gates_witness :
  ion_outflow_correction (Some 64157%Z) 1 [200]%float [1]%float [[0; 0; 1]]%float
    {| upB_alt := []; upB_vlos := [[]]; upB_dvlos := [[]] |}
    [[1]]%float [[1]]%float
  = Raise ValueError.
Proof.
  apply outflow_correction_without_upB_gates;
    [reflexivity|lia|discriminate|reflexivity|discriminate|discriminate].
Defined.

(** ** [filter_data]: what each step assigns *)

Lemma nth_set_nth {X : Type} (l : list X) (i j : nat) (v d : X) :
  i < length l -> nth j (set_nth l i v) d = if j =? i then v else nth j l d.
Proof.
  unfold set_nth. revert i j. induction l as [|x l IH]; intros i j Hi; [simpl in Hi; lia|].
  destruct i as [|i].
  - destruct j; reflexivity.
  - destruct j as [|j]; [reflexivity|]. simpl in Hi.
    change (nth j (firstn i l ++ match skipn i l with [] => [] | _ :: tl => v :: tl end) d
            = if j =? i then v else nth j l d).
    apply IH. lia.
Qed.

Lemma length_set_nth {X : Type} (l : list X) (i : nat) (v : X) :
  length (set_nth l i v) = length l.
Proof.
  unfold set_nth. revert i. induction l as [|x l IH]; intros i.
  - destruct i; reflexivity.
  - destruct i as [|i]; simpl; [reflexivity|]. rewrite IH. reflexivity.
Qed.

Lemma nth_error_nth_some {X : Type} (l : list X) (i : nat) (d : X) :
  i < length l -> nth_error l i = Some (nth i l d).
Proof.
  intros Hi. destruct (nth_error l i) as [x|] eqn:E.
  - f_equal. symmetry. apply nth_error_nth. exact E.
  - apply nth_error_None in E. lia.
Qed.

Lemma same_dims_refl (M : mat) : same_dims M M.
Proof. split; reflexivity. Qed.

Lemma same_dims_trans (M M' M'' : mat) :
  same_dims M M' -> same_dims M' M'' -> same_dims M M''.
Proof.
  intros [H1 H2] [H3 H4]. split; [congruence|]. intros t. rewrite H4. apply H2.
Qed.

Lemma same_dims_rows (n : nat) (M M' : mat) :
  same_dims M M' -> rows_of n M -> rows_of n M'.
Proof.
  intros [H1 H2] HM. unfold rows_of in *. apply Forall_forall. intros r Hr.
  destruct (In_nth _ _ [] Hr) as (t & Ht & <-). rewrite H2.
  rewrite Forall_forall in HM. apply HM. apply nth_In. lia.
Qed.

Lemma setitem_entry_spec (M : mat) (r c : nat) (v : float) :
  r < length M -> c < length (nth r M []) ->
  exists M', setitem_entry M (r, c) v = Ok M' /\ same_dims M M' /\
             forall t g, entry M' t g
                         = if (r =? t) && (c =? g) then v else entry M t g.
Proof.
  intros Hr Hc. unfold setitem_entry.
  rewrite (nth_error_nth_some M r [] Hr).
  destruct (Nat.ltb_spec c (length (nth r M []))) as [_|]; [|lia].
  eexists. split; [reflexivity|]. split.
  - split; [apply length_set_nth|]. intros t.
    rewrite (nth_set_nth M r t _ [] Hr).
    destruct (Nat.eqb_spec t r) as [->|]; [apply length_set_nth|reflexivity].
  - intros t g. unfold entry. rewrite (nth_set_nth M r t _ [] Hr).
    rewrite (Nat.eqb_sym r t).
    destruct (Nat.eqb_spec t r) as [->|]; [|reflexivity]. cbn [andb].
    rewrite (nth_set_nth _ c g _ nan Hc). rewrite (Nat.eqb_sym c g). reflexivity.
Qed.

Lemma setitem_pairs_spec (v : float) (I : list (nat * nat)) :
  forall M : mat,
    (forall r c, In (r, c) I -> r < length M /\ c < length (nth r M [])) ->
    exists M', setitem_pairs M I v = Ok M' /\ same_dims M M' /\
               forall t g, entry M' t g = if pair_in t g I then v else entry M t g.
Proof.
  unfold setitem_pairs. induction I as [|[r c] I IH]; intros M Hin.
  - exists M. split; [reflexivity|]. split; [apply same_dims_refl|]. reflexivity.
  - destruct (Hin r c (or_introl eq_refl)) as [Hr Hc].
    destruct (setitem_entry_spec M r c v Hr Hc) as (M1 & E1 & D1 & V1).
    destruct (IH M1) as (M' & E' & D' & V').
    { intros r' c' H'. destruct D1 as [L1 L2]. rewrite L1, L2.
      apply Hin. right. exact H'. }
    exists M'. cbn [for_each]. rewrite E1. cbn [bind].
    split; [exact E'|]. split; [eapply same_dims_trans; eassumption|].
    intros t g. rewrite V', V1. cbn [pair_in existsb fst snd].
    fold (pair_in t g I). destruct (pair_in t g I); [rewrite orb_true_r|rewrite orb_false_r];
      reflexivity.
Qed.

Lemma setitem_rows_spec (v : float) (I : list nat) :
  forall M : mat,
    (forall r, In r I -> r < length M) ->
    exists M', setitem_rows M I v = Ok M' /\ same_dims M M' /\
               forall t g, g < length (nth t M []) ->
                           entry M' t g
                           = if existsb (Nat.eqb t) I then v else entry M t g.
Proof.
  unfold setitem_rows. induction I as [|r I IH]; intros M Hin.
  - exists M. split; [reflexivity|]. split; [apply same_dims_refl|]. reflexivity.
  - assert (Hr : r < length M) by (apply Hin; left; reflexivity).
    set (M1 := set_nth M r (map (fun _ => v) (nth r M []))).
    assert (D1 : same_dims M M1).
    { split; [apply length_set_nth|]. intros t. unfold M1.
      rewrite (nth_set_nth M r t _ [] Hr).
      destruct (Nat.eqb_spec t r) as [->|]; [apply length_map|reflexivity]. }
    destruct (IH M1) as (M' & E' & D' & V').
    { intros r' H'. destruct D1 as [L1 _]. rewrite L1. apply Hin. right. exact H'. }
    exists M'. cbn [for_each]. rewrite (nth_error_nth_some M r [] Hr). cbn [bind].
    split; [exact E'|]. split; [eapply same_dims_trans; eassumption|].
    intros t g Hg. rewrite V' by (rewrite (proj2 D1); exact Hg).
    cbn [existsb]. destruct (existsb (Nat.eqb t) I); [rewrite orb_true_r; reflexivity|].
    rewrite orb_false_r. unfold entry, M1. rewrite (nth_set_nth M r t _ [] Hr).
    destruct (Nat.eqb_spec t r) as [->|]; [|reflexivity].
    rewrite (nth_map_lt (fun _ => v) _ g nan nan) by exact Hg. reflexivity.
Qed.

Lemma setitem_rows_raise (v : float) (I : list nat) :
  forall M : mat,
    Exists (fun r => length M <= r) I -> setitem_rows M I v = Raise IndexError.
Proof.
  unfold setitem_rows. induction I as [|r I IH]; intros M Hex; [inversion Hex|].
  cbn [for_each]. destruct (nth_error M r) as [row|] eqn:E; [|reflexivity].
  cbn [bind]. apply IH. rewrite length_set_nth.
  inversion Hex; subst; [|assumption].
  assert (r < length M) by (apply nth_error_Some; congruence). lia.
Qed.

Lemma existsb_map {X Y : Type} (f : Y -> bool) (h : X -> Y) (l : list X) :
  existsb f (map h l) = existsb (fun x => f (h x)) l.
Proof. induction l as [|x l IH]; simpl; [reflexivity|]. rewrite IH. reflexivity. Qed.

Lemma in_where1 (g : nat) (m : list bool) (c0 : nat) :
  existsb (Nat.eqb g) (where1 m c0) = (c0 <=? g) && nth (g - c0) m false.
Proof.
  revert c0. induction m as [|b m IH]; intros c0.
  - simpl. destruct (g - c0); rewrite andb_false_r; reflexivity.
  - cbn [where1].
    assert (E : existsb (Nat.eqb g) (where1 m (S c0))
                = (c0 <=? g) && negb (g =? c0) && nth (g - S c0) m false).
    { rewrite IH. f_equal.
      destruct (Nat.leb_spec (S c0) g), (Nat.leb_spec c0 g), (Nat.eqb_spec g c0);
        simpl; try reflexivity; lia. }
    destruct (Nat.eqb_spec g c0) as [->|Hne].
    + rewrite Nat.sub_diag, Nat.leb_refl. cbn [nth andb].
      destruct b; cbn [existsb]; [rewrite Nat.eqb_refl; reflexivity|].
      rewrite E. cbn [negb]. rewrite andb_false_r. reflexivity.
    + assert (Eb : (if b then c0 :: where1 m (S c0) else where1 m (S c0))
                   = (if b then [c0] else []) ++ where1 m (S c0))
        by (destruct b; reflexivity).
      rewrite Eb, existsb_app, E.
      replace (existsb (Nat.eqb g) (if b then [c0] else [])) with false
        by (destruct b; simpl; [apply Nat.eqb_neq in Hne; rewrite Hne|]; reflexivity).
      cbn [orb negb andb]. rewrite andb_true_r.
      destruct (Nat.leb_spec c0 g) as [Hle|]; [|reflexivity]. cbn [andb].
      replace (g - c0) with (S (g - S c0)) by lia. reflexivity.
Qed.

Lemma in_where2 (t g : nat) (mask : list (list bool)) (r0 : nat) :
  pair_in t g (where2 mask r0)
  = (r0 <=? t) && nth g (nth (t - r0) mask []) false.
Proof.
  unfold pair_in. revert r0. induction mask as [|row mask IH]; intros r0.
  - simpl. destruct (t - r0), g; rewrite andb_false_r; reflexivity.
  - cbn [where2]. rewrite existsb_app, existsb_map, IH. cbn [fst snd].
    destruct (Nat.eqb_spec r0 t) as [->|Hne].
    + rewrite Nat.sub_diag, Nat.leb_refl. cbn [nth andb].
      replace (S t <=? t) with false by (symmetry; apply Nat.leb_gt; lia).
      cbn [andb]. rewrite orb_false_r.
      transitivity (existsb (Nat.eqb g) (where1 row 0)).
      { clear. induction (where1 row 0) as [|c l IH]; simpl; [reflexivity|].
        rewrite IH, (Nat.eqb_sym c g). reflexivity. }
      rewrite in_where1, Nat.sub_0_r. reflexivity.
    + replace (existsb (fun x => false && (x =? g)) (where1 row 0)) with false
        by (clear; induction (where1 row 0); simpl; auto).
      cbn [orb].
      destruct (Nat.leb_spec (S r0) t), (Nat.leb_spec r0 t); cbn [andb];
        try reflexivity; try lia.
      replace (t - r0) with (S (t - S r0)) by lia. reflexivity.
Qed.

Lemma nth_overflow_nil {X : Type} (M : list (list X)) (t : nat) :
  length M <= t -> nth t M [] = [].
Proof. intros H. apply nth_overflow. exact H. Qed.

(** the bounds of a true entry of a mask *)
Lemma mask_true_bounds (mask : list (list bool)) (t g : nat) :
  nth g (nth t mask []) false = true ->
  t < length mask /\ g < length (nth t mask []).
Proof.
  intros H. split.
  - destruct (Nat.lt_ge_cases t (length mask)) as [|Hge]; [assumption|].
    rewrite (nth_overflow_nil _ _ Hge) in H. destruct g; discriminate.
  - destruct (Nat.lt_ge_cases g (length (nth t mask []))) as [|Hge]; [assumption|].
    rewrite (nth_overflow _ _ Hge) in H. discriminate.
Qed.

Lemma in_where2_bounds (mask : list (list bool)) (r c : nat) :
  In (r, c) (where2 mask 0) -> r < length mask /\ c < length (nth r mask []).
Proof.
  intros H. apply mask_true_bounds.
  assert (E : pair_in r c (where2 mask 0) = true).
  { unfold pair_in. apply existsb_exists. exists (r, c). split; [exact H|].
    cbn [fst snd]. rewrite !Nat.eqb_refl. reflexivity. }
  rewrite in_where2, Nat.sub_0_r in E. exact E.
Qed.

Lemma nth_map_nil {X Y : Type} (f : X -> Y) (M : list (list X)) (t : nat) :
  nth t (map (map f) M) [] = map f (nth t M []).
Proof. exact (map_nth (map f) M [] t). Qed.

Lemma nth_zip_rows {X Y W : Type} (f : X -> Y -> W) (M : list (list X))
  (N : list (list Y)) (t : nat) :
  nth t (zip_with (zip_with f) M N) [] = zip_with f (nth t M []) (nth t N []).
Proof.
  revert M N. induction t as [|t IH]; intros [|r M] [|s N]; simpl;
    try reflexivity.
  - destruct r; reflexivity.
  - destruct (nth t M []); reflexivity.
  - apply IH.
Qed.

Lemma rows_of_length (n : nat) (M : mat) (t : nat) :
  rows_of n M -> t < length M -> length (nth t M []) = n.
Proof.
  intros HM Ht. unfold rows_of in HM. rewrite Forall_forall in HM.
  apply HM. apply nth_In. exact Ht.
Qed.

Lemma map2_mat_ok {X : Type} (f : float -> float -> X) (M N : mat) (n : nat) :
  length M = length N -> rows_of n M -> rows_of n N ->
  map2_mat f M N = Ok (zip_with (zip_with f) M N).
Proof.
  intros HL HM HN. unfold map2_mat. rewrite HL, Nat.eqb_refl. cbn [andb].
  replace (forallb _ (combine M N)) with true; [reflexivity|].
  symmetry. apply forallb_forall. intros [r s] Hin. apply Nat.eqb_eq.
  unfold rows_of in *. rewrite Forall_forall in HM, HN.
  rewrite (HM r (in_combine_l _ _ _ _ Hin)), (HN s (in_combine_r _ _ _ _ Hin)).
  reflexivity.
Qed.

Lemma ltb_nan_r (x : float) : (x <? nan)%float = false.
Proof.
  destruct (x <? nan)%float eqn:E; [|reflexivity].
  apply ltb_not_nan_r in E. discriminate.
Qed.

Lemma ltb_nan_l (x : float) : (nan <? x)%float = false.
Proof.
  destruct (nan <? x)%float eqn:E; [|reflexivity].
  apply ltb_not_nan_l in E. discriminate.
Qed.

Lemma out_of_altitude_nan (cfg : Config) : out_of_altitude cfg nan = false.
Proof. unfold out_of_altitude. rewrite ltb_nan_l, ltb_nan_r. reflexivity. Qed.

Lemma altitude_mask_nth (cfg : Config) (alt : vec) (t : nat) :
  nth t (map (out_of_altitude cfg) alt) false = out_of_altitude cfg (nth t alt nan).
Proof.
  rewrite <- (out_of_altitude_nan cfg). apply map_nth.
Qed.

Lemma setitem_pairs_mask (v : float) (mask : list (list bool)) (M : mat) (nt ng : nat) :
  length M = nt -> rows_of ng M ->
  (forall t g, nth g (nth t mask []) false = true -> t < nt /\ g < ng) ->
  exists M', setitem_pairs M (where2 mask 0) v = Ok M' /\
             length M' = nt /\ rows_of ng M' /\
             forall t g, entry M' t g
                         = if nth g (nth t mask []) false then v else entry M t g.
Proof.
  intros HL HM Hmask.
  destruct (setitem_pairs_spec v (where2 mask 0) M) as (M' & E & D & V).
  { intros r c Hin.
    assert (Ht : pair_in r c (where2 mask 0) = true).
    { unfold pair_in. apply existsb_exists. exists (r, c). split; [exact Hin|].
      cbn [fst snd]. rewrite !Nat.eqb_refl. reflexivity. }
    rewrite in_where2, Nat.sub_0_r in Ht. cbn [Nat.leb andb] in Ht.
    destruct (Hmask r c Ht) as [Hr Hc]. split; [lia|].
    rewrite (rows_of_length ng) by (assumption || lia). exact Hc. }
  exists M'. split; [exact E|]. split; [destruct D; congruence|].
  split; [eapply same_dims_rows; eassumption|].
  intros t g. rewrite V, in_where2, Nat.sub_0_r. reflexivity.
Qed.

Lemma in_where1_true (mask : list bool) (r : nat) :
  In r (where1 mask 0) <-> nth r mask false = true.
Proof.
  rewrite <- (Nat.sub_0_r r) at 2.
  change (nth (r - 0) mask false) with (true && nth (r - 0) mask false).
  change true with (0 <=? r) at 1. rewrite <- in_where1. split.
  - intros H. apply existsb_exists. exists r. split; [exact H|apply Nat.eqb_refl].
  - intros H. apply existsb_exists in H as (x & Hx & E).
    apply Nat.eqb_eq in E. subst x. exact Hx.
Qed.

Lemma setitem_rows_mask (v : float) (mask : list bool) (M : mat) (nt ng : nat) :
  length M = nt -> rows_of ng M ->
  (forall t, nth t mask false = true -> t < nt) ->
  exists M', setitem_rows M (where1 mask 0) v = Ok M' /\
             length M' = nt /\ rows_of ng M' /\
             forall t g, t < nt -> g < ng ->
                         entry M' t g = if nth t mask false then v else entry M t g.
Proof.
  intros HL HM Hmask.
  destruct (setitem_rows_spec v (where1 mask 0) M) as (M' & E & D & V).
  { intros r Hin. rewrite HL. apply Hmask. apply in_where1_true. exact Hin. }
  exists M'. split; [exact E|]. split; [destruct D; congruence|].
  split; [eapply same_dims_rows; eassumption|].
  intros t g Ht Hg.
  rewrite V by (rewrite (rows_of_length ng) by (assumption || lia); exact Hg).
  rewrite in_where1, Nat.sub_0_r. reflexivity.
Qed.

Lemma entry_map (f : float -> float) (M : mat) (nt ng t g : nat) :
  length M = nt -> rows_of ng M -> t < nt -> g < ng ->
  entry (map (map f) M) t g = f (entry M t g).
Proof.
  intros HL HM Ht Hg. unfold entry. rewrite nth_map_nil.
  apply nth_map_lt. rewrite (rows_of_length ng) by (assumption || lia). exact Hg.
Qed.

Lemma rows_of_map (f : float -> float) (n : nat) (M : mat) :
  rows_of n M -> rows_of n (map (map f) M).
Proof.
  unfold rows_of. intros H. apply Forall_forall. intros r Hr.
  apply in_map_iff in Hr as (r0 & <- & Hr0). rewrite length_map.
  rewrite Forall_forall in H. apply H. exact Hr0.
Qed.

Lemma mask_map_bounds (f : float -> bool) (M : mat) (nt ng t g : nat) :
  length M = nt -> rows_of ng M ->
  nth g (nth t (map (map f) M) []) false = true -> t < nt /\ g < ng.
Proof.
  intros HL HM H. apply mask_true_bounds in H as [Ht Hg].
  rewrite length_map in Ht. rewrite nth_map_nil, length_map in Hg.
  rewrite (rows_of_length ng) in Hg by (assumption || lia). lia.
Qed.

Lemma mask_map_entry (f : float -> bool) (M : mat) (nt ng t g : nat) :
  length M = nt -> rows_of ng M -> t < nt -> g < ng ->
  nth g (nth t (map (map f) M) []) false = f (entry M t g).
Proof.
  intros HL HM Ht Hg. unfold entry. rewrite nth_map_nil.
  apply nth_map_lt. rewrite (rows_of_length ng) by (assumption || lia). exact Hg.
Qed.

Lemma getitem_nth (l : vec) (i : nat) :
  i < length l -> getitem l (Z.of_nat i) = Ok (nth i l nan).
Proof.
  intros Hi. apply getitem_of_nth. apply nth_error_nth_some. exact Hi.
Qed.

Lemma abs_nan : abs nan = nan.
Proof. reflexivity. Qed.

(** the mask of the last step, on arrays of shape (nt, ng) *)
Lemma error_mask_entry (p0 p1 p3 : float) (v dv : mat) (nt ng t g : nat) :
  length v = nt -> rows_of ng v -> length dv = nt -> rows_of ng dv ->
  let mask :=
    and_mask
      (map (map (fun f => (p1 <? f)%float))
           (zip_with (zip_with (fun d x => (abs d / (abs x + p0))%float)) dv v))
      (map (map (fun a => (p3 <? a)%float)) (map (map abs) dv)) in
  (nth g (nth t mask []) false = true -> t < nt /\ g < ng) /\
  (t < nt -> g < ng ->
   nth g (nth t mask []) false
   = (p1 <? abs (entry dv t g) / (abs (entry v t g) + p0))%float
     && (p3 <? abs (entry dv t g))%float).
Proof.
  intros Lv Hv Ldv Hdv mask.
  assert (Hrow : nth t mask []
                 = zip_with andb
                     (map (fun f => (p1 <? f)%float)
                          (zip_with (fun d x => (abs d / (abs x + p0))%float)
                                    (nth t dv []) (nth t v [])))
                     (map (fun a => (p3 <? a)%float) (map abs (nth t dv [])))).
  { unfold mask, and_mask. rewrite nth_zip_rows, !nth_map_nil, nth_zip_rows.
    reflexivity. }
  split.
  - intros H. apply mask_true_bounds in H as [Ht Hg].
    assert (Ht' : t < nt).
    { unfold mask, and_mask in Ht.
      rewrite length_zip_with_min, !length_map, length_zip_with_min in Ht. lia. }
    split; [exact Ht'|]. rewrite Hrow in Hg.
    rewrite length_zip_with_min, !length_map, length_zip_with_min in Hg.
    rewrite !(rows_of_length ng) in Hg by (assumption || lia). lia.
  - intros Ht Hg. rewrite Hrow.
    assert (L1 : length (nth t v []) = ng) by (apply rows_of_length; assumption || lia).
    assert (L2 : length (nth t dv []) = ng) by (apply rows_of_length; assumption || lia).
    rewrite (nth_zip_with _ _ _ g false false)
      by (rewrite ?length_map, ?length_zip_with_min, ?length_map; lia).
    rewrite (nth_map_lt _ _ g nan) by (rewrite length_zip_with_min; lia).
    rewrite (nth_zip_with _ _ _ g nan nan) by lia.
    rewrite (nth_map_lt _ _ g nan) by (rewrite length_map; lia).
    rewrite (nth_map_lt abs _ g nan) by lia.
    reflexivity.
Qed.

(** X7. [filter_data] on arrays of shape (records, gates): the density and
    the error tests null single measurements, while the altitude step nulls
    the whole record whose number is the index of an out-of-range gate, and
    raises [IndexError] when such a gate index is not below the number of
    records.  So a measurement survives, with the chirp added, exactly when
    it passes the density and error tests and the gate numbered like its
    record is not flagged. *)
Theorem filter_data_as_coded (cfg : Config) (vlos dvlos ne : mat) (alt : vec)
  (nt ng : nat) :
  length vlos = nt -> rows_of ng vlos ->
  length dvlos = nt -> rows_of ng dvlos ->
  length ne = nt -> rows_of ng ne ->
  4 <= length (ppp cfg) ->
  ((exists g, nt <= g /\ out_of_altitude cfg (nth g alt nan) = true) ->
   filter_data cfg vlos dvlos ne alt = Raise IndexError) /\
  ((forall g, out_of_altitude cfg (nth g alt nan) = true -> g < nt) ->
   exists v' dv',
     filter_data cfg vlos dvlos ne alt = Ok (v', dv') /\
     length v' = nt /\ rows_of ng v' /\ length dv' = nt /\ rows_of ng dv' /\
     forall t g, t < nt -> g < ng ->
       let v := (entry vlos t g + chirp cfg)%float in
       let dv := entry dvlos t g in
       let gone := out_of_altitude cfg (nth t alt nan)
                   || rejected cfg v dv (entry ne t g) in
       entry v' t g = (if gone then nan else v) /\
       entry dv' t g = (if gone then nan else dv)).
Proof.
  intros Lv Hv Ldv Hdv Lne Hne Hp.
  set (v1 := map (map (fun v => (v + chirp cfg)%float)) vlos).
  assert (Lv1 : length v1 = nt) by (unfold v1; rewrite length_map; exact Lv).
  assert (Hv1 : rows_of ng v1) by (apply rows_of_map; exact Hv).
  set (mask2 := map (map (fun n => (n <? neMin cfg)%float)) ne).
  assert (B2 : forall t g, nth g (nth t mask2 []) false = true -> t < nt /\ g < ng).
  { intros t g. apply mask_map_bounds; assumption. }
  destruct (setitem_pairs_mask nan mask2 v1 nt ng Lv1 Hv1 B2)
    as (v2 & Ev2 & Lv2 & Hv2 & Vv2).
  destruct (setitem_pairs_mask nan mask2 dvlos nt ng Ldv Hdv B2)
    as (dv2 & Edv2 & Ldv2 & Hdv2 & Vdv2).
  set (mask3 := map (out_of_altitude cfg) alt).
  split.
  - intros (g & Hg & Hout). unfold filter_data.
    fold v1. fold mask2. rewrite Ev2. cbn [bind]. rewrite Edv2. cbn [bind].
    fold (out_of_altitude cfg). fold mask3.
    rewrite (setitem_rows_raise nan (where1 mask3 0) v2); [reflexivity|].
    apply Exists_exists. exists g. split; [|lia].
    apply in_where1_true. unfold mask3. rewrite altitude_mask_nth. exact Hout.
  - intros Hin.
    assert (B3 : forall t, nth t mask3 false = true -> t < nt).
    { intros t Ht. apply Hin. unfold mask3 in Ht.
      rewrite altitude_mask_nth in Ht. exact Ht. }
    destruct (setitem_rows_mask nan mask3 v2 nt ng Lv2 Hv2 B3)
      as (v3 & Ev3 & Lv3 & Hv3 & Vv3).
    destruct (setitem_rows_mask nan mask3 dv2 nt ng Ldv2 Hdv2 B3)
      as (dv3 & Edv3 & Ldv3 & Hdv3 & Vdv3).
    set (p0 := nth 0 (ppp cfg) nan). set (p1 := nth 1 (ppp cfg) nan).
    set (p3 := nth 3 (ppp cfg) nan).
    set (mask4 :=
           and_mask
             (map (map (fun f => (p1 <? f)%float))
                  (zip_with (zip_with (fun d x => (abs d / (abs x + p0))%float)) dv3 v3))
             (map (map (fun a => (p3 <? a)%float)) (map (map abs) dv3))).
    assert (B4 : forall t g, nth g (nth t mask4 []) false = true -> t < nt /\ g < ng).
    { intros t g.
      exact (proj1 (error_mask_entry p0 p1 p3 v3 dv3 nt ng t g Lv3 Hv3 Ldv3 Hdv3)). }
    destruct (setitem_pairs_mask nan mask4 v3 nt ng Lv3 Hv3 B4)
      as (v4 & Ev4 & Lv4 & Hv4 & Vv4).
    destruct (setitem_pairs_mask nan mask4 dv3 nt ng Ldv3 Hdv3 B4)
      as (dv4 & Edv4 & Ldv4 & Hdv4 & Vdv4).
    assert (G0 : getitem (ppp cfg) 0%Z = Ok p0)
      by (apply (getitem_nth (ppp cfg) 0); lia).
    assert (G1 : getitem (ppp cfg) 1%Z = Ok p1)
      by (apply (getitem_nth (ppp cfg) 1); lia).
    assert (G3 : getitem (ppp cfg) 3%Z = Ok p3)
      by (apply (getitem_nth (ppp cfg) 3); lia).
    exists v4, dv4. split.
    { unfold filter_data. fold v1. fold mask2. rewrite Ev2. cbn [bind].
      rewrite Edv2. cbn [bind]. fold (out_of_altitude cfg). fold mask3.
      rewrite Ev3. cbn [bind]. rewrite Edv3. cbn [bind].
      rewrite G0. cbn [bind].
      rewrite (map2_mat_ok _ dv3 v3 ng) by (assumption || congruence). cbn [bind].
      rewrite G1. cbn [bind]. rewrite G3. cbn [bind].
      fold mask4. rewrite Ev4. cbn [bind]. rewrite Edv4. reflexivity. }
    split; [exact Lv4|]. split; [exact Hv4|]. split; [exact Ldv4|].
    split; [exact Hdv4|].
    intros t g Ht Hg v dv gone.
    rewrite Vv4, Vdv4. unfold mask4.
    rewrite (proj2 (error_mask_entry p0 p1 p3 v3 dv3 nt ng t g Lv3 Hv3 Ldv3 Hdv3) Ht Hg).
    rewrite (Vv3 t g Ht Hg), (Vdv3 t g Ht Hg), Vv2, Vdv2.
    unfold mask3. rewrite altitude_mask_nth.
    unfold mask2. rewrite (mask_map_entry _ ne nt ng t g Lne Hne Ht Hg).
    unfold v1. rewrite (entry_map _ vlos nt ng t g Lv Hv Ht Hg).
    fold v. fold dv. subst gone. unfold rejected. fold p0 p1 p3.
    destruct (out_of_altitude cfg (nth t alt nan)); cbn [orb].
    + rewrite abs_nan, ltb_nan_r, andb_false_r. split; reflexivity.
    + destruct (entry ne t g <? neMin cfg)%float; cbn [orb].
      * rewrite abs_nan, ltb_nan_r, andb_false_r. split; reflexivity.
      * destruct (_ && _); split; reflexivity.
Qed.

(** one record with gate 1 too low; two records with gate 0 too low, a low
    density at (1, 0) and a large error at (1, 1) *)
Lemma filter_data_as_coded_witness :
  let cfg := {| chirp := 5; neMin := 1e9; minalt := 100; maxalt := 500;
                ppp := [200; 0.5; 2000; 100] |}%float in
  filter_data cfg [[10; 20]]%float [[1; 1]]%float [[1e11; 1e11]]%float
              [200e3; 50e3]%float
  = Raise IndexError /\
  filter_data cfg [[10; 20]; [30; 40]; [50; 60]]%float
              [[1; 1]; [1; 500]; [1; 1]]%float
              [[1e11; 1e11]; [1e11; 1e11]; [1e8; 1e11]]%float
              [50e3; 200e3]%float
  = Ok ([[nan; nan]; [35; nan]; [nan; 65]]%float,
        [[nan; nan]; [1; nan]; [nan; 1]]%float) /\
  exists v' dv',
    filter_data cfg [[10; 20]; [30; 40]; [50; 60]]%float
                [[1; 1]; [1; 500]; [1; 1]]%float
                [[1e11; 1e11]; [1e11; 1e11]; [1e8; 1e11]]%float
                [50e3; 200e3]%float
    = Ok (v', dv') /\
    length v' = 3 /\ rows_of 2 v' /\ length dv' = 3 /\ rows_of 2 dv' /\
    forall t g, t < 3 -> g < 2 ->
      let v := (entry [[10; 20]; [30; 40]; [50; 60]]%float t g + chirp cfg)%float in
      let dv := entry [[1; 1]; [1; 500]; [1; 1]]%float t g in
      let gone := out_of_altitude cfg (nth t [50e3; 200e3]%float nan)
                  || rejected cfg v dv
                       (entry [[1e11; 1e11]; [1e11; 1e11]; [1e8; 1e11]]%float t g) in
      entry v' t g = (if gone then nan else v) /\
      entry dv' t g = (if gone then nan else dv).
Proof.
  intros cfg. split; [|split].
  - apply (proj1 (filter_data_as_coded cfg [[10; 20]]%float [[1; 1]]%float
                    [[1e11; 1e11]]%float [200e3; 50e3]%float 1 2
                    eq_refl ltac:(repeat constructor) eq_refl ltac:(repeat constructor)
                    eq_refl ltac:(repeat constructor) ltac:(simpl; lia))).
    exists 1. split; [lia|reflexivity].
  - vm_compute. reflexivity.
  - apply (proj2 (filter_data_as_coded cfg [[10; 20]; [30; 40]; [50; 60]]%float
                    [[1; 1]; [1; 500]; [1; 1]]%float
                    [[1e11; 1e11]; [1e11; 1e11]; [1e8; 1e11]]%float
                    [50e3; 200e3]%float 3 2
                    eq_refl ltac:(repeat constructor) eq_refl ltac:(repeat constructor)
                    eq_refl ltac:(repeat constructor) ltac:(simpl; lia))).
    intros [|[|g]] H; [lia|lia|].
    exfalso. destruct g; vm_compute in H; discriminate.
Defined.

(** ** [get_integration_periods]: the windows are the shortest possible *)

Lemma period_of_seq (time : list (float * float)) (a k : nat) :
  0 < k ->
  period_of time (seq a k)
  = (fst (nth a time (nan, nan)), snd (nth (a + k - 1) time (nan, nan))).
Proof.
  intros Hk. destruct k as [|k]; [lia|]. unfold period_of.
  rewrite hd_seq by lia. rewrite last_seq.
  replace (a + S k - 1) with (a + k) by lia. reflexivity.
Qed.

Lemma firstn_seq_le (a n k : nat) : k <= n -> firstn k (seq a n) = seq a k.
Proof.
  revert a n. induction k as [|k IH]; intros a n Hk; [reflexivity|].
  destruct n as [|n]; [lia|]. simpl. rewrite IH by lia. reflexivity.
Qed.

(** The loop invariant: the open window, from record [a] to record [i - 1],
    has not reached the integration time at any of its records. *)
Lemma integrate_minimal (T : float) (time : list (float * float)) :
  forall (rest : list (float * float)) (i a : nat) (idx : list nat)
         (st : option float),
    skipn i time = rest ->
    a <= i ->
    idx = seq a (i - a) ->
    st = (if i =? a then None else Some (fst (nth a time (nan, nan)))) ->
    (forall k, 0 < k <= i - a ->
               (T <=? duration (period_of time (seq a k)))%float = false) ->
    Forall (closes_first T time) (snd (integrate T (length time) rest i idx st)).
Proof.
  induction rest as [|[s e] rest' IH]; intros i a idx st Hrest Hai Hidx Hst Hopen.
  - constructor.
  - destruct (skipn_cons_inv (nan, nan) time i (s, e) rest' Hrest)
      as (Hnth & Hrest' & Hlt).
    assert (Hidx' : idx ++ [i] = seq a (S (i - a))).
    { subst idx. rewrite <- seq_snoc. do 2 f_equal. lia. }
    assert (Hstart : match st with None => s | Some x => x end
                     = fst (nth a time (nan, nan))).
    { subst st. destruct (Nat.eqb_spec i a) as [->|_]; [rewrite Hnth|]; reflexivity. }
    cbn [integrate]. rewrite Hstart, Hidx'.
    destruct ((T <=? e - fst (nth a time (nan, nan)))%float
              || (Z.of_nat i =? Z.of_nat (length time) - 1)%Z) eqn:Hc.
    + specialize (IH (S i) (S i) [] None Hrest' (le_n _)).
      rewrite Nat.sub_diag, Nat.eqb_refl in IH.
      specialize (IH eq_refl eq_refl).
      destruct (integrate T (length time) rest' (S i) [] None) as [ps' ws'].
      cbn [snd] in *. constructor.
      * intros k Hk. rewrite length_seq in Hk.
        rewrite firstn_seq_le by lia. apply Hopen. lia.
      * apply IH. intros k Hk. lia.
    + apply orb_false_iff in Hc as [Hc _].
      apply (IH (S i) a (seq a (S (i - a))) (Some (fst (nth a time (nan, nan)))) Hrest');
        [lia|f_equal; lia| |].
      * destruct (Nat.eqb_spec (S i) a); [lia|reflexivity].
      * intros k Hk.
        destruct (Nat.eq_dec k (S (i - a))) as [->|Hne]; [|apply Hopen; lia].
        rewrite period_of_seq by lia. unfold duration. cbn [fst snd].
        replace (a + S (i - a) - 1) with i by lia. rewrite Hnth. exact Hc.
Qed.

(** X8. With an integration time configured, every window of
    [get_integration_periods] is closed at the first of its records at which
    the time since the start of the window reaches the integration time: no
    shorter run of its first records lasts that long. *)
Theorem integration_windows_closed_first (T : float) (time : list (float * float)) :
  truthy_float (Some T) = true ->
  exists ws : list (list nat),
    get_integration_periods (Some T) time
    = (map (period_of time) ws, map Records ws) /\
    Forall (closes_first T time) ws.
Proof.
  intros HT. unfold get_integration_periods. rewrite HT.
  pose proof (integrate_spec T time time 0 0 [] None eq_refl (le_n 0) eq_refl eq_refl)
    as H.
  pose proof (integrate_minimal T time time 0 0 [] None eq_refl (le_n 0) eq_refl eq_refl)
    as Hm.
  destruct (integrate T (length time) time 0 [] None) as [ps ws].
  destruct H as (Hps & _). exists ws. subst ps. split; [reflexivity|].
  apply Hm. intros k Hk. simpl in Hk. lia.
Qed.

(** five records of 30 s integrated to 60 s: windows [0,1], [2,3] and [4] *)
Lemma integration_windows_closed_first_witness :
  truthy_float (Some 60%float) = true /\
  get_integration_periods (Some 60%float)
    [(0, 30); (30, 60); (60, 90); (90, 120); (120, 150)]%float
  = ([(0, 60); (60, 120); (120, 150)]%float,
     [Records [0; 1]; Records [2; 3]; Records [4]]) /\
  exists ws : list (list nat),
    get_integration_periods (Some 60%float)
      [(0, 30); (30, 60); (60, 90); (90, 120); (120, 150)]%float
    = (map (period_of [(0, 30); (30, 60); (60, 90); (90, 120); (120, 150)]%float) ws,
       map Records ws) /\
    Forall (closes_first 60 [(0, 30); (30, 60); (60, 90); (90, 120); (120, 150)]%float)
           ws.
Proof.
  split; [reflexivity|]. split; [vm_compute; reflexivity|].
  apply (integration_windows_closed_first 60%float
           [(0, 30); (30, 60); (60, 90); (90, 120); (120, 150)]%float).
  reflexivity.
Defined.

(** ** [compute_vectors]: a cell without enough measurements *)

Lemma mul_nan_l (x : float) : (nan * x)%float = nan.
Proof.
  apply Prim2SF_inj. rewrite mul_spec. change (Prim2SF nan) with S754_nan.
  reflexivity.
Qed.

Lemma add_nan_l (x : float) : (nan + x)%float = nan.
Proof.
  apply Prim2SF_inj. rewrite add_spec. change (Prim2SF nan) with S754_nan.
  reflexivity.
Qed.

Lemma rotated_nan (b : float) : einsum_jk_k (rotation b) nan3 = nan3.
Proof.
  unfold einsum_jk_k, rotation, rot, nan3, full, fsum.
  cbn [map repeat zip_with fold_left].
  rewrite !mul_nan_r, !add_nan_r. reflexivity.
Qed.

Lemma rotated_nan_covariance (b : float) :
  triple_product (rotation b) nan33 (transpose (rotation b)) = nan33.
Proof.
  unfold triple_product, transpose, rotation, rot, nan33, full2, full, fsum.
  cbn [map repeat hd length seq combine flat_map app nth fold_left].
  rewrite !mul_nan_r, !mul_nan_l, !add_nan_r. reflexivity.
Qed.

Lemma vvels_few_points (v dv : vec) (Ab : mat) (covar : vec) (m : Z)
  (r : vec * mat) :
  vvels v dv Ab covar m = Ok r ->
  (Z.of_nat (count_finite v) < m)%Z ->
  r = (nan3, nan33).
Proof.
  unfold vvels, count_finite. intros H Hlt.
  bind_inv H dv' E1. bind_inv H A' E2. bind_inv H VS E3.
  rewrite count_true_map_filter in H. apply Z.ltb_lt in Hlt. rewrite Hlt in H.
  inversion H. reflexivity.
Qed.

Lemma take_los_empty (M : mat) (tidx : tindex) (v : vec) :
  take_los M tidx [] = Ok v -> v = [].
Proof. destruct tidx; simpl; intros H; inversion H; reflexivity. Qed.

(** X9. In the arrays that [compute_vectors] returns, a (period, bin) cell
    whose flattened LoS velocities hold fewer finite values than
    [minnumpoints] is NaN in the velocity, in its covariance, in all three
    components of the electric field and in the covariance of the field; a
    bin that holds no gate is such a cell as soon as [minnumpoints >= 1]. *)
Theorem starved_cell_is_nan (apex : Apex) (it : option float) (covar : vec)
  (minnumpoints : Z) (vlos dvlos A : mat) (int_idx : list tindex)
  (bin_idx : list (list nat)) (bin_mlat bin_mlon : vec) (out : Vectors)
  (p b : nat) (tidx : tindex) (bidx : list nat) :
  compute_vectors apex it covar minnumpoints vlos dvlos A int_idx bin_idx
                  bin_mlat bin_mlon = Ok out ->
  nth_error int_idx p = Some tidx -> nth_error bin_idx b = Some bidx ->
  (bidx = [] /\ (1 <= minnumpoints)%Z) \/
  (exists v dv Ab, cell_inputs it vlos dvlos A tidx bidx = Ok (v, dv, Ab) /\
                   (Z.of_nat (count_finite v) < minnumpoints)%Z) ->
  cell (Velocity out) p b = Some nan3 /\
  cell (VelocityCovariance out) p b = Some nan33 /\
  cell (ElectricField out) p b = Some nan3 /\
  cell (ElectricFieldCovariance out) p b = Some nan33.
Proof.
  intros H Hp Hb Hfew.
  destruct (compute_vectors_cell _ _ _ _ _ _ _ _ _ _ _ _ p b tidx bidx H Hp Hb)
    as (v & dv & Ab & V & S & Vp & Sp & Hin & Hvv & HVp & HV & HSp & HS).
  assert (Hlt : (Z.of_nat (count_finite v) < minnumpoints)%Z).
  { destruct Hfew as [[-> Hm]|(v0 & dv0 & Ab0 & Hin0 & Hlt0)].
    - unfold cell_inputs in Hin. bind_inv Hin v1 E1.
      apply take_los_empty in E1. subst v1.
      bind_inv Hin dv1 E2. bind_inv Hin Ab1 E3. inversion Hin; subst.
      simpl. lia.
    - rewrite Hin in Hin0. inversion Hin0; subst. exact Hlt0. }
  pose proof (vvels_few_points _ _ _ _ _ _ Hvv Hlt) as HV0.
  inversion HV0; subst V S. clear HV0.
  destruct (compute_vectors_fields _ _ _ _ _ _ _ _ _ _ _ _ H) as (pts & _ & HE & HSE).
  cbv zeta in HE, HSE.
  destruct (electric_field_cell _ _ _ p b Vp nan3 HE HVp HV)
    as (be & Et & _ & HEt & HEb).
  destruct (electric_field_covariance_cell _ _ _ p b Sp nan33 HSE HSp HS)
    as (be' & SEt & _ & HSEt & HSEb).
  unfold cell. rewrite HVp, HSp, HEt, HSEt.
  rewrite rotated_nan in HEb. rewrite rotated_nan_covariance in HSEb.
  repeat split; assumption.
Qed.

(** one window of two records, a bin with gate 0 and an empty bin *)
Lemma starved_cell_is_nan_witness :
  let vlos := [[1; 2]; [nan; 5]]%float in
  let dvlos := [[1; 1]; [1; 1]]%float in
  let A := [[1; 0; 0]; [0; 1; 0]]%float in
  exists out,
    compute_vectors (example_apex 0) (Some 60%float) [1e6; 1e6; 1e6]%float 2
                    vlos dvlos A [Records [0; 1]] [[0]; []; [1]]
                    [65; 66; 67]%float [10; 10; 10]%float
    = Ok out /\
    (cell (Velocity out) 0 1 = Some nan3 /\
     cell (VelocityCovariance out) 0 1 = Some nan33 /\
     cell (ElectricField out) 0 1 = Some nan3 /\
     cell (ElectricFieldCovariance out) 0 1 = Some nan33) /\
    (cell_inputs (Some 60%float) vlos dvlos A (Records [0; 1]) [0]
     = Ok ([1; nan]%float, [1; 1]%float, [[1; 0; 0]; [1; 0; 0]]%float) /\
     cell (Velocity out) 0 0 = Some nan3 /\
     cell (VelocityCovariance out) 0 0 = Some nan33 /\
     cell (ElectricField out) 0 0 = Some nan3 /\
     cell (ElectricFieldCovariance out) 0 0 = Some nan33).
Proof.
  intros vlos dvlos A.
  destruct (compute_vectors (example_apex 0) (Some 60%float) [1e6; 1e6; 1e6]%float 2
              vlos dvlos A [Records [0; 1]] [[0]; []; [1]]
              [65; 66; 67]%float [10; 10; 10]%float) as [out|e] eqn:Hcv;
    [|vm_compute in Hcv; discriminate Hcv].
  exists out. split; [reflexivity|]. split.
  - apply (starved_cell_is_nan _ _ _ _ _ _ _ _ _ _ _ _ 0 1 (Records [0; 1]) [] Hcv
             eq_refl eq_refl).
    left. split; [reflexivity|lia].
  - assert (Hin : cell_inputs (Some 60%float) vlos dvlos A (Records [0; 1]) [0]
                  = Ok ([1; nan]%float, [1; 1]%float, [[1; 0; 0]; [1; 0; 0]]%float))
      by (vm_compute; reflexivity).
    split; [exact Hin|].
    apply (starved_cell_is_nan _ _ _ _ _ _ _ _ _ _ _ _ 0 0 (Records [0; 1]) [0] Hcv
             eq_refl eq_refl).
    right. eexists. eexists. eexists. split; [exact Hin|]. vm_compute. reflexivity.
Defined.

(** ** [bin_data]: the bins partition the gates between 64 and 67.75 degrees *)

Lemma leb_trans (x y z : float) :
  (x <=? y)%float = true -> (y <=? z)%float = true -> (x <=? z)%float = true.
Proof.
  rewrite !FloatAxioms.leb_spec. unfold SFleb. intros Hxy Hyz.
  destruct (SFcompare (Prim2SF x) (Prim2SF y)) as [[]|] eqn:E1; try discriminate.
  - rewrite (SFcompare_eq_l _ _ _ E1). exact Hyz.
  - destruct (SFcompare (Prim2SF y) (Prim2SF z)) as [[]|] eqn:E2; try discriminate.
    + rewrite <- (SFcompare_eq_r _ _ _ E2), E1. reflexivity.
    + rewrite (SFcompare_lt_trans _ _ _ E1 E2). reflexivity.
Qed.

Lemma increasing_nth_lt (xp : vec) :
  increasing xp ->
  forall i j, i < j < length xp -> (nth i xp nan <? nth j xp nan)%float = true.
Proof.
  induction xp as [|a xp IH]; intros Hinc i j Hij; [simpl in Hij; lia|].
  destruct j as [|j]; [lia|]. cbn [nth length] in *.
  destruct i as [|i].
  - pose proof (increasing_above_head a xp Hinc) as Hall.
    rewrite Forall_forall in Hall. apply Hall. apply nth_In. lia.
  - apply IH; [|lia]. destruct xp as [|b rest]; [exact I|]. apply Hinc.
Qed.

Lemma where1_ge (mask : list bool) (i0 r : nat) : In r (where1 mask i0) -> i0 <= r.
Proof.
  revert i0. induction mask as [|b mask IH]; intros i0 H; [contradiction|].
  cbn [where1] in H. destruct b; [destruct H as [<-|H]|].
  - lia.
  - apply IH in H. lia.
  - apply IH in H. lia.
Qed.

Lemma where1_ascending (mask : list bool) (i0 : nat) : ascending (where1 mask i0).
Proof.
  revert i0. induction mask as [|b mask IH]; intros i0; [exact I|].
  cbn [where1]. destruct b; [|apply IH].
  pose proof (IH (S i0)) as Hrest. pose proof (where1_ge mask (S i0)) as Hge.
  destruct (where1 mask (S i0)) as [|c rest]; [exact I|].
  split; [|exact Hrest]. specialize (Hge c (or_introl eq_refl)). lia.
Qed.

Lemma in_argwhere_map (f : float -> bool) (l : vec) (g : nat) :
  In g (argwhere (map f l)) <-> g < length l /\ f (nth g l nan) = true.
Proof.
  unfold argwhere. rewrite in_where1_true. split.
  - intros H.
    assert (Hg : g < length l).
    { destruct (Nat.lt_ge_cases g (length l)) as [|Hge]; [assumption|].
      rewrite nth_overflow in H by (rewrite length_map; exact Hge). discriminate. }
    split; [exact Hg|]. rewrite (nth_map_lt f l g nan false Hg) in H. exact H.
  - intros [Hg H]. rewrite (nth_map_lt f l g nan false Hg). exact H.
Qed.

Lemma bin_edges_increasing : increasing bin_edges.
Proof. repeat split. Qed.

(** a latitude lies in one bin at most *)
Lemma in_bin_unique (k k' : nat) (m : float) :
  k < 15 -> k' < 15 -> in_bin k m = true -> in_bin k' m = true -> k = k'.
Proof.
  assert (H : forall i j, i < j -> j < 15 ->
                          in_bin i m = true -> in_bin j m = true -> False).
  { intros i j Hij Hj Hi Hj'. unfold in_bin in *.
    apply andb_true_iff in Hi as [_ Hi]. apply andb_true_iff in Hj' as [Hj' _].
    assert (Hm : (m <? nth j bin_edges nan)%float = true).
    { destruct (Nat.eq_dec (S i) j) as [<-|Hne]; [exact Hi|].
      eapply ltb_trans; [exact Hi|].
      apply (increasing_nth_lt _ bin_edges_increasing). simpl. lia. }
    pose proof (ltb_leb_trans _ _ _ Hm Hj') as Hc.
    rewrite ltb_irrefl in Hc. discriminate. }
  intros Hk Hk' H1 H2.
  destruct (Nat.lt_trichotomy k k') as [Hlt|[Heq|Hgt]]; [|exact Heq|].
  - exfalso. exact (H k k' Hlt Hk' H1 H2).
  - exfalso. exact (H k' k Hgt Hk H2 H1).
Qed.

(** the latitudes of the bins are those from 64 up to, not including, 67.75 *)
Lemma in_some_bin (m : float) :
  (exists k, k < 15 /\ in_bin k m = true)
  <-> (64 <=? m)%float && (m <? 67.75)%float = true.
Proof.
  split.
  - intros (k & Hk & Hin). unfold in_bin in Hin.
    apply andb_true_iff in Hin as [H1 H2]. apply andb_true_iff. split.
    + apply (leb_trans _ (nth k bin_edges nan)); [|exact H1].
      clear - Hk. do 15 (destruct k as [|k]; [reflexivity|]). lia.
    + apply (ltb_leb_trans _ (nth (S k) bin_edges nan)); [exact H2|].
      clear - Hk. do 15 (destruct k as [|k]; [reflexivity|]). lia.
  - intros H.
    pose proof (bracket_exists m bin_edges bin_edges_increasing H) as Hb.
    destruct (In_nth_error _ _ Hb) as [k Hk].
    destruct (nth_error_brackets _ _ _ _ Hk) as (a & b & Ha & Hb' & Hc).
    exists k. split.
    + assert (S k < length bin_edges) by (apply nth_error_Some; congruence).
      simpl in H0. lia.
    + unfold in_bin. rewrite (nth_error_nth _ _ nan Ha), (nth_error_nth _ _ nan Hb').
      symmetry. exact Hc.
Qed.

(** [bin_data], with the constant edges computed *)
Lemma bin_data_eq (mlat mlon : vec) :
  Bins.bin_data mlat mlon
  = Some {| Bins.bin_mlat := bin_centres;
            Bins.bin_mlon := repeat (Bins.nanmean mlon) 15;
            Bins.bin_idx := map (fun k => argwhere (map (in_bin k) mlat)) (seq 0 15) |}.
Proof.
  unfold Bins.bin_data.
  assert (E : Bins.arange 64 68 0.25 = Some bin_edges) by (vm_compute; reflexivity).
  rewrite E. reflexivity.
Qed.

Lemma nth_bins (mlat : vec) (k : nat) :
  nth k (map (fun k => argwhere (map (in_bin k) mlat)) (seq 0 15)) []
  = if k <? 15 then argwhere (map (in_bin k) mlat) else [].
Proof.
  destruct (Nat.ltb_spec k 15) as [Hk|Hk].
  - rewrite (nth_indep _ [] (argwhere (map (in_bin 0) mlat)))
      by (rewrite length_map, length_seq; exact Hk).
    rewrite (map_nth (fun k => argwhere (map (in_bin k) mlat)) (seq 0 15) 0 k).
    rewrite seq_nth by exact Hk. reflexivity.
  - apply nth_overflow. rewrite length_map, length_seq. exact Hk.
Qed.

(** X10. [bin_data] makes 15 bins of magnetic latitude, with edges 64,
    64.25, ..., 67.75 and centres 64.125, ..., 67.625, all at the mean
    longitude.  Bin [k] lists, in ascending order, exactly the gates whose
    latitude [m] satisfies edge k <= m < edge (k + 1); no gate is in two
    bins; a gate is in some bin exactly when 64 <= m < 67.75, so gates
    from 67.75 degrees on, and gates whose latitude is NaN, are in none. *)
Theorem bin_data_partitions_gates (mlat mlon : vec) :
  exists b : Bins.Binning,
    Bins.bin_data mlat mlon = Some b /\
    Bins.bin_mlat b = bin_centres /\
    Bins.bin_mlon b = repeat (Bins.nanmean mlon) 15 /\
    length (Bins.bin_idx b) = 15 /\
    (forall k g, k < 15 ->
       (In g (nth k (Bins.bin_idx b) []) <->
        g < length mlat /\ in_bin k (nth g mlat nan) = true)) /\
    (forall k, ascending (nth k (Bins.bin_idx b) [])) /\
    (forall k k' g, In g (nth k (Bins.bin_idx b) []) ->
                    In g (nth k' (Bins.bin_idx b) []) -> k = k') /\
    (forall g, (exists k, In g (nth k (Bins.bin_idx b) [])) <->
               g < length mlat /\
               (64 <=? nth g mlat nan)%float && (nth g mlat nan <? 67.75)%float = true) /\
    (forall k g, isnan (nth g mlat nan) = true -> ~ In g (nth k (Bins.bin_idx b) [])).
Proof.
  eexists. split; [apply bin_data_eq|]. cbn [Bins.bin_mlat Bins.bin_mlon Bins.bin_idx].
  assert (Hmem : forall k g,
             In g (nth k (map (fun k => argwhere (map (in_bin k) mlat)) (seq 0 15)) [])
             <-> k < 15 /\ g < length mlat /\ in_bin k (nth g mlat nan) = true).
  { intros k g. rewrite nth_bins. destruct (Nat.ltb_spec k 15) as [Hk|Hk].
    - rewrite in_argwhere_map. tauto.
    - split; [intros []|lia]. }
  split; [reflexivity|]. split; [reflexivity|]. split; [reflexivity|].
  split; [|split; [|split; [|split]]].
  - intros k g Hk. rewrite Hmem. tauto.
  - intros k. rewrite nth_bins. destruct (k <? 15); [|exact I].
    apply where1_ascending.
  - intros k k' g H1 H2. apply Hmem in H1 as (Hk & _ & H1).
    apply Hmem in H2 as (Hk' & _ & H2). exact (in_bin_unique _ _ _ Hk Hk' H1 H2).
  - intros g. rewrite <- in_some_bin. split.
    + intros (k & Hk). apply Hmem in Hk as (Hk & Hg & Hin). eauto.
    + intros (Hg & k & Hk & Hin). exists k. apply Hmem. auto.
  - intros k g Hnan Hin. apply Hmem in Hin as (_ & _ & Hin).
    unfold in_bin in Hin. apply andb_true_iff in Hin as [Hin _].
    apply leb_not_nan_r in Hin. unfold isnan in Hnan. congruence.
Qed.

(** ** [np.linalg.inv]: the shape of the inverse *)

Lemma argmax_abs_bound (c : nat) (rows : list vec) (i best : nat) (bestv : float) :
  best < i -> argmax_abs c rows i best bestv < i + length rows.
Proof.
  revert i best bestv. induction rows as [|r rows IH]; intros i best bestv Hb.
  - simpl. lia.
  - cbn [argmax_abs length]. destruct (_ <? _)%float.
    + specialize (IH (S i) i (abs (nth c r 0%float))). lia.
    + specialize (IH (S i) best bestv). lia.
Qed.

Lemma gj_step_shape (w c : nat) (done todo done' todo' : list vec) :
  Forall (fun r => length r = w) (done ++ todo) ->
  gj_step c (done, todo) = Ok (done', todo') ->
  length done' = S (length done) /\ S (length todo') = length todo /\
  Forall (fun r => length r = w) (done' ++ todo').
Proof.
  intros Hall H. unfold gj_step in H.
  destruct todo as [|r0 rs]; [discriminate|].
  set (k := argmax_abs c rs 1 0 (abs (nth c r0 0%float))) in *.
  assert (Hk : k < length (r0 :: rs)).
  { unfold k. pose proof (argmax_abs_bound c rs 1 0 (abs (nth c r0 0%float))).
    cbn [length]. lia. }
  set (piv := nth k (r0 :: rs) r0) in *.
  destruct (_ =? _)%float; [discriminate|].
  inversion H; subst done' todo'. clear H.
  apply Forall_app in Hall as [Hd Ht].
  assert (Hpiv : length piv = w).
  { rewrite Forall_forall in Ht. apply Ht. apply nth_In. exact Hk. }
  assert (Helim : forall r, length r = w ->
            length (zip_with (fun x y => (x - nth c r 0 * y)%float) r
                             (map (fun x => (x / nth c piv 0)%float) piv)) = w).
  { intros r Hr. rewrite length_zip_with_min, length_map. lia. }
  split; [|split].
  - rewrite length_app, length_map. simpl. lia.
  - rewrite length_map, length_app, length_firstn, length_skipn.
    cbn [length] in *. lia.
  - apply Forall_app. split; [apply Forall_app; split|].
    + apply Forall_forall. intros r Hr. apply in_map_iff in Hr as (r' & <- & Hr').
      apply Helim. rewrite Forall_forall in Hd. apply Hd. exact Hr'.
    + constructor; [|constructor]. rewrite length_map. exact Hpiv.
    + apply Forall_forall. intros r Hr. apply in_map_iff in Hr as (r' & <- & Hr').
      apply Helim. rewrite Forall_forall in Ht. apply Ht.
      apply in_app_or in Hr' as [Hr'|Hr'].
      * rewrite <- (firstn_skipn k (r0 :: rs)). apply in_or_app. left. exact Hr'.
      * rewrite <- (firstn_skipn (S k) (r0 :: rs)). apply in_or_app. right. exact Hr'.
Qed.

Lemma gauss_jordan_shape (w : nat) (cols : list nat) :
  forall (done todo done' todo' : list vec),
    Forall (fun r => length r = w) (done ++ todo) ->
    fold_left (fun acc c => st <- acc ;; gj_step c st) cols (Ok (done, todo))
    = Ok (done', todo') ->
    length done' = length done + length cols /\
    Forall (fun r => length r = w) done'.
Proof.
  induction cols as [|c cols IH]; intros done todo done' todo' Hall H.
  - simpl in H. inversion H; subst. split; [simpl; lia|].
    apply Forall_app in Hall. apply Hall.
  - cbn [fold_left bind] in H.
    destruct (gj_step c (done, todo)) as [[d1 t1]|e] eqn:E.
    + destruct (gj_step_shape w c _ _ _ _ Hall E) as (L1 & L2 & Hall1).
      destruct (IH d1 t1 done' todo' Hall1 H) as [L Hd].
      split; [cbn [length]; lia|exact Hd].
    + rewrite gj_fold_raised in H. discriminate.
Qed.

(** What [np.linalg.inv] returns has the shape of its argument. *)
Lemma inv_shape (M R : mat) :
  inv M = Ok R -> length R = length M /\ rows_of (length M) R.
Proof.
  unfold inv. destruct (forallb _ M) eqn:Hsq; [|discriminate].
  destruct (gauss_jordan (length M) (augment M)) as [[done todo]|] eqn:E;
    cbn [bind]; [|discriminate].
  intros H. inversion H; subst R. clear H. cbn [fst].
  assert (Haug : Forall (fun r => length r = length M + length M) ([] ++ augment M)).
  { cbn [app]. unfold augment. apply Forall_forall. intros r Hr.
    destruct (In_nth_error _ _ Hr) as [j Hj].
    assert (Hjl : j < length M).
    { assert (Hl : j < length (zip_with
                (fun i r => r ++ map (fun j => if i =? j then 1%float else 0%float)
                                     (seq 0 (length M))) (seq 0 (length M)) M))
        by (apply nth_error_Some; congruence).
      rewrite length_zip_with_min, length_seq in Hl. lia. }
    destruct (nth_error_zip_with
                (fun i r => r ++ map (fun j => if i =? j then 1%float else 0%float)
                                     (seq 0 (length M)))
                (seq 0 (length M)) M j (nth j M [])) as (i & _ & Hz).
    { apply length_seq. }
    { apply nth_error_nth_some. exact Hjl. }
    rewrite Hz in Hj. inversion Hj; subst r.
    rewrite length_app, length_map, length_seq. f_equal.
    rewrite forallb_forall in Hsq. apply Nat.eqb_eq. apply Hsq. apply nth_In. exact Hjl. }
  unfold gauss_jordan in E.
  destruct (gauss_jordan_shape _ _ _ _ _ _ Haug E) as [L Hd].
  rewrite length_seq in L. cbn [length] in L.
  split; [rewrite length_map; exact L|].
  unfold rows_of. apply Forall_forall. intros r Hr.
  apply in_map_iff in Hr as (r' & <- & Hr'). rewrite length_skipn.
  rewrite Forall_forall in Hd. rewrite (Hd r' Hr'). lia.
Qed.

(** ** [compute_vectors] returns, on well-shaped arrays *)

Lemma length_diagflat (v : vec) : length (diagflat v) = length v.
Proof. unfold diagflat. rewrite length_map, length_seq. reflexivity. Qed.

Lemma is_shape_rows (r c : nat) (M : mat) :
  length M = r -> rows_of c M -> is_shape r c M = true.
Proof.
  intros HL HM. unfold is_shape. rewrite HL, Nat.eqb_refl. cbn [andb].
  apply forallb_forall. intros row Hrow. apply Nat.eqb_eq.
  unfold rows_of in HM. rewrite Forall_forall in HM. apply HM. exact Hrow.
Qed.

(** the shapes of what the [try] block of [vvels] computes *)
Lemma vvels_try_shape (v dv : vec) (A SigmaE : mat) (cov V : vec) (S : mat) :
  vvels_try v dv A SigmaE (diagflat cov) = Ok (V, S) ->
  length V = length cov /\ is_shape (length cov) (length cov) S = true.
Proof.
  unfold vvels_try. intros H.
  bind_inv H I0 E0. bind_inv H iE E1. bind_inv H iV E2. bind_inv H S0 E3.
  inversion H; subst V S. clear H. split.
  - unfold einsum_jk_lk_lm_m. rewrite length_map. apply length_diagflat.
  - destruct (inv_shape _ _ E2) as [LiV _]. rewrite length_diagflat in LiV.
    destruct (inv_shape _ _ E3) as [LS HS].
    assert (LM : length (madd (einsum_kj_kl_lm (length (diagflat cov)) A iE A) iV)
                 = length cov).
    { unfold madd, einsum_kj_kl_lm.
      rewrite length_zip_with_min, length_map, length_seq, length_diagflat. lia. }
    rewrite LM in LS, HS. apply is_shape_rows; assumption.
Qed.

Lemma vvels_returns_shape (v dv : vec) (Ab : mat) (covar : vec) (m : Z) :
  shapes_ok v dv Ab covar -> length covar = 3 ->
  exists V S, vvels v dv Ab covar m = Ok (V, S) /\
              length V = 3 /\ is_shape 3 3 S = true.
Proof.
  intros Hs Hc. pose proof (vvels_shapes_ok _ _ _ _ m Hs) as H.
  destruct (finite_part v dv Ab) as [[v' dv'] Af]. rewrite H.
  destruct (_ <? _)%Z; [exists nan3, nan33; repeat split|].
  destruct (vvels_try _ _ _ _ _) as [[V S]|e] eqn:E;
    [|exists nan3, nan33; repeat split].
  exists V, S. split; [reflexivity|].
  destruct (vvels_try_shape _ _ _ _ _ _ _ E) as [LV HS]. rewrite Hc in *.
  split; assumption.
Qed.

Lemma getitem2_ok (M : mat) (nt ng t g : nat) :
  length M = nt -> rows_of ng M -> t < nt -> g < ng ->
  exists x, getitem2 M t g = Ok x.
Proof.
  intros HL HM Ht Hg. unfold getitem2.
  rewrite (nth_error_nth_some M t []) by lia. cbn [of_option bind].
  rewrite (nth_error_nth_some _ g nan)
    by (rewrite (rows_of_length ng) by (assumption || lia); exact Hg).
  cbn [of_option]. eauto.
Qed.

Lemma take_los_ok (M : mat) (it : option float) (nt ng : nat) (tidx : tindex)
  (bidx : list nat) :
  length M = nt -> rows_of ng M ->
  valid_tindex it nt tidx -> Forall (fun g => g < ng) bidx ->
  exists v, take_los M tidx bidx = Ok v /\
            length v = length bidx * match tidx with
                                     | Record_ _ => 1
                                     | Records ts => length ts
                                     end.
Proof.
  intros HL HM Hv Hb. rewrite Forall_forall in Hb.
  destruct tidx as [t|ts]; cbn [valid_tindex] in Hv; destruct Hv as [_ Hv].
  - destruct (mapM_exists (fun g => getitem2 M t g) bidx) as [v Ev].
    { intros g Hg. eapply getitem2_ok; eauto. }
    exists v. split; [exact Ev|]. apply mapM_ok in Ev as [Ev _]. lia.
  - rewrite Forall_forall in Hv.
    destruct (mapM_exists (fun g => mapM (fun t => getitem2 M t g) ts) bidx)
      as [rows Erows].
    { intros g Hg. apply mapM_exists. intros t Ht. eapply getitem2_ok; eauto. }
    assert (E : take_los M (Records ts) bidx = Ok (concat rows)).
    { unfold take_los. rewrite Erows. reflexivity. }
    exists (concat rows). split; [exact E|].
    exact (proj1 (take_los_records _ _ _ _ E)).
Qed.

(** the inputs of one cell exist and have the shapes [vvels] needs *)
Lemma cell_inputs_ok (it : option float) (vlos dvlos A : mat) (nt ng : nat)
  (tidx : tindex) (bidx : list nat) (covar : vec) :
  length vlos = nt -> rows_of ng vlos -> length dvlos = nt -> rows_of ng dvlos ->
  length A = ng -> rows_of (length covar) A ->
  valid_tindex it nt tidx -> Forall (fun g => g < ng) bidx ->
  exists v dv Ab, cell_inputs it vlos dvlos A tidx bidx = Ok (v, dv, Ab) /\
                  shapes_ok v dv Ab covar.
Proof.
  intros Lv Hv Ldv Hdv LA HA Ht Hb.
  destruct (take_los_ok vlos it nt ng tidx bidx Lv Hv Ht Hb) as (v & Ev & Lv').
  destruct (take_los_ok dvlos it nt ng tidx bidx Ldv Hdv Ht Hb) as (dv & Edv & Ldv').
  destruct (mapM_exists (fun g => of_option (nth_error A g)) bidx) as [rows Erows].
  { intros g Hg. rewrite Forall_forall in Hb.
    rewrite (nth_error_nth_some A g []) by (rewrite LA; apply Hb; exact Hg).
    eexists. reflexivity. }
  assert (Hrows : Forall (fun r => length r = length covar) rows).
  { apply Forall_forall. intros r Hr. destruct (In_nth_error _ _ Hr) as [j Hj].
    destruct (mapM_ok _ _ _ Erows) as [Lr Hn].
    assert (Hjl : j < length bidx)
      by (rewrite <- Lr; apply nth_error_Some; congruence).
    destruct (Hn j (nth j bidx 0) (nth_error_nth_some _ _ _ Hjl)) as (y & Hy & Ey).
    assert (y = r) by congruence. subst y.
    unfold of_option in Ey. destruct (nth_error A (nth j bidx 0)) as [r'|] eqn:Er;
      [|discriminate]. inversion Ey; subst r'.
    unfold rows_of in HA. rewrite Forall_forall in HA. apply HA.
    eapply nth_error_In; eassumption. }
  assert (Lrows : length rows = length bidx) by (apply (mapM_ok _ _ _ Erows)).
  unfold cell_inputs. rewrite Ev. cbn [bind]. rewrite Edv. cbn [bind].
  fold (take_rows A bidx). unfold take_rows at 1 2. rewrite Erows.
  destruct tidx as [t|ts]; cbn [valid_tindex] in Ht; destruct Ht as [Hit _];
    rewrite Hit; cbn [bind len].
  - exists v, dv, rows. split; [reflexivity|].
    split; [lia|]. split; [lia|exact Hrows].
  - exists v, dv, (np_repeat rows (length ts)). split; [reflexivity|].
    split; [lia|]. split.
    + rewrite (proj1 (take_rows_repeat A bidx rows (length ts) Erows)). lia.
    + apply Forall_forall. intros r Hr. unfold np_repeat in Hr.
      apply in_flat_map in Hr as (r0 & Hr0 & Hin). apply repeat_spec in Hin. subst r.
      rewrite Forall_forall in Hrows. apply Hrows. exact Hr0.
Qed.

Lemma mapM_in {X Y : Type} (f : X -> result Y) (l : list X) (ys : list Y) (y : Y) :
  mapM f l = Ok ys -> In y ys -> exists x, In x l /\ f x = Ok y.
Proof.
  intros H Hy. destruct (mapM_ok _ _ _ H) as [HL Hn].
  destruct (In_nth_error _ _ Hy) as [j Hj].
  assert (Hjl : j < length l) by (rewrite <- HL; apply nth_error_Some; congruence).
  destruct (nth_error l j) as [x|] eqn:Ex; [|apply nth_error_None in Ex; lia].
  destruct (Hn j x Ex) as (y' & Hy' & Ey'). exists x.
  split; [eapply nth_error_In; eassumption|congruence].
Qed.

Lemma broadcast3_bins (bin_mlat bin_mlon : vec) (nb : nat) :
  length bin_mlat = nb -> length bin_mlon = nb -> nb <> 0 ->
  exists pts, broadcast3 bin_mlat bin_mlon [200%float] = Ok pts /\ length pts = nb.
Proof.
  intros H1 H2 Hnb. unfold broadcast3, bdim. rewrite H1, H2, Nat.eqb_refl.
  cbn [length].
  destruct (Nat.eqb_spec nb 1) as [->|Hne].
  - eexists. split; [reflexivity|]. rewrite length_map, length_seq. reflexivity.
  - eexists. split; [reflexivity|]. rewrite length_map, length_seq. reflexivity.
Qed.

Lemma compute_vectors_ok (apex : Apex) (it : option float) (covar : vec)
  (minnumpoints : Z) (vlos dvlos A : mat) (int_idx : list tindex)
  (bin_idx : list (list nat)) (bin_mlat bin_mlon : vec) (nt ng : nat) :
  length vlos = nt -> rows_of ng vlos -> length dvlos = nt -> rows_of ng dvlos ->
  length A = ng -> rows_of 3 A -> length covar = 3 ->
  int_idx <> [] -> Forall (valid_tindex it nt) int_idx ->
  bin_idx <> [] -> Forall (Forall (fun g => g < ng)) bin_idx ->
  length bin_mlat = length bin_idx -> length bin_mlon = length bin_idx ->
  exists out,
    compute_vectors apex it covar minnumpoints vlos dvlos A int_idx bin_idx
                    bin_mlat bin_mlon = Ok out /\
    vector_shape (length int_idx) (length bin_idx) (Velocity out) /\
    matrix_shape (length int_idx) (length bin_idx) (VelocityCovariance out) /\
    vector_shape (length int_idx) (length bin_idx) (ElectricField out) /\
    matrix_shape (length int_idx) (length bin_idx) (ElectricFieldCovariance out).
Proof.
  intros Lv Hv Ldv Hdv LA HA Lc Hp Hti Hb Hbi Lla Llo.
  rewrite Forall_forall in Hti, Hbi.
  set (f := fun tidx bidx =>
              '(v, dv, Ab) <- cell_inputs it vlos dvlos A tidx bidx ;;
              vvels v dv Ab covar minnumpoints).
  assert (Hcell : forall tidx bidx, In tidx int_idx -> In bidx bin_idx ->
            exists V S, f tidx bidx = Ok (V, S) /\ length V = 3 /\
                        is_shape 3 3 S = true).
  { intros tidx bidx Ht Hbx.
    destruct (cell_inputs_ok it vlos dvlos A nt ng tidx bidx covar
                Lv Hv Ldv Hdv LA) as (v & dv & Ab & Ein & Hs);
      [rewrite Lc; exact HA|apply Hti; exact Ht|apply Hbi; exact Hbx|].
    destruct (vvels_returns_shape v dv Ab covar minnumpoints Hs Lc)
      as (V & S & Evv & LV & HS).
    exists V, S. unfold f. rewrite Ein. cbn [bind]. auto. }
  destruct (mapM_exists (fun tidx => mapM (f tidx) bin_idx) int_idx) as [cells Ecells].
  { intros tidx Ht. apply mapM_exists. intros bidx Hbx.
    destruct (Hcell tidx bidx Ht Hbx) as (V & S & E & _). eauto. }
  assert (Lcells : length cells = length int_idx) by (apply (mapM_ok _ _ _ Ecells)).
  assert (Hrows : forall row, In row cells ->
            length row = length bin_idx /\
            forall V S, In (V, S) row -> length V = 3 /\ is_shape 3 3 S = true).
  { intros row Hrow. destruct (mapM_in _ _ _ _ Ecells Hrow) as (tidx & Ht & Erow).
    split; [apply (mapM_ok _ _ _ Erow)|].
    intros V S HVS. destruct (mapM_in _ _ _ _ Erow HVS) as (bidx & Hbx & Ec).
    destruct (Hcell tidx bidx Ht Hbx) as (V' & S' & E' & LV & HS).
    rewrite Ec in E'. inversion E'; subst. auto. }
  assert (Hnb : length bin_idx <> 0) by (destruct bin_idx; [congruence|discriminate]).
  destruct (broadcast3_bins bin_mlat bin_mlon (length bin_idx) Lla Llo Hnb)
    as (pts & Epts & Lpts).
  set (Be3 := map (fun '(la, lo, al) => bvectors_Be3_pt apex la lo al) pts).
  assert (LBe3 : length Be3 = length bin_idx) by (unfold Be3; rewrite length_map; exact Lpts).
  set (Vel := map (map fst) cells). set (Cov := map (map snd) cells).
  assert (HVel : vector_shape (length int_idx) (length bin_idx) Vel).
  { split; [unfold Vel; rewrite length_map; exact Lcells|].
    apply Forall_forall. intros row Hrow. unfold Vel in Hrow.
    apply in_map_iff in Hrow as (crow & <- & Hc). destruct (Hrows crow Hc) as [L Hcs].
    split; [rewrite length_map; exact L|].
    apply Forall_forall. intros V HV. apply in_map_iff in HV as ([V' S] & <- & HVS).
    apply (Hcs V' S HVS). }
  assert (HCov : matrix_shape (length int_idx) (length bin_idx) Cov).
  { split; [unfold Cov; rewrite length_map; exact Lcells|].
    apply Forall_forall. intros row Hrow. unfold Cov in Hrow.
    apply in_map_iff in Hrow as (crow & <- & Hc). destruct (Hrows crow Hc) as [L Hcs].
    split; [rewrite length_map; exact L|].
    apply Forall_forall. intros S HS. apply in_map_iff in HS as ([V S'] & <- & HVS).
    apply (Hcs V S' HVS). }
  assert (Hne : Vel <> []).
  { unfold Vel. destruct cells; [|discriminate].
    destruct int_idx; [congruence|discriminate]. }
  assert (Hne' : Cov <> []).
  { unfold Cov. destruct cells; [|discriminate].
    destruct int_idx; [congruence|discriminate]. }
  set (GE := fun Vt : list vec => zip_with (fun b V => einsum_jk_k (rotation b) V) Be3 Vt).
  set (GS := fun St : list mat =>
               zip_with (fun b S => einsum_jk_kl_ml (rotation b) S (rotation b)) Be3 St).
  assert (EE : electric_field Be3 Vel = Ok (map GE Vel)).
  { unfold electric_field. destruct Vel as [|V0 Vs] eqn:EV; [congruence|].
    rewrite <- EV in *. apply mapM_all_ok. intros Vt HVt.
    destruct HVel as [_ HVel]. rewrite Forall_forall in HVel.
    destruct (HVel Vt HVt) as [L HV3].
    replace (negb (length Vt =? 0)) with true
      by (symmetry; apply negb_true_iff; apply Nat.eqb_neq; lia).
    rewrite is_shape_rows; [reflexivity|lia|exact HV3]. }
  assert (ES : electric_field_covariance Be3 Cov = Ok (map GS Cov)).
  { unfold electric_field_covariance. destruct Cov as [|C0 Cs] eqn:EC; [congruence|].
    rewrite <- EC in *. apply mapM_all_ok. intros St HSt.
    destruct HCov as [_ HCov]. rewrite Forall_forall in HCov.
    destruct (HCov St HSt) as [L HS3].
    replace (negb (length St =? 0)) with true
      by (symmetry; apply negb_true_iff; apply Nat.eqb_neq; lia).
    replace (length St =? length Be3) with true
      by (symmetry; apply Nat.eqb_eq; lia).
    replace (forallb (is_shape 3 3) St) with true; [reflexivity|].
    symmetry. apply forallb_forall. rewrite Forall_forall in HS3. exact HS3. }
  eexists. split.
  { unfold compute_vectors. unfold f in Ecells. rewrite Ecells. cbn [bind].
    rewrite Epts.
    cbn [bind]. fold Be3. fold Vel. fold Cov. rewrite EE. cbn [bind]. rewrite ES.
    reflexivity. }
  cbn [Velocity VelocityCovariance ElectricField ElectricFieldCovariance].
  split; [exact HVel|]. split; [exact HCov|]. split.
  - destruct HVel as [L HVel]. split; [rewrite length_map; exact L|].
    apply Forall_forall. intros row Hrow. apply in_map_iff in Hrow as (Vt & <- & HVt).
    rewrite Forall_forall in HVel. destruct (HVel Vt HVt) as [LVt _].
    unfold GE. split; [rewrite length_zip_with_min; unfold vec, mat in *; lia|].
    apply Forall_forall. intros E HE.
    destruct (In_nth_error _ _ HE) as [j Hj].
    assert (Hjl : j < length Vt).
    { assert (H : j < length (zip_with (fun b V => einsum_jk_k (rotation b) V) Be3 Vt))
        by (apply nth_error_Some; intros Hc;
            pose proof (eq_trans (eq_sym Hj) Hc) as Hd; discriminate Hd).
      rewrite length_zip_with_min in H. unfold vec, mat in *. lia. }
    destruct (nth_error_zip_with (fun b V => einsum_jk_k (rotation b) V) Be3 Vt j
                (nth j Vt [])) as (bj & _ & Hz);
      [unfold vec, mat in *; lia|apply nth_error_nth_some; exact Hjl|].
    pose proof (eq_trans (eq_sym Hj) Hz) as Hd. inversion Hd. reflexivity.
  - destruct HCov as [L HCov]. split; [rewrite length_map; exact L|].
    apply Forall_forall. intros row Hrow. apply in_map_iff in Hrow as (St & <- & HSt).
    rewrite Forall_forall in HCov. destruct (HCov St HSt) as [LSt _].
    unfold GS. split; [rewrite length_zip_with_min; unfold vec, mat in *; lia|].
    apply Forall_forall. intros E HE.
    destruct (In_nth_error _ _ HE) as [j Hj].
    assert (Hjl : j < length St).
    { assert (H : j < length (zip_with
                (fun b S => einsum_jk_kl_ml (rotation b) S (rotation b)) Be3 St))
        by (apply nth_error_Some; intros Hc;
            pose proof (eq_trans (eq_sym Hj) Hc) as Hd; discriminate Hd).
      rewrite length_zip_with_min in H. unfold vec, mat in *. lia. }
    destruct (nth_error_zip_with
                (fun b S => einsum_jk_kl_ml (rotation b) S (rotation b)) Be3 St j
                (nth j St [])) as (bj & _ & Hz);
      [unfold vec, mat in *; lia|apply nth_error_nth_some; exact Hjl|].
    pose proof (eq_trans (eq_sym Hj) Hz) as Hd. inversion Hd. reflexivity.
Qed.

(** the members of [int_idx] that [get_integration_periods] makes fit the
    mode and the records *)
Lemma integration_indices_valid (it : option float) (time : list (float * float)) :
  time <> [] ->
  snd (get_integration_periods it time) <> [] /\
  Forall (valid_tindex it (length time)) (snd (get_integration_periods it time)).
Proof.
  intros Hne.
  assert (Hrec : forall it', truthy_float it' = false ->
            map Record_ (seq 0 (length time)) <> [] /\
            Forall (valid_tindex it' (length time)) (map Record_ (seq 0 (length time)))).
  { intros it' Hf. split.
    - destruct time; [congruence|discriminate].
    - apply Forall_forall. intros x Hx. apply in_map_iff in Hx as (t & <- & Ht).
      apply in_seq in Ht. split; [exact Hf|lia]. }
  unfold get_integration_periods. destruct it as [T|]; [|apply Hrec; reflexivity].
  destruct (truthy_float (Some T)) eqn:HT; [|apply Hrec; exact HT].
  pose proof (integrate_spec T time time 0 0 [] None eq_refl (le_n 0) eq_refl eq_refl)
    as H.
  destruct (integrate T (length time) time 0 [] None) as [ps ws].
  destruct H as (_ & _ & Hruns & _). destruct (Hruns Hne) as [_ Hcat].
  rewrite Nat.sub_0_r in Hcat. cbn [snd]. split.
  - destruct ws; [|discriminate]. destruct time; [congruence|discriminate].
  - apply Forall_forall. intros x Hx. apply in_map_iff in Hx as (w & <- & Hw).
    split; [exact HT|]. apply Forall_forall. intros t Ht.
    assert (Hin : In t (concat ws)) by (apply in_concat; eauto).
    rewrite Hcat in Hin. apply in_seq in Hin. lia.
Qed.

(** X11. On the records of a non-empty time axis, with LoS arrays of shape
    (records, gates), one k-vector of three components and one latitude per
    gate and a prior of three components, [compute_vectors] run on the
    periods of [get_integration_periods] and the bins of [bin_data] raises
    nothing: it returns velocities and electric fields of shape
    (periods, 15, 3) and covariances of shape (periods, 15, 3, 3), whether
    or not an integration time is set. *)
Theorem vectors_of_binned_records (apex : Apex) (it : option float) (covar : vec)
  (minnumpoints : Z) (time : list (float * float)) (vlos dvlos A : mat)
  (mlat mlon : vec) (ng : nat) :
  time <> [] ->
  length vlos = length time -> rows_of ng vlos ->
  length dvlos = length time -> rows_of ng dvlos ->
  length A = ng -> rows_of 3 A -> length mlat = ng -> length covar = 3 ->
  exists (b : Bins.Binning) (int_idx : list tindex) (out : Vectors),
    Bins.bin_data mlat mlon = Some b /\
    int_idx = snd (get_integration_periods it time) /\
    compute_vectors apex it covar minnumpoints vlos dvlos A int_idx
                    (Bins.bin_idx b) (Bins.bin_mlat b) (Bins.bin_mlon b) = Ok out /\
    vector_shape (length int_idx) 15 (Velocity out) /\
    matrix_shape (length int_idx) 15 (VelocityCovariance out) /\
    vector_shape (length int_idx) 15 (ElectricField out) /\
    matrix_shape (length int_idx) 15 (ElectricFieldCovariance out).
Proof.
  intros Hne Lv Hv Ldv Hdv LA HA Lm Lc.
  destruct (integration_indices_valid it time Hne) as [Hidx Hval].
  eexists. exists (snd (get_integration_periods it time)).
  destruct (compute_vectors_ok apex it covar minnumpoints vlos dvlos A
              (snd (get_integration_periods it time))
              (map (fun k => argwhere (map (in_bin k) mlat)) (seq 0 15))
              bin_centres (repeat (Bins.nanmean mlon) 15) (length time) ng
              Lv Hv Ldv Hdv LA HA Lc Hidx Hval) as (out & E & S1 & S2 & S3 & S4).
  - discriminate.
  - apply Forall_forall. intros bidx Hb. apply in_map_iff in Hb as (k & <- & _).
    apply Forall_forall. intros g Hg. apply in_argwhere_map in Hg. lia.
  - reflexivity.
  - reflexivity.
  - exists out. split; [apply bin_data_eq|]. split; [reflexivity|].
    cbn [Bins.bin_idx Bins.bin_mlat Bins.bin_mlon].
    rewrite length_map, length_seq in S1, S2, S3, S4.
    split; [exact E|]. split; [exact S1|]. split; [exact S2|]. split; [exact S3|exact S4].
Qed.

(** two records, two gates at 64.3 and 64.1 degrees, without and with an
    integration time *)
Lemma vectors_of_binned_records_witness :
  let time := [(0, 30); (30, 60)]%float in
  let vlos := [[1; 2]; [3; 4]]%float in
  let dvlos := [[1; 1]; [1; 1]]%float in
  let A := [[1; 0; 0]; [0; 1; 0]]%float in
  let mlat := [64.3; 64.1]%float in
  let returns (it : option float) :=
    exists (b : Bins.Binning) (int_idx : list tindex) (out : Vectors),
      Bins.bin_data mlat [10; 20]%float = Some b /\
      int_idx = snd (get_integration_periods it time) /\
      compute_vectors (example_apex 0) it [1e6; 1e6; 1e6]%float 1 vlos dvlos A
                      int_idx (Bins.bin_idx b) (Bins.bin_mlat b) (Bins.bin_mlon b)
      = Ok out /\
      vector_shape (length int_idx) 15 (Velocity out) /\
      matrix_shape (length int_idx) 15 (VelocityCovariance out) /\
      vector_shape (length int_idx) 15 (ElectricField out) /\
      matrix_shape (length int_idx) 15 (ElectricFieldCovariance out) in
  returns None /\ returns (Some 60%float).
Proof.
  intros time vlos dvlos A mlat returns.
  split;
    [apply (vectors_of_binned_records (example_apex 0) None [1e6; 1e6; 1e6]%float 1
              time vlos dvlos A mlat [10; 20]%float 2)
    |apply (vectors_of_binned_records (example_apex 0) (Some 60%float)
              [1e6; 1e6; 1e6]%float 1 time vlos dvlos A mlat [10; 20]%float 2)];
    try reflexivity; try discriminate; repeat constructor.
Defined.

(** ** [compute_geodetic_output]: the basis vectors that are summed *)

Lemma nth_map_seq {X : Type} (F : nat -> X) (n i : nat) (d : X) :
  i < n -> nth i (map F (seq 0 n)) d = F i.
Proof.
  intros Hi. rewrite (nth_indep _ d (F 0)) by (rewrite length_map, length_seq; exact Hi).
  rewrite (map_nth F (seq 0 n) 0 i), seq_nth by exact Hi. reflexivity.
Qed.

Lemma nth_error_map_seq {X : Type} (F : nat -> X) (n i : nat) :
  i < n -> nth_error (map F (seq 0 n)) i = Some (F i).
Proof.
  intros Hi. rewrite (nth_error_nth_some _ i (F 0))
    by (rewrite length_map, length_seq; exact Hi).
  rewrite nth_map_seq by exact Hi. reflexivity.
Qed.

Lemma broadcast3_bin_points (bin_mlat bin_mlon : vec) (a : float) (nb : nat) :
  length bin_mlat = nb -> length bin_mlon = nb -> nb <> 0 ->
  broadcast3 bin_mlat bin_mlon [a]
  = Ok (map (fun i => (nth i bin_mlat nan, nth i bin_mlon nan, a)) (seq 0 nb)).
Proof.
  intros H1 H2 Hnb. unfold broadcast3, bdim. rewrite H1, H2, Nat.eqb_refl.
  cbn [length].
  assert (E : map (fun i => (bget bin_mlat i, bget bin_mlon i, bget [a] i)) (seq 0 nb)
              = map (fun i => (nth i bin_mlat nan, nth i bin_mlon nan, a)) (seq 0 nb)).
  { apply map_ext_in. intros i Hi. apply in_seq in Hi.
    change (bget [a] i) with a. rewrite !bget_nth by lia. reflexivity. }
  destruct (Nat.eqb_spec nb 1) as [Hone|Hne]; rewrite <- E; [rewrite Hone|];
    reflexivity.
Qed.

(** One bin of [np.array([a1, a2, a3]).T]: the matrix whose columns are the
    three vectors at that bin. *)
Lemma transpose_axes_bin {P : Type} (f1 f2 f3 : P -> vec3) (l : list P) (i : nat)
  (d : P) :
  i < length l ->
  nth i (Geodetic.transpose_axes
           [Geodetic.components (map f1 l); Geodetic.components (map f2 l);
            Geodetic.components (map f3 l)]) []
  = columns (f1 (nth i l d)) (f2 (nth i l d)) (f3 (nth i l d)).
Proof.
  intros Hi. unfold Geodetic.transpose_axes.
  cbn [length hd Geodetic.components]. rewrite !length_map.
  rewrite nth_map_seq by exact Hi.
  cbn [seq map nth Geodetic.components].
  rewrite !map_map.
  rewrite !(nth_map_lt _ l i d nan) by exact Hi.
  unfold columns.
  destruct (f1 (nth i l d)) as [[x1 y1] z1], (f2 (nth i l d)) as [[x2 y2] z2],
           (f3 (nth i l d)) as [[x3 y3] z3].
  reflexivity.
Qed.

Lemma length_transpose_axes {P : Type} (f1 f2 f3 : P -> vec3) (l : list P) :
  length (Geodetic.transpose_axes
            [Geodetic.components (map f1 l); Geodetic.components (map f2 l);
             Geodetic.components (map f3 l)])
  = length l.
Proof.
  unfold Geodetic.transpose_axes. cbn [length hd Geodetic.components].
  rewrite length_map, length_seq, !length_map. reflexivity.
Qed.

Lemma nth_error_lt {X : Type} (l : list X) (i : nat) (x : X) :
  nth_error l i = Some x -> i < length l.
Proof. intros H. apply nth_error_Some. congruence. Qed.

Lemma bnth_nth {X : Type} (a : list X) (i : nat) (d : X) :
  i < length a -> Geodetic.bnth a i d = nth i a d.
Proof.
  intros H. unfold Geodetic.bnth.
  destruct (Nat.eqb_spec (length a) 1) as [E|_]; [|reflexivity].
  replace i with 0 by lia. reflexivity.
Qed.

Lemma uniform_length_rows {X : Type} (l : list (list X)) (n : nat) :
  l <> [] -> Forall (fun r => length r = n) l -> Geodetic.uniform_length l = Some n.
Proof.
  intros Hne Hall. destruct l as [|r rest]; [congruence|].
  inversion Hall as [|? ? Hr Hrest]; subst. unfold Geodetic.uniform_length.
  replace (forallb (fun s => length s =? length r) rest) with true; [reflexivity|].
  symmetry. apply forallb_forall. intros s Hs. apply Nat.eqb_eq.
  rewrite Forall_forall in Hrest. apply Hrest. exact Hs.
Qed.

Lemma concat_nonempty {X : Type} (l : list (list X)) (n : nat) :
  l <> [] -> 0 < n -> Forall (fun r => length r = n) l -> concat l <> [].
Proof.
  intros Hne Hn Hall. destruct l as [|r rest]; [congruence|].
  inversion Hall; subst. destruct r; [simpl in Hn; lia|discriminate].
Qed.

Lemma Forall_concat {X : Type} (P : X -> Prop) (l : list (list X)) :
  Forall (Forall P) l -> Forall P (concat l).
Proof.
  induction l as [|r l IH]; intros H; [constructor|].
  inversion H; subst. cbn [concat]. apply Forall_app. split; auto.
Qed.

Lemma cell_inv {X : Type} (arr : list (list X)) (p i : nat) (x : X) :
  cell arr p i = Some x ->
  exists row, nth_error arr p = Some row /\ nth_error row i = Some x.
Proof.
  unfold cell. destruct (nth_error arr p) as [row|]; [|discriminate]. eauto.
Qed.

Lemma cell_map {X Y : Type} (F : list X -> list Y) (arr : list (list X)) (p i : nat)
  (row : list X) (y : Y) :
  nth_error arr p = Some row -> nth_error (F row) i = Some y ->
  cell (map F arr) p i = Some y.
Proof.
  intros Hp Hi. unfold cell. rewrite nth_error_map, Hp. exact Hi.
Qed.

Lemma vector_shape_rows (np nb : nat) (V : list (list vec)) :
  vector_shape np nb V -> 0 < np -> 0 < nb ->
  Geodetic.uniform_length V = Some nb /\
  Geodetic.uniform_length (concat V) = Some 3.
Proof.
  intros [L H] Hnp Hnb.
  assert (Hne : V <> []) by (destruct V; [simpl in L; lia|discriminate]).
  split.
  - apply uniform_length_rows; [exact Hne|].
    eapply Forall_impl; [|exact H]. cbn beta. tauto.
  - apply uniform_length_rows.
    + apply (concat_nonempty V nb Hne Hnb).
      eapply Forall_impl; [|exact H]. cbn beta. tauto.
    + apply Forall_concat. eapply Forall_impl; [|exact H]. cbn beta. tauto.
Qed.

Lemma einsum_ijk_ik_cells (R : list mat) (V : list (list vec)) (np nb : nat) :
  0 < np -> 0 < nb -> length R = nb -> vector_shape np nb V ->
  exists out,
    Geodetic.einsum_ijk_ik R V = Ok out /\ vector_shape np nb out /\
    forall p i v, cell V p i = Some v ->
                  cell out p i = Some (apply_matrix (nth i R []) v).
Proof.
  intros Hnp Hnb LR HV. destruct (vector_shape_rows _ _ _ HV Hnp Hnb) as [U1 U2].
  unfold Geodetic.einsum_ijk_ik. rewrite U1, U2, LR. unfold bdim.
  rewrite Nat.eqb_refl. cbn [Nat.eqb].
  eexists. split; [reflexivity|]. destruct HV as [L HV]. split.
  - split; [rewrite length_map; exact L|].
    apply Forall_forall. intros row Hrow. apply in_map_iff in Hrow as (Vt & <- & _).
    split; [rewrite length_map, length_seq; reflexivity|].
    apply Forall_forall. intros v Hv. apply in_map_iff in Hv as (i & <- & _).
    reflexivity.
  - intros p i v Hc. destruct (cell_inv _ _ _ _ Hc) as (Vt & Hp & Hi).
    rewrite Forall_forall in HV.
    destruct (HV Vt (nth_error_In _ _ Hp)) as [LVt Hv3].
    assert (Hil : i < nb) by (rewrite <- LVt; exact (nth_error_lt _ _ _ Hi)).
    assert (Lv : length v = 3).
    { rewrite Forall_forall in Hv3. apply Hv3. eapply nth_error_In; eassumption. }
    eapply cell_map; [exact Hp|]. rewrite nth_error_map_seq by exact Hil.
    f_equal. unfold apply_matrix. unfold vec, mat in *.
    rewrite (bnth_nth R) by lia.
    rewrite (bnth_nth Vt) by (unfold vec, mat in *; lia).
    rewrite (nth_error_nth _ _ [] Hi).
    apply map_ext. intros j. f_equal. apply map_ext_in. intros k Hk.
    apply in_seq in Hk. rewrite (bnth_nth v) by (unfold vec, mat in *; lia).
    reflexivity.
Qed.

Lemma flat_map_ext_seq {Y : Type} (f g : nat -> list Y) (n : nat) :
  (forall k, k < n -> f k = g k) -> flat_map f (seq 0 n) = flat_map g (seq 0 n).
Proof.
  intros H. rewrite !flat_map_concat_map. f_equal. apply map_ext_in.
  intros k Hk. apply in_seq in Hk. apply H. lia.
Qed.

Lemma is_shape_inv (r c : nat) (M : mat) :
  is_shape r c M = true -> length M = r /\ Forall (fun row => length row = c) M.
Proof.
  unfold is_shape. intros H. apply andb_true_iff in H as [H1 H2].
  apply Nat.eqb_eq in H1. split; [exact H1|].
  apply Forall_forall. intros row Hrow. apply Nat.eqb_eq.
  rewrite forallb_forall in H2. apply H2. exact Hrow.
Qed.

Lemma matrix_shape_rows (np nb : nat) (S : list (list mat)) :
  matrix_shape np nb S -> 0 < np -> 0 < nb ->
  Geodetic.uniform_length S = Some nb /\
  Geodetic.uniform_length (concat S) = Some 3 /\
  Geodetic.uniform_length (concat (concat S)) = Some 3.
Proof.
  intros [L H] Hnp Hnb.
  assert (Hne : S <> []) by (destruct S; [simpl in L; lia|discriminate]).
  assert (H1 : Forall (fun r => length r = nb) S).
  { eapply Forall_impl; [|exact H]. cbn beta. tauto. }
  assert (H2 : Forall (fun M : mat => length M = 3) (concat S)).
  { apply Forall_concat. eapply Forall_impl; [|exact H]. cbn beta.
    intros row [_ Hrow]. eapply Forall_impl; [|exact Hrow]. cbn beta.
    intros M HM. apply (is_shape_inv 3 3 M HM). }
  assert (Hne2 : concat S <> []) by (apply (concat_nonempty S nb Hne Hnb H1)).
  split; [apply uniform_length_rows; assumption|].
  split; [apply uniform_length_rows; assumption|].
  apply uniform_length_rows.
  - apply (concat_nonempty (concat S) 3 Hne2); [lia|exact H2].
  - apply Forall_concat. apply Forall_concat.
    eapply Forall_impl; [|exact H]. cbn beta.
    intros row [_ Hrow]. eapply Forall_impl; [|exact Hrow]. cbn beta.
    intros M HM. apply (is_shape_inv 3 3 M HM).
Qed.

Lemma einsum_ijk_ikl_iml_cells (R : list mat) (S : list (list mat)) (np nb : nat) :
  0 < np -> 0 < nb -> length R = nb -> matrix_shape np nb S ->
  exists out,
    Geodetic.einsum_ijk_ikl_iml R S = Ok out /\ matrix_shape np nb out /\
    forall p i M, cell S p i = Some M ->
                  cell out p i = Some (apply_matrix2 (nth i R []) M).
Proof.
  intros Hnp Hnb LR HS.
  destruct (matrix_shape_rows _ _ _ HS Hnp Hnb) as (U1 & U2 & U3).
  unfold Geodetic.einsum_ijk_ikl_iml. rewrite U1, U2, U3, LR. unfold bdim.
  rewrite Nat.eqb_refl. cbn [Nat.eqb].
  eexists. split; [reflexivity|]. destruct HS as [L HS]. split.
  - split; [rewrite length_map; exact L|].
    apply Forall_forall. intros row Hrow. apply in_map_iff in Hrow as (St & <- & _).
    split; [rewrite length_map, length_seq; reflexivity|].
    apply Forall_forall. intros M HM. apply in_map_iff in HM as (i & <- & _).
    reflexivity.
  - intros p i M Hc. destruct (cell_inv _ _ _ _ Hc) as (St & Hp & Hi).
    rewrite Forall_forall in HS.
    destruct (HS St (nth_error_In _ _ Hp)) as [LSt HM3].
    assert (Hil : i < nb) by (rewrite <- LSt; exact (nth_error_lt _ _ _ Hi)).
    assert (HM : is_shape 3 3 M = true).
    { rewrite Forall_forall in HM3. apply HM3. eapply nth_error_In; eassumption. }
    apply is_shape_inv in HM as [LM HMr]. rewrite Forall_forall in HMr.
    eapply cell_map; [exact Hp|]. rewrite nth_error_map_seq by exact Hil.
    f_equal. unfold apply_matrix2. unfold vec, mat in *.
    rewrite (bnth_nth R) by lia. rewrite (bnth_nth St) by lia.
    rewrite (nth_error_nth _ _ [] Hi).
    apply map_ext. intros j. apply map_ext. intros m. f_equal.
    apply flat_map_ext_seq. intros k Hk.
    apply map_ext_in. intros l Hl. apply in_seq in Hl.
    rewrite (bnth_nth M) by lia.
    rewrite (bnth_nth (nth k M [])) by (rewrite (HMr (nth k M [])); [lia|apply nth_In; lia]).
    reflexivity.
Qed.

Lemma apply_matrix_combination (a1 a2 a3 : vec3) (c1 c2 c3 : float) :
  apply_matrix (columns a1 a2 a3) [c1; c2; c3] = combination a1 a2 a3 c1 c2 c3.
Proof.
  destruct a1 as [[x1 y1] z1], a2 as [[x2 y2] z2], a3 as [[x3 y3] z3]. reflexivity.
Qed.

Lemma apply_matrix2_triple_product (a1 a2 a3 : vec3) (S : mat) :
  is_shape 3 3 S = true ->
  apply_matrix2 (columns a1 a2 a3) S
  = triple_product (columns a1 a2 a3) S (transpose (columns a1 a2 a3)).
Proof.
  intros HS. apply is_shape_inv in HS as [L HS].
  destruct S as [|r0 [|r1 [|r2 [|]]]]; try discriminate.
  inversion HS as [|? ? H0 HS1]; subst. inversion HS1 as [|? ? H1 HS2]; subst.
  inversion HS2 as [|? ? H2 _]; subst.
  destruct r0 as [|s00 [|s01 [|s02 [|]]]]; try discriminate.
  destruct r1 as [|s10 [|s11 [|s12 [|]]]]; try discriminate.
  destruct r2 as [|s20 [|s21 [|s22 [|]]]]; try discriminate.
  destruct a1 as [[x1 y1] z1], a2 as [[x2 y2] z2], a3 as [[x3 y3] z3]. reflexivity.
Qed.

(** What [compute_geodetic_output] returns, cell by cell. *)
Lemma geodetic_output_cells (apex : Geodetic.ApexOut)
  (bin_mlat bin_mlon : vec) (V : Vectors) (np nb : nat) :
  0 < np -> 0 < nb -> length bin_mlat = nb -> length bin_mlon = nb ->
  vector_shape np nb (Velocity V) ->
  matrix_shape np nb (VelocityCovariance V) ->
  vector_shape np nb (ElectricField V) ->
  matrix_shape np nb (ElectricFieldCovariance V) ->
  exists out,
    Geodetic.compute_geodetic_output apex bin_mlat bin_mlon V = Ok out /\
    Geodetic.gdalt out = repeat 200%float nb /\
    length (Geodetic.gdlat out) = nb /\ length (Geodetic.gdlon out) = nb /\
    (forall p i c1 c2 c3,
        cell (Velocity V) p i = Some [c1; c2; c3] ->
        let '(_, (e1, e2, e3)) := basis_at apex bin_mlat bin_mlon i in
        cell (Geodetic.Velocity_gd out) p i = Some (combination e1 e2 e3 c1 c2 c3) /\
        cell (Geodetic.Vgd_mag out) p i
        = Some (Geodetic.norm (combination e1 e2 e3 c1 c2 c3))) /\
    (forall p i c1 c2 c3,
        cell (ElectricField V) p i = Some [c1; c2; c3] ->
        let '((d1, d2, d3), _) := basis_at apex bin_mlat bin_mlon i in
        cell (Geodetic.ElectricField_gd out) p i
        = Some (combination d1 d2 d3 c1 c2 c3) /\
        cell (Geodetic.Egd_mag out) p i
        = Some (Geodetic.norm (combination d1 d2 d3 c1 c2 c3))) /\
    (forall p i S,
        cell (VelocityCovariance V) p i = Some S ->
        let '(_, (e1, e2, e3)) := basis_at apex bin_mlat bin_mlon i in
        cell (Geodetic.VelocityCovariance_gd out) p i
        = Some (triple_product (columns e1 e2 e3) S (transpose (columns e1 e2 e3)))) /\
    (forall p i S,
        cell (ElectricFieldCovariance V) p i = Some S ->
        let '((d1, d2, d3), _) := basis_at apex bin_mlat bin_mlon i in
        cell (Geodetic.ElectricFieldCovariance_gd out) p i
        = Some (triple_product (columns d1 d2 d3) S (transpose (columns d1 d2 d3)))).
Proof.
  intros Hnp Hnb Lla Llo HV HSV HE HSE.
  assert (Hnb0 : nb <> 0) by lia.
  pose proof (broadcast3_bin_points bin_mlat bin_mlon 200%float nb Lla Llo Hnb0) as Epts.
  set (pts := map (fun i => (nth i bin_mlat nan, nth i bin_mlon nan, 200%float))
                  (seq 0 nb)) in *.
  set (b := map (fun '(la, lo, al) => Geodetic.basevectors_apex_pt apex la lo al) pts).
  assert (Lb : length b = nb) by (unfold b, pts; rewrite !length_map, length_seq; reflexivity).
  assert (Hb : forall i, i < nb -> nth i b (basis_at apex bin_mlat bin_mlon 0)
                                   = basis_at apex bin_mlat bin_mlon i).
  { intros i Hi. unfold b, pts. rewrite map_map.
    rewrite nth_map_seq by exact Hi. reflexivity. }
  set (e := Geodetic.transpose_axes
              [Geodetic.components (map (fun x => fst (fst (snd x))) b);
               Geodetic.components (map (fun x => snd (fst (snd x))) b);
               Geodetic.components (map (fun x => snd (snd x)) b)]).
  set (d := Geodetic.transpose_axes
              [Geodetic.components (map (fun x => fst (fst (fst x))) b);
               Geodetic.components (map (fun x => snd (fst (fst x))) b);
               Geodetic.components (map (fun x => snd (fst x)) b)]).
  assert (Le : length e = nb) by (unfold e; rewrite length_transpose_axes; exact Lb).
  assert (Ld : length d = nb) by (unfold d; rewrite length_transpose_axes; exact Lb).
  assert (He : forall i, i < nb ->
             nth i e [] = let '(_, (e1, e2, e3)) := basis_at apex bin_mlat bin_mlon i in
                          columns e1 e2 e3).
  { intros i Hi. unfold e.
    rewrite (transpose_axes_bin _ _ _ b i (basis_at apex bin_mlat bin_mlon 0))
      by (rewrite Lb; exact Hi).
    rewrite (Hb i Hi).
    destruct (basis_at apex bin_mlat bin_mlon i) as [[[d1 d2] d3] [[e1 e2] e3]].
    reflexivity. }
  assert (Hd : forall i, i < nb ->
             nth i d [] = let '((d1, d2, d3), _) := basis_at apex bin_mlat bin_mlon i in
                          columns d1 d2 d3).
  { intros i Hi. unfold d.
    rewrite (transpose_axes_bin _ _ _ b i (basis_at apex bin_mlat bin_mlon 0))
      by (rewrite Lb; exact Hi).
    rewrite (Hb i Hi).
    destruct (basis_at apex bin_mlat bin_mlon i) as [[[d1 d2] d3] [[e1 e2] e3]].
    reflexivity. }
  destruct (einsum_ijk_ik_cells e (Velocity V) np nb Hnp Hnb Le HV)
    as (Vgd & EVgd & SVgd & CVgd).
  destruct (einsum_ijk_ikl_iml_cells e (VelocityCovariance V) np nb Hnp Hnb Le HSV)
    as (SVg & ESVg & SSVg & CSVg).
  destruct (einsum_ijk_ik_cells d (ElectricField V) np nb Hnp Hnb Ld HE)
    as (Egd & EEgd & SEgd & CEgd).
  destruct (einsum_ijk_ikl_iml_cells d (ElectricFieldCovariance V) np nb Hnp Hnb Ld HSE)
    as (SEg & ESEg & SSEg & CSEg).
  eexists. split.
  { unfold Geodetic.compute_geodetic_output. rewrite Epts. cbn [bind].
    fold b. fold e. fold d. rewrite EVgd. cbn [bind]. rewrite ESVg. cbn [bind].
    rewrite EEgd. cbn [bind]. rewrite ESEg. cbn [bind]. reflexivity. }
  cbn [Geodetic.gdalt Geodetic.gdlat Geodetic.gdlon Geodetic.Velocity_gd
       Geodetic.Vgd_mag Geodetic.ElectricField_gd Geodetic.Egd_mag
       Geodetic.VelocityCovariance_gd Geodetic.ElectricFieldCovariance_gd].
  assert (Lpts : length pts = nb) by (unfold pts; rewrite length_map, length_seq; reflexivity).
  assert (Hidx : forall (arr : list (list vec)) p i v,
             vector_shape np nb arr -> cell arr p i = Some v -> i < nb).
  { intros arr p i v [_ Harr] Hc. destruct (cell_inv _ _ _ _ Hc) as (row & Hp & Hi).
    rewrite Forall_forall in Harr. destruct (Harr row (nth_error_In _ _ Hp)) as [Lr _].
    rewrite <- Lr. exact (nth_error_lt _ _ _ Hi). }
  assert (Hidx2 : forall (arr : list (list mat)) p i S,
             matrix_shape np nb arr -> cell arr p i = Some S ->
             i < nb /\ is_shape 3 3 S = true).
  { intros arr p i S [_ Harr] Hc. destruct (cell_inv _ _ _ _ Hc) as (row & Hp & Hi).
    rewrite Forall_forall in Harr. destruct (Harr row (nth_error_In _ _ Hp)) as [Lr HS].
    split; [rewrite <- Lr; exact (nth_error_lt _ _ _ Hi)|].
    rewrite Forall_forall in HS. apply HS. eapply nth_error_In; eassumption. }
  assert (Hmag : forall (arr : list (list vec)) p i v,
             cell arr p i = Some v ->
             cell (map (map Geodetic.norm) arr) p i = Some (Geodetic.norm v)).
  { intros arr p i v Hc. destruct (cell_inv _ _ _ _ Hc) as (row & Hp & Hi).
    eapply cell_map; [exact Hp|]. rewrite nth_error_map, Hi. reflexivity. }
  split; [unfold full; rewrite !length_map, Lpts; reflexivity|].
  split; [rewrite !length_map; exact Lpts|].
  split; [rewrite !length_map; exact Lpts|].
  split; [|split; [|split]].
  - intros p i c1 c2 c3 Hc. pose proof (Hidx _ _ _ _ HV Hc) as Hi.
    pose proof (CVgd p i _ Hc) as Hcell. rewrite (He i Hi) in Hcell.
    destruct (basis_at apex bin_mlat bin_mlon i) as [[[d1 d2] d3] [[e1 e2] e3]].
    rewrite apply_matrix_combination in Hcell.
    split; [exact Hcell|apply Hmag; exact Hcell].
  - intros p i c1 c2 c3 Hc. pose proof (Hidx _ _ _ _ HE Hc) as Hi.
    pose proof (CEgd p i _ Hc) as Hcell. rewrite (Hd i Hi) in Hcell.
    destruct (basis_at apex bin_mlat bin_mlon i) as [[[d1 d2] d3] [[e1 e2] e3]].
    rewrite apply_matrix_combination in Hcell.
    split; [exact Hcell|apply Hmag; exact Hcell].
  - intros p i S Hc. destruct (Hidx2 _ _ _ _ HSV Hc) as [Hi HS].
    pose proof (CSVg p i _ Hc) as Hcell. rewrite (He i Hi) in Hcell.
    destruct (basis_at apex bin_mlat bin_mlon i) as [[[d1 d2] d3] [[e1 e2] e3]].
    rewrite (apply_matrix2_triple_product _ _ _ _ HS) in Hcell. exact Hcell.
  - intros p i S Hc. destruct (Hidx2 _ _ _ _ HSE Hc) as [Hi HS].
    pose proof (CSEg p i _ Hc) as Hcell. rewrite (Hd i Hi) in Hcell.
    destruct (basis_at apex bin_mlat bin_mlon i) as [[[d1 d2] d3] [[e1 e2] e3]].
    rewrite (apply_matrix2_triple_product _ _ _ _ HS) in Hcell. exact Hcell.
Qed.

(** X12. On velocity and field arrays of shape (periods, bins, 3), with
    covariances (periods, bins, 3, 3), and one latitude and one longitude
    per bin, [compute_geodetic_output] raises nothing; the bins are located
    at 200 km; in every cell the geodetic velocity is
    [Ve1 e1 + Ve2 e2 + Ve3 e3] and the geodetic electric field
    [Ed1 d1 + Ed2 d2 + Ed3 d3], with the basis vectors of that bin, each
    magnitude is the root of the sum of the squared components, and each
    covariance is [M S M^T] with [M] the matrix whose columns are those
    basis vectors. *)
Theorem geodetic_output_is_basis_sum (apex : Geodetic.ApexOut)
  (bin_mlat bin_mlon : vec) (V : Vectors) (np nb : nat) :
  0 < np -> 0 < nb -> length bin_mlat = nb -> length bin_mlon = nb ->
  vector_shape np nb (Velocity V) ->
  matrix_shape np nb (VelocityCovariance V) ->
  vector_shape np nb (ElectricField V) ->
  matrix_shape np nb (ElectricFieldCovariance V) ->
  exists out,
    Geodetic.compute_geodetic_output apex bin_mlat bin_mlon V = Ok out /\
    Geodetic.gdalt out = repeat 200%float nb /\
    length (Geodetic.gdlat out) = nb /\ length (Geodetic.gdlon out) = nb /\
    (forall p i c1 c2 c3,
        cell (Velocity V) p i = Some [c1; c2; c3] ->
        let '(_, (e1, e2, e3)) := basis_at apex bin_mlat bin_mlon i in
        cell (Geodetic.Velocity_gd out) p i = Some (combination e1 e2 e3 c1 c2 c3) /\
        cell (Geodetic.Vgd_mag out) p i
        = Some (Geodetic.norm (combination e1 e2 e3 c1 c2 c3))) /\
    (forall p i c1 c2 c3,
        cell (ElectricField V) p i = Some [c1; c2; c3] ->
        let '((d1, d2, d3), _) := basis_at apex bin_mlat bin_mlon i in
        cell (Geodetic.ElectricField_gd out) p i
        = Some (combination d1 d2 d3 c1 c2 c3) /\
        cell (Geodetic.Egd_mag out) p i
        = Some (Geodetic.norm (combination d1 d2 d3 c1 c2 c3))) /\
    (forall p i S,
        cell (VelocityCovariance V) p i = Some S ->
        let '(_, (e1, e2, e3)) := basis_at apex bin_mlat bin_mlon i in
        cell (Geodetic.VelocityCovariance_gd out) p i
        = Some (triple_product (columns e1 e2 e3) S (transpose (columns e1 e2 e3)))) /\
    (forall p i S,
        cell (ElectricFieldCovariance V) p i = Some S ->
        let '((d1, d2, d3), _) := basis_at apex bin_mlat bin_mlon i in
        cell (Geodetic.ElectricFieldCovariance_gd out) p i
        = Some (triple_product (columns d1 d2 d3) S (transpose (columns d1 d2 d3)))).
Proof. apply geodetic_output_cells. Qed.

(** one period, two bins *)
Lemma geodetic_output_is_basis_sum_witness :
  let apex :=
    {| Geodetic.apex2geo_pt := fun la lo al => (la, lo, 0%float);
       Geodetic.basevectors_apex_pt := fun la lo al =>
         (((1, 2, 3), (4, 5, 6), (7, 8, 9)), ((la, 0, 0), (0, lo, 0), (2, 3, al)))%float
    |} in
  let V := {| Velocity := [[[1; 2; 3]; [4; 5; 6]]]%float;
              VelocityCovariance := [[eye3; eye3]];
              ElectricField := [[[1; 0; 0]; [0; 1; 0]]]%float;
              ElectricFieldCovariance := [[eye3; eye3]] |} in
  exists out,
    Geodetic.compute_geodetic_output apex [65; 66]%float [10; 20]%float V = Ok out /\
    Geodetic.gdalt out = repeat 200%float 2 /\
    length (Geodetic.gdlat out) = 2 /\ length (Geodetic.gdlon out) = 2 /\
    (forall p i c1 c2 c3,
        cell (Velocity V) p i = Some [c1; c2; c3] ->
        let '(_, (e1, e2, e3)) := basis_at apex [65; 66]%float [10; 20]%float i in
        cell (Geodetic.Velocity_gd out) p i = Some (combination e1 e2 e3 c1 c2 c3) /\
        cell (Geodetic.Vgd_mag out) p i
        = Some (Geodetic.norm (combination e1 e2 e3 c1 c2 c3))) /\
    (forall p i c1 c2 c3,
        cell (ElectricField V) p i = Some [c1; c2; c3] ->
        let '((d1, d2, d3), _) := basis_at apex [65; 66]%float [10; 20]%float i in
        cell (Geodetic.ElectricField_gd out) p i
        = Some (combination d1 d2 d3 c1 c2 c3) /\
        cell (Geodetic.Egd_mag out) p i
        = Some (Geodetic.norm (combination d1 d2 d3 c1 c2 c3))) /\
    (forall p i S,
        cell (VelocityCovariance V) p i = Some S ->
        let '(_, (e1, e2, e3)) := basis_at apex [65; 66]%float [10; 20]%float i in
        cell (Geodetic.VelocityCovariance_gd out) p i
        = Some (triple_product (columns e1 e2 e3) S (transpose (columns e1 e2 e3)))) /\
    (forall p i S,
        cell (ElectricFieldCovariance V) p i = Some S ->
        let '((d1, d2, d3), _) := basis_at apex [65; 66]%float [10; 20]%float i in
        cell (Geodetic.ElectricFieldCovariance_gd out) p i
        = Some (triple_product (columns d1 d2 d3) S (transpose (columns d1 d2 d3)))).
Proof.
  intros apex V.
  apply (geodetic_output_is_basis_sum apex [65; 66]%float [10; 20]%float V 1 2);
    try lia; try reflexivity;
    (split; [reflexivity|repeat constructor]).
Defined.

Lemma combination_nan (a1 a2 a3 : vec3) : combination a1 a2 a3 nan nan nan = nan3.
Proof.
  destruct a1 as [[x1 y1] z1], a2 as [[x2 y2] z2], a3 as [[x3 y3] z3].
  unfold combination, fsum. cbn [fold_left].
  rewrite !mul_nan_r, !add_nan_r. reflexivity.
Qed.

Lemma columns_nan_covariance (a1 a2 a3 : vec3) :
  triple_product (columns a1 a2 a3) nan33 (transpose (columns a1 a2 a3)) = nan33.
Proof.
  destruct a1 as [[x1 y1] z1], a2 as [[x2 y2] z2], a3 as [[x3 y3] z3].
  unfold triple_product, transpose, columns, nan33, full2, full, fsum.
  cbn [map repeat hd length seq combine flat_map app nth fold_left].
  rewrite !mul_nan_r, !mul_nan_l, !add_nan_r. reflexivity.
Qed.

(** X13. [compute_geodetic_output] keeps the missing cells missing: a cell
    whose velocity (or electric field) is NaN in its three components is NaN
    in the three geodetic components and in the magnitude, and a cell whose
    covariance is NaN throughout has a geodetic covariance that is NaN
    throughout, whatever the basis vectors of the bin. *)
Theorem geodetic_output_keeps_nan (apex : Geodetic.ApexOut)
  (bin_mlat bin_mlon : vec) (V : Vectors) (np nb : nat)
  (out : Geodetic.GeodeticOutput) (p i : nat) :
  0 < np -> 0 < nb -> length bin_mlat = nb -> length bin_mlon = nb ->
  vector_shape np nb (Velocity V) ->
  matrix_shape np nb (VelocityCovariance V) ->
  vector_shape np nb (ElectricField V) ->
  matrix_shape np nb (ElectricFieldCovariance V) ->
  Geodetic.compute_geodetic_output apex bin_mlat bin_mlon V = Ok out ->
  (cell (Velocity V) p i = Some nan3 ->
   cell (Geodetic.Velocity_gd out) p i = Some nan3 /\
   cell (Geodetic.Vgd_mag out) p i = Some nan) /\
  (cell (VelocityCovariance V) p i = Some nan33 ->
   cell (Geodetic.VelocityCovariance_gd out) p i = Some nan33) /\
  (cell (ElectricField V) p i = Some nan3 ->
   cell (Geodetic.ElectricField_gd out) p i = Some nan3 /\
   cell (Geodetic.Egd_mag out) p i = Some nan) /\
  (cell (ElectricFieldCovariance V) p i = Some nan33 ->
   cell (Geodetic.ElectricFieldCovariance_gd out) p i = Some nan33).
Proof.
  intros Hnp Hnb Lla Llo HV HSV HE HSE Hout.
  destruct (geodetic_output_cells apex bin_mlat bin_mlon V np nb
              Hnp Hnb Lla Llo HV HSV HE HSE)
    as (out' & Hout' & _ & _ & _ & CV & CE & CSV & CSE).
  rewrite Hout in Hout'. inversion Hout'; subst out'. clear Hout'.
  assert (Hnorm : Geodetic.norm nan3 = nan) by (vm_compute; reflexivity).
  split; [|split; [|split]].
  - intros Hc. specialize (CV p i nan nan nan Hc).
    destruct (basis_at apex bin_mlat bin_mlon i) as [[[d1 d2] d3] [[e1 e2] e3]].
    rewrite combination_nan, Hnorm in CV. exact CV.
  - intros Hc. specialize (CSV p i nan33 Hc).
    destruct (basis_at apex bin_mlat bin_mlon i) as [[[d1 d2] d3] [[e1 e2] e3]].
    rewrite columns_nan_covariance in CSV. exact CSV.
  - intros Hc. specialize (CE p i nan nan nan Hc).
    destruct (basis_at apex bin_mlat bin_mlon i) as [[[d1 d2] d3] [[e1 e2] e3]].
    rewrite combination_nan, Hnorm in CE. exact CE.
  - intros Hc. specialize (CSE p i nan33 Hc).
    destruct (basis_at apex bin_mlat bin_mlon i) as [[[d1 d2] d3] [[e1 e2] e3]].
    rewrite columns_nan_covariance in CSE. exact CSE.
Qed.

(** one period, two bins, the second one missing *)
Lemma geodetic_output_keeps_nan_witness :
  let apex :=
    {| Geodetic.apex2geo_pt := fun la lo al => (la, lo, 0%float);
       Geodetic.basevectors_apex_pt := fun la lo al =>
         (((1, 2, 3), (4, 5, 6), (7, 8, 9)), ((la, 0, 0), (0, lo, 0), (2, 3, al)))%float
    |} in
  let V := {| Velocity := [[[1; 2; 3]%float; nan3]];
              VelocityCovariance := [[eye3; nan33]];
              ElectricField := [[[1; 0; 0]%float; nan3]];
              ElectricFieldCovariance := [[eye3; nan33]] |} in
  exists out,
    Geodetic.compute_geodetic_output apex [65; 66]%float [10; 20]%float V = Ok out /\
    cell (Geodetic.Velocity_gd out) 0 0 = Some [71; 29; 600]%float /\
    (cell (Geodetic.Velocity_gd out) 0 1 = Some nan3 /\
     cell (Geodetic.Vgd_mag out) 0 1 = Some nan) /\
    cell (Geodetic.VelocityCovariance_gd out) 0 1 = Some nan33 /\
    (cell (Geodetic.ElectricField_gd out) 0 1 = Some nan3 /\
     cell (Geodetic.Egd_mag out) 0 1 = Some nan) /\
    cell (Geodetic.ElectricFieldCovariance_gd out) 0 1 = Some nan33.
Proof.
  intros apex V.
  destruct (Geodetic.compute_geodetic_output apex [65; 66]%float [10; 20]%float V)
    as [out|e] eqn:Hout; [|vm_compute in Hout; discriminate Hout].
  exists out. split; [reflexivity|].
  split; [vm_compute in Hout; inversion Hout; reflexivity|].
  destruct (geodetic_output_keeps_nan apex [65; 66]%float [10; 20]%float V 1 2 out 0 1)
    as (H1 & H2 & H3 & H4);
    try lia; try reflexivity; try exact Hout;
    try (split; [reflexivity|repeat constructor]).
  split; [apply H1; reflexivity|]. split; [apply H2; reflexivity|].
  split; [apply H3; reflexivity|apply H4; reflexivity].
Defined.

(** ** [compute_vectors] without an integration time *)

(** X14. Without an integration time (the option absent, or zero)
    [get_integration_periods] keeps the periods of the file and makes one
    index per record, and at the cell of record [t] and bin [bidx]
    [compute_vectors] hands to [vvels] one measurement per gate of the bin,
    in the order of [bidx]: entry [i] of the velocities, of the errors and of
    the k-vectors all belong to gate [bidx[i]], and the k-vectors are not
    repeated. *)
Theorem cell_inputs_of_one_record (it : option float) (time : list (float * float))
  (vlos dvlos A : mat) (t : nat) (bidx : list nat) (v dv : vec) (Ab : mat) :
  truthy_float it = false ->
  cell_inputs it vlos dvlos A (Record_ t) bidx = Ok (v, dv, Ab) ->
  get_integration_periods it time = (time, map Record_ (seq 0 (length time))) /\
  length v = length bidx /\ length dv = length bidx /\ length Ab = length bidx /\
  forall i g, nth_error bidx i = Some g ->
              exists (x dx : float) (k : vec),
                getitem2 vlos t g = Ok x /\ nth_error v i = Some x /\
                getitem2 dvlos t g = Ok dx /\ nth_error dv i = Some dx /\
                nth_error A g = Some k /\ nth_error Ab i = Some k.
Proof.
  intros Hit H. split.
  { unfold get_integration_periods. destruct it as [T|]; [|reflexivity].
    rewrite Hit. reflexivity. }
  unfold cell_inputs in H. rewrite Hit in H.
  bind_inv H v0 Ev. bind_inv H dv0 Edv. bind_inv H Ab0 EA.
  inversion H; subst v0 dv0 Ab0. clear H.
  cbn [take_los] in Ev, Edv. unfold take_rows in EA.
  destruct (mapM_ok _ _ _ Ev) as [Lv Hv].
  destruct (mapM_ok _ _ _ Edv) as [Ldv Hdv].
  destruct (mapM_ok _ _ _ EA) as [LA HA].
  split; [exact Lv|]. split; [exact Ldv|]. split; [exact LA|].
  intros i g Hg.
  destruct (Hv i g Hg) as (x & Hx & Ex).
  destruct (Hdv i g Hg) as (dx & Hdx & Edx).
  destruct (HA i g Hg) as (k & Hk & Ek).
  exists x, dx, k. repeat split; try assumption.
  unfold of_option in Ek. destruct (nth_error A g) as [k0|]; [inversion Ek; reflexivity|discriminate].
Qed.

(** two records, three gates; the bin holds gates 2 and 0 *)
Lemma cell_inputs_of_one_record_witness :
  let vlos := [[1; 2; 3]; [4; 5; 6]]%float in
  let dvlos := [[10; 20; 30]; [40; 50; 60]]%float in
  let A := [[1; 0; 0]; [0; 1; 0]; [0; 0; 1]]%float in
  let time := [(0, 30); (30, 60)]%float in
  truthy_float (Some 0%float) = false /\
  cell_inputs (Some 0%float) vlos dvlos A (Record_ 1) [2; 0]
  = Ok ([6; 4]%float, [60; 40]%float, [[0; 0; 1]; [1; 0; 0]]%float) /\
  get_integration_periods (Some 0%float) time = (time, [Record_ 0; Record_ 1]) /\
  length [6; 4]%float = 2 /\ length [60; 40]%float = 2 /\
  length [[0; 0; 1]; [1; 0; 0]]%float = 2 /\
  forall i g, nth_error [2; 0] i = Some g ->
              exists (x dx : float) (k : vec),
                getitem2 vlos 1 g = Ok x /\ nth_error [6; 4]%float i = Some x /\
                getitem2 dvlos 1 g = Ok dx /\ nth_error [60; 40]%float i = Some dx /\
                nth_error A g = Some k /\
                nth_error [[0; 0; 1]; [1; 0; 0]]%float i = Some k.
Proof.
  intros vlos dvlos A time.
  assert (Hit : truthy_float (Some 0%float) = false) by reflexivity.
  assert (Hc : cell_inputs (Some 0%float) vlos dvlos A (Record_ 1) [2; 0]
               = Ok ([6; 4]%float, [60; 40]%float, [[0; 0; 1]; [1; 0; 0]]%float))
    by (vm_compute; reflexivity).
  split; [exact Hit|]. split; [exact Hc|].
  exact (cell_inputs_of_one_record (Some 0%float) time vlos dvlos A 1 [2; 0] _ _ _
           Hit Hc).
Defined.

(** ** From the outflow correction to the vectors *)

Lemma count_finite_all_nan (v : vec) :
  Forall (fun x => x = nan) v -> count_finite v = 0.
Proof.
  unfold count_finite. induction 1 as [|x v Hx _ IH]; [reflexivity|].
  subst x. cbn [filter]. change (isfinite nan) with false. exact IH.
Qed.

Lemma getitem2_nan_row (M : mat) (t g : nat) (row : vec) (x : float) :
  nth_error M t = Some row -> nth_error row g = Some nan ->
  getitem2 M t g = Ok x -> x = nan.
Proof.
  intros Hr Hg H. unfold getitem2 in H. rewrite Hr in H. cbn [of_option bind] in H.
  rewrite Hg in H. cbn [of_option] in H. inversion H. reflexivity.
Qed.

Lemma take_los_all_nan (M : mat) (nt : nat) (it : option float) (tidx : tindex)
  (bidx : list nat) (v : vec) :
  (forall t g, t < nt -> In g bidx ->
               exists row, nth_error M t = Some row /\ nth_error row g = Some nan) ->
  valid_tindex it nt tidx ->
  take_los M tidx bidx = Ok v ->
  Forall (fun x => x = nan) v.
Proof.
  intros HM Hval H. apply Forall_forall. intros x Hx.
  apply In_nth_error in Hx. destruct Hx as [i Hi].
  destruct tidx as [t|ts].
  - destruct Hval as [_ Ht]. cbn [take_los] in H.
    destruct (mapM_ok _ _ _ H) as [L Hent].
    assert (Hlt : i < length bidx).
    { rewrite <- L. apply nth_error_Some. congruence. }
    destruct (nth_error bidx i) as [g|] eqn:Hg; [|apply nth_error_None in Hg; lia].
    destruct (Hent i g Hg) as (y & Hvi & Hy).
    assert (y = x) by congruence. subst y.
    destruct (HM t g Ht) as (row & Hrow & Hnan).
    { eapply nth_error_In. exact Hg. }
    exact (getitem2_nan_row _ _ _ _ _ Hrow Hnan Hy).
  - destruct Hval as [_ Hts]. rewrite Forall_forall in Hts.
    destruct (take_los_records _ _ _ _ H) as [L Hent].
    assert (Hlt : i < length bidx * length ts).
    { rewrite <- L. apply nth_error_Some. congruence. }
    destruct (Hent i Hlt) as (g & t & y & Hg & Ht & Hy & Hvi).
    assert (y = x) by congruence. subst y.
    destruct (HM t g) as (row & Hrow & Hnan).
    { apply Hts. eapply nth_error_In. exact Ht. }
    { eapply nth_error_In. exact Hg. }
    exact (getitem2_nan_row _ _ _ _ _ Hrow Hnan Hy).
Qed.

(** X15. When the ion outflow correction has run, a bin all of whose gates
    lie outside the altitude range of the up-B beam gets no vector: with
    [minnumpoints >= 1] its velocity, electric field and their covariances
    are NaN at every period made of corrected records. *)
Theorem bin_outside_upB_range_is_nan (apex : Apex) (beam : option Z) (ntime : nat)
  (alt D : vec) (A : mat) (upB : UpB) (vlos dvlos vlos' dvlos' : mat)
  (it : option float) (covar : vec) (minnumpoints : Z) (int_idx : list tindex)
  (bin_idx : list (list nat)) (bin_mlat bin_mlon : vec) (out : Vectors)
  (p b : nat) (tidx : tindex) (bidx : list nat) :
  truthy_int beam = true ->
  length D = length alt -> length A = length alt ->
  rows_of (length alt) vlos -> rows_of (length alt) dvlos ->
  ion_outflow_correction beam ntime alt D A upB vlos dvlos = Ok (vlos', dvlos') ->
  compute_vectors apex it covar minnumpoints vlos' dvlos' A int_idx bin_idx
                  bin_mlat bin_mlon = Ok out ->
  nth_error int_idx p = Some tidx -> nth_error bin_idx b = Some bidx ->
  valid_tindex it ntime tidx ->
  Forall (fun g => exists ag, nth_error alt g = Some ag /\
                              out_of_range ag (upB_alt upB) = true) bidx ->
  (1 <= minnumpoints)%Z ->
  cell (Velocity out) p b = Some nan3 /\
  cell (VelocityCovariance out) p b = Some nan33 /\
  cell (ElectricField out) p b = Some nan3 /\
  cell (ElectricFieldCovariance out) p b = Some nan33.
Proof.
  intros Hb HD HA Hv Hdv Hcor H Hp Hbin Hval Hout Hm.
  unfold ion_outflow_correction in Hcor. rewrite Hb in Hcor.
  destruct (outflow_loop_spec alt D A upB HD HA (seq 0 ntime) vlos dvlos vlos' dvlos'
              (seq_NoDup ntime 0) Hv Hdv Hcor) as (_ & _ & _ & Hnan).
  destruct (compute_vectors_cell _ _ _ _ _ _ _ _ _ _ _ _ p b tidx bidx H Hp Hbin)
    as (v & dv & Ab & V & S & Vp & Sp & Hin & Hvv & HVp & HV & HSp & HS).
  assert (Hlt : (Z.of_nat (count_finite v) < minnumpoints)%Z).
  { unfold cell_inputs in Hin. bind_inv Hin v1 E1. bind_inv Hin dv1 E2.
    bind_inv Hin Ab1 E3. inversion Hin; subst v1 dv1 Ab1.
    rewrite (count_finite_all_nan v); [lia|].
    apply (take_los_all_nan vlos' ntime it tidx bidx v); [|exact Hval|exact E1].
    intros t g Ht Hg. rewrite Forall_forall in Hout.
    destruct (Hout g Hg) as (ag & Hag & Hrange).
    destruct (Hnan t) as (rv & rdv & Hrv & _ & Nrv & _); [apply in_seq; lia|].
    exists rv. split; [exact Hrv|exact (Nrv g ag Hag Hrange)]. }
  pose proof (vvels_few_points _ _ _ _ _ _ Hvv Hlt) as HV0.
  inversion HV0; subst V S. clear HV0.
  destruct (compute_vectors_fields _ _ _ _ _ _ _ _ _ _ _ _ H) as (pts & _ & HE & HSE).
  cbv zeta in HE, HSE.
  destruct (electric_field_cell _ _ _ p b Vp nan3 HE HVp HV)
    as (be & Et & _ & HEt & HEb).
  destruct (electric_field_covariance_cell _ _ _ p b Sp nan33 HSE HSp HS)
    as (be' & SEt & _ & HSEt & HSEb).
  unfold cell. rewrite HVp, HSp, HEt, HSEt.
  rewrite rotated_nan in HEb. rewrite rotated_nan_covariance in HSEb.
  repeat split; assumption.
Qed.

(** up-B altitudes 100 to 300; the gates at 50 and 400 make the first bin,
    the gate at 150 the second *)
Lemma bin_outside_upB_range_is_nan_witness :
  let upB := {| upB_alt := [100; 200; 300]%float; upB_vlos := [[1; 2; 3]]%float;
                upB_dvlos := [[0.1; 0.1; 0.1]]%float |} in
  let alt := [50; 150; 400]%float in
  let A := [[0; 0; 1]; [0; 0; 1]; [0; 0; 1]]%float in
  exists vlos' dvlos' out,
    ion_outflow_correction (Some 64157%Z) 1 alt [1; 1; 1]%float A upB
                           [[10; 20; 30]]%float [[1; 1; 1]]%float
    = Ok (vlos', dvlos') /\
    compute_vectors (example_apex 0) None [1e6; 1e6; 1e6]%float 1 vlos' dvlos' A
                    [Record_ 0] [[0; 2]; [1]] [65; 66]%float [10; 10]%float
    = Ok out /\
    cell (Velocity out) 0 0 = Some nan3 /\
    cell (VelocityCovariance out) 0 0 = Some nan33 /\
    cell (ElectricField out) 0 0 = Some nan3 /\
    cell (ElectricFieldCovariance out) 0 0 = Some nan33.
Proof.
  intros upB alt A.
  destruct (ion_outflow_correction (Some 64157%Z) 1 alt [1; 1; 1]%float A upB
              [[10; 20; 30]]%float [[1; 1; 1]]%float) as [[vlos' dvlos']|e] eqn:Hcor;
    [|vm_compute in Hcor; discriminate Hcor].
  destruct (compute_vectors (example_apex 0) None [1e6; 1e6; 1e6]%float 1 vlos' dvlos' A
              [Record_ 0] [[0; 2]; [1]] [65; 66]%float [10; 10]%float)
    as [out|e] eqn:Hcv;
    [|vm_compute in Hcor; inversion Hcor; subst vlos' dvlos';
      vm_compute in Hcv; discriminate Hcv].
  exists vlos', dvlos', out. split; [reflexivity|]. split; [exact Hcv|].
  apply (bin_outside_upB_range_is_nan (example_apex 0) (Some 64157%Z) 1 alt
           [1; 1; 1]%float A upB [[10; 20; 30]]%float [[1; 1; 1]]%float vlos' dvlos'
           None [1e6; 1e6; 1e6]%float 1 [Record_ 0] [[0; 2]; [1]] [65; 66]%float
           [10; 10]%float out 0 0 (Record_ 0) [0; 2]);
    try reflexivity; try assumption.
  - repeat constructor.
  - repeat constructor.
  - split; [reflexivity|lia].
  - repeat constructor; eexists; (split; [reflexivity|vm_compute; reflexivity]).
Defined.

(** ** The difference of two distinct floats is not zero *)

Lemma digits2_pos_iter_xO (k m : positive) :
  digits2_pos (Pos.iter xO m k) = (digits2_pos m + k)%positive.
Proof.
  induction k as [|k IH] using Pos.peano_ind.
  - cbn [Pos.iter digits2_pos]. lia.
  - rewrite Pos.iter_succ. cbn [digits2_pos]. rewrite IH. lia.
Qed.

Lemma digits2_pos_lower (m : positive) :
  (2 ^ (Z.pos (digits2_pos m) - 1) <= Z.pos m)%Z.
Proof.
  induction m as [m IH|m IH|]; cbn [digits2_pos].
  - rewrite Pos2Z.inj_succ.
    replace (Z.succ (Z.pos (digits2_pos m)) - 1)%Z
      with (Z.succ (Z.pos (digits2_pos m) - 1))%Z by lia.
    rewrite Z.pow_succ_r by lia. lia.
  - rewrite Pos2Z.inj_succ.
    replace (Z.succ (Z.pos (digits2_pos m)) - 1)%Z
      with (Z.succ (Z.pos (digits2_pos m) - 1))%Z by lia.
    rewrite Z.pow_succ_r by lia. lia.
  - reflexivity.
Qed.

Lemma shr_1_m (mrs : shr_record) :
  (0 <= shr_m mrs)%Z -> shr_m (shr_1 mrs) = (shr_m mrs / 2)%Z.
Proof.
  destruct mrs as [m r s]. cbn [shr_m]. intros Hm.
  rewrite <- Z.div2_div.
  destruct m as [|[p|p|]|p]; try reflexivity. lia.
Qed.

Lemma iter_shr_1_m (p : positive) :
  forall mrs, (0 <= shr_m mrs)%Z ->
              shr_m (SpecFloat.iter_pos shr_1 p mrs) = (shr_m mrs / 2 ^ Z.pos p)%Z.
Proof.
  induction p as [p IH|p IH|]; intros mrs Hm; cbn [SpecFloat.iter_pos].
  - assert (H1 : (0 <= shr_m (shr_1 mrs))%Z)
      by (rewrite shr_1_m by exact Hm; apply Z.div_pos; lia).
    assert (H2 : (0 <= shr_m (SpecFloat.iter_pos shr_1 p (shr_1 mrs)))%Z)
      by (rewrite IH by exact H1; apply Z.div_pos; lia).
    rewrite IH by exact H2. rewrite IH by exact H1. rewrite shr_1_m by exact Hm.
    rewrite !Z.div_div by lia. f_equal.
    rewrite Pos2Z.inj_xI, <- Z.pow_add_r, <- (Z.pow_1_r 2) at 1 by lia.
    rewrite <- Z.pow_add_r by lia. f_equal. lia.
  - assert (H2 : (0 <= shr_m (SpecFloat.iter_pos shr_1 p mrs))%Z)
      by (rewrite IH by exact Hm; apply Z.div_pos; lia).
    rewrite IH by exact H2. rewrite IH by exact Hm.
    rewrite Z.div_div by lia. f_equal.
    rewrite Pos2Z.inj_xO, <- Z.pow_add_r by lia. f_equal. lia.
  - rewrite shr_1_m by exact Hm. reflexivity.
Qed.

Lemma shr_record_of_loc_m (m : Z) (l : location) : shr_m (shr_record_of_loc m l) = m.
Proof. destruct l as [|[]]; reflexivity. Qed.

(** Shifting a positive mantissa to the exponent of the format leaves a
    positive mantissa, as long as the exponent is not below the least one. *)
Lemma shr_fexp_pos (M : positive) (e : Z) (l : location) :
  (SpecFloat.emin prec emax <= e)%Z ->
  (0 < shr_m (fst (shr_fexp prec emax (Z.pos M) e l)))%Z /\
  (SpecFloat.emin prec emax <= snd (shr_fexp prec emax (Z.pos M) e l))%Z.
Proof.
  intros He. unfold shr_fexp, shr.
  destruct (fexp prec emax (Zdigits2 (Z.pos M) + e) - e)%Z as [|p|p] eqn:En;
    cbn [fst snd]; rewrite ?shr_record_of_loc_m; try (split; lia).
  split; [|lia].
  rewrite iter_shr_1_m by (rewrite shr_record_of_loc_m; lia).
  rewrite shr_record_of_loc_m.
  unfold fexp, Zdigits2, SpecFloat.emin, prec, emax in *.
  assert (Hp : Z.pos p = (Z.pos (digits2_pos M) - 53)%Z) by lia.
  pose proof (digits2_pos_lower M) as HM.
  apply Z.div_str_pos. split; [apply Z.pow_pos_nonneg; lia|].
  eapply Z.le_trans; [|exact HM]. apply Z.pow_le_mono_r; lia.
Qed.

Lemma round_nearest_even_pos (m : Z) (l : location) :
  (0 < m)%Z -> (0 < round_nearest_even m l)%Z.
Proof.
  intros Hm. destruct l as [|[]]; cbn [round_nearest_even]; try lia.
  destruct (Z.even m); lia.
Qed.

Lemma binary_round_aux_pos (s : bool) (M : positive) (e : Z) (l : location) :
  (SpecFloat.emin prec emax <= e)%Z ->
  nonzero_number (binary_round_aux prec emax s (Z.pos M) e l).
Proof.
  intros He. unfold binary_round_aux.
  destruct (shr_fexp_pos M e l He) as [H1 H2].
  destruct (shr_fexp prec emax (Z.pos M) e l) as [mrs' e'] eqn:E1. cbn [fst snd] in *.
  pose proof (round_nearest_even_pos (shr_m mrs') (loc_of_shr_record mrs') H1) as H3.
  destruct (round_nearest_even (shr_m mrs') (loc_of_shr_record mrs')) as [|M'|M'] eqn:E2;
    try lia.
  destruct (shr_fexp_pos M' e' loc_Exact H2) as [H4 H5].
  destruct (shr_fexp prec emax (Z.pos M') e' loc_Exact) as [mrs'' e''] eqn:E3.
  cbn [fst snd] in *.
  destruct (shr_m mrs'') as [|m|m]; try lia.
  destruct (e'' <=? emax - prec)%Z; exact I.
Qed.

Lemma binary_round_pos (s : bool) (M : positive) (e : Z) :
  (SpecFloat.emin prec emax <= e)%Z -> nonzero_number (binary_round prec emax s M e).
Proof.
  intros He. unfold binary_round, shl_align.
  destruct (fexp prec emax (Z.pos (digits2_pos M) + e) - e)%Z as [|p|p] eqn:En;
    apply binary_round_aux_pos; try exact He.
  unfold fexp. lia.
Qed.

Lemma bounded_digits (m : positive) (e : Z) :
  bounded prec emax m e = true ->
  (SpecFloat.emin prec emax <= e)%Z /\ (Z.pos (digits2_pos m) <= prec)%Z /\
  ((SpecFloat.emin prec emax < e)%Z -> Z.pos (digits2_pos m) = prec).
Proof.
  unfold bounded, canonical_mantissa. intros H.
  apply andb_true_iff in H as [H _]. apply Z.eqb_eq in H.
  unfold fexp, SpecFloat.emin, prec, emax in *. lia.
Qed.

Lemma SFsub_finite_nonzero (sb sa : bool) (mb ma : positive) (eb ea : Z) :
  bounded prec emax mb eb = true -> bounded prec emax ma ea = true ->
  SFcompare (S754_finite sb mb eb) (S754_finite sa ma ea) <> Some Eq ->
  nonzero_number (SFsub prec emax (S754_finite sb mb eb) (S754_finite sa ma ea)).
Proof.
  intros Hb Ha Hc.
  destruct (bounded_digits _ _ Hb) as (Eb & Db & Db').
  destruct (bounded_digits _ _ Ha) as (Ea & Da & Da').
  cbn [SFsub]. cbv zeta.
  set (Mb := fst (shl_align mb eb (Z.min eb ea))).
  set (Ma := fst (shl_align ma ea (Z.min eb ea))).
  assert (Hne : Mb <> Ma \/ sb <> sa).
  { destruct (Bool.bool_dec sb sa) as [Es|Es]; [left|right; exact Es]. subst sa.
    unfold Mb, Ma, shl_align. intros Heq.
    destruct (Z.compare_spec eb ea) as [Ee|Ee|Ee].
    - subst ea. rewrite Z.min_id, Z.sub_diag in Heq. cbn [fst] in Heq. subst ma.
      apply Hc. cbn [SFcompare]. rewrite Z.compare_refl.
      rewrite Pos.compare_cont_refl. destruct sb; reflexivity.
    - rewrite Z.min_l in Heq by lia. rewrite Z.sub_diag in Heq.
      destruct (eb - ea)%Z as [|d|d] eqn:Ed; try lia. cbn [fst] in Heq.
      pose proof (digits2_pos_iter_xO d ma) as Hd. rewrite <- Heq in Hd.
      specialize (Da' ltac:(lia)). lia.
    - rewrite Z.min_r in Heq by lia. rewrite Z.sub_diag in Heq.
      destruct (ea - eb)%Z as [|d|d] eqn:Ed; try lia. cbn [fst] in Heq.
      pose proof (digits2_pos_iter_xO d mb) as Hd. rewrite Heq in Hd.
      specialize (Db' ltac:(lia)). lia. }
  assert (Hez : (SpecFloat.emin prec emax <= Z.min eb ea)%Z) by lia.
  unfold binary_normalize.
  destruct (cond_Zopp sb (Z.pos Mb) - cond_Zopp sa (Z.pos Ma))%Z as [|N|N] eqn:EN.
  - exfalso. destruct Hne as [Hne|Hne].
    + destruct sb, sa; cbn [cond_Zopp] in EN; try lia;
        apply Hne; lia.
    + destruct sb, sa; cbn [cond_Zopp] in EN; try lia; congruence.
  - apply binary_round_pos. exact Hez.
  - apply binary_round_pos. exact Hez.
Qed.

(** The difference of two floats of which the first is finite and less than
    the second is neither zero nor NaN: gradual underflow. *)
Lemma sub_nonzero (a b : float) :
  (a <? b)%float = true -> isfinite a = true -> nonzero_number (Prim2SF (b - a)).
Proof.
  intros Hlt Ha. rewrite sub_spec. unfold SF64sub.
  rewrite FloatAxioms.ltb_spec in Hlt. unfold SFltb in Hlt.
  assert (Hc : SFcompare (Prim2SF b) (Prim2SF a) <> Some Eq).
  { intros Hc. rewrite (SFcompare_antisym (Prim2SF b) (Prim2SF a)), Hc in Hlt.
    discriminate. }
  pose proof (Prim2SF_valid a) as Va. pose proof (Prim2SF_valid b) as Vb.
  destruct (finite_cases a Ha) as [sa [Ea|(ma & ea & Ea)]]; rewrite Ea in *;
    destruct (Prim2SF b) as [sb|sb| |sb mb eb] eqn:Eb;
    try (apply SFsub_finite_nonzero; [exact Vb|exact Va|exact Hc]);
    cbn [SFcompare] in Hlt; try discriminate; try exact I.
Qed.

(** ** [lin_interp] at a knot *)

Lemma sub_diag_finite (a : float) : isfinite a = true -> zero_like (a - a)%float.
Proof.
  intros Ha. unfold zero_like. rewrite sub_spec. unfold SF64sub.
  destruct (finite_cases a Ha) as [s [E|(m & e & E)]]; rewrite E.
  - destruct s; cbn [SFsub]; eauto.
  - cbn [SFsub]. cbv zeta. rewrite Z.sub_diag. cbn [binary_normalize]. eauto.
Qed.

Lemma div_zero_nonzero (z d : float) :
  zero_like z -> nonzero_number (Prim2SF d) -> zero_like (z / d)%float.
Proof.
  intros [s Ez] Hd. unfold zero_like. rewrite div_spec, Ez. unfold SF64div.
  destruct (Prim2SF d) as [sd|sd| |sd md ed]; cbn [nonzero_number] in Hd;
    try contradiction; cbn [SFdiv]; eauto.
Qed.

Lemma one_minus_zero (z : float) : zero_like z -> (1 - z)%float = 1%float.
Proof.
  intros [s Ez]. apply Prim2SF_inj. rewrite sub_spec, Ez. reflexivity.
Qed.

Lemma sq_zero (z : float) : zero_like z -> sq z = 0%float.
Proof.
  intros [s Ez]. apply Prim2SF_inj. unfold sq. rewrite mul_spec, Ez.
  destruct s; reflexivity.
Qed.

Lemma mul_finite_zero (c z : float) :
  isfinite c = true -> zero_like z -> zero_like (c * z)%float.
Proof.
  intros Hc [sz Ez]. destruct (finite_cases c Hc) as [s [E|(m & e & E)]];
    unfold zero_like; rewrite mul_spec, Ez, E; simpl; eauto.
Qed.

Lemma mul_one_l (x : float) : (1 * x)%float = x.
Proof.
  apply Prim2SF_inj. rewrite mul_spec.
  pose proof (Prim2SF_valid x) as Hv.
  change (Prim2SF 1) with (S754_finite false 4503599627370496 (-52)).
  destruct (Prim2SF x) as [s|s| |s m e].
  - destruct s; reflexivity.
  - destruct s; reflexivity.
  - reflexivity.
  - unfold SF64mul. cbn [SFmul]. rewrite Pos.mul_comm, Z.add_comm.
    rewrite round_times_one by exact Hv. destruct s; reflexivity.
Qed.

(** a square is never a negative zero *)
Lemma sq_not_negative_zero (d : float) : Prim2SF (sq d) <> S754_zero true.
Proof.
  unfold sq. rewrite mul_spec. unfold SF64mul.
  destruct (Prim2SF d) as [s|s| |s m e]; cbn [SFmul].
  - destruct s; discriminate.
  - destruct s; discriminate.
  - discriminate.
  - unfold binary_round_aux.
    destruct (shr_fexp _ _ _ _ _) as [mrs' e'].
    destruct (shr_fexp _ _ _ _ _) as [mrs'' e''].
    destruct (shr_m mrs'') as [|p|p]; [|destruct (_ <=? _)%Z|];
      destruct s; discriminate.
Qed.

Lemma zero_times_square (d : float) :
  isfinite (sq d) = true -> (0 * sq d)%float = 0%float.
Proof.
  intros H. apply Prim2SF_inj. rewrite mul_spec.
  pose proof (sq_not_negative_zero d) as Hs.
  change (Prim2SF 0) with (S754_zero false).
  destruct (finite_cases _ H) as [s [E|(m & e & E)]]; rewrite E in *.
  - destruct s; [congruence|reflexivity].
  - revert E. unfold sq. rewrite mul_spec. unfold SF64mul.
    destruct (Prim2SF d) as [sd|sd| |sd md ed]; cbn [SFmul]; try discriminate.
    unfold binary_round_aux.
    destruct (shr_fexp _ _ _ _ _) as [mrs' e'].
    destruct (shr_fexp _ _ _ _ _) as [mrs'' e''].
    destruct (shr_m mrs'') as [|p|p]; [|destruct (_ <=? _)%Z|]; try discriminate.
    intros E. inversion E; subst. destruct sd; reflexivity.
Qed.

Lemma square_plus_zero (d : float) : (sq d + 0)%float = sq d.
Proof.
  apply Prim2SF_inj. rewrite add_spec.
  pose proof (sq_not_negative_zero d) as Hs.
  change (Prim2SF 0) with (S754_zero false).
  destruct (Prim2SF (sq d)) as [s|s| |s m e]; try reflexivity.
  destruct s; [congruence|reflexivity].
Qed.

Lemma leb_refl (a : float) : is_nan a = false -> (a <=? a)%float = true.
Proof. intros H. apply ltb_false_leb; try exact H. apply ltb_irrefl. Qed.

Lemma first_true_at (mask : list bool) :
  forall (k : nat) (z : Z),
    nth_error mask k = Some true ->
    (forall i, i < k -> nth_error mask i = Some false) ->
    first_true mask z = Ok (z + Z.of_nat k)%Z.
Proof.
  induction mask as [|b mask IH]; intros k z Hk Hlt; [destruct k; discriminate|].
  destruct k as [|k].
  - inversion Hk; subst. cbn [first_true]. f_equal. lia.
  - pose proof (Hlt 0 ltac:(lia)) as H0. inversion H0; subst. cbn [first_true].
    rewrite (IH k (z + 1)%Z Hk); [f_equal; lia|].
    intros i Hi. exact (Hlt (S i) ltac:(lia)).
Qed.

(** On increasing knots the bracket of a knot that is not the last is its
    own index. *)
Lemma bound_index_at_knot (xp : vec) (k : nat) :
  increasing xp -> S k < length xp ->
  bound_index (nth k xp nan) xp = Ok (Z.of_nat k).
Proof.
  intros Hinc Hk.
  assert (Hne : xp <> []) by (intros ->; simpl in Hk; lia).
  set (a := nth k xp nan).
  assert (Hab : (a <? nth (S k) xp nan)%float = true)
    by (apply increasing_nth_lt; [exact Hinc|lia]).
  assert (Hnan : is_nan a = false) by exact (ltb_not_nan_l _ _ Hab).
  rewrite (bound_index_increasing _ _ Hinc Hne).
  assert (Hin : within a xp = true).
  { unfold within. apply andb_true_iff. split.
    - replace (hd nan xp) with (nth 0 xp nan) by (destruct xp; reflexivity).
      destruct k as [|k]; [apply leb_refl; exact Hnan|].
      apply ltb_leb. apply increasing_nth_lt; [exact Hinc|lia].
    - replace (last xp nan) with (nth (length xp - 1) xp nan).
      + destruct (Nat.eq_dec (S k) (length xp - 1)) as [E|E];
          [rewrite <- E; exact Hab|].
        apply increasing_nth_lt; [exact Hinc|lia].
      + clear. induction xp as [|c l IH]; [reflexivity|].
        destruct l as [|c' l']; [reflexivity|].
        change (last (c :: c' :: l') nan) with (last (c' :: l') nan).
        rewrite <- IH. cbn [length].
        replace (S (S (length l')) - 1) with (S (length l')) by lia.
        replace (S (length l') - 1) with (length l') by lia. reflexivity. }
  rewrite Hin.
  rewrite (first_true_at (brackets a xp) k 0%Z); [reflexivity| |].
  - destruct (nth_error (brackets a xp) k) as [c|] eqn:E.
    + destruct (nth_error_brackets _ _ _ _ E) as (a' & b' & Ha' & Hb' & Hc).
      rewrite (nth_error_nth_some xp k nan) in Ha' by lia.
      rewrite (nth_error_nth_some xp (S k) nan) in Hb' by lia.
      inversion Ha'; inversion Hb'; subst a' b'.
      fold a in Hc. rewrite (leb_refl a Hnan), Hab in Hc. subst c. reflexivity.
    + apply nth_error_None in E. rewrite length_brackets in E. lia.
  - intros i Hi.
    destruct (nth_error (brackets a xp) i) as [c|] eqn:E.
    + destruct (nth_error_brackets _ _ _ _ E) as (a' & b' & Ha' & Hb' & Hc).
      rewrite (nth_error_nth_some xp (S i) nan) in Hb' by lia.
      inversion Hb'; subst b'.
      assert (Hf : (a <? nth (S i) xp nan)%float = false).
      { destruct (Nat.eq_dec (S i) k) as [Ek|Ek].
        - rewrite Ek. apply ltb_irrefl.
        - destruct (a <? nth (S i) xp nan)%float eqn:Ef; [|reflexivity].
          assert (Hlt : (nth (S i) xp nan <? a)%float = true)
            by (apply increasing_nth_lt; [exact Hinc|lia]).
          pose proof (ltb_trans _ _ _ Ef Hlt) as Hirr.
          rewrite ltb_irrefl in Hirr. discriminate. }
      rewrite Hf, andb_false_r in Hc. subst c. reflexivity.
    + apply nth_error_None in E. rewrite length_brackets in E. lia.
Qed.

(** X16. On increasing up-B altitudes a target that is itself one of the
    altitudes, other than the last, gets the velocity tabulated there (up to
    the sign of a zero) and the error [sqrt(dfp[k]^2)]: the neighbour above
    contributes nothing, provided the difference of the two velocities and
    the square of the neighbour's error do not overflow. *)
Theorem lin_interp_at_a_knot (x xp fp dfp : vec) (j k : nat)
  (a fa fb da db : float) :
  increasing xp -> length fp = length xp -> length dfp = length xp ->
  nth_error x j = Some a ->
  nth_error xp k = Some a -> S k < length xp ->
  nth_error fp k = Some fa -> nth_error fp (S k) = Some fb ->
  nth_error dfp k = Some da -> nth_error dfp (S k) = Some db ->
  isfinite a = true -> isfinite (fb - fa)%float = true -> isfinite (sq db) = true ->
  exists f df y,
    lin_interp x xp fp dfp = Ok (f, df) /\
    nth_error f j = Some y /\ same_value y fa /\
    nth_error df j = Some (sqrt (sq da)).
Proof.
  intros Hinc Hf Hd Hj Hk HSk Hfa Hfb Hda Hdb Fa Ffb Fdb.
  assert (Hne : xp <> []) by (intros ->; simpl in HSk; lia).
  assert (Hx : x <> []) by (intros ->; destruct j; discriminate).
  destruct (lin_interp_returns x xp fp dfp Hx Hf Hd) as (f & df & H).
  { apply Forall_forall. intros xi _.
    rewrite (bound_index_increasing _ _ Hinc Hne).
    destruct (within xi xp) eqn:E; [|reflexivity].
    destruct (first_true_exists _ 0%Z (bracket_exists _ _ Hinc E)) as [k' Hk'].
    rewrite Hk'. reflexivity. }
  destruct (lin_interp_at _ _ _ _ _ _ j a H Hj) as (i & r & Hi & Hr & Hfj & Hdfj).
  assert (Ea : a = nth k xp nan) by (symmetry; apply nth_error_nth; exact Hk).
  rewrite Ea in Hi at 1. rewrite (bound_index_at_knot xp k Hinc HSk) in Hi.
  inversion Hi; subst i. clear Hi.
  unfold interp_point in Hr.
  bind_inv Hr a' E1. bind_inv Hr b E2. bind_inv Hr fa' E3. bind_inv Hr fb' E4.
  bind_inv Hr da' E5. bind_inv Hr db' E6.
  apply getitem_nat in E1, E3, E5. apply getitem_succ in E2, E4, E6.
  assert (a' = a) by congruence. assert (fa' = fa) by congruence.
  assert (fb' = fb) by congruence. assert (da' = da) by congruence.
  assert (db' = db) by congruence. subst a' fa' fb' da' db'.
  destruct (Z.ltb_spec (Z.of_nat k) 0) as [Hneg|_]; [lia|].
  inversion Hr; subst r. cbn [fst snd] in *. clear Hr.
  assert (Hab : (a <? b)%float = true).
  { rewrite Ea. replace b with (nth (S k) xp nan) by (apply nth_error_nth; exact E2).
    apply increasing_nth_lt; [exact Hinc|lia]. }
  set (X := ((a - a) / (b - a))%float) in *.
  assert (HX : zero_like X).
  { apply div_zero_nonzero; [apply sub_diag_finite; exact Fa|].
    apply sub_nonzero; assumption. }
  exists f, df, (fa + (fb - fa) * X)%float.
  split; [exact H|]. split; [exact Hfj|]. split.
  - apply add_zero_r_same. apply mul_finite_zero; assumption.
  - rewrite Hdfj. do 2 f_equal.
    rewrite (one_minus_zero X HX), (sq_zero X HX).
    change (sq 1) with 1%float.
    rewrite mul_one_l, (zero_times_square db Fdb). apply square_plus_zero.
Qed.

(** up-B altitudes 100, 200, 300 with velocities 1, 2, 3; the targets are
    the first two altitudes *)
Lemma lin_interp_at_a_knot_witness :
  let xp := [100; 200; 300]%float in
  increasing xp /\ isfinite 200 = true /\
  isfinite (3 - 2)%float = true /\ isfinite (sq 0.25) = true /\
  exists f df y,
    lin_interp [100; 200]%float xp [1; 2; 3]%float [0.5; 0.5; 0.25]%float = Ok (f, df) /\
    nth_error f 1 = Some y /\ same_value y 2 /\
    nth_error df 1 = Some (sqrt (sq 0.5)).
Proof.
  intros xp.
  assert (Hinc : increasing xp) by (repeat split; reflexivity).
  split; [exact Hinc|]. split; [reflexivity|]. split; [reflexivity|].
  split; [reflexivity|].
  apply (lin_interp_at_a_knot [100; 200]%float xp [1; 2; 3]%float
           [0.5; 0.5; 0.25]%float 1 1 200 2 3 0.5 0.25);
    try reflexivity; try exact Hinc.
  simpl. lia.
Defined.

(** * [vvels]: the matrices that [np.linalg.inv] refuses *)

(** ** Elimination on a diagonal matrix *)

Lemma abs_ltb_zero (x z : float) : zero_like z -> (abs x <? abs z)%float = false.
Proof.
  intros [s Ez]. rewrite FloatAxioms.ltb_spec, !abs_spec, Ez. unfold SFltb.
  destruct (Prim2SF x) as [sx|sx| |sx mx ex]; reflexivity.
Qed.

Lemma eqb_zero_number (p : float) : nonzero_number (Prim2SF p) -> (p =? 0)%float = false.
Proof.
  intros H. rewrite FloatAxioms.eqb_spec. change (Prim2SF 0) with (S754_zero false).
  unfold SFeqb. destruct (Prim2SF p) as [s|s| |s m e]; cbn [nonzero_number] in H;
    try contradiction; destruct s; reflexivity.
Qed.

Lemma mul_zero_zero (a b : float) : zero_like a -> zero_like b -> zero_like (a * b)%float.
Proof.
  intros [sa Ea] [sb Eb]. unfold zero_like. rewrite mul_spec, Ea, Eb.
  cbn. eauto.
Qed.

Lemma sub_zero_zero (a b : float) : zero_like a -> zero_like b -> zero_like (a - b)%float.
Proof.
  intros [sa Ea] [sb Eb]. unfold zero_like. rewrite sub_spec, Ea, Eb.
  destruct sa, sb; cbn; eauto.
Qed.

Lemma sub_zero_number (x z : float) :
  nonzero_number (Prim2SF x) -> zero_like z -> (x - z)%float = x.
Proof.
  intros Hx [s Ez]. apply Prim2SF_inj. rewrite sub_spec, Ez.
  destruct (Prim2SF x) as [sx|sx| |sx mx ex]; cbn [nonzero_number] in Hx;
    try contradiction; reflexivity.
Qed.

Lemma number_cases (x : float) :
  isnan x = false -> zero_like x \/ nonzero_number (Prim2SF x).
Proof.
  intros H. destruct (Prim2SF x) as [s|s| |s m e] eqn:E.
  - left. exists s. exact E.
  - right. exact I.
  - apply is_nan_spec in E. unfold isnan in H. congruence.
  - right. exact I.
Qed.

(** the pivot search stays at the first row when the other rows hold a zero
    in the column *)
Lemma argmax_abs_first (c : nat) (x : float) (rs : list vec) :
  Forall (fun r => zero_like (nth c r 0%float)) rs ->
  forall i best, argmax_abs c rs i best (abs x) = best.
Proof.
  induction 1 as [|r rs Hr _ IH]; intros i best; cbn [argmax_abs]; [reflexivity|].
  rewrite (abs_ltb_zero x _ Hr). apply IH.
Qed.

Section Diagonal.

Variable d : vec.
Variable k : nat.
Hypothesis Hk : k < length d.
Hypothesis Hzero : zero_like (nth k d 0%float).
Hypothesis Hbefore : forall j, j < k -> nonzero_number (Prim2SF (nth j d 0%float)).

Lemma reduced_start : reduced d k 0 (augment (diagflat d)).
Proof.
  unfold reduced, augment. cbv zeta. rewrite !length_diagflat, Nat.sub_0_r.
  assert (HL : length (zip_with (fun i r => r ++ map (fun j => if i =? j then 1%float
                                                             else 0%float)
                                                    (seq 0 (length d)))
                         (seq 0 (length d)) (diagflat d)) = length d).
  { rewrite length_zip_with_min, length_seq, length_diagflat. lia. }
  split; [exact HL|]. intros i Hi.
  rewrite (@nth_zip_with nat (list float) (list float) _ _ _ i 0 [] [])
    by (rewrite ?length_seq, ?length_diagflat; exact Hi).
  rewrite seq_nth by exact Hi. cbn [Nat.add].
  unfold diagflat.
  rewrite (@nth_map_lt nat (list float) _ _ i 0 []) by (rewrite length_seq; exact Hi).
  rewrite seq_nth by exact Hi. cbn [Nat.add].
  split.
  - rewrite length_app, !length_map, !length_seq. lia.
  - intros j Hj.
    rewrite app_nth1 by (rewrite length_map, length_seq; lia).
    rewrite (@nth_map_lt nat float _ _ j 0 0%float) by (rewrite length_seq; lia).
    rewrite seq_nth by lia. cbn [Nat.add].
    destruct (Nat.eqb_spec i j) as [E|E].
    + subst j. split; [intros; lia|]. split; [reflexivity|].
      intros _ ->. exact Hzero.
    + split; [intros; apply zero_like_zero|]. split; intros; lia.
Qed.

Lemma reduced_cons (c : nat) (todo : list vec) :
  c <= k -> reduced d k c todo ->
  exists r0 rs, todo = r0 :: rs /\
                Forall (fun r => zero_like (nth c r 0%float)) rs.
Proof.
  intros Hc [HL Hrows]. destruct todo as [|r0 rs]; [simpl in HL; lia|].
  exists r0, rs. split; [reflexivity|]. apply Forall_forall. intros r Hr.
  apply (In_nth _ _ []) in Hr. destruct Hr as (i & Hi & <-).
  cbn [length] in HL. unfold vec in *.
  destruct (Hrows (S i) ltac:(lia)) as [_ H]. cbn [nth] in H.
  destruct (H c ltac:(lia)) as (Hz & _ & _). apply Hz. lia.
Qed.

Lemma gj_step_reduced (c : nat) (done todo : list vec) :
  c < k -> reduced d k c todo ->
  exists done' todo', gj_step c (done, todo) = Ok (done', todo') /\ reduced d k (S c) todo'.
Proof.
  intros Hc Hred.
  destruct (reduced_cons c todo ltac:(lia) Hred) as (r0 & rs & -> & Hcol).
  destruct Hred as [HL Hrows]. cbn [length] in HL.
  destruct (Hrows 0 ltac:(lia)) as [L0 H0]. cbn [nth] in L0, H0.
  destruct (H0 c ltac:(lia)) as (_ & Hp & _).
  specialize (Hp ltac:(lia) Hc).
  pose proof (Hbefore c Hc) as Hnum. rewrite <- Hp in Hnum.
  unfold gj_step. rewrite (argmax_abs_first c _ rs Hcol). cbn [nth firstn skipn app].
  rewrite (eqb_zero_number _ Hnum).
  eexists. eexists. split; [reflexivity|].
  set (p := nth c r0 0%float) in *.
  set (prow := map (fun x => (x / p)%float) r0).
  set (elim := fun r : vec => zip_with (fun x y => (x - nth c r 0 * y)%float) r prow).
  unfold reduced. rewrite length_map. unfold vec in *. split; [lia|]. intros i Hi.
  assert (En : nth i (map elim rs) [] = elim (nth i rs []))
    by exact (map_nth elim rs [] i).
  rewrite En. clear En.
  destruct (Hrows (S i) ltac:(lia)) as [Li Hi']. cbn [nth] in Li, Hi'.
  set (r := nth i rs []) in *.
  assert (Lp : length prow = length r0) by (unfold prow; apply length_map).
  split.
  - unfold elim. rewrite length_zip_with_min, Lp. lia.
  - intros j Hj.
    assert (E : nth j (elim r) 0%float
                = (nth j r 0 - nth c r 0 * (nth j r0 0 / p))%float).
    { unfold elim. rewrite (nth_zip_with _ _ _ j 0%float 0%float) by lia.
      unfold prow. rewrite (nth_map_lt _ _ j 0%float) by lia. reflexivity. }
    rewrite E.
    assert (Hz : zero_like (nth c r 0 * (nth j r0 0 / p))%float).
    { apply mul_zero_zero.
      - destruct (Hi' c ltac:(lia)) as (Hz & _ & _). apply Hz. lia.
      - apply div_zero_nonzero; [|exact Hnum].
        destruct (H0 j ltac:(lia)) as (Hz & _ & _). apply Hz. lia. }
    destruct (Hi' j ltac:(lia)) as (Ha & Hb & Hc').
    repeat split.
    + intros Hne. apply sub_zero_zero; [apply Ha; lia|exact Hz].
    + intros He Hlt. rewrite sub_zero_number; [apply Hb; lia| |exact Hz].
      rewrite Hb by lia. apply Hbefore. exact Hlt.
    + intros He Hek. apply sub_zero_zero; [apply Hc'; lia|exact Hz].
Qed.

Lemma gj_step_zero_pivot (done todo : list vec) :
  reduced d k k todo -> gj_step k (done, todo) = Raise LinAlgError.
Proof.
  intros Hred.
  destruct (reduced_cons k todo (Nat.le_refl k) Hred) as (r0 & rs & -> & Hcol).
  destruct Hred as [HL Hrows]. cbn [length] in HL.
  destruct (Hrows 0 ltac:(lia)) as [_ H0]. cbn [nth] in H0.
  destruct (H0 k ltac:(lia)) as (_ & _ & Hp).
  specialize (Hp ltac:(lia) eq_refl). apply is_zero_spec in Hp. unfold is_zero in Hp.
  unfold gj_step. rewrite (argmax_abs_first k _ rs Hcol). cbn [nth].
  rewrite Hp. reflexivity.
Qed.

Lemma gj_fold_reduced (m : nat) :
  forall (c : nat) (done todo : list vec),
    c + m = k -> reduced d k c todo ->
    exists done' todo',
      fold_left (fun acc c' => st <- acc ;; gj_step c' st) (seq c m) (Ok (done, todo))
      = Ok (done', todo') /\ reduced d k k todo'.
Proof.
  induction m as [|m IH]; intros c done todo Hc Hred.
  - assert (Ec : c = k) by lia. subst c. exists done, todo.
    split; [reflexivity|exact Hred].
  - destruct (gj_step_reduced c done todo ltac:(lia) Hred) as (done1 & todo1 & E & Hred1).
    cbn [seq fold_left bind]. rewrite E.
    apply IH; [lia|exact Hred1].
Qed.

Lemma inv_zero_on_diagonal : inv (diagflat d) = Raise LinAlgError.
Proof.
  unfold inv. destruct (forallb _ (diagflat d)); [|reflexivity].
  rewrite length_diagflat. unfold gauss_jordan.
  replace (length d) with (k + S (length d - S k)) by lia.
  rewrite seq_app, fold_left_app.
  destruct (gj_fold_reduced k 0 [] (augment (diagflat d)) eq_refl reduced_start)
    as (done' & todo' & E & Hred).
  rewrite E. cbn [Nat.add seq fold_left bind].
  rewrite (gj_step_zero_pivot done' todo' Hred).
  rewrite gj_fold_raised. reflexivity.
Qed.

End Diagonal.

(** the first zero of a diagonal has nonzero numbers before it *)
Lemma first_zero (d : vec) :
  zero_on_diagonal d ->
  exists k, k < length d /\ zero_like (nth k d 0%float) /\
            forall j, j < k -> nonzero_number (Prim2SF (nth j d 0%float)).
Proof.
  intros (k & Hk & Hz & Hb). revert Hk Hz Hb.
  induction k as [k IH] using lt_wf_ind. intros Hk Hz Hb.
  assert (Hdec : (forall j, j < k -> is_zero (nth j d nan) = false) \/
                 (exists j, j < k /\ is_zero (nth j d nan) = true)).
  { clear. induction k as [|k [IHk|(j & Hj & Ej)]].
    - left. intros j Hj. lia.
    - destruct (is_zero (nth k d nan)) eqn:E.
      + right. exists k. split; [lia|exact E].
      + left. intros j Hj. destruct (Nat.eq_dec j k) as [->|Hne]; [exact E|].
        apply IHk. lia.
    - right. exists j. split; [lia|exact Ej]. }
  destruct Hdec as [Hnz|(j & Hj & Ej)].
  - exists k. split; [exact Hk|]. split.
    + rewrite (nth_indep d 0%float nan) by exact Hk. apply is_zero_spec. exact Hz.
    + intros j Hj. rewrite (nth_indep d 0%float nan) by lia.
      destruct (number_cases _ (Hb j Hj)) as [Hzj|Hn]; [|exact Hn].
      apply is_zero_spec in Hzj. rewrite (Hnz j Hj) in Hzj. discriminate.
  - apply (IH j Hj); [lia|exact Ej|]. intros j' Hj'. apply Hb. lia.
Qed.

(** [np.linalg.inv] refuses the diagonal matrix of a diagonal that holds an
    exact zero with no NaN before it. *)
Lemma inv_diagflat_zero (d : vec) :
  zero_on_diagonal d -> inv (diagflat d) = Raise LinAlgError.
Proof.
  intros H. destruct (first_zero d H) as (k & Hk & Hz & Hb).
  exact (inv_zero_on_diagonal d k Hk Hz Hb).
Qed.

Lemma vvels_try_zero_on_diagonal (v dv : vec) (Af : mat) (cov : vec) :
  zero_on_diagonal (map (fun d => (d * d)%float) dv) \/ zero_on_diagonal cov ->
  exists e, vvels_try v dv Af (diagflat (map (fun d => (d * d)%float) dv)) (diagflat cov)
            = Raise e.
Proof.
  intros H. unfold vvels_try.
  destruct (inv (madd _ _)) as [I0|e]; cbn [bind]; [|eauto].
  destruct H as [H|H].
  - rewrite (inv_diagflat_zero _ H). cbn [bind]. eauto.
  - destruct (inv (diagflat (map _ dv))) as [iE|e]; cbn [bind]; [|eauto].
    rewrite (inv_diagflat_zero _ H). cbn [bind]. eauto.
Qed.

(** An exactly singular matrix is not always refused: for the parallel
    k-vectors (17,0,0) and (25,0,0) with errors 1e-10 and a unit prior,
    [A SigmaV A^T + SigmaE] rounds to [[289,425],[425,625]], of determinant
    zero, yet elimination meets no pivot that is exactly zero and the
    velocity is finite. *)
Lemma vvels_singular_matrix_not_refused :
  let A := [[17; 0; 0]; [25; 0; 0]]%float in
  madd (einsum_jk_kl_ml A (diagflat [1; 1; 1]%float) A)
       (diagflat (map (fun d => (d * d)%float) [1e-10; 1e-10]%float))
  = [[289; 425]; [425; 625]]%float /\
  (289 * 625 - 425 * 425 = 0)%float /\
  is_ok (inv [[289; 425]; [425; 625]]%float) = true /\
  exists S, vvels [1; 1]%float [1e-10; 1e-10]%float A [1; 1; 1]%float 1
            = Ok ([0.0625; 0; 0]%float, S).
Proof.
  cbv zeta. split; [vm_compute; reflexivity|]. split; [reflexivity|].
  split; [vm_compute; reflexivity|]. eexists. vm_compute. reflexivity.
Qed.

(** C2, amended. For inputs of consistent shapes [vvels] raises nothing,
    whatever the rank of the k-vectors.  It returns NaN(3) and NaN(3x3)
    whenever the error of a finite measurement, squared, or a variance of
    the prior is exactly zero with no NaN before it: [SigmaE], or [SigmaV],
    then has a pivot column that is exactly zero, which [np.linalg.inv]
    refuses. *)
Theorem vvels_singular_is_nan (vlos dvlos : vec) (A : mat) (cov : vec)
  (minnumpoints : Z) :
  shapes_ok vlos dvlos A cov ->
  (exists VS, vvels vlos dvlos A cov minnumpoints = Ok VS) /\
  (let '(v, dv, Af) := finite_part vlos dvlos A in
   zero_on_diagonal (map (fun d => (d * d)%float) dv) \/ zero_on_diagonal cov ->
   vvels vlos dvlos A cov minnumpoints = Ok (nan3, nan33)).
Proof.
  intros Hs. pose proof (vvels_shapes_ok _ _ _ _ minnumpoints Hs) as H.
  destruct (finite_part vlos dvlos A) as [[v dv] Af].
  rewrite H. split.
  - destruct (_ <? _)%Z; [eexists; reflexivity|].
    destruct (vvels_try _ _ _ _ _); eexists; reflexivity.
  - intros Hz. destruct (vvels_try_zero_on_diagonal v dv Af cov Hz) as [e ->].
    destruct (_ <? _)%Z; reflexivity.
Qed.

(** two measurements along one direction: the second one without error, or
    a prior without variance in its second component *)
Lemma vvels_singular_is_nan_witness :
  let A := [[1; 0; 0]; [1; 0; 0]]%float in
  (shapes_ok [1; 1]%float [0.5; 0]%float A [1; 1; 1]%float
   /\ zero_on_diagonal (map (fun d => (d * d)%float) [0.5; 0]%float)
   /\ vvels [1; 1]%float [0.5; 0]%float A [1; 1; 1]%float 1 = Ok (nan3, nan33)) /\
  (shapes_ok [1; 1]%float [0.5; 0.5]%float A [1; 0; 1]%float
   /\ zero_on_diagonal [1; 0; 1]%float
   /\ vvels [1; 1]%float [0.5; 0.5]%float A [1; 0; 1]%float 1 = Ok (nan3, nan33)).
Proof.
  intros A.
  assert (Hz1 : zero_on_diagonal (map (fun d => (d * d)%float) [0.5; 0]%float)).
  { exists 1. split; [simpl; lia|]. split; [reflexivity|].
    intros j Hj. assert (j = 0) by lia. subst j. reflexivity. }
  assert (Hz2 : zero_on_diagonal [1; 0; 1]%float).
  { exists 1. split; [simpl; lia|]. split; [reflexivity|].
    intros j Hj. assert (j = 0) by lia. subst j. reflexivity. }
  assert (Hs1 : shapes_ok [1; 1]%float [0.5; 0]%float A [1; 1; 1]%float)
    by (repeat split; repeat constructor).
  assert (Hs2 : shapes_ok [1; 1]%float [0.5; 0.5]%float A [1; 0; 1]%float)
    by (repeat split; repeat constructor).
  split.
  - split; [exact Hs1|]. split; [exact Hz1|].
    exact (proj2 (vvels_singular_is_nan _ _ _ _ 1%Z Hs1) (or_introl Hz1)).
  - split; [exact Hs2|]. split; [exact Hz2|].
    exact (proj2 (vvels_singular_is_nan _ _ _ _ 1%Z Hs2) (or_intror Hz2)).
Defined.
